(** * Solana address analysis route: a shallow embedding

    [src/app/api/tools/solana-address-analysis/route.ts] holds two revisions
    of the same handler, one after the other:

    - lines 1-416, the revision without a cache, which ranks related
      accounts by transaction count and keeps the top 25 (module [Legacy]);
    - lines 416-870, the revision with the in-memory result cache, which
      ranks by SOL-equivalent volume and returns every related account
      (module [Route]).

    JavaScript numbers are IEEE 754 binary64 values and are embedded as
    Rocq's primitive [float]; integer-valued quantities that the code only
    counts or compares (millisecond timestamps, interaction counts, sizes)
    are embedded as [Z] or [nat]. *)

From Stdlib Require Import ZArith List String Ascii Bool Lia Floats.
From Stdlib Require Import Permutation Sorted.
Import ListNotations.

Set Warnings "-inexact-float".

Local Open Scope list_scope.
Local Open Scope string_scope.

(** ** Insertion-ordered maps with string keys

    A JavaScript [Map] iterates in insertion order, and [set] on a key that
    is already present keeps the key's position.  Both matter to the code
    (the cleanup pass sorts the entries with a stable sort), so the map is
    an association list with at most one pair per key. *)
Module JsMap.

Section WithValue.
Context {V : Type}.

Definition t := list (string * V).

Definition empty : t := [].

Fixpoint get (k : string) (m : t) : option V :=
  match m with
  | [] => None
  | (k', v) :: rest => if String.eqb k k' then Some v else get k rest
  end.

Definition has (k : string) (m : t) : bool :=
  match get k m with Some _ => true | None => false end.

Fixpoint set (k : string) (v : V) (m : t) : t :=
  match m with
  | [] => [(k, v)]
  | (k', v') :: rest =>
      if String.eqb k k' then (k, v) :: rest else (k', v') :: set k v rest
  end.

Fixpoint delete (k : string) (m : t) : t :=
  match m with
  | [] => []
  | (k', v') :: rest =>
      if String.eqb k k' then rest else (k', v') :: delete k rest
  end.

Definition size (m : t) : nat := List.length m.

Definition keys (m : t) : list string := map fst m.

Definition entries (m : t) : list (string * V) := m.

(** The representation invariant: no key occurs twice. *)
Definition wf (m : t) : Prop := NoDup (keys m).

End WithValue.

Arguments t : clear implicits.

End JsMap.

(** ** Arrays *)
Module JsArray.

Section WithElem.
Context {A : Type}.

(** [Array.prototype.slice(start, end)] for [0 <= start <= end]. *)
Definition slice (start stop : nat) (l : list A) : list A :=
  firstn (stop - start) (skipn start l).

(** [Array.prototype.sort(compareFn)] is a stable sort.  It only looks at
    the sign of [compareFn(a, b)]; [before a b] stands for
    [compareFn(a, b) < 0].  The result of a stable sort is determined by
    the comparator when the comparator is consistent, and the insertion
    sort below computes it: an element moves past exactly the elements
    that come strictly before it. *)
Section Sort.
Variable before : A -> A -> bool.

Fixpoint insert (x : A) (l : list A) : list A :=
  match l with
  | [] => [x]
  | h :: rest => if before h x then h :: insert x rest else x :: h :: rest
  end.

Fixpoint sort (l : list A) : list A :=
  match l with
  | [] => []
  | x :: rest => insert x (sort rest)
  end.

End Sort.

End WithElem.

End JsArray.

(** ** JavaScript numbers *)
Module JsNumber.

Local Open Scope float_scope.

(** [ToBoolean] of a number: false for [+0], [-0] and [NaN]. *)
Definition truthy (x : float) : bool := negb (is_nan x || (x =? 0)).

(** [x || 0] for a number [x]. *)
Definition orZero (x : float) : float := if truthy x then x else 0.

(** [x !== y] for two numbers. *)
Definition strictNe (x y : float) : bool := negb (x =? y).

(** [m.get(k) || 0] for a map of numbers. *)
Definition getOrZero (k : string) (m : JsMap.t float) : float :=
  match JsMap.get k m with
  | Some v => orZero v
  | None => 0
  end.

(** The same for a map of integer counters, where [0 || 0] is [0]. *)
Definition countOrZero (k : string) (m : JsMap.t Z) : Z :=
  match JsMap.get k m with
  | Some v => v
  | None => 0%Z
  end.

(** What the code takes from the JavaScript runtime without defining it.
    [Math.pow] is implementation-approximated, [parseFloat] reads a decimal
    literal, and [Number::toString] is only reached by [toFixed] for
    magnitudes of [1e21] and more.  The messages of the errors the engine
    itself throws are its own. *)
Class Runtime := {
  Math_pow : float -> float -> float;
  parseFloat : string -> float;
  Number_toString : float -> string;
  (** [new Date(ms).toISOString()] for a valid time value [ms] *)
  Date_toISOString : Z -> string;
  (** the message of the [RangeError] of [toISOString] on an invalid date *)
  RangeError_invalidTime : string;
  (** the message of the [TypeError] for reading a member of [null] or
      [undefined], given the rendering of the value and the member's name *)
  TypeError_cannotRead : string -> string -> string
}.

(** *** [Number.prototype.toFixed] *)

Definition digitChar (d : Z) : ascii := ascii_of_nat (48 + Z.to_nat d)%nat.

Fixpoint digitsFuel (fuel : nat) (n : Z) (acc : string) : string :=
  match fuel with
  | O => acc
  | S fuel' =>
      let acc' := String (digitChar (n mod 10)) acc in
      if (n <? 10)%Z then acc' else digitsFuel fuel' (n / 10) acc'
  end.

(** The decimal representation of a non-negative integer, ["0"] for zero. *)
Definition decimalDigits (n : Z) : string :=
  digitsFuel (S (Z.to_nat (Z.log2 n))) n ""%string.

Fixpoint zeros (k : nat) : string :=
  match k with
  | O => ""
  | S k' => String "0" (zeros k')
  end.

(** Step 11 of [toFixed]: [n] printed with [f] digits after the point. *)
Definition fixedPoint (n : Z) (f : nat) : string :=
  let m := decimalDigits n in
  match f with
  | O => m
  | S _ =>
      let k := String.length m in
      let m' := if (k <=? f)%nat then zeros (f + 1 - k) ++ m else m in
      let k' := String.length m' in
      substring 0 (k' - f) m' ++ "." ++ substring (k' - f) f m'
  end.

(** The integer [n] for which [n / 10^f - m * 2^e] is as close to zero as
    possible, the larger one when there are two. *)
Definition scaledRound (m : positive) (e : Z) (f : nat) : Z :=
  let num := (Z.pos m * 10 ^ Z.of_nat f)%Z in
  if (0 <=? e)%Z then (num * 2 ^ e)%Z
  else ((2 * num + 2 ^ (- e)) / 2 ^ (1 - e))%Z.

(** [x.toFixed(f)] for [0 <= f <= 100] (the code passes 0, 2, 3 and 6). *)
Definition toFixed `{Runtime} (x : float) (f : nat) : string :=
  match Prim2SF x with
  | S754_nan => "NaN"
  | S754_infinity s => if s then "-Infinity" else "Infinity"
  | S754_zero _ => fixedPoint 0 f
  | S754_finite s m e =>
      (if s then "-" else "") ++
      (if 1e21 <=? abs x then Number_toString (abs x)
       else fixedPoint (scaledRound m e f) f)
  end.

(** The number of an integer whose magnitude is below [2^63]; the
    conversion is exact below [2^53], which covers millisecond timestamps
    and their differences. *)
Definition ofInteger (z : Z) : float :=
  if (z <? 0)%Z then - of_uint63 (Uint63.of_Z (- z))
  else of_uint63 (Uint63.of_Z z).

(** [Math.round]: the integer closest to [x], the one towards [+Infinity]
    when two are equally close; [-0] for [-0.5 <= x < 0]. *)
Definition Math_round (x : float) : float :=
  match Prim2SF x with
  | S754_finite s m e =>
      if (0 <=? e)%Z then x
      else
        let n := ((2 * cond_Zopp s (Z.pos m) + 2 ^ (- e)) / 2 ^ (1 - e))%Z in
        if (n =? 0)%Z then (if s then -0 else 0) else ofInteger n
  | _ => x
  end.

End JsNumber.

(** ** Strings *)
Module JsString.

(** [hay.includes(needle)] *)
Definition includes (needle hay : string) : bool :=
  match index 0 needle hay with
  | Some _ => true
  | None => false
  end.

(** [ToBoolean] of a string: false for the empty string only. *)
Definition truthy (s : string) : bool :=
  match s with
  | EmptyString => false
  | String _ _ => true
  end.

(** [s || d] *)
Definition orDefault (s d : string) : string := if truthy s then s else d.

Fixpoint splitAux (sep : ascii) (s : string) (cur : string) : list string :=
  match s with
  | EmptyString => [cur]
  | String c rest =>
      if Ascii.eqb c sep then cur :: splitAux sep rest ""
      else splitAux sep rest (cur ++ String c "")
  end.

(** [s.split(sep)] for a one-character separator. *)
Definition split (sep : ascii) (s : string) : list string := splitAux sep s "".

(** [s.replace(pattern, replacement)] for a pattern that is a string and
    a replacement without [$]: the first occurrence is replaced. *)
Definition replace (pattern replacement s : string) : string :=
  match index 0 pattern s with
  | Some i =>
      substring 0 i s ++ replacement
      ++ substring (i + String.length pattern)
           (String.length s - (i + String.length pattern)) s
  | None => s
  end.

End JsString.

(** ** The ledger client ([@solana/web3.js]) and the effects of a run

    [PublicKey], [Connection] and its requests are external to the
    repository.  A run reads the clock, sleeps, and sends requests; the
    model records every request in a log, and lets a response depend on the
    requests made so far. *)
Module Web3.

(** [blockTime?: number | null], in seconds. *)
Record ConfirmedSignatureInfo := {
  signature : string;
  blockTime : option float
}.

Record TokenAmount := {
  amount : string;
  decimals : float;
  uiAmount : option float
}.

(** [owner?: string] is optional. *)
Record TokenBalance := {
  owner : option string;
  mint : string;
  uiTokenAmount : TokenAmount
}.

Record TransactionMeta := {
  preBalances : option (list float);
  postBalances : option (list float);
  preTokenBalances : option (list TokenBalance);
  postTokenBalances : option (list TokenBalance)
}.

(** [accountKeys] stands for [tx.transaction?.message?.accountKeys] with
    each key already rendered by [pubkey.toString()]. *)
Record ParsedTransaction := {
  meta : option TransactionMeta;
  accountKeys : option (list string)
}.

(** A thrown value: an [Error] with its message; [null] or [undefined];
    or another value that is not an [Error], with its [String(...)]
    rendering and, when its [message] member is truthy, the text of that
    member. *)
Inductive Thrown :=
| ErrorObject (message : string)
| Nullish (isNull : bool)
| NonError (rendering : string) (messageMember : option string).

(** [e instanceof Error ? e.message : String(e)] *)
Definition messageOrRendering (e : Thrown) : string :=
  match e with
  | ErrorObject m => m
  | Nullish isNull => if isNull then "null" else "undefined"
  | NonError r _ => r
  end.

(** [e instanceof Error ? e.message : fallback] *)
Definition messageOr (fallback : string) (e : Thrown) : string :=
  match e with
  | ErrorObject m => m
  | Nullish _ | NonError _ _ => fallback
  end.

Inductive RpcCall :=
| GetBalance (addr : string)
| GetSignaturesForAddress (addr : string) (limit : nat)
| GetParsedTransaction (sig : string)
| GetParsedTransactions (sigs : list string).

Class Ledger := {
  (** [new PublicKey(address)] does not throw *)
  isValidPublicKey : string -> bool;
  (** [process.env.HELIUS_RPC_URL] *)
  HELIUS_RPC_URL : option string;
  (** [new Connection(url, 'confirmed')]: [Some] when it throws *)
  newConnection : string -> option Thrown;
  (** the requests, each given the endpoint and the log so far *)
  getBalance : string -> list RpcCall -> string -> Thrown + float;
  getSignaturesForAddress :
    string -> list RpcCall -> string -> nat -> Thrown + list ConfirmedSignatureInfo;
  getParsedTransaction :
    string -> list RpcCall -> string -> Thrown + option ParsedTransaction;
  getParsedTransactions :
    string -> list RpcCall -> list string -> Thrown + list (option ParsedTransaction);
  (** how long the next request takes, in milliseconds *)
  rpcLatency : list RpcCall -> Z
}.

(** The part of the world both revisions act on. *)
Record Net := {
  clock : Z;
  rpcLog : list RpcCall
}.

Definition FALLBACK_RPCS : list string :=
  [ "https://rpc.ankr.com/solana";
    "https://api.mainnet-beta.solana.com";
    "https://solana-api.projectserum.com" ].

(** [process.env.HELIUS_RPC_URL || FALLBACK_RPCS[0]] *)
Definition configuredRpcUrl `{Ledger} : string :=
  match HELIUS_RPC_URL with
  | Some url => JsString.orDefault url (nth 0 FALLBACK_RPCS "")
  | None => nth 0 FALLBACK_RPCS ""
  end.

End Web3.

(** ** A state and exception monad for the handlers *)
Module Eff.

Import Web3.

Definition M (S A : Type) : Type := S -> (Thrown + A) * S.

Definition ret {S A} (a : A) : M S A := fun s => (inr a, s).

Definition bind {S A B} (c : M S A) (k : A -> M S B) : M S B :=
  fun s =>
    match c s with
    | (inl e, s') => (inl e, s')
    | (inr a, s') => k a s'
    end.

Definition throw {S A} (e : Thrown) : M S A := fun s => (inl e, s).

(** [try { body } catch (e) { handler e }] *)
Definition tryCatch {S A} (body : M S A) (handler : Thrown -> M S A) : M S A :=
  fun s =>
    match body s with
    | (inl e, s') => handler e s'
    | (inr a, s') => (inr a, s')
    end.

Definition gets {S A} (f : S -> A) : M S A := fun s => (inr (f s), s).

Definition modify {S} (f : S -> S) : M S unit := fun s => (inr tt, f s).

(** A sequential [for ... of] loop that threads an accumulator. *)
Fixpoint forEach {S A B} (xs : list A) (acc : B) (body : B -> A -> M S B) : M S B :=
  match xs with
  | [] => ret acc
  | x :: rest => bind (body acc x) (fun acc' => forEach rest acc' body)
  end.

(** Run a computation on a component of the state. *)
Definition zoom {S T A} (proj : S -> T) (upd : T -> S -> S) (c : M T A) : M S A :=
  fun s =>
    let '(r, t') := c (proj s) in (r, upd t' s).

(** A sequential loop without an accumulator. *)
Definition each {S A} (xs : list A) (body : A -> M S unit) : M S unit :=
  forEach xs tt (fun _ x => body x).

(** The elements of an array with their indices. *)
Definition indexed {A} (xs : list A) : list (nat * A) :=
  combine (seq 0 (List.length xs)) xs.

(** [Date.now()] *)
Definition dateNow : M Net Z := gets clock.

(** [await new Promise(resolve => setTimeout(resolve, ms))] *)
Definition sleep (ms : Z) : M Net unit :=
  modify (fun n => {| clock := (clock n + ms)%Z; rpcLog := rpcLog n |}).

(** A request: it is logged, takes its latency, and returns or throws. *)
Definition request `{Ledger} {A} (call : RpcCall)
    (respond : list RpcCall -> Thrown + A) : M Net A :=
  fun n =>
    (respond (rpcLog n),
     {| clock := (clock n + rpcLatency (rpcLog n))%Z;
        rpcLog := (rpcLog n ++ [call])%list |}).

(** The first index of each batch: [for (i = 0; i < max; i += step)]. *)
Fixpoint batchStartsFrom (fuel i max step : nat) : list nat :=
  match fuel with
  | O => []
  | S fuel' =>
      if (i <? max)%nat then i :: batchStartsFrom fuel' (i + step) max step
      else []
  end.

Definition batchStarts (max step : nat) : list nat :=
  batchStartsFrom max 0 max step.

(** [new Set(xs)]: the distinct elements in order of first occurrence. *)
Fixpoint distinct (xs : list string) (seen : list string) : list string :=
  match xs with
  | [] => []
  | x :: rest =>
      if existsb (String.eqb x) seen then distinct rest seen
      else x :: distinct rest (x :: seen)
  end.

End Eff.

Declare Scope eff_scope.
Delimit Scope eff_scope with eff.
Notation "x <- c ;; k" := (Eff.bind c (fun x => k))
  (at level 61, c at next level, right associativity) : eff_scope.
Notation "c ;;; k" := (Eff.bind c (fun _ => k))
  (at level 61, right associativity) : eff_scope.

(** ** Dates *)
Module JsDate.

Import Web3 Eff JsNumber.
Local Open Scope float_scope.

(** The time value of [new Date(t)] for a number [t]: [t] without its
    fraction when it is finite and at most [8.64e15] in magnitude, and
    none ([NaN], an invalid date) otherwise. *)
Definition timeClip (t : float) : option Z :=
  match Prim2SF t with
  | S754_zero _ => Some 0%Z
  | S754_finite s m e =>
      if 8.64e15 <? abs t then None
      else Some (cond_Zopp s (if (0 <=? e)%Z then Z.pos m * 2 ^ e
                              else Z.pos m / 2 ^ (- e)))%Z
  | S754_infinity _ | S754_nan => None
  end.

(** [new Date(t).toISOString()], which throws a [RangeError] on an
    invalid date. *)
Definition toISOString `{Runtime} {S} (t : float) : M S string :=
  match timeClip t with
  | Some ms => ret (Date_toISOString ms)
  | None => throw (ErrorObject RangeError_invalidTime)
  end.

End JsDate.

(** ** Requests and responses ([next/server]) *)
Module Next.

Import Web3.

(** A request, as far as the handlers look at it: what
    [new URL(request.url)] gives, the pairs of the query in their order,
    or the exception the constructor throws. *)
Record Request := {
  parsedUrl : Thrown + list (string * string)
}.

(** [searchParams.get(name)]: the first value given for the name, [null]
    when there is none. *)
Fixpoint searchParamsGet (name : string) (query : list (string * string))
  : option string :=
  match query with
  | [] => None
  | (k, v) :: rest => if String.eqb k name then Some v else searchParamsGet name rest
  end.

(** [NextResponse.json(body, { status })]; the status is 200 when it is
    left out. *)
Record NextResponse (B : Type) := {
  status : nat;
  body : B
}.

Arguments status {B} _.
Arguments body {B} _.

End Next.

(** ** The caching revision (lines 416-870) *)
Module Route.

Import Web3 Eff JsNumber.
Local Open Scope eff_scope.

Record RelatedAccount := {
  ra_address : string;
  totalSolVolume : string
}.

(** [error?: string] is optional; [relatedAccounts] is not. *)
Record SolanaAnalysisResponse := {
  address : string;
  isValid : bool;
  relatedAccounts : list RelatedAccount;
  error : option string
}.

Record CacheEntry := {
  data : SolanaAnalysisResponse;
  timestamp : Z;
  ttl : Z
}.

Definition store := JsMap.t CacheEntry.

Definition CACHE_TTL : Z := 5 * 60 * 1000.
Definition MAX_CACHE_SIZE : nat := 1000.

Definition isValidSolanaAddress `{Ledger} (addr : string) : bool :=
  isValidPublicKey addr.

Definition TOKEN_TO_SOL_RATES : JsMap.t float :=
  [ ("EPjFWdd5AufqSSqeM2qN1xzybapC8G4wEGGkZwyTDt1v", 0.004%float);
    ("Es9vMFrzaCERmJfrF4H2FYD4KCoNkY11McCe8BenwNYB", 0.004%float);
    ("So11111111111111111111111111111111111111112", 1.0%float);
    ("mSoLzYCxHdYgdzU16g5QSh3i5K3z3KZK7ytfqcJm7So", 1.0%float);
    ("bSo13r4TkiE4KumL71LsHTPpL2euBYLFx6h9HP3piy1", 1.0%float);
    ("JUP4Fb2cqiRUcaTHdrPC8h2gNsA2ETXiPDD33WcGuJB", 0.0035%float);
    ("7vfCXTUXx5WJV5JADk17DUJ4ksgau7utNKj4b963voxs", 0.15%float);
    ("DezXAZ8z7PnrnRJjz3wXBoRgixCa6xjnB7YaB1pPB263", 0.00000006%float);
    ("WENWENvqqNya429ubCdR81ZmD69brwQaaBYY6p3LCpk", 0.000001%float);
    ("hntyVP6YFm1Hg25TN9WGLqM12b8TQmcknKrdu1oxWux", 0.000003%float);
    ("MEW1gQWJ3nEXg2qgERiKu7FAFj79PHvQVREQUzScPP5", 0.0001%float);
    ("MangoCzJ36AjZyKwVj3VnYU4GTonjfVEnJmvvWaxLac", 0.0001%float);
    ("SHDWyBxihqiCj6YekG2GUr7wqKLeLAMK1gHZck9pL6y", 0.000002%float);
    ("A9mUU4qviSctJVPJdBJWkb28deg915LYJKrzQ19ji3FM", 0.000001%float) ].

(** [formatSolAmount] (lines 490-496) *)
Definition formatSolAmount `{Runtime} (solValue : float) : string :=
  if (solValue =? 0)%float then "0 SOL"
  else if (solValue <? 0.001)%float then toFixed solValue 6 ++ " SOL"
  else if (solValue <? 1)%float then toFixed solValue 3 ++ " SOL"
  else if (solValue <? 1000)%float then toFixed solValue 2 ++ " SOL"
  else toFixed solValue 0 ++ " SOL".

(** The members an object literal inherits from [Object.prototype]. *)
Definition Object_prototype_members : list string :=
  [ "constructor"; "__defineGetter__"; "__defineSetter__"; "hasOwnProperty";
    "__lookupGetter__"; "__lookupSetter__"; "isPrototypeOf";
    "propertyIsEnumerable"; "toString"; "valueOf"; "__proto__";
    "toLocaleString" ].

(** [TOKEN_TO_SOL_RATES[mint] || 0] as the factor of the product of line
    501.  The table is an object literal: a name that is not its own
    member but one of [Object.prototype] reads a function (for
    [__proto__], the prototype object), which is truthy and, as a number,
    [NaN]. *)
Definition solRateOf (mintAddr : string) : float :=
  match JsMap.get mintAddr TOKEN_TO_SOL_RATES with
  | Some rate => orZero rate
  | None =>
      if existsb (String.eqb mintAddr) Object_prototype_members then nan
      else 0%float
  end.

(** [getTokenValueInSol] (lines 498-502) *)
Definition getTokenValueInSol `{Runtime}
    (mintAddr : string) (tokenAmount decimalPlaces : float) : float :=
  let actualAmount := (tokenAmount / Math_pow 10 decimalPlaces)%float in
  let solRate := solRateOf mintAddr in
  (actualAmount * solRate)%float.

(** *** The cache (lines 504-570) *)

Definition getCacheKey (addr : string) : string := "analysis:" ++ addr.

(** [now - entry.timestamp > entry.ttl] *)
Definition isExpired (now : Z) (entry : CacheEntry) : bool :=
  (now - timestamp entry >? ttl entry)%Z.

(** [getCachedAnalysis]; [now] is the value [Date.now()] returns.  The
    result is the returned value and the store after the call. *)
Definition getCachedAnalysis (now : Z) (addr : string) (cache : store)
  : option SolanaAnalysisResponse * store :=
  let key := getCacheKey addr in
  match JsMap.get key cache with
  | None => (None, cache)
  | Some entry =>
      if isExpired now entry then (None, JsMap.delete key cache)
      else (Some (data entry), cache)
  end.

(** The comparator of the cleanup sort, [a[1].timestamp - b[1].timestamp],
    is negative exactly when [a] is older than [b]. *)
Definition olderFirst (a b : string * CacheEntry) : bool :=
  (timestamp (snd a) - timestamp (snd b) <? 0)%Z.

Definition deleteAll (ks : list string) (cache : store) : store :=
  fold_left (fun c k => JsMap.delete k c) ks cache.

(** [cleanupCache] *)
Definition cleanupCache (now : Z) (cache : store) : store :=
  let keysToDelete :=
    map fst (filter (fun kv => isExpired now (snd kv)) (JsMap.entries cache)) in
  let cache1 := deleteAll keysToDelete cache in
  if (MAX_CACHE_SIZE <? JsMap.size cache1)%nat then
    let entries := JsArray.sort olderFirst (JsMap.entries cache1) in
    let entriesToRemove :=
      JsArray.slice 0 (JsMap.size cache1 - MAX_CACHE_SIZE) entries in
    deleteAll (map fst entriesToRemove) cache1
  else cache1.

(** [setCachedAnalysis]: the two [Date.now()] reads happen in the same
    synchronous step and give the same [now]. *)
Definition setCachedAnalysis (now : Z) (addr : string)
    (d : SolanaAnalysisResponse) (cache : store) : store :=
  let key := getCacheKey addr in
  let cache1 := cleanupCache now cache in
  JsMap.set key {| data := d; timestamp := now; ttl := CACHE_TTL |} cache1.

(** *** Aggregation (lines 608-743) *)

Record Aggregates := {
  accountVolumes : JsMap.t float;
  accountInteractions : JsMap.t Z
}.

Definition noAggregates : Aggregates :=
  {| accountVolumes := JsMap.empty; accountInteractions := JsMap.empty |}.

(** The guard of lines 666-671. *)
Definition isSkipped (queried accountAddress : string) : bool :=
  String.eqb accountAddress queried
  || String.eqb accountAddress "11111111111111111111111111111111"
  || String.eqb accountAddress "TokenkegQfeZyiNwAJbNbGKPFXCWuBvf9Ss623VQ5DA"
  || String.eqb accountAddress "ComputeBudget111111111111111111111111111111"
  || String.eqb accountAddress "SysvarRent111111111111111111111111111111111"
  || String.eqb accountAddress "SysvarClock111111111111111111111111111111111".

Definition countInteraction (acct : string) (agg : Aggregates) : Aggregates :=
  let currentInteractions := countOrZero acct (accountInteractions agg) in
  {| accountVolumes := accountVolumes agg;
     accountInteractions :=
       JsMap.set acct (currentInteractions + 1)%Z (accountInteractions agg) |}.

Definition addVolume (acct : string) (solValue : float) (agg : Aggregates)
  : Aggregates :=
  let currentVolume := getOrZero acct (accountVolumes agg) in
  {| accountVolumes :=
       JsMap.set acct (currentVolume + solValue)%float (accountVolumes agg);
     accountInteractions := accountInteractions agg |}.

(** The body of the loop over [accountKeys] (lines 662-691) at position
    [k], whose key is [accountAddress]. *)
Definition trackAccount (queried : string) (m : TransactionMeta)
    (agg : Aggregates) (k : nat) (accountAddress : string) : Aggregates :=
  if isSkipped queried accountAddress then agg
  else
    let agg1 := countInteraction accountAddress agg in
    match preBalances m, postBalances m with
    | Some pre, Some post =>
        if ((k <? List.length pre) && (k <? List.length post))%nat then
          let preBalance := orZero (nth k pre 0%float) in
          let postBalance := orZero (nth k post 0%float) in
          let balanceChange := abs (postBalance - preBalance)%float in
          if (0 <? balanceChange)%float then
            let solValue := (balanceChange / 1e9)%float in
            addVolume accountAddress solValue agg1
          else agg1
        else agg1
    | _, _ => agg1
    end.

Definition nativePass (queried : string) (m : TransactionMeta)
    (keys : list string) (agg : Aggregates) : Aggregates :=
  fold_left (fun a ka => trackAccount queried m a (fst ka) (snd ka))
            (combine (seq 0 (List.length keys)) keys) agg.

Definition tokenMapKey (b : TokenBalance) : option string :=
  match owner b with
  | Some o =>
      if JsString.truthy o && JsString.truthy (mint b)
      then Some (o ++ "-" ++ mint b) else None
  | None => None
  end.

Definition buildTokenMap (bs : list TokenBalance) : JsMap.t TokenBalance :=
  fold_left (fun m b => match tokenMapKey b with
                        | Some k => JsMap.set k b m
                        | None => m
                        end) bs JsMap.empty.

(** [pre?.uiTokenAmount?.decimals || post?.uiTokenAmount?.decimals || 6] *)
Definition decimalsOf (pre post : option TokenBalance) : float :=
  let pick (b : option TokenBalance) : option float :=
    match b with
    | Some tb => if truthy (decimals (uiTokenAmount tb))
                 then Some (decimals (uiTokenAmount tb)) else None
    | None => None
    end in
  match pick pre with
  | Some d => d
  | None => match pick post with
            | Some d => d
            | None => 6%float
            end
  end.

(** [b?.uiTokenAmount?.amount || '0'] *)
Definition amountOf (b : option TokenBalance) : string :=
  match b with
  | Some tb => JsString.orDefault (amount (uiTokenAmount tb)) "0"
  | None => "0"
  end.

(** The body of the loop over [allTokenKeys] (lines 714-742). *)
Definition trackTokenKey `{Runtime} (queried : string)
    (preTokenMap postTokenMap : JsMap.t TokenBalance)
    (agg : Aggregates) (tokenKey : string) : Aggregates :=
  let parts := JsString.split "-" tokenKey in
  let ownerAddr := nth 0 parts "" in
  let mintAddr := nth 1 parts "" in
  if String.eqb ownerAddr queried then agg
  else
    let preBalance := JsMap.get tokenKey preTokenMap in
    let postBalance := JsMap.get tokenKey postTokenMap in
    let preAmount := amountOf preBalance in
    let postAmount := amountOf postBalance in
    let decimalPlaces := decimalsOf preBalance postBalance in
    let preNum := parseFloat preAmount in
    let postNum := parseFloat postAmount in
    let tokenChange := abs (postNum - preNum)%float in
    if (0 <? tokenChange)%float then
      let agg1 := countInteraction ownerAddr agg in
      let tokenValueInSol := getTokenValueInSol mintAddr tokenChange decimalPlaces in
      if (0 <? tokenValueInSol)%float then addVolume ownerAddr tokenValueInSol agg1
      else agg1
    else agg.

Definition tokenPass `{Runtime} (queried : string) (m : TransactionMeta)
    (agg : Aggregates) : Aggregates :=
  match preTokenBalances m, postTokenBalances m with
  | Some pre, Some post =>
      let preTokenMap := buildTokenMap pre in
      let postTokenMap := buildTokenMap post in
      let allTokenKeys :=
        distinct (JsMap.keys preTokenMap ++ JsMap.keys postTokenMap)%list [] in
      fold_left (trackTokenKey queried preTokenMap postTokenMap) allTokenKeys agg
  | _, _ => agg
  end.

(** The body of [for (const tx of transactions)] (lines 655-744). *)
Definition processTransaction `{Runtime} (queried : string)
    (agg : Aggregates) (tx : option ParsedTransaction) : Aggregates :=
  match tx with
  | None => agg
  | Some t =>
      match meta t with
      | None => agg
      | Some m =>
          match accountKeys t with
          | None => agg
          | Some keys => tokenPass queried m (nativePass queried m keys agg)
          end
      end
  end.

(** *** Ranking (lines 759-787) *)

Record RankedAccount := {
  rk_address : string;
  rk_totalSolVolume : string;
  volumeValue : float;
  interactions : Z
}.

(** The comparator of lines 777-783 is negative on [(a, b)]. *)
Definition rankedBefore (a b : RankedAccount) : bool :=
  if strictNe (volumeValue b) (volumeValue a)
  then (volumeValue b - volumeValue a <? 0)%float
  else (interactions b - interactions a <? 0)%Z.

Definition toRanked `{Runtime} (agg : Aggregates) (acct : string) : RankedAccount :=
  let volumeInSol := getOrZero acct (accountVolumes agg) in
  let n := countOrZero acct (accountInteractions agg) in
  {| rk_address := acct;
     rk_totalSolVolume := formatSolAmount volumeInSol;
     volumeValue := volumeInSol;
     interactions := n |}.

Definition allAccounts (agg : Aggregates) : list string :=
  distinct (JsMap.keys (accountInteractions agg)
            ++ JsMap.keys (accountVolumes agg))%list [].

Definition rankedAccounts `{Runtime} (agg : Aggregates) : list RankedAccount :=
  JsArray.sort rankedBefore (map (toRanked agg) (allAccounts agg)).

Definition toRelated (r : RankedAccount) : RelatedAccount :=
  {| ra_address := rk_address r; totalSolVolume := rk_totalSolVolume r |}.

Definition rankAccounts `{Runtime} (agg : Aggregates) : list RelatedAccount :=
  map toRelated (rankedAccounts agg).

(** *** The handler (lines 572-821) *)

Record World := {
  analysisCache : store;
  net : Net
}.

Definition onNet {A} (c : M Net A) : M World A :=
  zoom net (fun n w => {| analysisCache := analysisCache w; net := n |}) c.

Definition onCache {A} (f : Z -> store -> A * store) : M World A :=
  fun w =>
    let '(a, c) := f (clock (net w)) (analysisCache w) in
    (inr a, {| analysisCache := c; net := net w |}).

(** Lines 630-653: one request per signature on Helius, one batch request
    otherwise. *)
Definition fetchTransactions `{Ledger} (rpcUrl : string) (isHelius : bool)
    (txSignatures : list string) : M Net (list (option ParsedTransaction)) :=
  if isHelius then
    forEach txSignatures []
      (fun transactions txSig =>
         tryCatch
           (tx <- request (GetParsedTransaction txSig)
                    (fun log => getParsedTransaction rpcUrl log txSig) ;;
            sleep 300 ;;;
            ret (transactions ++ [tx])%list)
           (fun _ => ret (transactions ++ [None])%list))
  else
    request (GetParsedTransactions txSignatures)
      (fun log => getParsedTransactions rpcUrl log txSignatures).

(** The body of the batch loop (lines 617-757) for the batch at [i]. *)
Definition processBatch `{Runtime} `{Ledger} (queried rpcUrl : string)
    (isHelius : bool) (batchSize : nat)
    (signatures : list ConfirmedSignatureInfo)
    (agg : Aggregates) (i : nat) : M Net Aggregates :=
  let batch := JsArray.slice i (i + batchSize) signatures in
  let txSignatures := map signature batch in
  tryCatch
    ((if (0 <? i)%nat then sleep (if isHelius then 2000 else 1000) else ret tt) ;;;
     transactions <- fetchTransactions rpcUrl isHelius txSignatures ;;
     ret (fold_left (processTransaction queried) transactions agg))
    (fun err =>
       let errorMessage := messageOrRendering err in
       (if JsString.includes "429" errorMessage
           || JsString.includes "Too Many Requests" errorMessage
        then sleep (if isHelius then 5000 else 3000) else ret tt) ;;;
       ret agg).

(** The [try] block of [analyzeAddress] (lines 593-798). *)
Definition analyzeUncached `{Runtime} `{Ledger} (queried rpcUrl : string)
  : M World SolanaAnalysisResponse :=
  match newConnection rpcUrl with
  | Some e => throw e
  | None =>
      signatures <- onNet (request (GetSignaturesForAddress queried 50)
                             (fun log => getSignaturesForAddress rpcUrl log queried 50)) ;;
      if (List.length signatures =? 0)%nat then
        ret {| address := queried; isValid := true;
               relatedAccounts := []; error := None |}
      else
        let isHelius := JsString.includes "helius" rpcUrl in
        let batchSize := if isHelius then 3%nat else 5%nat in
        let maxTransactions :=
          Nat.min (List.length signatures) (if isHelius then 15 else 25) in
        agg <- onNet (forEach (batchStarts maxTransactions batchSize) noAggregates
                        (processBatch queried rpcUrl isHelius batchSize signatures)) ;;
        let result := {| address := queried; isValid := true;
                         relatedAccounts := rankAccounts agg; error := None |} in
        onCache (fun now c => (tt, setCachedAnalysis now queried result c)) ;;;
        ret result
  end.

Definition shortCacheTime : Z := 60 * 1000.

(** The [catch] block of [analyzeAddress] (lines 800-820). *)
Definition analyzeFailed (queried : string) (err : Thrown)
  : M World SolanaAnalysisResponse :=
  let errorResult :=
    {| address := queried; isValid := true; relatedAccounts := [];
       error := Some ("Failed to analyze address: "
                      ++ messageOr "Unknown error" err) |} in
  let key := getCacheKey queried in
  onCache (fun now c =>
             (tt, JsMap.set key {| data := errorResult; timestamp := now;
                                   ttl := shortCacheTime |} c)) ;;;
  ret errorResult.

(** [analyzeAddress] (lines 572-821) *)
Definition analyzeAddress `{Runtime} `{Ledger} (queried : string)
  : M World SolanaAnalysisResponse :=
  if negb (isValidSolanaAddress queried) then
    ret {| address := queried; isValid := false; relatedAccounts := [];
           error := Some "Invalid Solana address format" |}
  else
    cachedResult <- onCache (fun now c => getCachedAnalysis now queried c) ;;
    match cachedResult with
    | Some r => ret r
    | None =>
        let rpcUrl := configuredRpcUrl in
        tryCatch (analyzeUncached queried rpcUrl) (analyzeFailed queried)
    end.

(** *** The endpoint (lines 823-870) *)

Record CacheStatsEntry := {
  cs_address : string;
  ageMinutes : float;
  expiresInMinutes : float
}.

Record CacheStatsResponse := {
  totalEntries : nat;
  maxSize : nat;
  ttlMinutes : float;
  statsEntries : list CacheStatsEntry
}.

(** [SolanaAnalysisResponse | CacheStatsResponse] *)
Inductive Payload :=
| AnalysisBody (r : SolanaAnalysisResponse)
| StatsBody (s : CacheStatsResponse).

(** Lines 832-841. *)
Definition cacheStats (now : Z) (cache : store) : CacheStatsResponse :=
  {| totalEntries := JsMap.size cache;
     maxSize := MAX_CACHE_SIZE;
     ttlMinutes := (ofInteger CACHE_TTL / (60 * 1000))%float;
     statsEntries :=
       map (fun kv =>
              let key := fst kv in
              let entry := snd kv in
              {| cs_address := JsString.replace "analysis:" "" key;
                 ageMinutes :=
                   Math_round (ofInteger (now - timestamp entry) / (60 * 1000))%float;
                 expiresInMinutes :=
                   Math_round (ofInteger (ttl entry - (now - timestamp entry))
                               / (60 * 1000))%float |})
           (JsMap.entries cache) |}.

(** [cacheInfo === 'stats'] *)
Definition isStats (cacheInfo : option string) : bool :=
  match cacheInfo with
  | Some v => String.eqb v "stats"
  | None => false
  end.

(** [GET] *)
Definition GET `{Runtime} `{Ledger} (request : Next.Request)
  : M World (Next.NextResponse Payload) :=
  tryCatch
    (match Next.parsedUrl request with
     | inl e => throw e
     | inr searchParams =>
         let addressParam := Next.searchParamsGet "address" searchParams in
         let cacheInfo := Next.searchParamsGet "cache" searchParams in
         if isStats cacheInfo then
           now <- onNet dateNow ;;
           cache <- gets analysisCache ;;
           ret {| Next.status := 200; Next.body := StatsBody (cacheStats now cache) |}
         else
           match addressParam with
           | Some (String c rest) =>
               let queried := String c rest in
               startTime <- onNet dateNow ;;
               result <- analyzeAddress queried ;;
               finishTime <- onNet dateNow ;;
               let analysisTime := (finishTime - startTime)%Z in
               ret {| Next.status := 200; Next.body := AnalysisBody result |}
           | _ =>
               ret {| Next.status := 400;
                      Next.body := AnalysisBody
                        {| address := ""; isValid := false; relatedAccounts := [];
                           error := Some "Address parameter is required" |} |}
           end
     end)
    (fun _ =>
       ret {| Next.status := 500;
              Next.body := AnalysisBody
                {| address := ""; isValid := false; relatedAccounts := [];
                   error := Some "Internal server error" |} |}).

End Route.

(** ** The revision without a cache (lines 1-416) *)
Module Legacy.

Import Web3 Eff JsNumber.
Local Open Scope eff_scope.

(** [totalSolFlowLamports], [totalSolFlow] and [totalTokenInteractions]
    are optional members. *)
Record RelatedAccount := {
  ra_address : string;
  transactionCount : Z;
  lastInteraction : string;
  transactionTypes : list string;
  totalSolFlowLamports : option float;
  totalSolFlow : option string;
  totalTokenInteractions : option Z
}.

Record DebugInfo := {
  processedTxs : Z;
  totalAccounts : Z;
  filteredAccounts : Z;
  errors : list string;
  balanceChanges : Z;
  tokenChanges : Z;
  rpcUsed : string;
  finalAccountCount : option Z
}.

(** Every member but [address] and [isValid] is optional. *)
Record SolanaAnalysisResponse := {
  address : string;
  isValid : bool;
  totalTransactions : option Z;
  sampledTransactions : option Z;
  relatedAccounts : option (list RelatedAccount);
  error : option string;
  debug : option DebugInfo
}.

Definition isValidSolanaAddress `{Ledger} (addr : string) : bool :=
  isValidPublicKey addr.

(** [formatSolAmount] (lines 47-57) *)
Definition formatSolAmount `{Runtime} (lamports : float) : string :=
  let sol := (lamports / 1e9)%float in
  if (sol =? 0)%float then "0 SOL"
  else if (sol <? 0.000001)%float then "<0.000001 SOL"
  else if (sol <? 0.001)%float then toFixed sol 6 ++ " SOL"
  else if (sol <? 1)%float then toFixed sol 3 ++ " SOL"
  else if (sol <? 1000)%float then toFixed sol 2 ++ " SOL"
  else toFixed sol 0 ++ " SOL".

Record Analysis := {
  relatedAccountsMap : JsMap.t RelatedAccount;
  debugInfo : DebugInfo
}.

Definition updDebug (f : DebugInfo -> DebugInfo) (st : Analysis) : Analysis :=
  {| relatedAccountsMap := relatedAccountsMap st; debugInfo := f (debugInfo st) |}.

Definition updMap (f : JsMap.t RelatedAccount -> JsMap.t RelatedAccount)
    (st : Analysis) : Analysis :=
  {| relatedAccountsMap := f (relatedAccountsMap st); debugInfo := debugInfo st |}.

(** [debugInfo.processedTxs++] *)
Definition countProcessed (d : DebugInfo) : DebugInfo :=
  {| processedTxs := (processedTxs d + 1)%Z; totalAccounts := totalAccounts d;
     filteredAccounts := filteredAccounts d; errors := errors d;
     balanceChanges := balanceChanges d; tokenChanges := tokenChanges d;
     rpcUsed := rpcUsed d; finalAccountCount := finalAccountCount d |}.

(** [debugInfo.filteredAccounts++] *)
Definition countFiltered (d : DebugInfo) : DebugInfo :=
  {| processedTxs := processedTxs d; totalAccounts := totalAccounts d;
     filteredAccounts := (filteredAccounts d + 1)%Z; errors := errors d;
     balanceChanges := balanceChanges d; tokenChanges := tokenChanges d;
     rpcUsed := rpcUsed d; finalAccountCount := finalAccountCount d |}.

(** [debugInfo.balanceChanges++; debugInfo.totalAccounts++] *)
Definition countBalanceChange (d : DebugInfo) : DebugInfo :=
  {| processedTxs := processedTxs d; totalAccounts := (totalAccounts d + 1)%Z;
     filteredAccounts := filteredAccounts d; errors := errors d;
     balanceChanges := (balanceChanges d + 1)%Z; tokenChanges := tokenChanges d;
     rpcUsed := rpcUsed d; finalAccountCount := finalAccountCount d |}.

(** [debugInfo.tokenChanges++; debugInfo.totalAccounts++] *)
Definition countTokenChange (d : DebugInfo) : DebugInfo :=
  {| processedTxs := processedTxs d; totalAccounts := (totalAccounts d + 1)%Z;
     filteredAccounts := filteredAccounts d; errors := errors d;
     balanceChanges := balanceChanges d; tokenChanges := (tokenChanges d + 1)%Z;
     rpcUsed := rpcUsed d; finalAccountCount := finalAccountCount d |}.

(** [debugInfo.errors.push(line)] *)
Definition pushError (line : string) (d : DebugInfo) : DebugInfo :=
  {| processedTxs := processedTxs d; totalAccounts := totalAccounts d;
     filteredAccounts := filteredAccounts d; errors := (errors d ++ [line])%list;
     balanceChanges := balanceChanges d; tokenChanges := tokenChanges d;
     rpcUsed := rpcUsed d; finalAccountCount := finalAccountCount d |}.

(** [blockTime] is truthy: neither [null] nor [undefined], [0] or [NaN]. *)
Definition blockTimeOf (sig : ConfirmedSignatureInfo) : option float :=
  match blockTime sig with
  | Some t => if truthy t then Some t else None
  | None => None
  end.

(** [signature.blockTime ? new Date(signature.blockTime * 1000).toISOString()
    : 'Unknown'] *)
Definition interactionTime `{Runtime} {S} (sig : ConfirmedSignatureInfo)
  : M S string :=
  match blockTimeOf sig with
  | Some t => JsDate.toISOString (t * 1000)%float
  | None => ret "Unknown"
  end.

(** The record of lines 228-236. *)
Definition freshAccount (acct last : string) : RelatedAccount :=
  {| ra_address := acct;
     transactionCount := 0;
     lastInteraction := last;
     transactionTypes := [];
     totalSolFlowLamports := Some 0%float;
     totalSolFlow := Some "0 SOL";
     totalTokenInteractions := Some 0%Z |}.

(** [if (!map.has(k)) map.set(k, { ... })] (lines 227-237 and 307-317):
    the members of the record are evaluated before it is set. *)
Definition ensureAccount `{Runtime} (acct : string) (sig : ConfirmedSignatureInfo)
  : M Analysis unit :=
  known <- gets (fun st => JsMap.has acct (relatedAccountsMap st)) ;;
  if known then ret tt
  else
    last <- interactionTime sig ;;
    modify (updMap (JsMap.set acct (freshAccount acct last))).

(** [f(m.get(k)!)] for a key that is present: the record is mutated in
    place. *)
Definition updateAccount (acct : string) (f : RelatedAccount -> RelatedAccount)
    (m : JsMap.t RelatedAccount) : JsMap.t RelatedAccount :=
  match JsMap.get acct m with
  | Some r => JsMap.set acct (f r) m
  | None => m
  end.

Definition optOrZero (x : option float) : float :=
  match x with Some v => orZero v | None => 0%float end.

(** Lines 240-241. *)
Definition addSolFlow (balanceChange : float) (r : RelatedAccount) : RelatedAccount :=
  {| ra_address := ra_address r;
     transactionCount := (transactionCount r + 1)%Z;
     lastInteraction := lastInteraction r;
     transactionTypes := transactionTypes r;
     totalSolFlowLamports :=
       Some (optOrZero (totalSolFlowLamports r) + abs balanceChange)%float;
     totalSolFlow := totalSolFlow r;
     totalTokenInteractions := totalTokenInteractions r |}.

(** Lines 320-321. *)
Definition addTokenInteraction (r : RelatedAccount) : RelatedAccount :=
  {| ra_address := ra_address r;
     transactionCount := (transactionCount r + 1)%Z;
     lastInteraction := lastInteraction r;
     transactionTypes := transactionTypes r;
     totalSolFlowLamports := totalSolFlowLamports r;
     totalSolFlow := totalSolFlow r;
     totalTokenInteractions :=
       Some (match totalTokenInteractions r with Some n => n | None => 0 end + 1)%Z |}.

(** Lines 247-249 and 326-328. *)
Definition setLastInteraction (currentTime : string) (r : RelatedAccount)
  : RelatedAccount :=
  if String.ltb (lastInteraction r) currentTime
     || String.eqb (lastInteraction r) "Unknown"
  then {| ra_address := ra_address r;
          transactionCount := transactionCount r;
          lastInteraction := currentTime;
          transactionTypes := transactionTypes r;
          totalSolFlowLamports := totalSolFlowLamports r;
          totalSolFlow := totalSolFlow r;
          totalTokenInteractions := totalTokenInteractions r |}
  else r.

(** Lines 244-250 and 323-329. *)
Definition touch `{Runtime} (acct : string) (sig : ConfirmedSignatureInfo)
  : M Analysis unit :=
  match blockTimeOf sig with
  | Some t =>
      currentTime <- JsDate.toISOString (t * 1000)%float ;;
      modify (updMap (updateAccount acct (setLastInteraction currentTime)))
  | None => ret tt
  end.

(** [if (!types.includes(label)) types.push(label)] *)
Definition addType (label : string) (types : list string) : list string :=
  if existsb (String.eqb label) types then types else (types ++ [label])%list.

Definition pushType (label : string) (r : RelatedAccount) : RelatedAccount :=
  {| ra_address := ra_address r;
     transactionCount := transactionCount r;
     lastInteraction := lastInteraction r;
     transactionTypes := addType label (transactionTypes r);
     totalSolFlowLamports := totalSolFlowLamports r;
     totalSolFlow := totalSolFlow r;
     totalTokenInteractions := totalTokenInteractions r |}.

(** The guard of lines 210-213. *)
Definition isSkipped (queried accountAddress : string) : bool :=
  String.eqb accountAddress queried
  || String.eqb accountAddress "11111111111111111111111111111111"
  || String.eqb accountAddress "TokenkegQfeZyiNwAJbNbGKPFXCWuBvf9Ss623VQ5DA"
  || String.eqb accountAddress "ComputeBudget111111111111111111111111111111".

(** [xs[k] || 0]: an index out of range reads [undefined]. *)
Definition balanceAt (k : nat) (xs : list float) : float :=
  match nth_error xs k with
  | Some v => orZero v
  | None => 0%float
  end.

(** The body of the loop over [accountKeys] (lines 205-265) at position
    [k], whose key is [accountAddress]. *)
Definition trackAccount `{Runtime} (queried : string)
    (sig : ConfirmedSignatureInfo) (pre post : list float)
    (k : nat) (accountAddress : string) : M Analysis unit :=
  if isSkipped queried accountAddress then modify (updDebug countFiltered)
  else
    let preBalance := balanceAt k pre in
    let postBalance := balanceAt k post in
    let balanceChange := (postBalance - preBalance)%float in
    if strictNe balanceChange 0 then
      modify (updDebug countBalanceChange) ;;;
      ensureAccount accountAddress sig ;;;
      modify (updMap (updateAccount accountAddress (addSolFlow balanceChange))) ;;;
      touch accountAddress sig ;;;
      modify (updMap (updateAccount accountAddress
                        (pushType (if (0 <? balanceChange)%float
                                   then "SOL Inflow" else "SOL Outflow"))))
    else ret tt.

(** Method 1 (lines 201-266). *)
Definition nativePass `{Runtime} (queried : string) (sig : ConfirmedSignatureInfo)
    (t : ParsedTransaction) (m : TransactionMeta) : M Analysis unit :=
  match preBalances m, postBalances m, accountKeys t with
  | Some pre, Some post, Some keys =>
      each (indexed keys)
        (fun ka => trackAccount queried sig pre post (fst ka) (snd ka))
  | _, _, _ => ret tt
  end.

Definition tokenMapKey (b : TokenBalance) : option string :=
  match owner b with
  | Some o =>
      if JsString.truthy o && JsString.truthy (mint b)
      then Some (o ++ "-" ++ mint b) else None
  | None => None
  end.

Definition buildTokenMap (bs : list TokenBalance) : JsMap.t TokenBalance :=
  fold_left (fun m b => match tokenMapKey b with
                        | Some k => JsMap.set k b m
                        | None => m
                        end) bs JsMap.empty.

(** [b?.uiTokenAmount?.uiAmount || 0] *)
Definition uiAmountOf (b : option TokenBalance) : float :=
  match b with
  | Some tb => optOrZero (uiAmount (uiTokenAmount tb))
  | None => 0%float
  end.

(** The body of the loop over [allTokenKeys] (lines 292-337). *)
Definition trackTokenKey `{Runtime} (queried : string) (sig : ConfirmedSignatureInfo)
    (preTokenMap postTokenMap : JsMap.t TokenBalance)
    (tokenKey : string) : M Analysis unit :=
  let parts := JsString.split "-" tokenKey in
  let ownerAddr := nth 0 parts "" in
  if String.eqb ownerAddr queried then ret tt
  else
    let preAmount := uiAmountOf (JsMap.get tokenKey preTokenMap) in
    let postAmount := uiAmountOf (JsMap.get tokenKey postTokenMap) in
    if strictNe preAmount postAmount then
      modify (updDebug countTokenChange) ;;;
      ensureAccount ownerAddr sig ;;;
      modify (updMap (updateAccount ownerAddr addTokenInteraction)) ;;;
      touch ownerAddr sig ;;;
      modify (updMap (updateAccount ownerAddr (pushType "Token Transfer")))
    else ret tt.

(** Method 2 (lines 268-338). *)
Definition tokenPass `{Runtime} (queried : string) (sig : ConfirmedSignatureInfo)
    (m : TransactionMeta) : M Analysis unit :=
  match preTokenBalances m, postTokenBalances m with
  | Some pre, Some post =>
      let preTokenMap := buildTokenMap pre in
      let postTokenMap := buildTokenMap post in
      let allTokenKeys :=
        distinct (JsMap.keys preTokenMap ++ JsMap.keys postTokenMap)%list [] in
      each allTokenKeys (trackTokenKey queried sig preTokenMap postTokenMap)
  | _, _ => ret tt
  end.

(** The body of the loop over the fetched transactions (lines 189-339) at
    index [j].  [batch[j]] is [undefined] beyond the batch, and reading its
    [signature] for the log line of line 199 throws a [TypeError]. *)
Definition processTransaction `{Runtime} (queried : string)
    (batch : list ConfirmedSignatureInfo) (j : nat)
    (tx : option ParsedTransaction) : M Analysis unit :=
  match tx with
  | None => ret tt
  | Some t =>
      match meta t with
      | None => ret tt
      | Some m =>
          modify (updDebug countProcessed) ;;;
          match nth_error batch j with
          | None => throw (ErrorObject (TypeError_cannotRead "undefined" "signature"))
          | Some sig => nativePass queried sig t m ;;; tokenPass queried sig m
          end
      end
  end.

(** Lines 159-185; [batchSize] is the constant 1. *)
Definition fetchTransactions `{Ledger} (rpcUrl : string) (isHelius : bool)
    (txSignatures : list string) : M Net (list (option ParsedTransaction)) :=
  if isHelius then
    forEach txSignatures []
      (fun transactions txSig =>
         tryCatch
           (tx <- request (GetParsedTransaction txSig)
                    (fun log => getParsedTransaction rpcUrl log txSig) ;;
            sleep 200 ;;;
            ret (transactions ++ [tx])%list)
           (fun _ => ret (transactions ++ [None])%list))
  else
    request (GetParsedTransactions txSignatures)
      (fun log => getParsedTransactions rpcUrl log txSignatures).

(** What the batch loop acts on: the two locals of lines 129-138, which
    the passes mutate in place, and the net. *)
Record RunState := {
  analysis : Analysis;
  net : Net
}.

Definition onNet {A} (c : M Net A) : M RunState A :=
  zoom net (fun n s => {| analysis := analysis s; net := n |}) c.

Definition onAnalysis {A} (c : M Analysis A) : M RunState A :=
  zoom analysis (fun a s => {| analysis := a; net := net s |}) c.

(** [(batchError as Error).message || 'Unknown error'] (line 343): reading
    the member of [null] or [undefined] throws a [TypeError]. *)
Definition batchErrorText `{Runtime} {S} (batchError : Thrown) : M S string :=
  match batchError with
  | ErrorObject m => ret (JsString.orDefault m "Unknown error")
  | NonError _ (Some text) => ret text
  | NonError _ None => ret "Unknown error"
  | Nullish isNull =>
      throw (ErrorObject
               (TypeError_cannotRead (if isNull then "null" else "undefined")
                                     "message"))
  end.

(** The body of the batch loop (lines 147-347) for the batch at [i]. *)
Definition processBatch `{Runtime} `{Ledger} (queried rpcUrl : string)
    (isHelius : bool) (signatures : list ConfirmedSignatureInfo)
    (i : nat) : M RunState unit :=
  let batchSize := 1%nat in
  let batch := JsArray.slice i (i + batchSize) signatures in
  let txSignatures := map signature batch in
  tryCatch
    ((if (0 <? i)%nat then onNet (sleep (if isHelius then 1500 else 3000))
      else ret tt) ;;;
     transactions <- onNet (fetchTransactions rpcUrl isHelius txSignatures) ;;
     onAnalysis
       (each (indexed transactions)
          (fun jt => processTransaction queried batch (fst jt) (snd jt))))
    (fun batchError =>
       text <- batchErrorText batchError ;;
       onAnalysis
         (modify (updDebug (pushError ("Batch " ++ decimalDigits (Z.of_nat i)
                                       ++ ": " ++ text)))) ;;;
       onNet (sleep (if JsString.includes "helius" rpcUrl then 1000 else 3000))).

(** The batch loop (lines 129-347) on a net: it starts from the empty map
    and the given debug record and gives their final state. *)
Definition runBatches `{Runtime} `{Ledger} (queried rpcUrl : string)
    (signatures : list ConfirmedSignatureInfo) (debug0 : DebugInfo)
  : M Net Analysis :=
  let isHelius := JsString.includes "helius" rpcUrl in
  let processedTransactions :=
    Nat.min (List.length signatures) (if isHelius then 15 else 8) in
  fun n =>
    let '(r, s) :=
      each (batchStarts processedTransactions 1)
        (processBatch queried rpcUrl isHelius signatures)
        {| analysis := {| relatedAccountsMap := JsMap.empty; debugInfo := debug0 |};
           net := n |} in
    (match r with inl e => inl e | inr _ => inr (analysis s) end, net s).

(** The comparator of lines 354-361 is negative on [(a, b)]. *)
Definition rankedBefore (a b : RelatedAccount) : bool :=
  if negb (transactionCount b =? transactionCount a)%Z
  then (transactionCount b - transactionCount a <? 0)%Z
  else (optOrZero (totalSolFlowLamports b)
        - optOrZero (totalSolFlowLamports a) <? 0)%float.

(** Lines 363-369: drop the raw lamports and format their total. *)
Definition present `{Runtime} (account : RelatedAccount) : RelatedAccount :=
  {| ra_address := ra_address account;
     transactionCount := transactionCount account;
     lastInteraction := lastInteraction account;
     transactionTypes := transactionTypes account;
     totalSolFlowLamports := None;
     totalSolFlow :=
       Some (formatSolAmount (optOrZero (totalSolFlowLamports account)));
     totalTokenInteractions := totalTokenInteractions account |}.

(** Lines 353-362: sort, then keep the first 25. *)
Definition topAccounts (m : JsMap.t RelatedAccount) : list RelatedAccount :=
  JsArray.slice 0 25 (JsArray.sort rankedBefore (map snd (JsMap.entries m))).

Definition rankAccounts `{Runtime} (m : JsMap.t RelatedAccount)
  : list RelatedAccount :=
  map present (topAccounts m).

(** Lines 100-116: the estimate of the total number of transactions. *)
Definition estimateTotal `{Ledger} (queried rpcUrl : string)
    (signatures : list ConfirmedSignatureInfo) : M Net Z :=
  let sampled := Z.of_nat (List.length signatures) in
  if (List.length signatures =? 50)%nat then
    tryCatch
      (allSignatures <- request (GetSignaturesForAddress queried 1000)
                          (fun log => getSignaturesForAddress rpcUrl log queried 1000) ;;
       ret (if (List.length allSignatures =? 1000)%nat then 1000%Z
            else Z.of_nat (List.length allSignatures)))
      (fun _ => ret sampled)
  else ret sampled.

(** The [try] block of [analyzeAddress] (lines 80-380). *)
Definition analyzeValid `{Runtime} `{Ledger} (queried rpcUrl0 : string)
  : M Net SolanaAnalysisResponse :=
  match newConnection rpcUrl0 with
  | Some e => throw e
  | None =>
      rpcUrl <- tryCatch
                  (request (GetBalance queried)
                     (fun log => getBalance rpcUrl0 log queried) ;;; ret rpcUrl0)
                  (fun _ =>
                     let url := nth 1 FALLBACK_RPCS "" in
                     match newConnection url with
                     | Some e => throw e
                     | None => ret url
                     end) ;;
      signatures <- request (GetSignaturesForAddress queried 50)
                      (fun log => getSignaturesForAddress rpcUrl log queried 50) ;;
      actualTotalTransactions <- estimateTotal queried rpcUrl signatures ;;
      if (List.length signatures =? 0)%nat then
        ret {| address := queried; isValid := true;
               totalTransactions := Some actualTotalTransactions;
               sampledTransactions := Some 0%Z;
               relatedAccounts := Some [];
               error := None; debug := None |}
      else
        let debug0 :=
          {| processedTxs := 0; totalAccounts := 0; filteredAccounts := 0;
             errors := []; balanceChanges := 0; tokenChanges := 0;
             rpcUsed := rpcUrl; finalAccountCount := None |} in
        st <- runBatches queried rpcUrl signatures debug0 ;;
        let related := rankAccounts (relatedAccountsMap st) in
        let d := debugInfo st in
        ret {| address := queried; isValid := true;
               totalTransactions := Some actualTotalTransactions;
               sampledTransactions := Some (processedTxs d);
               relatedAccounts := Some related;
               error := None;
               debug := Some
                 {| processedTxs := processedTxs d; totalAccounts := totalAccounts d;
                    filteredAccounts := filteredAccounts d; errors := errors d;
                    balanceChanges := balanceChanges d; tokenChanges := tokenChanges d;
                    rpcUsed := rpcUsed d;
                    finalAccountCount := Some (Z.of_nat (List.length related)) |} |}
  end.

(** [analyzeAddress] (lines 59-390) *)
Definition analyzeAddress `{Runtime} `{Ledger} (queried : string)
  : M Net SolanaAnalysisResponse :=
  if negb (isValidSolanaAddress queried) then
    ret {| address := queried; isValid := false;
           totalTransactions := None; sampledTransactions := None;
           relatedAccounts := None;
           error := Some "Invalid Solana address format"; debug := None |}
  else
    tryCatch (analyzeValid queried configuredRpcUrl)
      (fun err =>
         ret {| address := queried; isValid := true;
                totalTransactions := None; sampledTransactions := None;
                relatedAccounts := None;
                error := Some ("Failed to analyze address: "
                               ++ messageOr "Unknown error" err);
                debug := None |}).

(** [GET] (lines 392-416) *)
Definition GET `{Runtime} `{Ledger} (request : Next.Request)
  : M Net (Next.NextResponse SolanaAnalysisResponse) :=
  tryCatch
    (match Next.parsedUrl request with
     | inl e => throw e
     | inr searchParams =>
         match Next.searchParamsGet "address" searchParams with
         | Some (String c rest) =>
             result <- analyzeAddress (String c rest) ;;
             ret {| Next.status := 200; Next.body := result |}
         | _ =>
             ret {| Next.status := 400;
                    Next.body :=
                      {| address := ""; isValid := false;
                         totalTransactions := None; sampledTransactions := None;
                         relatedAccounts := None;
                         error := Some "Address parameter is required";
                         debug := None |} |}
         end
     end)
    (fun _ =>
       ret {| Next.status := 500;
              Next.body :=
                {| address := ""; isValid := false;
                   totalTransactions := None; sampledTransactions := None;
                   relatedAccounts := None;
                   error := Some "Internal server error"; debug := None |} |}).

End Legacy.


(** ** Concrete inputs for the examples *)
Module Sample.

Import JsNumber Web3.

Definition ofNat (n : nat) : float := of_uint63 (Uint63.of_Z (Z.of_nat n)).

Fixpoint powNat (b : float) (n : nat) : float :=
  match n with
  | O => 1%float
  | S n' => (b * powNat b n')%float
  end.

(** [Math.pow] for the exponents 0..30, by repeated multiplication. *)
Definition pow (b e : float) : float :=
  match find (fun n => (ofNat n =? e)%float) (seq 0 31) with
  | Some n => powNat b n
  | None => nan
  end.

Fixpoint digitsValue (s : string) (acc : Z) : Z :=
  match s with
  | EmptyString => acc
  | String c rest =>
      let d := (Z.of_nat (nat_of_ascii c) - 48)%Z in
      if ((0 <=? d) && (d <=? 9))%Z then digitsValue rest (10 * acc + d)%Z else acc
  end.

(** [parseFloat] on a string of decimal digits. *)
Definition parseDigits (s : string) : float :=
  of_uint63 (Uint63.of_Z (digitsValue s 0)).

(** A runtime for the examples.  Only [Math.pow] matters to them; the text
    of [Number::toString] and of [toISOString] is a stand-in (the
    milliseconds in decimal, which order like the ISO text). *)
#[export] Instance runtime : Runtime := {|
  Math_pow := pow;
  parseFloat := parseDigits;
  Number_toString := fun _ => "1e+21";
  Date_toISOString := fun ms => decimalDigits ms;
  RangeError_invalidTime := "Invalid time value";
  TypeError_cannotRead := fun value member =>
    "Cannot read properties of " ++ value ++ " (reading '" ++ member ++ "')"
|}.

Definition response (addr : string) : Route.SolanaAnalysisResponse :=
  {| Route.address := addr; Route.isValid := true;
     Route.relatedAccounts := []; Route.error := None |}.

Definition base58Alphabet : string :=
  "123456789ABCDEFGHJKLMNPQRSTUVWXYZabcdefghijkmnopqrstuvwxyz".

Definition base58Char (d : nat) : ascii :=
  match String.get d base58Alphabet with
  | Some c => c
  | None => "1"%char
  end.

(** The four base58 digits of [i]. *)
Definition base58Suffix (i : nat) : string :=
  let digit (weight : Z) := base58Char (Z.to_nat (Z.of_nat i / weight mod 58)) in
  String (digit 195112%Z)
    (String (digit 3364%Z) (String (digit 58%Z) (String (digit 1%Z) ""))).

(** A stand-in for [new PublicKey]: 32 to 44 characters of the base58
    alphabet. *)
Definition looksLikePublicKey (a : string) : bool :=
  (32 <=? String.length a)%nat && (String.length a <=? 44)%nat
  && forallb (fun c => existsb (Ascii.eqb c) (list_ascii_of_string base58Alphabet))
             (list_ascii_of_string a).

Definition queriedWallet : string := "5dmVDVM2orDq1ZetuVjedCdRjJGiVasjmqq2woAmyXGd".
Definition counterparty : string := "HZeLxbZ9uHtSpwZC3LBr4Nubd14iHwz7bRSghRZf5VCG".
Definition frequentPeer : string := "ES7yhSrYeFo4U1PfJHNRkbfCWxCwPLk2DjrEbmN8bg58".
Definition unusedWallet : string := "9WzDXwBbmkg8ZTbNMqUxvQRAyrZzDsGYdLVL9zYtAWWM".
Definition unreachableWallet : string := "7xKXtg2CW87d97TXJSDpbD5jBkheTqA83TZRuJosgAsU".
Definition idleWallet : string := "EPjFWdd5AufqSSqeM2qN1xzybapC8G4wEGGkZwyTDt1v".
Definition systemProgram : string := "11111111111111111111111111111111".
Definition notAnAddress : string := "not-an-address".

(** A store whose one entry was written at time 0 with the lifetime of a
    successful result. *)
Definition staleCache : Route.store :=
  [ (Route.getCacheKey idleWallet,
     {| Route.data := response idleWallet; Route.timestamp := 0;
        Route.ttl := Route.CACHE_TTL |}) ].

(** Distinct addresses, one for each [i] below [58 ^ 4]. *)
Definition wallet (i : nat) : string :=
  base58Suffix i ++ "Wa11et1111111111111111111111111111111111".

(** The store after [setCachedAnalysis] was called for [wallet 1], ...,
    [wallet n], the call for [wallet i] at time [i] (milliseconds). *)
Definition filled (n : nat) : Route.store :=
  fold_left (fun c i => Route.setCachedAnalysis (Z.of_nat i) (wallet i) (response (wallet i)) c)
            (seq 1 n) JsMap.empty.

(** A transfer of 2 SOL from the queried wallet to the counterparty. *)
Definition transfer : ParsedTransaction :=
  {| meta := Some {| preBalances := Some [5000000000; 1000000000; 1]%float;
                     postBalances := Some [3000000000; 3000000000; 1]%float;
                     preTokenBalances := Some [];
                     postTokenBalances := Some [] |};
     accountKeys := Some [queriedWallet; counterparty; systemProgram] |}.

(** A ledger on which the listing for [unreachableWallet] fails, the
    wallet [unusedWallet] has no transaction, and every other wallet has
    the one transfer above. *)
#[export] Instance ledger : Ledger := {|
  isValidPublicKey := looksLikePublicKey;
  HELIUS_RPC_URL := None;
  newConnection := fun _ => None;
  getBalance := fun _ _ _ => inr 0%float;
  getSignaturesForAddress := fun _ _ a _ =>
    if String.eqb a unreachableWallet then inl (ErrorObject "fetch failed")
    else if String.eqb a unusedWallet then inr []
    else inr [ {| signature := "sig1"; blockTime := Some 1700000000%float |} ];
  getParsedTransaction := fun _ _ _ => inr (Some transfer);
  getParsedTransactions := fun _ _ sigs => inr (map (fun _ => Some transfer) sigs);
  rpcLatency := fun _ => 120%Z
|}.




(** Two transactions: the first pays 1 SOL to [frequentPeer] and 10 SOL to
    [counterparty], the second pays 1 SOL more to [frequentPeer]. *)
Definition firstPayment : ParsedTransaction :=
  {| meta := Some {| preBalances := Some [20000000000; 0; 0]%float;
                     postBalances := Some [9000000000; 1000000000; 10000000000]%float;
                     preTokenBalances := None;
                     postTokenBalances := None |};
     accountKeys := Some [queriedWallet; frequentPeer; counterparty] |}.

Definition secondPayment : ParsedTransaction :=
  {| meta := Some {| preBalances := Some [9000000000; 1000000000]%float;
                     postBalances := Some [8000000000; 2000000000]%float;
                     preTokenBalances := None;
                     postTokenBalances := None |};
     accountKeys := Some [queriedWallet; frequentPeer] |}.

Definition paymentOf (sig : string) : option ParsedTransaction :=
  if String.eqb sig "sig1" then Some firstPayment
  else if String.eqb sig "sig2" then Some secondPayment
  else None.


(** A transaction that leaves the balance at position 1 as it was. *)
Definition idleMeta : TransactionMeta :=
  {| preBalances := Some [5000000000; 7000000000]%float;
     postBalances := Some [4999995000; 7000000000]%float;
     preTokenBalances := None; postTokenBalances := None |}.

Definition startNet : Net := {| clock := 1000; rpcLog := [] |}.

Definition startWorld : Route.World :=
  {| Route.analysisCache := JsMap.empty; Route.net := startNet |}.

(** A store with one entry more than the cap: the entry for [wallet i]
    was written at time [i], but for the one for [wallet 500], which is
    the oldest, written at time 0. *)
Definition overfullEntry (i : nat) : string * Route.CacheEntry :=
  (Route.getCacheKey (wallet i),
   {| Route.data := response (wallet i);
      Route.timestamp := if (i =? 500)%nat then 0%Z else Z.of_nat i;
      Route.ttl := Route.CACHE_TTL |}).

Definition overfull : Route.store := map overfullEntry (seq 1 1001).

Fixpoint indexOf (c : ascii) (s : string) : nat :=
  match s with
  | EmptyString => O
  | String d rest => if Ascii.eqb c d then O else S (indexOf c rest)
  end.

(** The number [i] a key of [overfull] was made from: the value of the
    four base58 digits that follow ["analysis:"]. *)
Definition walletIndex (key : string) : nat :=
  match String.get 9 key, String.get 10 key, String.get 11 key, String.get 12 key with
  | Some a, Some b, Some c, Some d =>
      (((indexOf a base58Alphabet * 58 + indexOf b base58Alphabet) * 58
        + indexOf c base58Alphabet) * 58 + indexOf d base58Alphabet)%nat
  | _, _, _, _ => O
  end.

(** A world whose cache holds the one entry of [staleCache]. *)
Definition staleWorld : Route.World :=
  {| Route.analysisCache := staleCache; Route.net := startNet |}.

(** A request for the statistics that names an address as well. *)
Definition statsRequest : Next.Request :=
  {| Next.parsedUrl := inr [("address", queriedWallet); ("cache", "stats")] |}.

(** A mint without an entry in the rate table. *)
Definition unlistedMint : string := "4k3Dyjzvzp8eMZWUXbBCjEvwSkkk59S5iCNLY3QrkX6R".

(** The balance of [counterparty] in that mint. *)
Definition tokensHeld (rawAmount : string) : TokenBalance :=
  {| owner := Some counterparty; mint := unlistedMint;
     uiTokenAmount := {| amount := rawAmount; decimals := 6%float; uiAmount := None |} |}.

Definition tokenKeyHeld : string := counterparty ++ "-" ++ unlistedMint.

(** The balance of [counterparty] in a mint without decimals. *)
Definition collectibleHeld (rawAmount : string) : TokenBalance :=
  {| owner := Some counterparty; mint := unlistedMint;
     uiTokenAmount := {| amount := rawAmount; decimals := 0%float; uiAmount := None |} |}.

(** A ledger on which the probe of the connection fails. *)
Definition flakyLedger : Ledger := {|
  isValidPublicKey := looksLikePublicKey;
  HELIUS_RPC_URL := Some "https://mainnet.helius-rpc.com/?api-key=k";
  newConnection := fun _ => None;
  getBalance := fun _ _ _ => inl (ErrorObject "503 Service Unavailable");
  getSignaturesForAddress := fun _ _ _ _ =>
    inr [ {| signature := "sig1"; blockTime := Some 1700000000%float |} ];
  getParsedTransaction := fun _ _ _ => inr (Some transfer);
  getParsedTransactions := fun _ _ sigs => inr (map (fun _ => Some transfer) sigs);
  rpcLatency := fun _ => 120%Z
|}.

(** A ledger that lists seven signatures and answers no request for a
    transaction. *)
Definition sevenSignatures : list ConfirmedSignatureInfo :=
  map (fun i => {| signature := "sig" ++ base58Suffix i;
                   blockTime := Some (1700000000 + ofNat i)%float |}) (seq 1 7).

Definition throttledLedger : Ledger := {|
  isValidPublicKey := looksLikePublicKey;
  HELIUS_RPC_URL := None;
  newConnection := fun _ => None;
  getBalance := fun _ _ _ => inr 0%float;
  getSignaturesForAddress := fun _ _ _ _ => inr sevenSignatures;
  getParsedTransaction := fun _ _ _ => inl (ErrorObject "429 Too Many Requests");
  getParsedTransactions := fun _ _ _ => inl (ErrorObject "429 Too Many Requests");
  rpcLatency := fun _ => 120%Z
|}.

(** A signature whose block time, in seconds, is beyond the range of a
    [Date] (which ends at 8.64e15 milliseconds). *)
Definition lateSignature : ConfirmedSignatureInfo :=
  {| signature := "sig2"; blockTime := Some 1e13%float |}.

(** The two payments of [busyLedger], the second under the signature with
    the block time out of range. *)
Definition lateLedger : Ledger := {|
  isValidPublicKey := looksLikePublicKey;
  HELIUS_RPC_URL := None;
  newConnection := fun _ => None;
  getBalance := fun _ _ _ => inr 0%float;
  getSignaturesForAddress := fun _ _ _ _ =>
    inr [ {| signature := "sig1"; blockTime := Some 1700000000%float |};
          lateSignature ];
  getParsedTransaction := fun _ _ sig => inr (paymentOf sig);
  getParsedTransactions := fun _ _ sigs => inr (map paymentOf sigs);
  rpcLatency := fun _ => 120%Z
|}.

(** A ledger that answers a request for the transactions of some
    signatures with two transactions for each signature. *)
Definition chattyLedger : Ledger := {|
  isValidPublicKey := looksLikePublicKey;
  HELIUS_RPC_URL := None;
  newConnection := fun _ => None;
  getBalance := fun _ _ _ => inr 0%float;
  getSignaturesForAddress := fun _ _ _ _ =>
    inr [ {| signature := "sig1"; blockTime := Some 1700000000%float |} ];
  getParsedTransaction := fun _ _ _ => inr (Some transfer);
  getParsedTransactions := fun _ _ sigs =>
    inr (flat_map (fun _ => [Some transfer; Some transfer]) sigs);
  rpcLatency := fun _ => 120%Z
|}.

(** A ledger whose requests for transactions fail with [null]. *)
Definition nullLedger : Ledger := {|
  isValidPublicKey := looksLikePublicKey;
  HELIUS_RPC_URL := None;
  newConnection := fun _ => None;
  getBalance := fun _ _ _ => inr 0%float;
  getSignaturesForAddress := fun _ _ _ _ =>
    inr [ {| signature := "sig1"; blockTime := Some 1700000000%float |} ];
  getParsedTransaction := fun _ _ _ => inl (Nullish true);
  getParsedTransactions := fun _ _ _ => inl (Nullish true);
  rpcLatency := fun _ => 120%Z
|}.

(** A ledger on which no connection can be made. *)
Definition offlineLedger : Ledger := {|
  isValidPublicKey := looksLikePublicKey;
  HELIUS_RPC_URL := None;
  newConnection := fun _ => Some (ErrorObject "Endpoint URL must start with http");
  getBalance := fun _ _ _ => inr 0%float;
  getSignaturesForAddress := fun _ _ _ _ => inr [];
  getParsedTransaction := fun _ _ _ => inr None;
  getParsedTransactions := fun _ _ sigs => inr (map (fun _ => None) sigs);
  rpcLatency := fun _ => 120%Z
|}.

(** A world whose cache holds an entry for [unusedWallet] that was
    written 400 seconds ago. *)
Definition expiredWorld : Route.World :=
  {| Route.analysisCache :=
       [ (Route.getCacheKey unusedWallet,
          {| Route.data := response unusedWallet; Route.timestamp := 0;
             Route.ttl := Route.CACHE_TTL |}) ];
     Route.net := {| clock := 400000; rpcLog := [] |} |}.

End Sample.

(** ** Auxiliary notions for binary64 numbers *)
Module Binary64.

Local Open Scope Z_scope.

(** The sign of a number that is not [NaN]. *)
Definition hasSign (s : bool) (x : spec_float) : Prop :=
  match x with
  | S754_zero s' | S754_infinity s' | S754_finite s' _ _ => s' = s
  | S754_nan => False
  end.

Definition isZeroSF (x : spec_float) : bool :=
  match x with S754_zero _ => true | _ => false end.


(** A key whose lexicographic order is the order of the format. *)
Definition sfKey (x : spec_float) : Z * Z * Z :=
  match x with
  | S754_infinity true => (-2, 0, 0)
  | S754_finite true m e => (-1, - e, - Z.pos m)
  | S754_zero _ => (0, 0, 0)
  | S754_nan => (0, 0, 0)
  | S754_finite false m e => (1, e, Z.pos m)
  | S754_infinity false => (2, 0, 0)
  end.

Definition lt3 (a b : Z * Z * Z) : Prop :=
  let '(a1, a2, a3) := a in
  let '(b1, b2, b3) := b in
  a1 < b1 \/ (a1 = b1 /\ (a2 < b2 \/ (a2 = b2 /\ a3 < b3))).

Definition notNan (x : spec_float) : Prop := x <> S754_nan.

(** Zeros, positive numbers and [+Infinity]. *)
Definition nonnegSF (x : spec_float) : bool :=
  match x with
  | S754_zero _ => true
  | S754_infinity s | S754_finite s _ _ => negb s
  | S754_nan => false
  end.

End Binary64.

(** ** Orders and predicates used in the statements *)
Module Spec.




(** The graduated-precision policy: the number of decimal places by
    magnitude, and the rendering it prescribes. *)
Definition policyDigits (value : float) : nat :=
  if (value <? 0.001)%float then 6
  else if (value <? 1)%float then 3
  else if (value <? 1000)%float then 2
  else 0.

Definition graduated `{JsNumber.Runtime} (value : float) : string :=
  if (value =? 0)%float then "0 SOL"
  else JsNumber.toFixed value (policyDigits value) ++ " SOL".

Definition isDigit (c : ascii) : bool :=
  (48 <=? nat_of_ascii c)%nat && (nat_of_ascii c <=? 57)%nat.

Fixpoint allDigits (s : string) : bool :=
  match s with
  | EmptyString => true
  | String c rest => isDigit c && allDigits rest
  end.

Fixpoint countDigits (s : string) : nat :=
  match s with
  | EmptyString => O
  | String c rest => if isDigit c then S (countDigits rest) else O
  end.

(** The number of decimal places of the numeral a string starts with: the
    digits after its point, none when it has no point. *)
Fixpoint fractionDigits (s : string) : nat :=
  match s with
  | EmptyString => O
  | String c rest =>
      if isDigit c then fractionDigits rest
      else if Ascii.eqb c "." then countDigits rest
      else O
  end.

(** The balance delta the caching revision reads at position [k]: none
    when a balance list is missing or does not reach the position. *)
Definition nativeDelta (m : Web3.TransactionMeta) (k : nat) : option float :=
  match Web3.preBalances m, Web3.postBalances m with
  | Some pre, Some post =>
      if ((k <? List.length pre) && (k <? List.length post))%nat
      then Some (JsNumber.orZero (nth k post 0%float)
                 - JsNumber.orZero (nth k pre 0%float))%float
      else None
  | _, _ => None
  end.

(** A delta that is a number other than zero. *)
Definition nonZero (d : float) : bool := negb (d =? 0)%float && negb (is_nan d).


Section Runs.
Import Web3 Eff Route.
Context `{RT : JsNumber.Runtime} `{LG : Ledger}.

Definition emptyResult (queried : string) : SolanaAnalysisResponse :=
  {| address := queried; isValid := true; relatedAccounts := []; error := None |}.

Definition thrownMessage (err : Thrown) : string :=
  messageOr "Unknown error" err.

Definition errorResult (queried : string) (err : Thrown) : SolanaAnalysisResponse :=
  {| address := queried; isValid := true; relatedAccounts := [];
     error := Some ("Failed to analyze address: " ++ thrownMessage err) |}.

(** The world after the lookup of [queried] in the cache. *)
Definition afterLookup (queried : string) (w : World) : World :=
  {| analysisCache :=
       snd (getCachedAnalysis (clock (net w)) queried (analysisCache w));
     net := net w |}.

Definition cacheMiss (queried : string) (w : World) : Prop :=
  fst (getCachedAnalysis (clock (net w)) queried (analysisCache w)) = None.

(** The world after a request was sent. *)
Definition afterRequest (call : RpcCall) (w : World) : World :=
  {| analysisCache := analysisCache w;
     net := {| clock := (clock (net w) + rpcLatency (rpcLog (net w)))%Z;
               rpcLog := (rpcLog (net w) ++ [call])%list |} |}.

(** The batch loop of a run over a non-empty listing. *)
Definition runBatches (queried rpcUrl : string)
    (signatures : list ConfirmedSignatureInfo) : M Net Aggregates :=
  let isHelius := JsString.includes "helius" rpcUrl in
  let batchSize := if isHelius then 3%nat else 5%nat in
  let maxTransactions :=
    Nat.min (List.length signatures) (if isHelius then 15 else 25) in
  forEach (batchStarts maxTransactions batchSize) noAggregates
    (processBatch queried rpcUrl isHelius batchSize signatures).

Definition successResult (queried : string) (agg : Aggregates)
  : SolanaAnalysisResponse :=
  {| address := queried; isValid := true;
     relatedAccounts := rankAccounts agg; error := None |}.

(** The requests of a run are appended to the log. *)
Definition extendsLog (n n' : Net) : Prop :=
  exists calls, rpcLog n' = (rpcLog n ++ calls)%list.

Definition logMonotone {A} (c : M Net A) : Prop :=
  forall n, extendsLog n (snd (c n)).

End Runs.

End Spec.
(** ** Further notions used in the statements *)
Module Cache.

Import Route.

(** An entry that [cleanupCache] called at [now] would remove as expired. *)
Definition expiredAt (now : Z) (cache : store) (k : string) : Prop :=
  exists e, JsMap.get k cache = Some e /\ isExpired now e = true.

(** [e] is not younger than [e']. *)
Definition notYounger (a b : string * CacheEntry) : Prop :=
  (timestamp (snd a) <= timestamp (snd b))%Z.

End Cache.

Module Run.

Import Web3 Eff Route.

(** What holds of the two maps of a run for [queried] at every point of
    the loop. *)
Record aggregatesOk (queried : string) (agg : Aggregates) : Prop := {
  interactions_wf : JsMap.wf (accountInteractions agg);
  volumes_wf : JsMap.wf (accountVolumes agg);
  volumes_counted :
    forall a, In a (JsMap.keys (accountVolumes agg)) ->
              In a (JsMap.keys (accountInteractions agg));
  counts_positive :
    forall a c, JsMap.get a (accountInteractions agg) = Some c -> (1 <= c)%Z;
  volumes_nonneg :
    forall a v, JsMap.get a (accountVolumes agg) = Some v -> (0 <=? v)%float = true;
  query_absent : ~ In queried (JsMap.keys (accountInteractions agg))
}.

(** The addresses a payload lists. *)
Definition listed (r : SolanaAnalysisResponse) : list string :=
  map ra_address (relatedAccounts r).

(** A payload as a run for its address computes it: it is marked valid,
    lists no address twice and does not list its own address. *)
Definition genuine (r : SolanaAnalysisResponse) : Prop :=
  isValid r = true /\ NoDup (listed r) /\ ~ In (address r) (listed r).

(** Every entry of the store is a genuine payload under the key of its
    own address. *)
Definition coherent (cache : store) : Prop :=
  forall k e, In (k, e) cache ->
    k = getCacheKey (address (data e)) /\ genuine (data e).

(** The requests the batch for [txSignatures] sends: one for each
    signature on Helius, one for all of them otherwise. *)
Definition batchCalls (isHelius : bool) (txSignatures : list string) : list RpcCall :=
  if isHelius then map GetParsedTransaction txSignatures
  else [GetParsedTransactions txSignatures].

(** The signatures a request asks the transactions of. *)
Definition requestedSignatures (call : RpcCall) : list string :=
  match call with
  | GetParsedTransaction sig => [sig]
  | GetParsedTransactions sigs => sigs
  | GetBalance _ | GetSignaturesForAddress _ _ => []
  end.

(** The number of transactions a run of the caching revision looks at. *)
Definition sampleSize (rpcUrl : string) (signatures : list ConfirmedSignatureInfo)
  : nat :=
  Nat.min (List.length signatures)
          (if JsString.includes "helius" rpcUrl then 15 else 25).

(** The most requests a run of the caching revision sends after the
    listing request. *)
Definition fetchBudget (rpcUrl : string) : nat :=
  if JsString.includes "helius" rpcUrl then 15 else 5.

(** The pause before a batch that is not the first one, in milliseconds. *)
Definition batchDelay (rpcUrl : string) : Z :=
  if JsString.includes "helius" rpcUrl then 2000 else 1000.

(** The number of batches of a run. *)
Definition batchCount (rpcUrl : string) (signatures : list ConfirmedSignatureInfo)
  : nat :=
  List.length (batchStarts (sampleSize rpcUrl signatures)
                 (if JsString.includes "helius" rpcUrl then 3 else 5)).

(** The string has a hyphen in it; a base58 address has none. *)
Fixpoint hasHyphen (s : string) : bool :=
  match s with
  | EmptyString => false
  | String c rest => Ascii.eqb c "-" || hasHyphen rest
  end.

End Run.

(** ** Outcomes of a computation *)
Module Outcome.

Import Web3 Eff.

(** What holds of the state after the computation [c] was run on [s]:
    [normal] when it returned, [thrown] when it threw. *)
Definition holds {S A} (c : M S A) (s : S)
    (normal : A -> S -> Prop) (thrown : Thrown -> S -> Prop) : Prop :=
  match c s with
  | (inr a, s') => normal a s'
  | (inl e, s') => thrown e s'
  end.

End Outcome.

(** ** The revision without a cache: the parts of a run and what holds of
    its records *)
Module LegacyRun.

Import Web3 Eff JsNumber Legacy Outcome.
Local Open Scope eff_scope.

(** The three labels the revision gives to interactions. *)
Definition labels : list string := ["SOL Inflow"; "SOL Outflow"; "Token Transfer"].

(** The text lines 231 and 311 compute for a signature, or the error they
    throw. *)
Definition stampOf `{Runtime} (sig : ConfirmedSignatureInfo) : Thrown + string :=
  match blockTimeOf sig with
  | Some t =>
      match JsDate.timeClip (t * 1000)%float with
      | Some ms => inr (Date_toISOString ms)
      | None => inl (ErrorObject RangeError_invalidTime)
      end
  | None => inr "Unknown"
  end.

(** Lines 245-250 for a signature whose time has the text [time]. *)
Definition stamped (sig : ConfirmedSignatureInfo) (time : string)
    (r : RelatedAccount) : RelatedAccount :=
  match blockTimeOf sig with
  | Some _ => setLastInteraction time r
  | None => r
  end.

Definition flowLabel (balanceChange : float) : string :=
  if (0 <? balanceChange)%float then "SOL Inflow" else "SOL Outflow".

(** The record after lines 239-261 went through. *)
Definition solChange (sig : ConfirmedSignatureInfo) (time : string)
    (balanceChange : float) (r : RelatedAccount) : RelatedAccount :=
  pushType (flowLabel balanceChange) (stamped sig time (addSolFlow balanceChange r)).

(** The record after lines 319-333 went through. *)
Definition tokenChange (sig : ConfirmedSignatureInfo) (time : string)
    (r : RelatedAccount) : RelatedAccount :=
  pushType "Token Transfer" (stamped sig time (addTokenInteraction r)).

(** The record of an account: the one the map has, or a new one. *)
Definition recordOf (acct time : string) (m : JsMap.t RelatedAccount)
  : RelatedAccount :=
  match JsMap.get acct m with
  | Some r => r
  | None => freshAccount acct time
  end.

(** The map with the record of the account in it. *)
Definition ensured (acct time : string) (m : JsMap.t RelatedAccount)
  : JsMap.t RelatedAccount :=
  if JsMap.has acct m then m else JsMap.set acct (freshAccount acct time) m.

(** The map [m'] is [m] with the record [r] under [k]. *)
Definition changed (k : string) (r : RelatedAccount)
    (m m' : JsMap.t RelatedAccount) : Prop :=
  JsMap.get k m' = Some r
  /\ (forall k', k' <> k -> JsMap.get k' m' = JsMap.get k' m)
  /\ (JsMap.wf m -> JsMap.wf m').

(** What holds of the record filed under [k] from its creation on.  Under
    [strict], which stands for a run none of whose batches was cut short,
    a record with token interactions carries their label. *)
Record recordInv (strict : Prop) (k : string) (r : RelatedAccount) : Prop := {
  inv_address : ra_address r = k;
  inv_types_distinct : NoDup (transactionTypes r);
  inv_types_known : forall t, In t (transactionTypes r) -> In t labels;
  inv_tokens :
    exists c, totalTokenInteractions r = Some c
              /\ (0 <= c <= transactionCount r)%Z
              /\ (In "Token Transfer" (transactionTypes r) -> (0 < c)%Z)
              /\ (strict -> (0 < c)%Z -> In "Token Transfer" (transactionTypes r));
  inv_flow : exists f, totalSolFlowLamports r = Some f
}.

(** What holds of it once an interaction was recorded. *)
Definition recordOk (strict : Prop) (k : string) (r : RelatedAccount) : Prop :=
  recordInv strict k r /\ (1 <= transactionCount r)%Z /\ transactionTypes r <> [].

Definition debugOk (d : DebugInfo) : Prop :=
  totalAccounts d = (balanceChanges d + tokenChanges d)%Z
  /\ (0 <= processedTxs d)%Z /\ (0 <= balanceChanges d)%Z
  /\ (0 <= tokenChanges d)%Z /\ (0 <= filteredAccounts d)%Z.

(** The state of the map between two steps of a pass. *)
Definition mapOk (strict : Prop) (queried : string) (m : JsMap.t RelatedAccount)
  : Prop :=
  JsMap.wf m /\
  forall k r, JsMap.get k m = Some r -> recordOk strict k r /\ k <> queried.

(** What holds of the state of a run for [queried] between two steps. *)
Record analysisOk (strict : Prop) (queried : string) (st : Analysis) : Prop := {
  map_ok : mapOk strict queried (relatedAccountsMap st);
  debug_ok : debugOk (debugInfo st)
}.

(** What a pass changes of the debug record: it looks at [n]
    transactions at most, and leaves the errors and the endpoint alone. *)
Definition advance (n : nat) (st st' : Analysis) : Prop :=
  errors (debugInfo st') = errors (debugInfo st)
  /\ rpcUsed (debugInfo st') = rpcUsed (debugInfo st)
  /\ (processedTxs (debugInfo st) <= processedTxs (debugInfo st')
      <= processedTxs (debugInfo st) + Z.of_nat n)%Z.

(** What a pass keeps: the state is well formed when the pass returns or
    throws, and a pass that returns leaves no record half updated. *)
Definition keeps (strict : Prop) (queried : string) (n : nat)
    (c : M Analysis unit) : Prop :=
  forall st, analysisOk strict queried st ->
    holds c st
      (fun _ st' => analysisOk strict queried st' /\ advance n st st')
      (fun _ st' => analysisOk False queried st' /\ advance n st st').

(** The endpoint answers a request for several transactions with no more
    transactions than it was asked for. *)
Definition answersFit `{Ledger} (rpcUrl : string) : Prop :=
  forall log sigs txs,
    getParsedTransactions rpcUrl log sigs = inr txs ->
    (List.length txs <= List.length sigs)%nat.

(** What a batch changes of the run, however it ends. *)
Record batchStep `{Ledger} (rpcUrl : string) (isHelius : bool) (s s' : RunState)
  : Prop := {
  step_calls :
    exists calls, rpcLog (net s') = (rpcLog (net s) ++ calls)%list
                  /\ (List.length calls <= 1)%nat;
  step_endpoint :
    rpcUsed (debugInfo (analysis s')) = rpcUsed (debugInfo (analysis s));
  step_errors :
    exists lines, errors (debugInfo (analysis s'))
                  = (errors (debugInfo (analysis s)) ++ lines)%list
                  /\ (List.length lines <= 1)%nat;
  step_processed :
    (processedTxs (debugInfo (analysis s)) <= processedTxs (debugInfo (analysis s')))%Z;
  step_fit :
    isHelius = true \/ answersFit rpcUrl ->
    (processedTxs (debugInfo (analysis s'))
     <= processedTxs (debugInfo (analysis s)) + 1)%Z
}.

(** What [b] batches change of the run, however they end. *)
Record ranBatches `{Ledger} (rpcUrl : string) (isHelius : bool) (b : nat)
    (s0 s : RunState) : Prop := {
  run_calls :
    exists calls, rpcLog (net s) = (rpcLog (net s0) ++ calls)%list
                  /\ (List.length calls <= b)%nat;
  run_endpoint :
    rpcUsed (debugInfo (analysis s)) = rpcUsed (debugInfo (analysis s0));
  run_errors :
    (List.length (errors (debugInfo (analysis s)))
     <= List.length (errors (debugInfo (analysis s0))) + b)%nat;
  run_processed :
    (processedTxs (debugInfo (analysis s0)) <= processedTxs (debugInfo (analysis s)))%Z;
  run_fit :
    isHelius = true \/ answersFit rpcUrl ->
    (processedTxs (debugInfo (analysis s))
     <= processedTxs (debugInfo (analysis s0)) + Z.of_nat b)%Z
}.

(** Lines 85-95: the probe of the connection, which gives the endpoint
    the run goes on with. *)
Definition probe `{Ledger} (queried rpcUrl0 : string) : M Net string :=
  tryCatch
    (request (GetBalance queried) (fun log => getBalance rpcUrl0 log queried) ;;;
     ret rpcUrl0)
    (fun _ =>
       let url := nth 1 FALLBACK_RPCS "" in
       match newConnection url with
       | Some e => throw e
       | None => ret url
       end).

Definition initialDebug (rpcUrl : string) : DebugInfo :=
  {| processedTxs := 0; totalAccounts := 0; filteredAccounts := 0;
     errors := []; balanceChanges := 0; tokenChanges := 0;
     rpcUsed := rpcUrl; finalAccountCount := None |}.

Definition sampleSize (rpcUrl : string) (signatures : list ConfirmedSignatureInfo)
  : nat :=
  Nat.min (List.length signatures)
          (if JsString.includes "helius" rpcUrl then 15 else 8).

(** Lines 80-116: the connection, its probe, the listing and the estimate
    of the total, which give the endpoint, the signatures and the total
    the batch loop starts from. *)
Definition prelude `{Ledger} (queried rpcUrl0 : string)
  : M Net (string * list ConfirmedSignatureInfo * Z) :=
  match newConnection rpcUrl0 with
  | Some e => throw e
  | None =>
      rpcUrl <- probe queried rpcUrl0 ;;
      signatures <- request (GetSignaturesForAddress queried 50)
                      (fun log => getSignaturesForAddress rpcUrl log queried 50) ;;
      total <- estimateTotal queried rpcUrl signatures ;;
      ret (rpcUrl, signatures, total)
  end.

(** The payload for a listing without signatures (lines 118-126). *)
Definition emptyResult (queried : string) (total : Z) : SolanaAnalysisResponse :=
  {| address := queried; isValid := true;
     totalTransactions := Some total; sampledTransactions := Some 0%Z;
     relatedAccounts := Some []; error := None; debug := None |}.

(** The payload of a run that went through (lines 349-380). *)
Definition successResult `{Runtime} (queried : string) (total : Z) (st : Analysis)
  : SolanaAnalysisResponse :=
  let related := rankAccounts (relatedAccountsMap st) in
  let d := debugInfo st in
  {| address := queried; isValid := true;
     totalTransactions := Some total;
     sampledTransactions := Some (processedTxs d);
     relatedAccounts := Some related;
     error := None;
     debug := Some
       {| processedTxs := processedTxs d; totalAccounts := totalAccounts d;
          filteredAccounts := filteredAccounts d; errors := errors d;
          balanceChanges := balanceChanges d; tokenChanges := tokenChanges d;
          rpcUsed := rpcUsed d;
          finalAccountCount := Some (Z.of_nat (List.length related)) |} |}.

(** The payload of a run that failed as a whole (lines 382-389). *)
Definition errorResult (queried : string) (err : Thrown) : SolanaAnalysisResponse :=
  {| address := queried; isValid := true;
     totalTransactions := None; sampledTransactions := None;
     relatedAccounts := None;
     error := Some ("Failed to analyze address: " ++ messageOr "Unknown error" err);
     debug := None |}.

(** The record cut to its first [k] participants. *)
Definition upTo (k : nat) (t : ParsedTransaction) : ParsedTransaction :=
  {| meta := meta t; accountKeys := option_map (firstn k) (accountKeys t) |}.

End LegacyRun.


(** * Facts about the containers *)

Section JsMapFacts.
Context {V : Type}.
Implicit Types (m : JsMap.t V) (k : string) (v : V).

Lemma JsMap_get_set_same m k v : JsMap.get k (JsMap.set k v m) = Some v.
Proof.
  induction m as [|[k' v'] rest IH]; simpl.
  - now rewrite String.eqb_refl.
  - destruct (String.eqb k k') eqn:E; simpl; rewrite ?String.eqb_refl, ?E; auto.
Qed.

Lemma JsMap_get_set_other m k k' v :
  k <> k' -> JsMap.get k' (JsMap.set k v m) = JsMap.get k' m.
Proof.
  intros Hne. induction m as [|[k0 v0] rest IH]; simpl.
  - destruct (String.eqb k' k) eqn:E; auto.
    apply String.eqb_eq in E. congruence.
  - destruct (String.eqb k k0) eqn:E; simpl.
    + apply String.eqb_eq in E. subst k0.
      destruct (String.eqb k' k) eqn:E'; auto.
      apply String.eqb_eq in E'. congruence.
    + now rewrite IH.
Qed.

Lemma JsMap_get_none_keys m k : JsMap.get k m = None <-> ~ In k (JsMap.keys m).
Proof.
  induction m as [|[k' v'] rest IH]; simpl.
  - tauto.
  - destruct (String.eqb k k') eqn:E.
    + apply String.eqb_eq in E. subst. split; [discriminate | tauto].
    + apply String.eqb_neq in E. rewrite IH. split.
      * intros H [H1 | H1]; [congruence | tauto].
      * tauto.
Qed.

Lemma JsMap_keys_delete_subset m k x :
  In x (JsMap.keys (JsMap.delete k m)) -> In x (JsMap.keys m).
Proof.
  induction m as [|[k' v'] rest IH]; simpl; auto.
  destruct (String.eqb k k'); simpl; tauto.
Qed.

Lemma JsMap_wf_delete m k : JsMap.wf m -> JsMap.wf (JsMap.delete k m).
Proof.
  unfold JsMap.wf. induction m as [|[k' v'] rest IH]; simpl; auto.
  intros Hnd. inversion Hnd; subst.
  destruct (String.eqb k k'); simpl; auto.
  constructor; auto. intro Hin. now apply JsMap_keys_delete_subset in Hin.
Qed.

Lemma JsMap_get_delete_same m k :
  JsMap.wf m -> JsMap.get k (JsMap.delete k m) = None.
Proof.
  unfold JsMap.wf. induction m as [|[k' v'] rest IH]; simpl; auto.
  intros Hnd. inversion Hnd; subst.
  destruct (String.eqb k k') eqn:E; simpl.
  - apply String.eqb_eq in E. subst. now apply JsMap_get_none_keys.
  - rewrite E. auto.
Qed.

Lemma JsMap_get_delete_other m k k' :
  k <> k' -> JsMap.get k' (JsMap.delete k m) = JsMap.get k' m.
Proof.
  intros Hne. induction m as [|[k0 v0] rest IH]; simpl; auto.
  destruct (String.eqb k k0) eqn:E; simpl.
  - apply String.eqb_eq in E. subst k0.
    destruct (String.eqb k' k) eqn:E'; auto.
    apply String.eqb_eq in E'. congruence.
  - now rewrite IH.
Qed.

Lemma JsMap_keys_set_fresh m k v :
  JsMap.get k m = None -> JsMap.keys (JsMap.set k v m) = (JsMap.keys m ++ [k])%list.
Proof.
  induction m as [|[k' v'] rest IH]; simpl; auto.
  destruct (String.eqb k k') eqn:E; [discriminate|].
  intros H. simpl. now rewrite IH.
Qed.

Lemma JsMap_keys_set_present m k v :
  JsMap.get k m <> None -> JsMap.keys (JsMap.set k v m) = JsMap.keys m.
Proof.
  induction m as [|[k' v'] rest IH]; simpl; [congruence|].
  destruct (String.eqb k k') eqn:E; simpl.
  - apply String.eqb_eq in E. now subst.
  - intros H. now rewrite IH.
Qed.

Lemma JsMap_wf_set m k v : JsMap.wf m -> JsMap.wf (JsMap.set k v m).
Proof.
  unfold JsMap.wf. intros Hnd.
  destruct (JsMap.get k m) eqn:G.
  - rewrite JsMap_keys_set_present; [auto | congruence].
  - rewrite JsMap_keys_set_fresh by auto.
    apply NoDup_app; auto.
    + constructor; [simpl; tauto | constructor].
    + intros x Hx [<- | []]. now apply JsMap_get_none_keys in G.
Qed.

Lemma JsMap_size_set_fresh m k v :
  JsMap.get k m = None -> JsMap.size (JsMap.set k v m) = S (JsMap.size m).
Proof.
  intros G. unfold JsMap.size.
  rewrite <- (length_map fst), <- (length_map fst m).
  change (map fst (JsMap.set k v m)) with (JsMap.keys (JsMap.set k v m)).
  rewrite JsMap_keys_set_fresh by auto.
  rewrite length_app. simpl. unfold JsMap.keys. lia.
Qed.

Lemma JsMap_size_delete_present m k :
  JsMap.get k m <> None -> S (JsMap.size (JsMap.delete k m)) = JsMap.size m.
Proof.
  unfold JsMap.size. induction m as [|[k' v'] rest IH]; simpl; [congruence|].
  destruct (String.eqb k k') eqn:E; simpl; auto.
Qed.

Lemma JsMap_delete_absent m k : JsMap.get k m = None -> JsMap.delete k m = m.
Proof.
  induction m as [|[k' v'] rest IH]; simpl; auto.
  destruct (String.eqb k k') eqn:E; [discriminate|].
  intros G. now rewrite IH.
Qed.

Lemma JsMap_get_In (k : string) (v : V) (m : JsMap.t V) :
  JsMap.get k m = Some v -> In (k, v) m.
Proof.
  induction m as [|[k' v'] rest IH]; simpl; [discriminate|].
  destruct (String.eqb k k') eqn:E.
  - apply String.eqb_eq in E. intros [= ->]. subst. now left.
  - intros H. right. auto.
Qed.

End JsMapFacts.

(** * Facts about binary64 arithmetic *)

Section SpecFloatFacts.
Import Binary64.

Local Open Scope Z_scope.

Lemma digits2_pos_bounds (m : positive) :
  2 ^ (Z.pos (digits2_pos m) - 1) <= Z.pos m < 2 ^ Z.pos (digits2_pos m).
Proof.
  induction m as [m IH|m IH|]; cbn [digits2_pos].
  - rewrite Pos2Z.inj_succ.
    replace (Z.succ (Z.pos (digits2_pos m)) - 1) with (Z.succ (Z.pos (digits2_pos m) - 1)) by lia.
    rewrite !Z.pow_succ_r by lia. lia.
  - rewrite Pos2Z.inj_succ.
    replace (Z.succ (Z.pos (digits2_pos m)) - 1) with (Z.succ (Z.pos (digits2_pos m) - 1)) by lia.
    rewrite !Z.pow_succ_r by lia. lia.
  - simpl. lia.
Qed.

(** [shr_1] halves a non-negative mantissa. *)
Lemma shr_1_m (r : shr_record) :
  0 <= shr_m r -> shr_m (shr_1 r) = shr_m r / 2.
Proof.
  destruct r as [m rb sb]. cbn [shr_m]. intros Hm.
  destruct m as [|p|p]; [reflexivity| |lia].
  destruct p as [p|p|]; cbn [shr_1 shr_m].
  - rewrite Pos2Z.inj_xI. apply Z.div_unique with (r := 1); lia.
  - rewrite Pos2Z.inj_xO. apply Z.div_unique with (r := 0); lia.
  - reflexivity.
Qed.

Lemma pow2_xO (p : positive) : 2 ^ Z.pos p~0 = 2 ^ Z.pos p * 2 ^ Z.pos p.
Proof. rewrite <- Z.pow_add_r by lia. f_equal. lia. Qed.

Lemma pow2_xI (p : positive) : 2 ^ Z.pos p~1 = 2 * (2 ^ Z.pos p * 2 ^ Z.pos p).
Proof.
  rewrite <- Z.pow_add_r, <- Z.pow_succ_r by lia. f_equal. lia.
Qed.

Lemma iter_shr_1_m (p : positive) : forall r : shr_record,
  0 <= shr_m r -> shr_m (iter_pos shr_1 p r) = shr_m r / 2 ^ Z.pos p.
Proof.
  induction p as [p IH|p IH|]; intros r Hr; cbn [iter_pos].
  - assert (H1 : 0 <= shr_m (shr_1 r)) by (rewrite shr_1_m by lia; apply Z.div_pos; lia).
    assert (H2 : 0 <= shr_m (iter_pos shr_1 p (shr_1 r)))
      by (rewrite IH by lia; apply Z.div_pos; lia).
    rewrite IH, IH, shr_1_m by lia.
    rewrite !Z.div_div by lia. now rewrite pow2_xI.
  - assert (H2 : 0 <= shr_m (iter_pos shr_1 p r))
      by (rewrite IH by lia; apply Z.div_pos; lia).
    rewrite IH, IH by lia. rewrite Z.div_div by lia. now rewrite pow2_xO.
  - rewrite shr_1_m by lia. now rewrite Z.pow_1_r.
Qed.

Lemma shr_m_of_loc (m : Z) (l : location) : shr_m (shr_record_of_loc m l) = m.
Proof. destruct l as [|[]]; reflexivity. Qed.

Lemma shr_fexp_nonneg (m e : Z) (l : location) :
  0 <= m -> 0 <= shr_m (fst (shr_fexp prec emax m e l)).
Proof.
  intros Hm. unfold shr_fexp, shr.
  destruct (fexp prec emax (Zdigits2 m + e) - e) as [|q|q]; cbn [fst];
    rewrite ?iter_shr_1_m; rewrite ?shr_m_of_loc; try lia.
  apply Z.div_pos; lia.
Qed.

Lemma shr_fexp_pos (m e : Z) (l : location) :
  0 < m -> emin <= e ->
  0 < shr_m (fst (shr_fexp prec emax m e l)) /\
  emin <= snd (shr_fexp prec emax m e l).
Proof.
  intros Hm He. unfold shr_fexp, shr.
  destruct m as [|p|p]; try lia. cbn [Zdigits2].
  pose proof (digits2_pos_bounds p) as [Hlo Hhi].
  destruct (fexp prec emax (Z.pos (digits2_pos p) + e) - e) as [|q|q] eqn:En;
    cbn [fst snd]; rewrite ?shr_m_of_loc; try (split; lia).
  rewrite iter_shr_1_m by (rewrite shr_m_of_loc; lia). rewrite shr_m_of_loc.
  unfold fexp, SpecFloat.emin, prec, emax in *.
  assert (Hq : Z.pos q = Z.pos (digits2_pos p) - 53) by lia.
  split; [|lia].
  apply Z.div_str_pos. split; [lia|].
  apply Z.le_trans with (2 ^ (Z.pos (digits2_pos p) - 1)); [|lia].
  apply Z.pow_le_mono_r; lia.
Qed.

Lemma round_nearest_even_ge (m : Z) (l : location) : m <= round_nearest_even m l.
Proof.
  destruct l as [|[]]; cbn [round_nearest_even]; try lia.
  destruct (Z.even m); lia.
Qed.

Lemma binary_round_aux_sign (s : bool) (m e : Z) (l : location) :
  0 <= m -> hasSign s (binary_round_aux prec emax s m e l).
Proof.
  intros Hm. unfold binary_round_aux.
  pose proof (shr_fexp_nonneg m e l Hm) as H1.
  destruct (shr_fexp prec emax m e l) as [mrs' e'] eqn:E1. cbn [fst] in H1.
  pose proof (round_nearest_even_ge (shr_m mrs') (loc_of_shr_record mrs')) as H2.
  pose proof (shr_fexp_nonneg (round_nearest_even (shr_m mrs') (loc_of_shr_record mrs'))
                e' loc_Exact ltac:(lia)) as H3.
  destruct (shr_fexp prec emax _ e' loc_Exact) as [mrs'' e''] eqn:E2. cbn [fst] in H3.
  destruct (shr_m mrs'') as [|p|p]; [reflexivity| |lia].
  destruct (e'' <=? emax - prec); reflexivity.
Qed.

Lemma binary_round_aux_nonzero (s : bool) (m e : Z) (l : location) :
  0 < m -> emin <= e ->
  isZeroSF (binary_round_aux prec emax s m e l) = false.
Proof.
  intros Hm He. unfold binary_round_aux.
  pose proof (shr_fexp_pos m e l Hm He) as [H1 H1e].
  destruct (shr_fexp prec emax m e l) as [mrs' e'] eqn:E1. cbn [fst snd] in *.
  pose proof (round_nearest_even_ge (shr_m mrs') (loc_of_shr_record mrs')) as H2.
  pose proof (shr_fexp_pos (round_nearest_even (shr_m mrs') (loc_of_shr_record mrs'))
                e' loc_Exact ltac:(lia) H1e) as [H3 _].
  destruct (shr_fexp prec emax _ e' loc_Exact) as [mrs'' e''] eqn:E2. cbn [fst] in H3.
  destruct (shr_m mrs'') as [|p|p]; [lia| |lia].
  destruct (e'' <=? emax - prec); reflexivity.
Qed.

Lemma shl_align_exp (mx : positive) (ex ex' : Z) :
  emin <= ex -> emin <= ex' -> emin <= snd (shl_align mx ex ex').
Proof.
  intros H1 H2. unfold shl_align. destruct (ex' - ex); cbn [snd]; lia.
Qed.

Lemma binary_round_sign (s : bool) (mx : positive) (ex : Z) :
  emin <= ex ->
  hasSign s (binary_round prec emax s mx ex) /\
  isZeroSF (binary_round prec emax s mx ex) = false.
Proof.
  intros He. unfold binary_round.
  pose proof (shl_align_exp mx ex (fexp prec emax (Z.pos (digits2_pos mx) + ex)) He
                ltac:(unfold fexp; lia)) as Hz.
  destruct (shl_align mx ex _) as [mz ez]. cbn [snd] in Hz.
  split; [apply binary_round_aux_sign | apply binary_round_aux_nonzero]; lia.
Qed.

(** The sign of a normalized integer multiple of a power of two is the
    sign of the integer, and only zero gives zero. *)
Lemma binary_normalize_sign (m e : Z) :
  emin <= e ->
  match binary_normalize prec emax m e false with
  | S754_zero s => m = 0 /\ s = false
  | S754_infinity s | S754_finite s _ _ => if s then m < 0 else 0 < m
  | S754_nan => False
  end.
Proof.
  intros He. destruct m as [|p|p]; cbn [binary_normalize].
  - auto.
  - destruct (binary_round_sign false p e He) as [H1 H2].
    destruct (binary_round prec emax false p e); cbn in *; subst; try lia; try discriminate; auto.
  - destruct (binary_round_sign true p e He) as [H1 H2].
    destruct (binary_round prec emax true p e); cbn in *; subst; try lia; try discriminate; auto.
Qed.

Lemma valid_finite (s : bool) (m : positive) (e : Z) :
  valid_binary (S754_finite s m e) = true ->
  emin <= e /\ Z.pos (digits2_pos m) <= 53 /\
  (emin < e -> Z.pos (digits2_pos m) = 53).
Proof.
  unfold SpecFloat.valid_binary, bounded, canonical_mantissa, fexp,
    SpecFloat.emin, prec, emax.
  intros H. apply andb_prop in H. destruct H as [H _].
  apply Z.eqb_eq in H. lia.
Qed.






(** *** The order of the format as a lexicographic order *)

Lemma SFcompare_key (x y : spec_float) :
  match SFcompare x y with
  | Some Lt => lt3 (sfKey x) (sfKey y)
  | Some Eq => sfKey x = sfKey y
  | Some Gt => lt3 (sfKey y) (sfKey x)
  | None => x = S754_nan \/ y = S754_nan
  end.
Proof.
  destruct x as [sx|sx| |sx mx ex], y as [sy|sy| |sy my ey]; cbn [SFcompare];
    try (now left); try (now right);
    try (destruct sx; cbn; lia); try (destruct sy; cbn; lia);
    try (destruct sx, sy; cbn; solve [lia | reflexivity]).
  destruct sx, sy; try (cbn; lia);
    destruct (Z.compare_spec ex ey) as [He|He|He]; try (cbn; lia);
    rewrite Pos.compare_cont_spec;
    destruct (Pos.compare_spec mx my) as [Hm|Hm|Hm];
    cbn [Pos.switch_Eq CompOpp sfKey lt3]; subst; try reflexivity; lia.
Qed.

Lemma SFcompare_none (x y : spec_float) :
  SFcompare x y = None <-> x = S754_nan \/ y = S754_nan.
Proof.
  split.
  - intros H. pose proof (SFcompare_key x y) as K. now rewrite H in K.
  - intros [-> | ->]; [reflexivity|]. now destruct x.
Qed.

Lemma SFltb_key (x y : spec_float) :
  SFltb x y = true <-> notNan x /\ notNan y /\ lt3 (sfKey x) (sfKey y).
Proof.
  unfold SFltb, notNan. pose proof (SFcompare_key x y) as K.
  pose proof (SFcompare_none x y) as N.
  destruct (SFcompare x y) as [[]|]; split; try discriminate; auto.
  - intros (_ & _ & H). rewrite K in H.
    destruct (sfKey y) as [[a b] c]. cbn in H. lia.
  - intros _. split; [|split; [|exact K]]; intros ->;
      destruct N as [_ N]; (discriminate N; auto).
  - intros (_ & _ & H).
    destruct (sfKey x) as [[a b] c], (sfKey y) as [[a' b'] c']. cbn in *. lia.
  - intros (Hx & Hy & _). destruct K; contradiction.
Qed.

Lemma SFeqb_key (x y : spec_float) :
  SFeqb x y = true <-> notNan x /\ notNan y /\ sfKey x = sfKey y.
Proof.
  unfold SFeqb, notNan. pose proof (SFcompare_key x y) as K.
  pose proof (SFcompare_none x y) as N.
  destruct (SFcompare x y) as [[]|]; split; try discriminate; auto.
  - intros _. split; [|split; [|exact K]]; intros ->;
      destruct N as [_ N]; (discriminate N; auto).
  - intros (_ & _ & H). rewrite H in K.
    destruct (sfKey y) as [[a b] c]. cbn in K. lia.
  - intros (_ & _ & H). rewrite H in K.
    destruct (sfKey y) as [[a b] c]. cbn in K. lia.
  - intros (Hx & Hy & _). destruct K; contradiction.
Qed.

(** *** Numbers that are not negative *)

Lemma SFleb_zero (x : spec_float) : SFleb (S754_zero false) x = nonnegSF x.
Proof. destruct x as [s|s| |s m e]; try reflexivity; now destruct s. Qed.

Lemma SFltb_zero (x : spec_float) :
  SFltb (S754_zero false) x = nonnegSF x && negb (isZeroSF x).
Proof. destruct x as [s|s| |s m e]; try reflexivity; now destruct s. Qed.

Lemma SFadd_nonneg (x y : spec_float) :
  valid_binary x = true -> valid_binary y = true ->
  nonnegSF x = true -> nonnegSF y = true -> nonnegSF (SF64add x y) = true.
Proof.
  intros Hx Hy Nx Ny.
  destruct x as [sx|sx| |sx mx ex], y as [sy|sy| |sy my ey];
    cbn [nonnegSF] in *; try discriminate;
    try (destruct sx; try discriminate); try (destruct sy; try discriminate);
    try reflexivity.
  unfold SF64add, SFadd. cbv zeta. cbn [cond_Zopp].
  destruct (valid_finite _ _ _ Hx) as (Hex & _).
  destruct (valid_finite _ _ _ Hy) as (Hey & _).
  pose proof (binary_normalize_sign
                (Z.pos (fst (shl_align mx ex (Z.min ex ey)))
                 + Z.pos (fst (shl_align my ey (Z.min ex ey))))
                (Z.min ex ey) ltac:(lia)) as Hn.
  destruct (binary_normalize prec emax _ (Z.min ex ey) false) as [s|s| |s m e];
    try contradiction; try reflexivity; destruct s; try reflexivity; lia.
Qed.

Lemma SFdiv_nonneg (x : spec_float) (my : positive) (ey : Z) :
  nonnegSF x = true -> nonnegSF (SF64div x (S754_finite false my ey)) = true.
Proof.
  intros Nx.
  destruct x as [sx|sx| |sx mx ex]; cbn [nonnegSF] in *; try discriminate;
    try (destruct sx; try discriminate; reflexivity).
  destruct sx; [discriminate|].
  unfold SF64div, SFdiv, SFdiv_core_binary. cbv zeta.
  set (s := (ex - ey - _)%Z).
  set (m' := match s with Z.pos _ => Z.shiftl (Z.pos mx) s | Z0 => Z.pos mx | Z.neg _ => 0 end).
  assert (Hm' : 0 <= m').
  { subst m'. destruct s; try lia. apply Z.shiftl_nonneg. lia. }
  pose proof (Z_div_mod m' (Z.pos my) ltac:(lia)) as Hdiv.
  destruct (Z.div_eucl m' (Z.pos my)) as [q r].
  assert (Hq : 0 <= q) by nia.
  pose proof (binary_round_aux_sign (xorb false false) q
                (Z.min (fexp prec emax (Zdigits2 (Z.pos mx) + ex - (Zdigits2 (Z.pos my) + ey)))
                       (ex - ey))
                (new_location (Z.pos my) r) Hq) as Hs.
  destruct (binary_round_aux prec emax (xorb false false) q _ _) as [s'|s'| |s' m e];
    cbn in Hs; try contradiction; subst; reflexivity.
Qed.





End SpecFloatFacts.

Section FloatFacts.
Import Binary64.

Local Open Scope float_scope.

Lemma Prim2SF_zero : Prim2SF 0 = S754_zero false.
Proof. reflexivity. Qed.

Lemma is_nan_spec (x : float) : is_nan x = true <-> Prim2SF x = S754_nan.
Proof.
  unfold is_nan. rewrite eqb_spec, negb_true_iff.
  pose proof (SFeqb_key (Prim2SF x) (Prim2SF x)) as K. unfold notNan in K.
  destruct (SFeqb (Prim2SF x) (Prim2SF x)).
  - split; [discriminate|]. intros H. destruct K as [K _].
    destruct (K eq_refl) as [Hn _]. contradiction.
  - split; [intros _|reflexivity].
    destruct (Prim2SF x) eqn:E; try reflexivity;
      destruct K as [_ K]; discriminate K; repeat split; discriminate.
Qed.

Lemma not_nan_spec (x : float) : is_nan x = false <-> notNan (Prim2SF x).
Proof.
  unfold notNan. rewrite <- is_nan_spec. destruct (is_nan x); split; congruence.
Qed.

Lemma ltb_not_nan (x y : float) :
  (x <? y) = true -> is_nan x = false /\ is_nan y = false.
Proof.
  rewrite ltb_spec, SFltb_key, !not_nan_spec. tauto.
Qed.

Lemma eqb_not_nan (x y : float) :
  (x =? y) = true -> is_nan x = false /\ is_nan y = false.
Proof.
  rewrite eqb_spec, SFeqb_key, !not_nan_spec. tauto.
Qed.


Lemma ltb_eqb_trans (x y z : float) :
  (x <? y) = true -> (y =? z) = true -> (x <? z) = true.
Proof.
  rewrite !ltb_spec, eqb_spec, !SFltb_key, SFeqb_key.
  intros (? & ? & ?) (? & ? & E). rewrite <- E. auto.
Qed.


Lemma eqb_trans (x y z : float) :
  (x =? y) = true -> (y =? z) = true -> (x =? z) = true.
Proof.
  rewrite !eqb_spec, !SFeqb_key.
  intros (? & ? & E) (? & ? & E'). rewrite E, E'. auto.
Qed.

Lemma eqb_sym (x y : float) : (x =? y) = (y =? x).
Proof.
  apply eq_true_iff_eq. rewrite !eqb_spec, !SFeqb_key.
  split; intros (? & ? & E); auto.
Qed.

Lemma eqb_refl (x : float) : is_nan x = false -> (x =? x) = true.
Proof. unfold is_nan. now rewrite negb_false_iff. Qed.


Lemma ltb_asym (x y : float) : (x <? y) = true -> (y <? x) = false.
Proof.
  intros H. destruct (y <? x) eqn:E; [|reflexivity].
  rewrite ltb_spec, SFltb_key in H, E.
  destruct (sfKey (Prim2SF x)) as [[a1 a2] a3], (sfKey (Prim2SF y)) as [[b1 b2] b3].
  cbn [lt3] in *. lia.
Qed.

Lemma ltb_neq (x y : float) : (x <? y) = true -> (x =? y) = false.
Proof.
  intros H. destruct (x =? y) eqn:E; [|reflexivity].
  rewrite ltb_spec, SFltb_key in H. rewrite eqb_spec, SFeqb_key in E.
  destruct H as (_ & _ & H). destruct E as (_ & _ & E). rewrite E in H.
  destruct (sfKey (Prim2SF y)) as [[b1 b2] b3]. cbn [lt3] in H. lia.
Qed.

Lemma leb_ltb_eqb (x y : float) : (x <=? y) = ((x <? y) || (x =? y)).
Proof.
  rewrite leb_spec, ltb_spec, eqb_spec. unfold SFleb, SFltb, SFeqb.
  now destruct (SFcompare (Prim2SF x) (Prim2SF y)) as [[]|].
Qed.


(** [Math.abs(d) > 0] holds for every [d] but the zeros and [NaN]. *)
Lemma abs_positive (d : float) :
  (0 <? abs d) = negb (d =? 0) && negb (is_nan d).
Proof.
  destruct (is_nan d) eqn:N.
  - rewrite andb_false_r. apply is_nan_spec in N.
    now rewrite ltb_spec, abs_spec, N.
  - rewrite andb_true_r. apply not_nan_spec in N. unfold notNan in N.
    rewrite ltb_spec, eqb_spec, abs_spec, Prim2SF_zero.
    destruct (Prim2SF d) as [s|s| |s m e]; try reflexivity; try contradiction;
      now destruct s.
Qed.


Lemma leb_zero_spec (x : float) : (0 <=? x) = nonnegSF (Prim2SF x).
Proof. now rewrite leb_spec, Prim2SF_zero, SFleb_zero. Qed.

Lemma is_infinity_spec (x : float) :
  is_infinity x = match Prim2SF x with S754_infinity _ => true | _ => false end.
Proof.
  unfold is_infinity. rewrite eqb_spec, abs_spec.
  change (Prim2SF infinity) with (S754_infinity false).
  destruct (Prim2SF x) as [s|s| |s m e]; reflexivity.
Qed.


Lemma add_nonneg (x y : float) :
  (0 <=? x) = true -> (0 <=? y) = true -> (0 <=? x + y) = true.
Proof.
  rewrite !leb_zero_spec, add_spec. apply SFadd_nonneg; apply Prim2SF_valid.
Qed.

Lemma div_nonneg (x c : float) :
  (0 <=? x) = true -> (0 <? c) = true -> is_infinity c = false ->
  (0 <=? x / c) = true.
Proof.
  rewrite !leb_zero_spec, ltb_spec, Prim2SF_zero, SFltb_zero, is_infinity_spec, div_spec.
  destruct (Prim2SF c) as [s|s| |s m e]; try discriminate.
  destruct s; [discriminate|]. intros Hx _ _. now apply SFdiv_nonneg.
Qed.

Lemma ltb_leb (x y : float) : (x <? y) = true -> (x <=? y) = true.
Proof. intros H. now rewrite leb_ltb_eqb, H. Qed.




End FloatFacts.

(** * Facts about the sort *)

Section SortFacts.
Context {A : Type} (before : A -> A -> bool).

Lemma insert_perm (x : A) (l : list A) :
  Permutation (JsArray.insert before x l) (x :: l).
Proof.
  induction l as [|h t IH]; cbn [JsArray.insert]; [reflexivity|].
  destruct (before h x); [|reflexivity].
  rewrite IH. apply perm_swap.
Qed.

Lemma sort_perm (l : list A) : Permutation (JsArray.sort before l) l.
Proof.
  induction l as [|h t IH]; cbn [JsArray.sort]; [reflexivity|].
  rewrite insert_perm. now constructor.
Qed.

Lemma sort_length (l : list A) : List.length (JsArray.sort before l) = List.length l.
Proof. apply Permutation_length, sort_perm. Qed.

(** The sort orders its input by any transitive relation [R] that the
    comparator decides on the elements it is given. *)
Context (R : A -> A -> Prop) (P : A -> Prop).
Hypothesis R_trans : forall a b c, R a b -> R b c -> R a c.
Hypothesis before_R : forall a b, before a b = true -> R a b.
Hypothesis not_before_R : forall a b, P a -> P b -> before a b = false -> R b a.

Lemma insert_sorted (x : A) (l : list A) :
  P x -> Forall P l -> StronglySorted R l ->
  StronglySorted R (JsArray.insert before x l).
Proof.
  intros Px. induction l as [|h t IH]; intros HP Hs; cbn [JsArray.insert].
  - repeat constructor.
  - inversion HP as [|? ? Ph HPt]; subst.
    inversion Hs as [|? ? Hst Hall]; subst.
    destruct (before h x) eqn:E.
    + constructor; [now apply IH|].
      apply (Permutation_Forall (Permutation_sym (insert_perm x t))).
      constructor; auto.
    + assert (Rxh : R x h) by (now apply not_before_R).
      constructor; [assumption|].
      constructor; [assumption|].
      eapply Forall_impl; [|exact Hall]. intros a Ra. eapply R_trans; eauto.
Qed.

Lemma sort_sorted (l : list A) :
  Forall P l -> StronglySorted R (JsArray.sort before l).
Proof.
  induction l as [|h t IH]; intros HP; cbn [JsArray.sort]; [constructor|].
  inversion HP; subst. apply insert_sorted; auto.
  apply (Permutation_Forall (Permutation_sym (sort_perm t))). assumption.
Qed.

End SortFacts.

Lemma In_firstn_In {A} (n : nat) (l : list A) (a : A) :
  In a (firstn n l) -> In a l.
Proof.
  revert n. induction l as [|h t IH]; intros n.
  - now rewrite firstn_nil.
  - destruct n as [|n]; cbn [firstn]; [intros []|].
    intros [->|H]; [now left | right; eauto].
Qed.


(** * The result cache *)

Section CacheFacts.
Import Route.

(** C4.  [getCachedAnalysis] never returns an expired entry: a stored entry
    with [now - timestamp > ttl] is removed and the call returns nothing
    (every other key keeps its entry); a stored entry that is not expired
    is returned as stored, and the store is left as it was; and whatever
    the call returns is the data of a stored entry that is not expired. *)
Theorem getCachedAnalysis_spec (now : Z) (addr : string) (cache : store)
    (Hwf : JsMap.wf cache) :
  let key := getCacheKey addr in
  let res := fst (getCachedAnalysis now addr cache) in
  let cache' := snd (getCachedAnalysis now addr cache) in
  (forall entry, JsMap.get key cache = Some entry ->
     (now - timestamp entry > ttl entry)%Z ->
     res = None /\ JsMap.get key cache' = None /\
     (forall k, k <> key -> JsMap.get k cache' = JsMap.get k cache)) /\
  (forall entry, JsMap.get key cache = Some entry ->
     (now - timestamp entry <= ttl entry)%Z ->
     res = Some (data entry) /\ cache' = cache) /\
  (forall r, res = Some r ->
     exists entry, JsMap.get key cache = Some entry /\ data entry = r /\
                   (now - timestamp entry <= ttl entry)%Z) /\
  (JsMap.get key cache = None -> res = None /\ cache' = cache).
Proof.
  unfold getCachedAnalysis, isExpired. cbv zeta.
  destruct (JsMap.get (getCacheKey addr) cache) as [e|] eqn:G.
  - destruct (Z.gtb_spec (now - timestamp e) (ttl e)) as [Hexp|Hlive].
    + split; [|split; [|split]].
      * intros entry [= <-] _. split; [reflexivity|]. split.
        -- now apply JsMap_get_delete_same.
        -- intros k Hk. apply JsMap_get_delete_other. congruence.
      * intros entry [= <-] Hle. lia.
      * discriminate.
      * discriminate.
    + split; [|split; [|split]].
      * intros entry [= <-] Hgt. lia.
      * intros entry [= <-] _. auto.
      * intros r [= <-]. exists e. auto.
      * discriminate.
  - split; [|split; [|split]]; try discriminate; auto.
Qed.

End CacheFacts.

Section CacheExamples.
Import Route Sample.

(** An entry written at time 0 with a lifetime of 300000 ms is returned at
    time 300000 and purged at time 300001. *)
Lemma getCachedAnalysis_spec_witness :
  JsMap.wf staleCache /\
  fst (getCachedAnalysis 300001 idleWallet staleCache) = None /\
  JsMap.get (getCacheKey idleWallet) (snd (getCachedAnalysis 300001 idleWallet staleCache)) = None /\
  fst (getCachedAnalysis 300000 idleWallet staleCache) = Some (response idleWallet) /\
  snd (getCachedAnalysis 300000 idleWallet staleCache) = staleCache.
Proof.
  assert (Hwf : JsMap.wf staleCache).
  { repeat constructor; simpl; intuition discriminate. }
  split; [exact Hwf|].
  pose proof (getCachedAnalysis_spec 300001 idleWallet staleCache Hwf) as [Hexp _].
  pose proof (getCachedAnalysis_spec 300000 idleWallet staleCache Hwf) as (_ & Hlive & _).
  specialize (Hexp _ eq_refl). specialize (Hlive _ eq_refl).
  destruct Hexp as (H1 & H2 & _); [vm_compute; reflexivity|].
  destruct Hlive as (H3 & H4); [vm_compute; discriminate|].
  repeat split; assumption.
Defined.

End CacheExamples.

Section CacheCapacity.
Import Route.

(** C1 (the code differs).  After 1001 and after 1002 insertions of distinct
    addresses, none of them expired, the store holds 1001 entries, one more
    than [MAX_CACHE_SIZE]: the cleanup pass evicts only when the size
    exceeds the cap, down to the cap, and the insertion then adds one.  The
    entries that survive 1002 insertions are the 1001 inserted last. *)
Theorem cache_holds_one_above_cap :
  JsMap.size (Sample.filled 1001) = 1001%nat /\
  JsMap.size (Sample.filled 1002) = 1001%nat /\
  JsMap.keys (Sample.filled 1002)
  = map (fun i => getCacheKey (Sample.wallet i)) (seq 2 1001) /\
  (MAX_CACHE_SIZE < JsMap.size (Sample.filled 1002))%nat.
Proof.
  split; [vm_compute; reflexivity|].
  split; [vm_compute; reflexivity|].
  split; [vm_compute; reflexivity|].
  vm_compute. apply le_n.
Qed.

End CacheCapacity.

Section CacheSize.
Import Route.

Lemma deleteAll_size (ks : list string) : forall cache : store,
  JsMap.wf cache -> NoDup ks ->
  (forall k, In k ks -> In k (JsMap.keys cache)) ->
  (JsMap.size (deleteAll ks cache) + List.length ks = JsMap.size cache)%nat.
Proof.
  unfold deleteAll.
  induction ks as [|k ks IH]; intros cache Hwf Hnd Hin; cbn [fold_left List.length].
  - lia.
  - inversion Hnd as [|? ? Hk Hnd']; subst.
    assert (Hpresent : JsMap.get k cache <> None).
    { intros G. apply JsMap_get_none_keys in G. apply G, Hin. now left. }
    pose proof (JsMap_size_delete_present cache k Hpresent) as Hsize.
    assert (H1 : (JsMap.size (fold_left (fun c k0 => JsMap.delete k0 c) ks
                                (JsMap.delete k cache))
                  + List.length ks = JsMap.size (JsMap.delete k cache))%nat);
      [|lia].
    apply IH; auto.
    + now apply JsMap_wf_delete.
    + intros k' Hk'.
      assert (Hne : k <> k') by (intros ->; contradiction).
      assert (G : JsMap.get k' (JsMap.delete k cache) <> None).
      { rewrite JsMap_get_delete_other by assumption.
        intros G. apply JsMap_get_none_keys in G. apply G, Hin. now right. }
      destruct (in_dec string_dec k' (JsMap.keys (JsMap.delete k cache))) as [Hi|Hi];
        [exact Hi|].
      apply JsMap_get_none_keys in Hi. contradiction.
Qed.

Lemma deleteAll_keeps_absent (ks : list string) : forall (cache : store) k,
  JsMap.get k cache = None -> JsMap.get k (deleteAll ks cache) = None.
Proof.
  unfold deleteAll. induction ks as [|k0 ks IH]; intros cache k G; cbn [fold_left].
  - exact G.
  - apply IH. apply JsMap_get_none_keys. intros Hin.
    apply JsMap_keys_delete_subset in Hin. now apply JsMap_get_none_keys in G.
Qed.

Lemma NoDup_firstn {A} (n : nat) (l : list A) : NoDup l -> NoDup (firstn n l).
Proof.
  intros H. rewrite <- (firstn_skipn n l) in H.
  now apply NoDup_app_remove_r in H.
Qed.

Lemma filter_none {A} (f : A -> bool) (l : list A) :
  (forall a, In a l -> f a = false) -> filter f l = [].
Proof.
  induction l as [|a l IH]; intros H; cbn [filter]; [reflexivity|].
  rewrite (H a) by now left. apply IH. intros b Hb. apply H. now right.
Qed.

(** Without expired entries the cleanup pass cuts the store down to the
    cap only when it is above it, and the insertion of a new address then
    adds one entry: a full store ends with one entry more than the cap. *)
Lemma setCachedAnalysis_size (now : Z) (addr : string)
    (d : SolanaAnalysisResponse) (cache : store) :
  JsMap.wf cache ->
  (forall kv, In kv cache -> isExpired now (snd kv) = false) ->
  JsMap.get (getCacheKey addr) cache = None ->
  JsMap.size (setCachedAnalysis now addr d cache)
  = S (Nat.min (JsMap.size cache) MAX_CACHE_SIZE).
Proof.
  intros Hwf Hlive Hfresh. unfold setCachedAnalysis, cleanupCache, JsMap.entries.
  rewrite (filter_none _ cache) by (intros kv Hkv; now apply Hlive).
  cbn [map]. change (deleteAll [] cache) with cache.
  destruct (Nat.ltb_spec MAX_CACHE_SIZE (JsMap.size cache)) as [Hover|Hunder].
  - set (victims := map fst (JsArray.slice 0 (JsMap.size cache - MAX_CACHE_SIZE)
                               (JsArray.sort olderFirst cache))).
    assert (Hperm : Permutation (map fst (JsArray.sort olderFirst cache))
                                (JsMap.keys cache)).
    { apply Permutation_map, sort_perm. }
    assert (Hvict : victims
                    = firstn (JsMap.size cache - MAX_CACHE_SIZE)
                        (map fst (JsArray.sort olderFirst cache))).
    { subst victims. unfold JsArray.slice. cbn [skipn].
      now rewrite Nat.sub_0_r, firstn_map. }
    assert (Hnd : NoDup victims).
    { rewrite Hvict. apply NoDup_firstn.
      apply (Permutation_NoDup (Permutation_sym Hperm)). exact Hwf. }
    assert (Hin : forall k, In k victims -> In k (JsMap.keys cache)).
    { intros k Hk. rewrite Hvict in Hk. apply In_firstn_In in Hk.
      now apply (Permutation_in _ Hperm). }
    assert (Hlen : List.length victims = (JsMap.size cache - MAX_CACHE_SIZE)%nat).
    { rewrite Hvict, length_firstn, length_map, sort_length.
      unfold JsMap.size. lia. }
    pose proof (deleteAll_size victims cache Hwf Hnd Hin) as Hsize.
    rewrite JsMap_size_set_fresh by now apply deleteAll_keeps_absent.
    f_equal. lia.
  - rewrite JsMap_size_set_fresh by assumption. f_equal. lia.
Qed.

Lemma deleteAll_wf (ks : list string) : forall cache : store,
  JsMap.wf cache -> JsMap.wf (deleteAll ks cache).
Proof.
  unfold deleteAll. induction ks as [|k ks IH]; intros cache Hwf; cbn [fold_left].
  - exact Hwf.
  - apply IH. now apply JsMap_wf_delete.
Qed.

(** What is left after deleting keys was there before, under a key that
    was not deleted. *)
Lemma deleteAll_get (ks : list string) : forall (cache : store) k e,
  JsMap.wf cache ->
  JsMap.get k (deleteAll ks cache) = Some e ->
  JsMap.get k cache = Some e /\ ~ In k ks.
Proof.
  unfold deleteAll.
  induction ks as [|k0 ks IH]; intros cache k e Hwf G; cbn [fold_left] in G.
  - split; [exact G | intros []].
  - destruct (IH _ _ _ (JsMap_wf_delete cache k0 Hwf) G) as [G1 Hnot].
    destruct (string_dec k0 k) as [->|Hne].
    + rewrite JsMap_get_delete_same in G1 by assumption. discriminate.
    + rewrite JsMap_get_delete_other in G1 by assumption.
      split; [exact G1|]. intros [H|H]; [congruence | contradiction].
Qed.

(** After the cleanup pass no expired entry is left, and every entry that
    is left was there before. *)
Lemma cleanupCache_purges_expired (now : Z) (cache : store) k e :
  JsMap.wf cache ->
  JsMap.get k (cleanupCache now cache) = Some e ->
  JsMap.get k cache = Some e /\ isExpired now e = false.
Proof.
  intros Hwf G. unfold cleanupCache in G.
  set (expired := map fst (filter (fun kv => isExpired now (snd kv))
                                  (JsMap.entries cache))) in *.
  assert (G1 : JsMap.get k (deleteAll expired cache) = Some e).
  { destruct (MAX_CACHE_SIZE <? _)%nat; [|exact G].
    now apply deleteAll_get in G; [destruct G | apply deleteAll_wf]. }
  destruct (deleteAll_get _ _ _ _ Hwf G1) as [G0 Hnot].
  split; [exact G0|].
  destruct (isExpired now e) eqn:E; [|reflexivity].
  exfalso. apply Hnot. subst expired. apply in_map_iff.
  exists (k, e). split; [reflexivity|].
  apply filter_In. split; [|exact E].
  unfold JsMap.entries. now apply JsMap_get_In.
Qed.

(** The operations of the cache keep one entry per key. *)
Lemma cleanupCache_wf (now : Z) (cache : store) :
  JsMap.wf cache -> JsMap.wf (cleanupCache now cache).
Proof.
  intros Hwf. unfold cleanupCache.
  destruct (MAX_CACHE_SIZE <? _)%nat; repeat apply deleteAll_wf; exact Hwf.
Qed.

Lemma setCachedAnalysis_wf (now : Z) (addr : string)
    (d : SolanaAnalysisResponse) (cache : store) :
  JsMap.wf cache -> JsMap.wf (setCachedAnalysis now addr d cache).
Proof.
  intros Hwf. unfold setCachedAnalysis. now apply JsMap_wf_set, cleanupCache_wf.
Qed.

Lemma getCachedAnalysis_wf (now : Z) (addr : string) (cache : store) :
  JsMap.wf cache -> JsMap.wf (snd (getCachedAnalysis now addr cache)).
Proof.
  intros Hwf. unfold getCachedAnalysis.
  destruct (JsMap.get (getCacheKey addr) cache) as [e|]; [|exact Hwf].
  destruct (isExpired now e); [now apply JsMap_wf_delete | exact Hwf].
Qed.

End CacheSize.

(** * The handlers *)

Section HandlerFacts.
Import Web3 Eff Route Spec.
Context `{RT : JsNumber.Runtime} `{LG : Ledger}.

Lemma analyzeAddress_valid (queried : string) (w : World) :
  isValidPublicKey queried = true ->
  analyzeAddress queried w =
  match fst (getCachedAnalysis (clock (net w)) queried (analysisCache w)) with
  | Some r => (inr r, afterLookup queried w)
  | None =>
      tryCatch (analyzeUncached queried configuredRpcUrl) (analyzeFailed queried)
               (afterLookup queried w)
  end.
Proof.
  intros Hv. unfold analyzeAddress, isValidSolanaAddress. rewrite Hv. simpl.
  unfold bind, onCache, afterLookup.
  destruct (getCachedAnalysis (clock (net w)) queried (analysisCache w)) as [[r|] c];
    reflexivity.
Qed.

Lemma analyzeFailed_run (queried : string) (err : Thrown) (w : World) :
  analyzeFailed queried err w =
  (inr (errorResult queried err),
   {| analysisCache :=
        JsMap.set (getCacheKey queried)
          {| data := errorResult queried err; timestamp := clock (net w);
             ttl := shortCacheTime |} (analysisCache w);
      net := net w |}).
Proof. destruct err; reflexivity. Qed.

(** The batch loop never throws: every batch runs under its own [try]. *)
Lemma processBatch_returns queried rpcUrl isHelius batchSize signatures agg i n :
  exists agg' n', processBatch queried rpcUrl isHelius batchSize signatures agg i n
                  = (inr agg', n').
Proof.
  unfold processBatch, tryCatch, bind.
  match goal with |- context [match ?c n with _ => _ end] => destruct (c n) as [[e|[]] n1] end.
  - destruct (_ || _); simpl; unfold ret; eauto.
  - destruct (fetchTransactions _ _ _ n1) as [[e|txs] n2].
    + destruct (_ || _); simpl; unfold ret; eauto.
    + simpl. unfold ret. eauto.
Qed.

Lemma forEach_returns {S A B} (body : B -> A -> M S B) :
  (forall b a s, exists b' s', body b a s = (inr b', s')) ->
  forall xs b s, exists b' s', forEach xs b body s = (inr b', s').
Proof.
  intros Hbody. induction xs as [|x xs IH]; intros b s; simpl.
  - unfold ret. eauto.
  - unfold bind. destruct (Hbody b x s) as (b' & s' & ->). apply IH.
Qed.

Lemma runBatches_returns queried rpcUrl signatures n :
  exists agg n', runBatches queried rpcUrl signatures n = (inr agg, n').
Proof.
  unfold runBatches. apply forEach_returns.
  intros b a s. apply processBatch_returns.
Qed.

(** What the [try] block does, step by step. *)
Lemma analyzeUncached_run (queried rpcUrl : string) (w : World) :
  analyzeUncached queried rpcUrl w =
  match newConnection rpcUrl with
  | Some e => (inl e, w)
  | None =>
      let w1 := afterRequest (GetSignaturesForAddress queried 50) w in
      match getSignaturesForAddress rpcUrl (rpcLog (net w)) queried 50 with
      | inl e => (inl e, w1)
      | inr signatures =>
          if (List.length signatures =? 0)%nat then (inr (emptyResult queried), w1)
          else
            match runBatches queried rpcUrl signatures (net w1) with
            | (inl e, n2) => (inl e, {| analysisCache := analysisCache w; net := n2 |})
            | (inr agg, n2) =>
                (inr (successResult queried agg),
                 {| analysisCache :=
                      setCachedAnalysis (clock n2) queried
                        (successResult queried agg) (analysisCache w);
                    net := n2 |})
            end
      end
  end.
Proof.
  unfold analyzeUncached.
  destruct (newConnection rpcUrl) as [e|]; [reflexivity|].
  unfold bind at 1. unfold onNet at 1, zoom, request. simpl.
  destruct (getSignaturesForAddress rpcUrl (rpcLog (net w)) queried 50)
    as [e|signatures]; [reflexivity|].
  destruct (List.length signatures =? 0)%nat; [reflexivity|].
  unfold bind at 1. unfold onNet, zoom. fold (runBatches queried rpcUrl signatures).
  unfold afterRequest. cbn [net analysisCache].
  destruct (runBatches queried rpcUrl signatures _) as [[e|agg] n2];
    reflexivity.
Qed.

Lemma analyzeUncached_throws_iff (queried rpcUrl : string) (w w2 : World) err :
  analyzeUncached queried rpcUrl w = (inl err, w2) <->
  (newConnection rpcUrl = Some err /\ w2 = w) \/
  (newConnection rpcUrl = None /\
   getSignaturesForAddress rpcUrl (rpcLog (net w)) queried 50 = inl err /\
   w2 = afterRequest (GetSignaturesForAddress queried 50) w).
Proof.
  rewrite analyzeUncached_run.
  destruct (newConnection rpcUrl) as [e|].
  - split.
    + intros [= -> ->]. auto.
    + intros [[[= ->] ->]|[[=] _]]. reflexivity.
  - cbv zeta.
    destruct (getSignaturesForAddress rpcUrl (rpcLog (net w)) queried 50)
      as [e|signatures].
    + split.
      * intros [= -> <-]. auto.
      * intros [[[=] _]|(_ & [= ->] & ->)]. reflexivity.
    + split.
      * destruct (List.length signatures =? 0)%nat; [discriminate|].
        destruct (runBatches_returns queried rpcUrl signatures
                    (net (afterRequest (GetSignaturesForAddress queried 50) w)))
          as (agg & n' & ->).
        discriminate.
      * intros [[[=] _]|(_ & [=] & _)].
Qed.

Lemma extendsLog_refl n : extendsLog n n.
Proof. exists []. now rewrite app_nil_r. Qed.

Lemma extendsLog_trans n1 n2 n3 :
  extendsLog n1 n2 -> extendsLog n2 n3 -> extendsLog n1 n3.
Proof.
  intros [c1 H1] [c2 H2]. exists (c1 ++ c2)%list.
  now rewrite H2, H1, app_assoc.
Qed.

Lemma logMonotone_ret {A} (a : A) : logMonotone (ret a).
Proof. intros n. apply extendsLog_refl. Qed.

Lemma logMonotone_sleep ms : logMonotone (sleep ms).
Proof. intros n. exists []. simpl. now rewrite app_nil_r. Qed.

Lemma logMonotone_request {A} call (respond : list RpcCall -> Thrown + A) :
  logMonotone (request call respond).
Proof. intros n. now exists [call]. Qed.

Lemma logMonotone_bind {A B} (c : M Net A) (k : A -> M Net B) :
  logMonotone c -> (forall a, logMonotone (k a)) -> logMonotone (bind c k).
Proof.
  intros Hc Hk n. unfold bind. specialize (Hc n).
  destruct (c n) as [[e|a] n1]; simpl in *; auto.
  eapply extendsLog_trans; [exact Hc | apply Hk].
Qed.

Lemma logMonotone_tryCatch {A} (c : M Net A) (h : Thrown -> M Net A) :
  logMonotone c -> (forall e, logMonotone (h e)) -> logMonotone (tryCatch c h).
Proof.
  intros Hc Hh n. unfold tryCatch. specialize (Hc n).
  destruct (c n) as [[e|a] n1]; simpl in *; auto.
  eapply extendsLog_trans; [exact Hc | apply Hh].
Qed.

Lemma logMonotone_forEach {A B} (body : B -> A -> M Net B) :
  (forall b a, logMonotone (body b a)) ->
  forall xs b, logMonotone (forEach xs b body).
Proof.
  intros Hbody. induction xs as [|x xs IH]; intros b; simpl.
  - apply logMonotone_ret.
  - apply logMonotone_bind; auto.
Qed.

Lemma logMonotone_fetchTransactions rpcUrl isHelius txSignatures :
  logMonotone (fetchTransactions rpcUrl isHelius txSignatures).
Proof.
  unfold fetchTransactions. destruct isHelius.
  - apply logMonotone_forEach. intros b a.
    apply logMonotone_tryCatch.
    + apply logMonotone_bind; [apply logMonotone_request|].
      intros tx. apply logMonotone_bind; [apply logMonotone_sleep|].
      intros _. apply logMonotone_ret.
    + intros _. apply logMonotone_ret.
  - apply logMonotone_request.
Qed.

Lemma logMonotone_processBatch queried rpcUrl isHelius batchSize signatures agg i :
  logMonotone (processBatch queried rpcUrl isHelius batchSize signatures agg i).
Proof.
  unfold processBatch. apply logMonotone_tryCatch.
  - apply logMonotone_bind.
    + destruct (0 <? i)%nat; [apply logMonotone_sleep | apply logMonotone_ret].
    + intros _. apply logMonotone_bind; [apply logMonotone_fetchTransactions|].
      intros txs. apply logMonotone_ret.
  - intros e. apply logMonotone_bind.
    + destruct (_ || _); [apply logMonotone_sleep | apply logMonotone_ret].
    + intros _. apply logMonotone_ret.
Qed.

Lemma logMonotone_runBatches queried rpcUrl signatures :
  logMonotone (runBatches queried rpcUrl signatures).
Proof.
  unfold runBatches. apply logMonotone_forEach.
  intros b a. apply logMonotone_processBatch.
Qed.

(** On a miss with a working connection the run sends the listing request
    first, whatever follows. *)
Lemma miss_sends_listing_request (queried : string) (w : World) :
  isValidPublicKey queried = true ->
  cacheMiss queried w ->
  newConnection configuredRpcUrl = None ->
  exists calls,
    rpcLog (net (snd (analyzeAddress queried w)))
    = (rpcLog (net w) ++ GetSignaturesForAddress queried 50 :: calls)%list.
Proof.
  intros Hv Hmiss Hconn. rewrite analyzeAddress_valid by assumption.
  unfold cacheMiss in Hmiss. rewrite Hmiss.
  unfold tryCatch. rewrite analyzeUncached_run, Hconn. cbv zeta.
  set (w0 := afterLookup queried w).
  destruct (getSignaturesForAddress configuredRpcUrl (rpcLog (net w0)) queried 50)
    as [e|signatures].
  - rewrite analyzeFailed_run. simpl. now exists [].
  - destruct (List.length signatures =? 0)%nat.
    + simpl. now exists [].
    + pose proof (logMonotone_runBatches queried configuredRpcUrl signatures
                    (net (afterRequest (GetSignaturesForAddress queried 50) w0)))
        as [calls Hcalls].
      destruct (runBatches_returns queried configuredRpcUrl signatures
                  (net (afterRequest (GetSignaturesForAddress queried 50) w0)))
        as (agg & n2 & Hrun).
      rewrite Hrun in *. simpl in *. exists calls.
      now rewrite Hcalls, <- app_assoc.
Qed.

(** Every query leaves a cache with one entry per key. *)
Lemma analyzeAddress_wf (queried : string) (w : World) :
  JsMap.wf (analysisCache w) ->
  JsMap.wf (analysisCache (snd (analyzeAddress queried w))).
Proof.
  intros Hwf.
  destruct (isValidPublicKey queried) eqn:Hv.
  - rewrite analyzeAddress_valid by assumption.
    assert (Hwf0 : JsMap.wf (analysisCache (afterLookup queried w)))
      by (now apply getCachedAnalysis_wf).
    destruct (fst (getCachedAnalysis _ queried _)); [exact Hwf0|].
    unfold tryCatch. rewrite analyzeUncached_run.
    set (w0 := afterLookup queried w) in *.
    destruct (newConnection configuredRpcUrl) as [e|].
    { rewrite analyzeFailed_run. now apply JsMap_wf_set. }
    cbv zeta.
    destruct (getSignaturesForAddress configuredRpcUrl (rpcLog (net w0)) queried 50)
      as [e|signatures].
    { rewrite analyzeFailed_run. now apply JsMap_wf_set. }
    destruct (List.length signatures =? 0)%nat; [exact Hwf0|].
    destruct (runBatches_returns queried configuredRpcUrl signatures
                (net (afterRequest (GetSignaturesForAddress queried 50) w0)))
      as (agg & n2 & ->).
    now apply setCachedAnalysis_wf.
  - unfold analyzeAddress, isValidSolanaAddress. rewrite Hv. exact Hwf.
Qed.

(** C6 (amended).  For an address that is not a public key, the caching
    revision returns [isValid = false], the message "Invalid Solana address
    format" and [relatedAccounts = []], whatever the cache holds, and leaves
    the world as it was: no lookup, no write, no request.  The revision
    without a cache returns the same flag and message and leaves
    [relatedAccounts] out of the payload. *)
Theorem invalid_address_is_rejected (queried : string) :
  isValidPublicKey queried = false ->
  (forall w : World,
     analyzeAddress queried w =
     (inr {| address := queried; isValid := false; relatedAccounts := [];
             error := Some "Invalid Solana address format" |}, w)) /\
  (forall n : Net,
     Legacy.analyzeAddress queried n =
     (inr {| Legacy.address := queried; Legacy.isValid := false;
             Legacy.totalTransactions := None;
             Legacy.sampledTransactions := None;
             Legacy.relatedAccounts := None;
             Legacy.error := Some "Invalid Solana address format";
             Legacy.debug := None |}, n)).
Proof.
  intros Hinv. split.
  - intros w. unfold analyzeAddress, isValidSolanaAddress. now rewrite Hinv.
  - intros n. unfold Legacy.analyzeAddress, Legacy.isValidSolanaAddress.
    now rewrite Hinv.
Qed.

(** C7.  When the [try] block of a run fails as a whole, the handler
    returns the error payload (a message that is not empty, and
    [relatedAccounts = []]) and stores that payload under the address with
    the time of the failure and a lifetime of one minute, which is shorter
    than the five minutes of a successful result; no other entry of the
    cache changes. *)
Theorem failed_run_is_cached_briefly (queried : string) (w w2 : World) (err : Thrown) :
  isValidPublicKey queried = true ->
  cacheMiss queried w ->
  analyzeUncached queried configuredRpcUrl (afterLookup queried w) = (inl err, w2) ->
  let payload :=
    {| address := queried; isValid := true; relatedAccounts := [];
       error := Some ("Failed to analyze address: " ++ thrownMessage err) |} in
  exists w3,
    analyzeAddress queried w = (inr payload, w3) /\
    error payload <> None /\ error payload <> Some "" /\
    relatedAccounts payload = [] /\
    JsMap.get (getCacheKey queried) (analysisCache w3)
    = Some {| data := payload; timestamp := clock (net w2); ttl := shortCacheTime |} /\
    (forall k, k <> getCacheKey queried ->
       JsMap.get k (analysisCache w3) = JsMap.get k (analysisCache w2)) /\
    net w3 = net w2 /\
    (shortCacheTime < CACHE_TTL)%Z.
Proof.
  intros Hv Hmiss Hfail payload.
  rewrite analyzeAddress_valid by assumption.
  unfold cacheMiss in Hmiss. rewrite Hmiss.
  unfold tryCatch. rewrite Hfail, analyzeFailed_run.
  eexists. split; [reflexivity|].
  split; [discriminate|]. split; [discriminate|]. split; [reflexivity|].
  cbn [analysisCache net]. split; [apply JsMap_get_set_same|].
  split; [|split; [reflexivity | reflexivity]].
  intros k Hk. apply JsMap_get_set_other. congruence.
Qed.

(** C10 (amended).  For a valid address whose listing is empty the
    handler returns [isValid = true] with [relatedAccounts = []] and writes
    no entry: the cache is the one the lookup left, which is the given
    cache without the entry of the address (the given cache itself when it
    had no entry for the address, and the given cache less the expired
    entry the lookup removed otherwise).  It has no entry for the address,
    so the lookup of every later query misses, and such a query sends the
    listing request again. *)
Theorem empty_listing_is_not_cached (queried : string) (w : World) :
  isValidPublicKey queried = true ->
  JsMap.wf (analysisCache w) ->
  cacheMiss queried w ->
  newConnection configuredRpcUrl = None ->
  getSignaturesForAddress configuredRpcUrl (rpcLog (net w)) queried 50 = inr [] ->
  exists w',
    analyzeAddress queried w =
    (inr {| address := queried; isValid := true; relatedAccounts := [];
            error := None |}, w') /\
    analysisCache w' = analysisCache (afterLookup queried w) /\
    analysisCache w' = JsMap.delete (getCacheKey queried) (analysisCache w) /\
    (JsMap.get (getCacheKey queried) (analysisCache w) = None ->
     analysisCache w' = analysisCache w) /\
    JsMap.get (getCacheKey queried) (analysisCache w') = None /\
    rpcLog (net w') = (rpcLog (net w) ++ [GetSignaturesForAddress queried 50])%list /\
    (forall later : World,
       analysisCache later = analysisCache w' ->
       cacheMiss queried later /\
       exists calls,
         rpcLog (net (snd (analyzeAddress queried later)))
         = (rpcLog (net later) ++ GetSignaturesForAddress queried 50 :: calls)%list).
Proof.
  intros Hv Hwf Hmiss Hconn Hlist.
  rewrite analyzeAddress_valid by assumption.
  pose proof Hmiss as Hmiss'. unfold cacheMiss in Hmiss'. rewrite Hmiss'.
  unfold tryCatch. rewrite analyzeUncached_run, Hconn. cbv zeta.
  change (rpcLog (net (afterLookup queried w))) with (rpcLog (net w)).
  rewrite Hlist. cbn [List.length Nat.eqb].
  eexists. split; [reflexivity|].
  assert (Hnone : JsMap.get (getCacheKey queried)
                    (analysisCache (afterLookup queried w)) = None).
  { unfold afterLookup, getCachedAnalysis in *. cbn [analysisCache] in *.
    destruct (JsMap.get (getCacheKey queried) (analysisCache w)) as [e|] eqn:G.
    - destruct (isExpired (clock (net w)) e); simpl in *; [|discriminate].
      now apply JsMap_get_delete_same.
    - simpl. exact G. }
  split; [reflexivity|]. split.
  { unfold afterRequest, afterLookup, getCachedAnalysis in *.
    cbn [analysisCache] in *.
    destruct (JsMap.get (getCacheKey queried) (analysisCache w)) as [e|] eqn:G.
    - destruct (isExpired (clock (net w)) e); simpl in *; [reflexivity | discriminate].
    - simpl. symmetry. now apply JsMap_delete_absent. }
  split.
  { intros G. unfold afterRequest, afterLookup, getCachedAnalysis.
    cbn [analysisCache]. now rewrite G. }
  split; [exact Hnone|]. split; [reflexivity|].
  intros later Hsame.
  assert (Hlater : cacheMiss queried later).
  { unfold cacheMiss, getCachedAnalysis. rewrite Hsame.
    unfold afterRequest. cbn [analysisCache]. now rewrite Hnone. }
  split; [exact Hlater|].
  now apply miss_sends_listing_request.
Qed.

(** When a run over a non-empty listing returns, its payload is in the
    cache under the address, stamped with the time of the write and the
    lifetime [CACHE_TTL]. *)
Lemma success_is_cached (queried : string) (w : World) signatures :
  isValidPublicKey queried = true ->
  cacheMiss queried w ->
  newConnection configuredRpcUrl = None ->
  getSignaturesForAddress configuredRpcUrl (rpcLog (net w)) queried 50
  = inr signatures ->
  signatures <> [] ->
  exists r w1,
    analyzeAddress queried w = (inr r, w1) /\
    isValid r = true /\ error r = None /\
    JsMap.get (getCacheKey queried) (analysisCache w1)
    = Some {| data := r; timestamp := clock (net w1); ttl := CACHE_TTL |}.
Proof.
  intros Hv Hmiss Hconn Hlist Hne.
  rewrite analyzeAddress_valid by assumption.
  unfold cacheMiss in Hmiss. rewrite Hmiss.
  unfold tryCatch. rewrite analyzeUncached_run, Hconn. cbv zeta.
  change (rpcLog (net (afterLookup queried w))) with (rpcLog (net w)).
  rewrite Hlist.
  destruct signatures as [|s0 rest]; [congruence|]. cbn [List.length Nat.eqb].
  destruct (runBatches_returns queried configuredRpcUrl (s0 :: rest)
              (net (afterRequest (GetSignaturesForAddress queried 50)
                      (afterLookup queried w)))) as (agg & n2 & ->).
  eexists. eexists. split; [reflexivity|].
  split; [reflexivity|]. split; [reflexivity|].
  cbn [analysisCache net]. unfold setCachedAnalysis. apply JsMap_get_set_same.
Qed.

(** A query for an address whose payload is in the cache and not older than
    its lifetime returns that payload and changes nothing: no request is
    sent. *)
Lemma cached_payload_is_served (queried : string) (w : World) entry :
  isValidPublicKey queried = true ->
  JsMap.get (getCacheKey queried) (analysisCache w) = Some entry ->
  (clock (net w) - timestamp entry <= ttl entry)%Z ->
  analyzeAddress queried w = (inr (data entry), w).
Proof.
  intros Hv Hget Hlive.
  rewrite analyzeAddress_valid by assumption.
  unfold afterLookup, getCachedAnalysis, isExpired. rewrite Hget.
  destruct (Z.gtb_spec (clock (net w) - timestamp entry) (ttl entry)); [lia|].
  simpl. now destruct w.
Qed.

(** Idempotence for a run that reached the cache: after a query over a
    non-empty listing returned, a second query within [CACHE_TTL] of the
    write, on the cache the first one left, returns the same payload and
    sends no request. *)
Theorem second_query_is_served_from_cache (queried : string) (w : World) signatures :
  isValidPublicKey queried = true ->
  cacheMiss queried w ->
  newConnection configuredRpcUrl = None ->
  getSignaturesForAddress configuredRpcUrl (rpcLog (net w)) queried 50
  = inr signatures ->
  signatures <> [] ->
  exists r w1,
    analyzeAddress queried w = (inr r, w1) /\
    forall later : World,
      analysisCache later = analysisCache w1 ->
      (clock (net later) - clock (net w1) <= CACHE_TTL)%Z ->
      analyzeAddress queried later = (inr r, later).
Proof.
  intros Hv Hmiss Hconn Hlist Hne.
  destruct (success_is_cached queried w signatures Hv Hmiss Hconn Hlist Hne)
    as (r & w1 & Hrun & _ & _ & Hget).
  exists r, w1. split; [exact Hrun|].
  intros later Hsame Hlive.
  rewrite <- Hsame in Hget.
  now rewrite (cached_payload_is_served queried later _ Hv Hget Hlive).
Qed.

End HandlerFacts.

Section HandlerExamples.
Import Web3 Eff Route Spec Sample.

(** The sample ledger rejects [notAnAddress]. *)
Lemma invalid_address_is_rejected_witness :
  isValidPublicKey notAnAddress = false /\
  (forall w : World,
     analyzeAddress notAnAddress w =
     (inr {| address := notAnAddress; isValid := false; relatedAccounts := [];
             error := Some "Invalid Solana address format" |}, w)).
Proof.
  split; [reflexivity|].
  apply (@invalid_address_is_rejected runtime ledger notAnAddress). reflexivity.
Defined.

(** C6 as stated fails on the revision without a cache: the payload for an
    invalid address has no [relatedAccounts] member. *)
Lemma legacy_invalid_payload_omits_relatedAccounts :
  exists r,
    Legacy.analyzeAddress notAnAddress startNet = (inr r, startNet) /\
    Legacy.isValid r = false /\
    Legacy.relatedAccounts r <> Some [].
Proof.
  eexists. split; [reflexivity|]. split; [reflexivity | discriminate].
Defined.

(** On the sample ledger the listing for [unreachableWallet] fails: the
    error payload is cached at the time of the failure for one minute. *)
Lemma failed_run_is_cached_briefly_witness :
  isValidPublicKey unreachableWallet = true /\
  cacheMiss unreachableWallet startWorld /\
  exists w3,
    analyzeAddress unreachableWallet startWorld
    = (inr {| address := unreachableWallet; isValid := true; relatedAccounts := [];
              error := Some "Failed to analyze address: fetch failed" |}, w3) /\
    JsMap.get (getCacheKey unreachableWallet) (analysisCache w3)
    = Some {| data := {| address := unreachableWallet; isValid := true;
                         relatedAccounts := [];
                         error := Some "Failed to analyze address: fetch failed" |};
              timestamp := 1120; ttl := 60000 |}.
Proof.
  split; [reflexivity|]. split; [reflexivity|].
  destruct (@failed_run_is_cached_briefly runtime ledger unreachableWallet startWorld
              (afterRequest (GetSignaturesForAddress unreachableWallet 50) startWorld)
              (ErrorObject "fetch failed") eq_refl eq_refl eq_refl)
    as (w3 & Hrun & _ & _ & _ & Hget & _).
  exists w3. split; [exact Hrun | exact Hget].
Defined.

(** On the sample ledger the listing for [unusedWallet] is empty: a
    query on a cache whose only entry is the expired one of that wallet
    leaves the cache empty. *)
Lemma empty_listing_is_not_cached_witness :
  isValidPublicKey unusedWallet = true /\
  JsMap.wf (analysisCache expiredWorld) /\
  cacheMiss unusedWallet expiredWorld /\
  exists w',
    analyzeAddress unusedWallet expiredWorld
    = (inr {| address := unusedWallet; isValid := true; relatedAccounts := [];
              error := None |}, w') /\
    analysisCache w' = JsMap.empty /\
    JsMap.get (getCacheKey unusedWallet) (analysisCache w') = None.
Proof.
  assert (Hwf : JsMap.wf (analysisCache expiredWorld)).
  { unfold JsMap.wf. cbn. constructor; [intros [] | constructor]. }
  split; [reflexivity|]. split; [exact Hwf|]. split; [reflexivity|].
  destruct (@empty_listing_is_not_cached runtime ledger unusedWallet expiredWorld
              eq_refl Hwf eq_refl eq_refl eq_refl)
    as (w' & Hrun & Hleft & _ & _ & Hnone & _).
  exists w'. split; [exact Hrun|]. split; [exact Hleft | exact Hnone].
Defined.

(** C10 as stated fails when the cache holds an expired entry of the
    address: the lookup of the query removes it, so the cache after the
    query is not the cache before it. *)
Lemma empty_listing_purges_expired_entry :
  let out := analyzeAddress unusedWallet expiredWorld in
  isValidPublicKey unusedWallet = true /\
  getSignaturesForAddress configuredRpcUrl (rpcLog (net expiredWorld)) unusedWallet 50
  = inr [] /\
  fst out = inr {| address := unusedWallet; isValid := true; relatedAccounts := [];
                   error := None |} /\
  JsMap.size (analysisCache expiredWorld) = 1%nat /\
  JsMap.size (analysisCache (snd out)) = 0%nat /\
  analysisCache (snd out) <> analysisCache expiredWorld.
Proof.
  cbv zeta. repeat split; try reflexivity. vm_compute. discriminate.
Defined.

(** One transfer of 2 SOL: the payload names the counterparty with
    ["2.00 SOL"], and a second query five minutes after the write returns
    it from the cache. *)
Lemma second_query_is_served_from_cache_witness :
  exists r w1,
    analyzeAddress queriedWallet startWorld = (inr r, w1) /\
    relatedAccounts r
    = [ {| ra_address := counterparty; totalSolVolume := "2.00 SOL" |} ] /\
    analyzeAddress queriedWallet
      {| analysisCache := analysisCache w1;
         net := {| clock := clock (net w1) + 300000; rpcLog := rpcLog (net w1) |} |}
    = (inr r, {| analysisCache := analysisCache w1;
                 net := {| clock := clock (net w1) + 300000;
                           rpcLog := rpcLog (net w1) |} |}).
Proof.
  destruct (@second_query_is_served_from_cache runtime ledger queriedWallet startWorld
              [ {| signature := "sig1"; blockTime := Some 1700000000%float |} ]
              eq_refl eq_refl eq_refl eq_refl ltac:(discriminate))
    as (r & w1 & Hrun & Hlater).
  exists r, w1. split; [exact Hrun|]. split.
  - vm_compute in Hrun. now inversion Hrun.
  - apply Hlater; cbn [analysisCache net clock]; [reflexivity | unfold CACHE_TTL; lia].
Defined.

(** C5 (the code differs).  On the sample ledger the wallet [unusedWallet]
    is valid and its listing is empty.  The first query succeeds and leaves
    the cache empty; the second query, one second later, returns the same
    payload but is not served from the cache: it sends the listing request
    again. *)
Theorem second_query_refetches_after_empty_listing :
  let first := analyzeAddress unusedWallet startWorld in
  let w1 := snd first in
  let later := {| analysisCache := analysisCache w1;
                  net := {| clock := clock (net w1) + 1000;
                            rpcLog := rpcLog (net w1) |} |} in
  let second := analyzeAddress unusedWallet later in
  isValidPublicKey unusedWallet = true /\
  fst first = inr {| address := unusedWallet; isValid := true;
                     relatedAccounts := []; error := None |} /\
  analysisCache w1 = JsMap.empty /\
  rpcLog (net w1) = [GetSignaturesForAddress unusedWallet 50] /\
  fst second = fst first /\
  rpcLog (net (snd second))
  = [GetSignaturesForAddress unusedWallet 50; GetSignaturesForAddress unusedWallet 50].
Proof.
  vm_compute. repeat split.
Qed.

End HandlerExamples.

(** * Ranking *)

Section RankingFacts.
Import JsNumber Spec.
Context `{RT : Runtime}.















End RankingFacts.

(** * Formatting amounts *)

Section StringFacts.
Import Spec.

Lemma length_append (a b : string) :
  String.length (a ++ b) = (String.length a + String.length b)%nat.
Proof. induction a as [|c a IH]; simpl; [reflexivity | now rewrite IH]. Qed.

Lemma allDigits_append (a b : string) :
  allDigits (a ++ b) = allDigits a && allDigits b.
Proof.
  induction a as [|c a IH]; simpl; [reflexivity|].
  now rewrite IH, andb_assoc.
Qed.

Lemma allDigits_substring (s : string) : forall n m,
  allDigits s = true -> allDigits (substring n m s) = true.
Proof.
  induction s as [|c s IH]; intros n m H.
  - destruct n, m; reflexivity.
  - simpl in H. apply andb_prop in H. destruct H as [Hc Hs].
    destruct n as [|n]; [destruct m as [|m]|]; simpl; auto.
    now rewrite Hc, IH.
Qed.

Lemma length_substring (s : string) : forall n m,
  (n + m <= String.length s)%nat -> String.length (substring n m s) = m.
Proof.
  induction s as [|c s IH]; intros n m H; simpl in H.
  - assert (n = O) by lia. assert (m = O) by lia. now subst.
  - destruct n as [|n]; [destruct m as [|m]|]; simpl; auto.
    + rewrite IH; [reflexivity | simpl; lia].
    + apply IH. lia.
Qed.

Lemma countDigits_suffix (b rest : string) :
  allDigits b = true -> countDigits rest = O ->
  countDigits (b ++ rest) = String.length b.
Proof.
  induction b as [|c b IH]; simpl; intros H Hr; [exact Hr|].
  apply andb_prop in H. destruct H as [Hc Hb]. now rewrite Hc, IH.
Qed.

Lemma fractionDigits_point (a b rest : string) :
  allDigits a = true -> allDigits b = true -> countDigits rest = O ->
  fractionDigits (a ++ "." ++ b ++ rest) = String.length b.
Proof.
  induction a as [|c a IH]; simpl; intros Ha Hb Hr.
  - now apply countDigits_suffix.
  - apply andb_prop in Ha. destruct Ha as [Hc Ha]. rewrite Hc. now apply IH.
Qed.

Lemma fractionDigits_integer (a rest : string) :
  allDigits a = true -> fractionDigits rest = O ->
  fractionDigits (a ++ rest) = O.
Proof.
  induction a as [|c a IH]; simpl; intros Ha Hr; [exact Hr|].
  apply andb_prop in Ha. destruct Ha as [Hc Ha]. rewrite Hc. now apply IH.
Qed.

Lemma append_assoc (a b c : string) : (a ++ b) ++ c = a ++ (b ++ c).
Proof. induction a as [|x a IH]; simpl; [reflexivity | now rewrite IH]. Qed.

End StringFacts.

Section ToFixedFacts.
Import Spec JsNumber.

Lemma isDigit_digitChar (d : Z) : (0 <= d <= 9)%Z -> isDigit (digitChar d) = true.
Proof.
  intros H.
  assert (d = 0 \/ d = 1 \/ d = 2 \/ d = 3 \/ d = 4 \/ d = 5 \/ d = 6 \/ d = 7
          \/ d = 8 \/ d = 9)%Z as Hd by lia.
  repeat (destruct Hd as [-> | Hd]; [reflexivity|]). subst. reflexivity.
Qed.

Lemma allDigits_digitsFuel (fuel : nat) : forall n acc,
  allDigits acc = true -> allDigits (digitsFuel fuel n acc) = true.
Proof.
  induction fuel as [|fuel IH]; intros n acc Hacc; cbn [digitsFuel]; [exact Hacc|].
  assert (Hd : allDigits (String (digitChar (n mod 10)) acc) = true).
  { cbn [allDigits]. rewrite Hacc, isDigit_digitChar; [reflexivity|].
    pose proof (Z.mod_pos_bound n 10 ltac:(lia)). lia. }
  destruct (n <? 10)%Z; [exact Hd | now apply IH].
Qed.

Lemma length_digitsFuel (fuel : nat) : forall n acc,
  (String.length acc < String.length (digitsFuel (S fuel) n acc))%nat.
Proof.
  induction fuel as [|fuel IH]; intros n acc.
  - cbn [digitsFuel]. destruct (n <? 10)%Z; simpl; lia.
  - change (digitsFuel (S (S fuel)) n acc)
      with (let acc' := String (digitChar (n mod 10)) acc in
            if (n <? 10)%Z then acc' else digitsFuel (S fuel) (n / 10) acc').
    cbv zeta. destruct (n <? 10)%Z; [simpl; lia|].
    eapply Nat.lt_trans; [|apply IH]. simpl. lia.
Qed.

Lemma allDigits_decimalDigits (n : Z) : allDigits (decimalDigits n) = true.
Proof. unfold decimalDigits. now apply allDigits_digitsFuel. Qed.

Lemma length_decimalDigits (n : Z) : (1 <= String.length (decimalDigits n))%nat.
Proof.
  unfold decimalDigits.
  pose proof (length_digitsFuel (Z.to_nat (Z.log2 n)) n ""). simpl in *. lia.
Qed.

Lemma allDigits_zeros (k : nat) : allDigits (zeros k) = true.
Proof. induction k; simpl; auto. Qed.

Lemma length_zeros (k : nat) : String.length (zeros k) = k.
Proof. induction k; simpl; auto. Qed.

(** [fixedPoint n f] is a numeral with exactly [f] decimal places. *)
Lemma fractionDigits_fixedPoint (n : Z) (f : nat) (rest : string) :
  countDigits rest = O -> fractionDigits rest = O ->
  fractionDigits (fixedPoint n f ++ rest) = f.
Proof.
  intros Hc Hf. unfold fixedPoint.
  pose proof (allDigits_decimalDigits n) as Hd.
  pose proof (length_decimalDigits n) as Hl.
  set (m := decimalDigits n) in *.
  destruct f as [|f]; [now apply fractionDigits_integer|].
  set (m' := if (String.length m <=? S f)%nat
             then zeros (S f + 1 - String.length m) ++ m else m).
  assert (Hd' : allDigits m' = true).
  { subst m'. destruct (String.length m <=? S f)%nat; [|exact Hd].
    now rewrite allDigits_append, allDigits_zeros, Hd. }
  assert (Hl' : (S f + 1 <= String.length m')%nat).
  { subst m'. destruct (Nat.leb_spec (String.length m) (S f)).
    - rewrite length_append, length_zeros. lia.
    - lia. }
  rewrite !append_assoc.
  rewrite fractionDigits_point; auto using allDigits_substring.
  apply length_substring. lia.
Qed.

End ToFixedFacts.

Section FormatClaim.
Import Binary64.
Import Spec JsNumber.
Context `{RT : Runtime}.

Lemma abs_of_nonneg (x : float) : (0 <=? x)%float = true -> (abs x =? x)%float = true.
Proof.
  rewrite leb_zero_spec, eqb_spec, abs_spec.
  destruct (Prim2SF x) as [s|s| |s m e]; cbn [nonnegSF SFabs];
    try discriminate; try (destruct s; try discriminate); intros _;
    try reflexivity.
  unfold SFeqb. cbn [SFcompare]. rewrite Z.compare_refl.
  now rewrite Pos.compare_cont_refl.
Qed.

(** Below [1e21] a non-negative number is printed in fixed notation, with
    exactly the requested number of decimal places. *)
Lemma fractionDigits_toFixed (x : float) (f : nat) :
  (0 <=? x)%float = true -> (x <? 1e21)%float = true ->
  fractionDigits (toFixed x f ++ " SOL") = f.
Proof.
  intros Hpos Hbig.
  assert (Habs : (1e21 <=? abs x)%float = false).
  { rewrite leb_ltb_eqb. apply orb_false_iff.
    pose proof (abs_of_nonneg x Hpos) as Ha. split.
    - destruct (1e21 <? abs x)%float eqn:E; [|reflexivity].
      pose proof (ltb_eqb_trans _ _ _ E Ha) as E'.
      now rewrite (ltb_asym _ _ Hbig) in E'.
    - destruct (1e21 =? abs x)%float eqn:E; [|reflexivity].
      pose proof (eqb_trans _ _ _ E Ha) as E'.
      rewrite eqb_sym in E'. now rewrite (ltb_neq _ _ Hbig) in E'. }
  unfold toFixed. rewrite Habs.
  rewrite leb_zero_spec in Hpos. rewrite ltb_spec in Hbig.
  destruct (Prim2SF x) as [s|s| |s m e]; cbn [nonnegSF] in Hpos; try discriminate.
  - now apply fractionDigits_fixedPoint.
  - destruct s; [discriminate|]. vm_compute in Hbig. discriminate.
  - destruct s; [discriminate|]. cbn [append].
    now apply fractionDigits_fixedPoint.
Qed.

(** C8 (amended).  In the caching revision [formatSolAmount] is the
    graduated policy and nothing else: "0 SOL" for zero, and otherwise
    [toFixed] with 6 places below 0.001, 3 below 1, 2 below 1000 and 0 from
    there on; for a non-negative value below 1e21 the text has exactly that
    many decimal places.  In the revision without a cache, which takes
    lamports, there is one more branch: a value that is not zero and below
    0.000001 SOL is rendered "<0.000001 SOL"; every other value follows the
    policy. *)
Theorem formatSolAmount_policy :
  (forall value : float, Route.formatSolAmount value = graduated value) /\
  (forall value : float,
     (0 <=? value)%float = true -> (value <? 1e21)%float = true ->
     fractionDigits (Route.formatSolAmount value)
     = if (value =? 0)%float then O else policyDigits value) /\
  (forall lamports : float,
     let sol := (lamports / 1e9)%float in
     Legacy.formatSolAmount lamports
     = if negb (sol =? 0)%float && (sol <? 0.000001)%float then "<0.000001 SOL"
       else graduated sol).
Proof.
  split; [|split].
  - intros value. unfold Route.formatSolAmount, graduated, policyDigits.
    destruct (value =? 0)%float; [reflexivity|].
    destruct (value <? 0.001)%float; [reflexivity|].
    destruct (value <? 1)%float; [reflexivity|].
    destruct (value <? 1000)%float; reflexivity.
  - intros value Hpos Hbig. unfold Route.formatSolAmount, policyDigits.
    destruct (value =? 0)%float; [reflexivity|].
    destruct (value <? 0.001)%float; [now apply fractionDigits_toFixed|].
    destruct (value <? 1)%float; [now apply fractionDigits_toFixed|].
    destruct (value <? 1000)%float; now apply fractionDigits_toFixed.
  - intros lamports sol. unfold Legacy.formatSolAmount, graduated, policyDigits.
    fold sol. destruct (sol =? 0)%float; [reflexivity|]. cbn [negb andb].
    destruct (sol <? 0.000001)%float; [reflexivity|].
    destruct (sol <? 0.001)%float; [reflexivity|].
    destruct (sol <? 1)%float; [reflexivity|].
    destruct (sol <? 1000)%float; reflexivity.
Qed.

End FormatClaim.

Section FormatExamples.
Import Spec JsNumber Sample.

(** The boundary values of the policy, in the caching revision. *)
Example formatSolAmount_boundaries :
  Route.formatSolAmount 0 = "0 SOL" /\
  Route.formatSolAmount 0.0009 = "0.000900 SOL" /\
  Route.formatSolAmount 0.5 = "0.500 SOL" /\
  Route.formatSolAmount 500 = "500.00 SOL" /\
  Route.formatSolAmount 5000 = "5000 SOL" /\
  Route.formatSolAmount 0.0000005 = "0.000000 SOL" /\
  Route.formatSolAmount 2 = "2.00 SOL".
Proof. repeat split; vm_compute; reflexivity. Qed.

(** C8 as stated fails on the revision without a cache: 500 lamports are
    0.0000005 SOL, below 0.001, and are not rendered with 6 decimal
    places. *)
Lemma legacy_format_has_a_floor_branch :
  (500 / 1e9 =? 0)%float = false /\
  (500 / 1e9 <? 0.001)%float = true /\
  Legacy.formatSolAmount 500 = "<0.000001 SOL" /\
  Legacy.formatSolAmount 500 <> toFixed (500 / 1e9) 6 ++ " SOL" /\
  fractionDigits (Legacy.formatSolAmount 500) <> 6%nat.
Proof.
  repeat split; try (vm_compute; reflexivity); vm_compute; discriminate.
Defined.

End FormatExamples.

(** * Converting units *)

Section ConvertClaim.
Import Spec JsNumber.
Context `{RT : Runtime}.






End ConvertClaim.

Section ConvertExamples.
Import Spec JsNumber Sample.

(** One USDC (6 decimals) is worth 0.004 SOL; a unit the table does not
    have is worth nothing; nothing of any unit is worth nothing. *)
Example getTokenValueInSol_examples :
  Route.getTokenValueInSol "EPjFWdd5AufqSSqeM2qN1xzybapC8G4wEGGkZwyTDt1v" 1000000 6
  = 0.004%float /\
  Route.getTokenValueInSol "NoSuchMint1111111111111111111111111111111111" 1000000 6
  = 0%float /\
  Route.getTokenValueInSol "So11111111111111111111111111111111111111112" 0 9
  = 0%float.
Proof. repeat split; vm_compute; reflexivity. Qed.


End ConvertExamples.
(** * The cache: what a write and the cleanup pass guarantee *)

Section MoreMapFacts.
Context {V : Type}.
Implicit Types m : JsMap.t V.

Lemma JsMap_In_get m k v : JsMap.wf m -> In (k, v) m -> JsMap.get k m = Some v.
Proof.
  unfold JsMap.wf. induction m as [|[k' v'] rest IH]; simpl; [tauto|].
  intros Hnd. inversion Hnd as [|? ? Hk Hnd']; subst.
  intros [[= -> ->]|Hin].
  - now rewrite String.eqb_refl.
  - destruct (String.eqb k k') eqn:E; [|auto].
    apply String.eqb_eq in E. subst k'. exfalso. apply Hk.
    change (In (fst (k, v)) (map fst rest)). now apply in_map.
Qed.

Lemma JsMap_In_set m k v k' v' :
  In (k', v') (JsMap.set k v m) -> (k', v') = (k, v) \/ In (k', v') m.
Proof.
  induction m as [|[k0 v0] rest IH]; simpl.
  - intros [H|[]]. now left.
  - destruct (String.eqb k k0); simpl.
    + intros [H|H]; [now left | right; now right].
    + intros [H|H]; [right; now left|].
      destruct (IH H); [now left | right; now right].
Qed.

Lemma JsMap_In_delete m k k' v' :
  In (k', v') (JsMap.delete k m) -> In (k', v') m.
Proof.
  induction m as [|[k0 v0] rest IH]; simpl; [tauto|].
  destruct (String.eqb k k0); simpl; [tauto|].
  intros [H|H]; [now left | right; auto].
Qed.

Lemma JsMap_size_delete_le m k : (JsMap.size (JsMap.delete k m) <= JsMap.size m)%nat.
Proof.
  unfold JsMap.size. induction m as [|[k0 v0] rest IH]; simpl; [lia|].
  destruct (String.eqb k k0); simpl; lia.
Qed.

End MoreMapFacts.

Section MoreCacheFacts.
Import Route Cache.

Lemma deleteAll_In (ks : list string) : forall (cache : store) k e,
  In (k, e) (deleteAll ks cache) -> In (k, e) cache.
Proof.
  unfold deleteAll. induction ks as [|k0 ks IH]; intros cache k e; cbn [fold_left].
  - auto.
  - intros H. apply IH in H. now apply JsMap_In_delete in H.
Qed.

Lemma deleteAll_get_other (ks : list string) : forall (cache : store) k,
  ~ In k ks -> JsMap.get k (deleteAll ks cache) = JsMap.get k cache.
Proof.
  unfold deleteAll. induction ks as [|k0 ks IH]; intros cache k Hnot; cbn [fold_left].
  - reflexivity.
  - rewrite IH by (intros H; apply Hnot; now right).
    apply JsMap_get_delete_other. intros ->. apply Hnot. now left.
Qed.

Lemma deleteAll_get_in (ks : list string) : forall (cache : store) k,
  JsMap.wf cache -> In k ks -> JsMap.get k (deleteAll ks cache) = None.
Proof.
  unfold deleteAll. induction ks as [|k0 ks IH]; intros cache k Hwf; cbn [fold_left].
  - intros [].
  - intros [->|Hin].
    + apply (deleteAll_keeps_absent ks). now apply JsMap_get_delete_same.
    + apply IH; [now apply JsMap_wf_delete | exact Hin].
Qed.

Lemma deleteAll_size_le (ks : list string) : forall cache : store,
  (JsMap.size (deleteAll ks cache) <= JsMap.size cache)%nat.
Proof.
  unfold deleteAll. induction ks as [|k0 ks IH]; intros cache; cbn [fold_left].
  - lia.
  - etransitivity; [apply IH | apply JsMap_size_delete_le].
Qed.

(** The keys of the expired entries. *)
Lemma expired_keys (now : Z) (cache : store) k :
  JsMap.wf cache ->
  In k (map fst (filter (fun kv => isExpired now (snd kv)) (JsMap.entries cache)))
  <-> expiredAt now cache k.
Proof.
  intros Hwf. unfold expiredAt, JsMap.entries. rewrite in_map_iff. split.
  - intros [[k0 e] [<- Hin]]. apply filter_In in Hin. destruct Hin as [Hin Hexp].
    exists e. split; [now apply JsMap_In_get | exact Hexp].
  - intros (e & G & Hexp). exists (k, e). split; [reflexivity|].
    apply filter_In. split; [now apply JsMap_get_In | exact Hexp].
Qed.

(** The first step of the cleanup pass. *)
Lemma purge_get (now : Z) (cache : store) k :
  JsMap.wf cache ->
  JsMap.get k (deleteAll (map fst (filter (fun kv => isExpired now (snd kv))
                                     (JsMap.entries cache))) cache)
  = match JsMap.get k cache with
    | Some e => if isExpired now e then None else Some e
    | None => None
    end.
Proof.
  intros Hwf.
  destruct (JsMap.get k cache) as [e|] eqn:G.
  - destruct (isExpired now e) eqn:E.
    + apply deleteAll_get_in; [exact Hwf|]. apply expired_keys; [exact Hwf|].
      now exists e.
    + rewrite deleteAll_get_other; [exact G|].
      intros Hin. apply expired_keys in Hin; [|exact Hwf].
      destruct Hin as (e' & G' & E'). congruence.
  - now apply deleteAll_keeps_absent.
Qed.

Lemma cleanupCache_size (now : Z) (cache : store) :
  JsMap.wf cache -> (JsMap.size (cleanupCache now cache) <= MAX_CACHE_SIZE)%nat.
Proof.
  intros Hwf. unfold cleanupCache.
  set (cache1 := deleteAll _ cache).
  assert (Hwf1 : JsMap.wf cache1) by now apply deleteAll_wf.
  destruct (Nat.ltb_spec MAX_CACHE_SIZE (JsMap.size cache1)) as [Hover|Hunder];
    [|exact Hunder].
  set (victims := map fst (JsArray.slice 0 (JsMap.size cache1 - MAX_CACHE_SIZE)
                             (JsArray.sort olderFirst (JsMap.entries cache1)))).
  assert (Hperm : Permutation (map fst (JsArray.sort olderFirst cache1))
                              (JsMap.keys cache1)).
  { apply Permutation_map, sort_perm. }
  assert (Hvict : victims
                  = firstn (JsMap.size cache1 - MAX_CACHE_SIZE)
                      (map fst (JsArray.sort olderFirst cache1))).
  { subst victims. unfold JsArray.slice, JsMap.entries. cbn [skipn].
    now rewrite Nat.sub_0_r, firstn_map. }
  assert (Hnd : NoDup victims).
  { rewrite Hvict. apply NoDup_firstn.
    apply (Permutation_NoDup (Permutation_sym Hperm)). exact Hwf1. }
  assert (Hin : forall k, In k victims -> In k (JsMap.keys cache1)).
  { intros k Hk. rewrite Hvict in Hk. apply In_firstn_In in Hk.
    now apply (Permutation_in _ Hperm). }
  assert (Hlen : List.length victims = (JsMap.size cache1 - MAX_CACHE_SIZE)%nat).
  { rewrite Hvict, length_firstn, length_map, sort_length.
    unfold JsMap.size. lia. }
  pose proof (deleteAll_size victims cache1 Hwf1 Hnd Hin) as Hsize.
  lia.
Qed.

Lemma cleanupCache_fixpoint (now : Z) (cache : store) :
  JsMap.wf cache ->
  (forall k e, JsMap.get k cache = Some e -> isExpired now e = false) ->
  (JsMap.size cache <= MAX_CACHE_SIZE)%nat ->
  cleanupCache now cache = cache.
Proof.
  intros Hwf Hlive Hsize. unfold cleanupCache, JsMap.entries.
  rewrite (filter_none _ cache).
  - cbn [map]. change (deleteAll [] cache) with cache.
    destruct (Nat.ltb_spec MAX_CACHE_SIZE (JsMap.size cache)); [lia | reflexivity].
  - intros [k e] Hin. apply (Hlive k e). now apply JsMap_In_get.
Qed.

(** X1.  A result written by [setCachedAnalysis] at time [now] is what
    [getCachedAnalysis] returns for the same address at every later time up
    to and including [now + CACHE_TTL], leaving the store as it is; from
    the next millisecond on the lookup returns [null] and deletes the
    entry. *)
Theorem written_result_is_served_until_it_expires
    (now later : Z) (addr : string) (d : SolanaAnalysisResponse) (cache : store) :
  let written := setCachedAnalysis now addr d cache in
  getCachedAnalysis later addr written
  = if (later - now <=? CACHE_TTL)%Z then (Some d, written)
    else (None, JsMap.delete (getCacheKey addr) written).
Proof.
  intros written. unfold getCachedAnalysis. subst written.
  unfold setCachedAnalysis at 1. rewrite JsMap_get_set_same.
  unfold isExpired. cbn [timestamp ttl data].
  destruct (Z.leb_spec (later - now) CACHE_TTL) as [H|H];
    destruct (Z.gtb_spec (later - now) CACHE_TTL) as [H'|H']; try lia; reflexivity.
Qed.

(** X2.  After [cleanupCache] the store holds no entry that is expired at
    the time of the call and at most [MAX_CACHE_SIZE] entries; every entry
    it holds was there before, unchanged, under the same key; and a second
    pass at the same time changes nothing. *)
Theorem cleanupCache_postcondition (now : Z) (cache : store) :
  JsMap.wf cache ->
  let cleaned := cleanupCache now cache in
  JsMap.wf cleaned /\
  (JsMap.size cleaned <= MAX_CACHE_SIZE)%nat /\
  (forall k e, JsMap.get k cleaned = Some e ->
     JsMap.get k cache = Some e /\ isExpired now e = false) /\
  cleanupCache now cleaned = cleaned.
Proof.
  intros Hwf cleaned.
  assert (Hwf' : JsMap.wf cleaned) by now apply cleanupCache_wf.
  assert (Hsize : (JsMap.size cleaned <= MAX_CACHE_SIZE)%nat)
    by now apply cleanupCache_size.
  assert (Hkept : forall k e, JsMap.get k cleaned = Some e ->
            JsMap.get k cache = Some e /\ isExpired now e = false).
  { intros k e G. now apply cleanupCache_purges_expired. }
  split; [exact Hwf'|]. split; [exact Hsize|]. split; [exact Hkept|].
  apply cleanupCache_fixpoint; [exact Hwf' | | exact Hsize].
  intros k e G. now destruct (Hkept k e G).
Qed.

Lemma StronglySorted_app_cross {A} (R : A -> A -> Prop) (l1 l2 : list A) :
  StronglySorted R (l1 ++ l2) ->
  forall a b, In a l1 -> In b l2 -> R a b.
Proof.
  induction l1 as [|h t IH]; cbn [app]; intros Hs a b Ha Hb; [destruct Ha|].
  inversion Hs as [|? ? Hst Hall]; subst.
  destruct Ha as [->|Ha].
  - rewrite Forall_forall in Hall. apply Hall, in_or_app. now right.
  - now apply IH.
Qed.

Lemma olderFirst_sorted (entries : list (string * CacheEntry)) :
  StronglySorted notYounger (JsArray.sort olderFirst entries).
Proof.
  apply (sort_sorted olderFirst notYounger (fun _ => True)).
  - unfold notYounger. intros a b c. lia.
  - unfold olderFirst, notYounger. intros a b H. apply Z.ltb_lt in H. lia.
  - unfold olderFirst, notYounger. intros a b _ _ H. apply Z.ltb_ge in H. lia.
  - apply Forall_forall. auto.
Qed.

(** X3.  When the cleanup pass removes an entry that is not expired, it
    removes an oldest one: no entry that stays in the store has a smaller
    timestamp. *)
Theorem cleanupCache_evicts_oldest (now : Z) (cache : store)
    (k k' : string) (e e' : CacheEntry) :
  JsMap.wf cache ->
  JsMap.get k cache = Some e ->
  isExpired now e = false ->
  JsMap.get k (cleanupCache now cache) = None ->
  JsMap.get k' (cleanupCache now cache) = Some e' ->
  (timestamp e <= timestamp e')%Z.
Proof.
  intros Hwf G Hlive Hgone Hkept. unfold cleanupCache in *.
  set (cache1 := deleteAll _ cache) in *.
  assert (Hwf1 : JsMap.wf cache1) by now apply deleteAll_wf.
  assert (G1 : JsMap.get k cache1 = Some e).
  { subst cache1. rewrite purge_get by exact Hwf. now rewrite G, Hlive. }
  destruct (MAX_CACHE_SIZE <? JsMap.size cache1)%nat; [|congruence].
  set (n := (JsMap.size cache1 - MAX_CACHE_SIZE)%nat) in *.
  set (sorted := JsArray.sort olderFirst (JsMap.entries cache1)) in *.
  assert (Hslice : JsArray.slice 0 n sorted = firstn n sorted).
  { unfold JsArray.slice. cbn [skipn]. now rewrite Nat.sub_0_r. }
  rewrite Hslice in *.
  assert (Hperm : Permutation sorted cache1) by apply sort_perm.
  assert (Hsplit : sorted = (firstn n sorted ++ skipn n sorted)%list)
    by (symmetry; apply firstn_skipn).
  (* the evicted entry is among the first [n] *)
  assert (Hk : In (k, e) (firstn n sorted)).
  { destruct (in_dec string_dec k (map fst (firstn n sorted))) as [Hin|Hnot].
    - apply in_map_iff in Hin. destruct Hin as [[k0 e0] [Hk0 Hin]].
      cbn [fst] in Hk0. subst k0.
      assert (G0 : JsMap.get k cache1 = Some e0).
      { apply JsMap_In_get; [exact Hwf1|].
        apply (Permutation_in _ Hperm). now apply In_firstn_In in Hin. }
      assert (e0 = e) by congruence. now subst e0.
    - rewrite deleteAll_get_other in Hgone by exact Hnot. congruence. }
  (* the entry that stays is among the others *)
  destruct (deleteAll_get _ _ _ _ Hwf1 Hkept) as [G1' Hnot'].
  assert (Hk' : In (k', e') (skipn n sorted)).
  { assert (Hin : In (k', e') sorted).
    { apply (Permutation_in _ (Permutation_sym Hperm)). now apply JsMap_get_In. }
    rewrite Hsplit in Hin. apply in_app_or in Hin. destruct Hin as [Hin|Hin];
      [|exact Hin].
    exfalso. apply Hnot'. apply in_map_iff. now exists (k', e'). }
  pose proof (olderFirst_sorted (JsMap.entries cache1)) as Hsorted.
  fold sorted in Hsorted. rewrite Hsplit in Hsorted.
  exact (StronglySorted_app_cross notYounger _ _ Hsorted _ _ Hk Hk').
Qed.

(** X4.  A write through [setCachedAnalysis] into a store that is within
    its capacity leaves the entries of the other addresses that are not
    expired as they are, and drops the expired ones. *)
Theorem write_keeps_live_entries (now : Z) (addr : string)
    (d : SolanaAnalysisResponse) (cache : store) (k : string) (e : CacheEntry) :
  JsMap.wf cache ->
  (JsMap.size cache <= MAX_CACHE_SIZE)%nat ->
  JsMap.get k cache = Some e ->
  k <> getCacheKey addr ->
  JsMap.get k (setCachedAnalysis now addr d cache)
  = if isExpired now e then None else Some e.
Proof.
  intros Hwf Hsize G Hne. unfold setCachedAnalysis.
  rewrite JsMap_get_set_other by congruence.
  unfold cleanupCache. set (cache1 := deleteAll _ cache).
  pose proof (deleteAll_size_le
                (map fst (filter (fun kv => isExpired now (snd kv))
                            (JsMap.entries cache))) cache) as Hle.
  fold cache1 in Hle.
  destruct (Nat.ltb_spec MAX_CACHE_SIZE (JsMap.size cache1)); [lia|].
  subst cache1. rewrite purge_get by exact Hwf. now rewrite G.
Qed.

(** X25.  Whatever the store holds, it has at most [MAX_CACHE_SIZE + 1]
    entries after a write through [setCachedAnalysis], and none of them is
    expired at the time of the write. *)
Theorem setCachedAnalysis_size_bound (now : Z) (addr : string)
    (d : SolanaAnalysisResponse) (cache : store) :
  JsMap.wf cache ->
  (JsMap.size (setCachedAnalysis now addr d cache) <= S MAX_CACHE_SIZE)%nat /\
  forall k e, JsMap.get k (setCachedAnalysis now addr d cache) = Some e ->
    isExpired now e = false.
Proof.
  intros Hwf. unfold setCachedAnalysis. split.
  - pose proof (cleanupCache_size now cache Hwf) as Hsize.
    destruct (JsMap.get (getCacheKey addr) (cleanupCache now cache)) eqn:G.
    + assert (Hkeys : JsMap.size (JsMap.set (getCacheKey addr)
                                    {| data := d; timestamp := now; ttl := CACHE_TTL |}
                                    (cleanupCache now cache))
                      = JsMap.size (cleanupCache now cache)).
      { unfold JsMap.size.
        rewrite <- (length_map fst), <- (length_map fst (cleanupCache now cache)).
        change (map fst (JsMap.set ?k ?v ?m)) with (JsMap.keys (JsMap.set k v m)).
        rewrite JsMap_keys_set_present by congruence. reflexivity. }
      lia.
    + rewrite JsMap_size_set_fresh by exact G. lia.
  - intros k e. destruct (string_dec (getCacheKey addr) k) as [<-|Hne].
    + rewrite JsMap_get_set_same. intros [= <-].
      unfold isExpired. cbn [timestamp ttl]. unfold CACHE_TTL.
      destruct (Z.gtb_spec (now - now) (5 * 60 * 1000)); [lia | reflexivity].
    + rewrite JsMap_get_set_other by exact Hne.
      intros G. now apply cleanupCache_purges_expired in G.
Qed.

End MoreCacheFacts.
(** * The aggregates of a run *)

Section DistinctFacts.
Import Eff.

Lemma distinct_In (xs : list string) : forall seen x,
  In x (distinct xs seen) <-> In x xs /\ ~ In x seen.
Proof.
  induction xs as [|h t IH]; intros seen x; cbn [distinct].
  - simpl. tauto.
  - destruct (existsb (String.eqb h) seen) eqn:E.
    + apply existsb_exists in E. destruct E as (y & Hy & Heq).
      apply String.eqb_eq in Heq. subst y.
      rewrite IH. simpl. split.
      * intros [H1 H2]. tauto.
      * intros [[->|H1] H2]; [contradiction | tauto].
    + assert (Hh : ~ In h seen).
      { intros Hin. apply Bool.not_true_iff_false in E. apply E.
        apply existsb_exists. exists h. split; [exact Hin | apply String.eqb_refl]. }
      simpl. rewrite IH. simpl. split.
      * intros [->|[H1 H2]]; [tauto|]. split; [now right | tauto].
      * intros [[->|H1] H2]; [now left|].
        destruct (string_dec h x) as [->|Hne]; [now left|].
        right. split; [exact H1|]. intros [H|H]; [congruence | contradiction].
Qed.

Lemma distinct_NoDup (xs : list string) : forall seen, NoDup (distinct xs seen).
Proof.
  induction xs as [|h t IH]; intros seen; cbn [distinct].
  - constructor.
  - destruct (existsb (String.eqb h) seen); [apply IH|].
    constructor; [|apply IH].
    intros Hin. apply distinct_In in Hin. destruct Hin as [_ Hnot].
    apply Hnot. now left.
Qed.

Lemma distinct_covered (vs : list string) : forall seen,
  (forall x, In x vs -> In x seen) -> distinct vs seen = [].
Proof.
  induction vs as [|h t IH]; intros seen Hsub; cbn [distinct]; [reflexivity|].
  assert (E : existsb (String.eqb h) seen = true).
  { apply existsb_exists. exists h. split; [apply Hsub; now left | apply String.eqb_refl]. }
  rewrite E. apply IH. intros x Hx. apply Hsub. now right.
Qed.

(** [new Set([...ks, ...vs])] is [ks] when [ks] has no duplicates and
    [vs] brings nothing new. *)
Lemma distinct_app_covered (ks vs : list string) : forall seen,
  NoDup ks -> (forall x, In x ks -> ~ In x seen) ->
  (forall x, In x vs -> In x ks \/ In x seen) ->
  distinct (ks ++ vs) seen = ks.
Proof.
  induction ks as [|k ks IH]; intros seen Hnd Hfresh Hsub; cbn [app].
  - apply distinct_covered. intros x Hx. destruct (Hsub x Hx) as [[]|H]. exact H.
  - cbn [distinct].
    assert (E : existsb (String.eqb k) seen = false).
    { apply Bool.not_true_iff_false. intros E. apply existsb_exists in E.
      destruct E as (y & Hy & Heq). apply String.eqb_eq in Heq. subst y.
      apply (Hfresh k); [now left | exact Hy]. }
    rewrite E. f_equal. inversion Hnd as [|? ? Hk Hnd']; subst.
    apply IH; [exact Hnd' | |].
    + intros x Hx [<-|Hs]; [contradiction|]. apply (Hfresh x); [now right | exact Hs].
    + intros x Hx. destruct (Hsub x Hx) as [[<-|H]|H].
      * right. now left.
      * now left.
      * right. now right.
Qed.

End DistinctFacts.

Section KeysFacts.
Context {V : Type}.
Implicit Types m : JsMap.t V.

Lemma JsMap_keys_set m k v a :
  In a (JsMap.keys (JsMap.set k v m)) <-> a = k \/ In a (JsMap.keys m).
Proof.
  destruct (JsMap.get k m) eqn:G.
  - rewrite JsMap_keys_set_present by congruence. split; [tauto|].
    intros [->|H]; [|exact H].
    destruct (in_dec string_dec k (JsMap.keys m)) as [Hin|Hnot]; [exact Hin|].
    apply JsMap_get_none_keys in Hnot. congruence.
  - rewrite JsMap_keys_set_fresh by exact G. rewrite in_app_iff. simpl.
    split; [intros [H|[H|[]]]; auto | intros [H|H]; auto].
Qed.

Lemma JsMap_get_set m k v a :
  JsMap.get a (JsMap.set k v m) = if String.eqb a k then Some v else JsMap.get a m.
Proof.
  destruct (String.eqb a k) eqn:E.
  - apply String.eqb_eq in E. subst a. apply JsMap_get_set_same.
  - apply String.eqb_neq in E. apply JsMap_get_set_other. congruence.
Qed.

End KeysFacts.

Section AggregateFacts.
Import Web3 Eff JsNumber Route Run.
Context `{RT : Runtime}.

Lemma noAggregates_ok (queried : string) : aggregatesOk queried noAggregates.
Proof.
  constructor; cbn; try (intros; discriminate); try tauto; constructor.
Qed.

Lemma countOrZero_nonneg (queried acct : string) (agg : Aggregates) :
  aggregatesOk queried agg -> (0 <= countOrZero acct (accountInteractions agg))%Z.
Proof.
  intros Hok. unfold countOrZero.
  destruct (JsMap.get acct (accountInteractions agg)) as [c|] eqn:G; [|lia].
  pose proof (counts_positive _ _ Hok _ _ G). lia.
Qed.

Lemma orZero_nonneg (v : float) : (0 <=? v)%float = true -> (0 <=? orZero v)%float = true.
Proof. intros H. unfold orZero. now destruct (truthy v). Qed.

Lemma getOrZero_nonneg (queried acct : string) (agg : Aggregates) :
  aggregatesOk queried agg -> (0 <=? getOrZero acct (accountVolumes agg))%float = true.
Proof.
  intros Hok. unfold getOrZero.
  destruct (JsMap.get acct (accountVolumes agg)) as [v|] eqn:G; [|reflexivity].
  apply orZero_nonneg. exact (volumes_nonneg _ _ Hok _ _ G).
Qed.

Lemma countInteraction_ok (queried acct : string) (agg : Aggregates) :
  aggregatesOk queried agg -> acct <> queried ->
  aggregatesOk queried (countInteraction acct agg).
Proof.
  intros Hok Hne. pose proof (countOrZero_nonneg queried acct agg Hok) as Hc.
  destruct Hok as [Hwi Hwv Hsub Hpos Hnn Hq].
  unfold countInteraction. constructor; cbn [accountInteractions accountVolumes].
  - now apply JsMap_wf_set.
  - exact Hwv.
  - intros a Ha. apply JsMap_keys_set. right. now apply Hsub.
  - intros a c. rewrite JsMap_get_set. destruct (String.eqb a acct).
    + intros [= <-]. lia.
    + apply Hpos.
  - exact Hnn.
  - intros Hin. apply JsMap_keys_set in Hin. destruct Hin as [->|Hin]; tauto.
Qed.

Lemma countInteraction_counts (acct : string) (agg : Aggregates) :
  In acct (JsMap.keys (accountInteractions (countInteraction acct agg))).
Proof. unfold countInteraction. cbn. apply JsMap_keys_set. now left. Qed.

Lemma addVolume_ok (queried acct : string) (solValue : float) (agg : Aggregates) :
  aggregatesOk queried agg ->
  In acct (JsMap.keys (accountInteractions agg)) ->
  (0 <=? solValue)%float = true ->
  aggregatesOk queried (addVolume acct solValue agg).
Proof.
  intros Hok Hin Hv. pose proof (getOrZero_nonneg queried acct agg Hok) as Hcur.
  destruct Hok as [Hwi Hwv Hsub Hpos Hnn Hq].
  unfold addVolume. constructor; cbn [accountInteractions accountVolumes].
  - exact Hwi.
  - now apply JsMap_wf_set.
  - intros a Ha. apply JsMap_keys_set in Ha. destruct Ha as [->|Ha]; auto.
  - exact Hpos.
  - intros a v. rewrite JsMap_get_set. destruct (String.eqb a acct).
    + intros [= <-]. now apply add_nonneg.
    + apply Hnn.
  - exact Hq.
Qed.

Lemma isSkipped_queried (queried acct : string) :
  isSkipped queried acct = false -> acct <> queried.
Proof.
  unfold isSkipped. intros H ->. now rewrite String.eqb_refl in H.
Qed.

Lemma abs_nonneg_of_positive (d : float) :
  (0 <? abs d)%float = true -> (0 <=? abs d / 1e9)%float = true.
Proof.
  intros H. apply div_nonneg; [now apply ltb_leb | reflexivity | reflexivity].
Qed.

Lemma trackAccount_ok (queried : string) (m : TransactionMeta) (agg : Aggregates)
    (k : nat) (acct : string) :
  aggregatesOk queried agg -> aggregatesOk queried (trackAccount queried m agg k acct).
Proof.
  intros Hok. unfold trackAccount.
  destruct (isSkipped queried acct) eqn:S; [exact Hok|].
  apply isSkipped_queried in S.
  pose proof (countInteraction_ok queried acct agg Hok S) as Hok1.
  destruct (preBalances m) as [pre|]; [|exact Hok1].
  destruct (postBalances m) as [post|]; [|exact Hok1].
  destruct (_ && _)%bool; [|exact Hok1].
  match goal with |- context [(0 <? ?d)%float] => destruct (0 <? d)%float eqn:D end;
    [|exact Hok1].
  apply addVolume_ok; [exact Hok1 | apply countInteraction_counts |].
  now apply abs_nonneg_of_positive.
Qed.

Lemma nativePass_ok (queried : string) (m : TransactionMeta) (keys : list string)
    (agg : Aggregates) :
  aggregatesOk queried agg -> aggregatesOk queried (nativePass queried m keys agg).
Proof.
  unfold nativePass. generalize (combine (seq 0 (List.length keys)) keys).
  intros l. revert agg. induction l as [|[k a] l IH]; intros agg Hok; cbn [fold_left].
  - exact Hok.
  - apply IH. cbn [fst snd]. now apply trackAccount_ok.
Qed.

Lemma trackTokenKey_ok (queried : string) (pre post : JsMap.t TokenBalance)
    (agg : Aggregates) (tokenKey : string) :
  aggregatesOk queried agg ->
  aggregatesOk queried (trackTokenKey queried pre post agg tokenKey).
Proof.
  intros Hok. unfold trackTokenKey.
  destruct (String.eqb (nth 0 (JsString.split "-" tokenKey) "") queried) eqn:E;
    [exact Hok|].
  apply String.eqb_neq in E.
  match goal with |- context [(0 <? abs ?d)%float] => destruct (0 <? abs d)%float end;
    [|exact Hok].
  pose proof (countInteraction_ok queried _ agg Hok E) as Hok1.
  match goal with |- context [(0 <? ?v)%float] => destruct (0 <? v)%float eqn:D end;
    [|exact Hok1].
  apply addVolume_ok; [exact Hok1 | apply countInteraction_counts | now apply ltb_leb].
Qed.

Lemma tokenPass_ok (queried : string) (m : TransactionMeta) (agg : Aggregates) :
  aggregatesOk queried agg -> aggregatesOk queried (tokenPass queried m agg).
Proof.
  unfold tokenPass.
  destruct (preTokenBalances m) as [pre|]; [|auto].
  destruct (postTokenBalances m) as [post|]; [|auto].
  cbv zeta. generalize (distinct (JsMap.keys (buildTokenMap pre)
                                  ++ JsMap.keys (buildTokenMap post)) []).
  intros l. revert agg. induction l as [|k l IH]; intros agg Hok; cbn [fold_left].
  - exact Hok.
  - apply IH. now apply trackTokenKey_ok.
Qed.

Lemma processTransaction_ok (queried : string) (agg : Aggregates)
    (tx : option ParsedTransaction) :
  aggregatesOk queried agg -> aggregatesOk queried (processTransaction queried agg tx).
Proof.
  intros Hok. unfold processTransaction.
  destruct tx as [t|]; [|exact Hok].
  destruct (meta t) as [m|]; [|exact Hok].
  destruct (accountKeys t) as [keys|]; [|exact Hok].
  now apply tokenPass_ok, nativePass_ok.
Qed.

Lemma processTransactions_ok (queried : string) (txs : list (option ParsedTransaction)) :
  forall agg, aggregatesOk queried agg ->
  aggregatesOk queried (fold_left (processTransaction queried) txs agg).
Proof.
  induction txs as [|tx txs IH]; intros agg Hok; cbn [fold_left]; [exact Hok|].
  now apply IH, processTransaction_ok.
Qed.

Lemma allAccounts_ok (queried : string) (agg : Aggregates) :
  aggregatesOk queried agg -> allAccounts agg = JsMap.keys (accountInteractions agg).
Proof.
  intros Hok. unfold allAccounts. apply distinct_app_covered.
  - exact (interactions_wf _ _ Hok).
  - intros x _ [].
  - intros x Hx. left. now apply (volumes_counted _ _ Hok).
Qed.

End AggregateFacts.

Section RunFacts.
Import Web3 Eff JsNumber Route Spec Run.
Context `{RT : Runtime} `{LG : Ledger}.

Lemma forEach_preserves {S A B} (P : B -> Prop) (body : B -> A -> M S B) :
  (forall b a s b' s', P b -> body b a s = (inr b', s') -> P b') ->
  forall xs b s b' s', P b -> forEach xs b body s = (inr b', s') -> P b'.
Proof.
  intros Hbody. induction xs as [|x xs IH]; intros b s b' s' Hb; simpl.
  - unfold ret. now intros [= <- _].
  - unfold bind. destruct (body b x s) as [[e|b1] s1] eqn:E; [discriminate|].
    intros Hrest. apply (IH b1 s1 b' s'); [|exact Hrest].
    exact (Hbody _ _ _ _ _ Hb E).
Qed.

(** A batch changes the aggregates only through [processTransaction]. *)
Lemma processBatch_preserves (P : Aggregates -> Prop)
    queried rpcUrl isHelius batchSize signatures agg i n agg' n' :
  (forall a tx, P a -> P (processTransaction queried a tx)) ->
  P agg ->
  processBatch queried rpcUrl isHelius batchSize signatures agg i n = (inr agg', n') ->
  P agg'.
Proof.
  intros Hstep Hagg. unfold processBatch, tryCatch, bind.
  assert (Hfold : forall txs a, P a -> P (fold_left (processTransaction queried) txs a)).
  { induction txs as [|tx txs IH]; intros a Ha; cbn [fold_left]; auto. }
  match goal with |- context [match ?c n with _ => _ end] => destruct (c n) as [[e|[]] n1] end.
  - destruct (_ || _); simpl; unfold ret; intros [= <- _]; exact Hagg.
  - destruct (fetchTransactions _ _ _ n1) as [[e|txs] n2].
    + destruct (_ || _); simpl; unfold ret; intros [= <- _]; exact Hagg.
    + simpl. unfold ret. intros [= <- _]. now apply Hfold.
Qed.

Lemma runBatches_preserves (P : Aggregates -> Prop) queried rpcUrl signatures n agg n' :
  (forall a tx, P a -> P (processTransaction queried a tx)) ->
  P noAggregates ->
  runBatches queried rpcUrl signatures n = (inr agg, n') ->
  P agg.
Proof.
  intros Hstep H0. unfold runBatches.
  apply forEach_preserves with (P := P); [|exact H0].
  intros b a s b' s' Hb. now apply processBatch_preserves.
Qed.

Lemma runBatches_ok queried rpcUrl signatures n agg n' :
  runBatches queried rpcUrl signatures n = (inr agg, n') -> aggregatesOk queried agg.
Proof.
  apply runBatches_preserves.
  - intros a tx. apply processTransaction_ok.
  - apply noAggregates_ok.
Qed.

(** X5.  In the maps a run ends with, every account that has a volume has
    an interaction count, so the union of the two key sets the ranking
    starts from is the key list of the interaction map; every count is at
    least 1, every volume is a number that is not negative, and the
    queried address has no entry. *)
Theorem run_aggregates_are_consistent
    (queried rpcUrl : string) (signatures : list ConfirmedSignatureInfo)
    (n n' : Net) (agg : Aggregates) :
  runBatches queried rpcUrl signatures n = (inr agg, n') ->
  allAccounts agg = JsMap.keys (accountInteractions agg) /\
  NoDup (allAccounts agg) /\
  ~ In queried (allAccounts agg) /\
  (forall a c, JsMap.get a (accountInteractions agg) = Some c -> (1 <= c)%Z) /\
  (forall a v, JsMap.get a (accountVolumes agg) = Some v -> (0 <=? v)%float = true).
Proof.
  intros Hrun. apply runBatches_ok in Hrun.
  pose proof (allAccounts_ok queried agg Hrun) as Hall.
  split; [exact Hall|]. rewrite Hall.
  split; [exact (interactions_wf _ _ Hrun)|].
  split; [exact (query_absent _ _ Hrun)|].
  split; [exact (counts_positive _ _ Hrun) | exact (volumes_nonneg _ _ Hrun)].
Qed.

(** X28.  The ranking lists every account of the two maps, also one that
    only appeared in a transaction: an account without a volume is listed
    with the text "0 SOL". *)
Theorem silent_participants_are_listed_with_zero (agg : Aggregates) (a : string) :
  In a (allAccounts agg) ->
  JsMap.get a (accountVolumes agg) = None ->
  In {| ra_address := a; totalSolVolume := "0 SOL" |} (rankAccounts agg).
Proof.
  intros Hin Hnone. unfold rankAccounts, rankedAccounts.
  assert (Hrow : toRelated (toRanked agg a)
                 = {| ra_address := a; totalSolVolume := "0 SOL" |}).
  { unfold toRelated, toRanked, getOrZero. cbn [rk_address rk_totalSolVolume].
    now rewrite Hnone. }
  rewrite <- Hrow. apply in_map.
  apply (Permutation_in _ (Permutation_sym (sort_perm rankedBefore _))).
  now apply in_map.
Qed.

End RunFacts.
(** * The requests of a run *)

Section BatchFacts.
Import Eff.

Lemma batchStartsFrom_done (fuel i max step : nat) :
  (max <= i)%nat -> batchStartsFrom fuel i max step = [].
Proof.
  intros H. destruct fuel as [|fuel]; cbn [batchStartsFrom]; [reflexivity|].
  destruct (Nat.ltb_spec i max); [lia | reflexivity].
Qed.

Lemma batchStartsFrom_length (step : nat) : (1 <= step)%nat ->
  forall fuel i max,
  (List.length (batchStartsFrom fuel i max step) * step <= (max - i) + (step - 1))%nat.
Proof.
  intros Hstep. induction fuel as [|fuel IH]; intros i max; cbn [batchStartsFrom].
  - simpl. lia.
  - destruct (Nat.ltb_spec i max) as [Hlt|Hge]; [|simpl; lia].
    cbn [List.length].
    destruct (Nat.le_gt_cases max (i + step)) as [Hend|Hmore].
    + rewrite batchStartsFrom_done by exact Hend. simpl. lia.
    + specialize (IH (i + step)%nat max). lia.
Qed.

Lemma slice_length {A} (i j : nat) (l : list A) :
  (List.length (JsArray.slice i j l) <= j - i)%nat.
Proof. unfold JsArray.slice. rewrite length_firstn. lia. Qed.

Lemma firstn_plus {A} (a b : nat) : forall l : list A,
  firstn (a + b) l = (firstn a l ++ firstn b (skipn a l))%list.
Proof.
  induction a as [|a IH]; intros l; [reflexivity|].
  destruct l as [|x l]; cbn [Nat.add firstn skipn app].
  - now rewrite firstn_nil.
  - now rewrite IH.
Qed.

Lemma slice_join {A} (i j k : nat) (l : list A) :
  (i <= j)%nat -> (j <= k)%nat ->
  (JsArray.slice i j l ++ JsArray.slice j k l)%list = JsArray.slice i k l.
Proof.
  intros Hij Hjk. unfold JsArray.slice.
  replace (k - i)%nat with ((j - i) + (k - j))%nat by lia.
  rewrite firstn_plus, skipn_skipn.
  now replace (j - i + i)%nat with j by lia.
Qed.

Lemma slice_to_end {A} (i j k : nat) (l : list A) :
  (List.length l <= j)%nat -> (List.length l <= k)%nat ->
  JsArray.slice i j l = JsArray.slice i k l.
Proof.
  intros Hj Hk. unfold JsArray.slice.
  rewrite !firstn_all2; [reflexivity | |]; rewrite length_skipn; lia.
Qed.

(** The batches cut the sample into consecutive pieces: together they are
    its signatures in order, when the sample is the whole listing or its
    size is a multiple of the batch size. *)
Lemma batches_cover {A} (step : nat) (l : list A) (max : nat) :
  (1 <= step)%nat -> (max <= List.length l)%nat ->
  (max = List.length l \/ Nat.divide step max) ->
  forall fuel i, (max - i <= fuel)%nat -> (i <= max)%nat -> Nat.divide step i ->
  flat_map (fun i => JsArray.slice i (i + step) l) (batchStartsFrom fuel i max step)
  = JsArray.slice i max l.
Proof.
  intros Hstep Hmax Hshape.
  induction fuel as [|fuel IH]; intros i Hfuel Hi Hdiv; cbn [batchStartsFrom].
  - replace i with max by lia. unfold JsArray.slice.
    now rewrite Nat.sub_diag.
  - destruct (Nat.ltb_spec i max) as [Hlt|Hge].
    + cbn [flat_map].
      destruct (Nat.le_gt_cases (i + step) max) as [Hfit|Hover].
      * rewrite IH; [apply slice_join; lia | lia | lia |].
        now apply Nat.divide_add_r; [|apply Nat.divide_refl].
      * rewrite batchStartsFrom_done by lia. cbn [flat_map]. rewrite app_nil_r.
        destruct Hshape as [->|Hd]; [apply slice_to_end; lia|].
        exfalso. destruct Hdiv as [a ->]. destruct Hd as [c ->].
        assert (a < c)%nat by nia. assert (c < a + 1)%nat by nia. lia.
    + replace i with max by lia. unfold JsArray.slice.
      now rewrite Nat.sub_diag.
Qed.

Lemma slice_from_zero {A} (n : nat) (l : list A) : JsArray.slice 0 n l = firstn n l.
Proof. unfold JsArray.slice. cbn [skipn]. now rewrite Nat.sub_0_r. Qed.

End BatchFacts.

Section RequestFacts.
Import Web3 Eff JsNumber Route Spec Run.
Context `{RT : Runtime} `{LG : Ledger}.

(** A loop whose body never throws and logs the calls [f a] logs the
    calls of all its rounds. *)
Lemma forEach_log {A B} (body : B -> A -> M Net B) (f : A -> list RpcCall) :
  (forall b a n, exists b' n', body b a n = (inr b', n')
                               /\ rpcLog n' = (rpcLog n ++ f a)%list) ->
  forall xs b n, exists b' n', forEach xs b body n = (inr b', n')
                               /\ rpcLog n' = (rpcLog n ++ flat_map f xs)%list.
Proof.
  intros Hbody. induction xs as [|x xs IH]; intros b n; simpl.
  - unfold ret. eexists. eexists. split; [reflexivity|]. now rewrite app_nil_r.
  - unfold bind. destruct (Hbody b x n) as (b1 & n1 & -> & Hlog1).
    destruct (IH b1 n1) as (b2 & n2 & Hrun & Hlog2).
    exists b2, n2. split; [exact Hrun|]. now rewrite Hlog2, Hlog1, app_assoc.
Qed.

(** The requests of a batch are sent whatever their answers are: a
    request that fails on Helius is replaced by [null], and the batch goes
    on. *)
Lemma fetchTransactions_log (rpcUrl : string) (isHelius : bool)
    (txSignatures : list string) (n : Net) :
  rpcLog (snd (fetchTransactions rpcUrl isHelius txSignatures n))
  = (rpcLog n ++ batchCalls isHelius txSignatures)%list.
Proof.
  unfold fetchTransactions, batchCalls. destruct isHelius; [|reflexivity].
  match goal with
  | |- context [forEach _ _ ?body] =>
      assert (Hbody : forall b a n0, exists b' n',
                body b a n0 = (inr b', n')
                /\ rpcLog n' = (rpcLog n0 ++ [GetParsedTransaction a])%list)
  end.
  { intros b a n0. unfold tryCatch, bind, request, sleep, modify, ret.
    destruct (getParsedTransaction rpcUrl (rpcLog n0) a) as [e|tx];
      eexists; eexists; (split; [reflexivity|]); reflexivity. }
  destruct (forEach_log _ _ Hbody txSignatures [] n) as (b' & n' & Hrun & Hlog).
  rewrite Hrun. cbn [snd]. rewrite Hlog. f_equal.
Qed.

Lemma processBatch_log queried rpcUrl isHelius batchSize signatures agg i n :
  exists agg' n',
    processBatch queried rpcUrl isHelius batchSize signatures agg i n = (inr agg', n')
    /\ rpcLog n'
       = (rpcLog n ++ batchCalls isHelius
                        (map signature (JsArray.slice i (i + batchSize) signatures)))%list.
Proof.
  unfold processBatch, tryCatch, bind.
  set (txSignatures := map signature (JsArray.slice i (i + batchSize) signatures)).
  assert (Hpre : exists n1,
            (if (0 <? i)%nat then sleep (if isHelius then 2000 else 1000) else ret tt) n
            = (inr tt, n1) /\ rpcLog n1 = rpcLog n).
  { destruct (0 <? i)%nat; eexists; split; reflexivity. }
  destruct Hpre as (n1 & -> & Hlog1).
  pose proof (fetchTransactions_log rpcUrl isHelius txSignatures n1) as Hfetch.
  destruct (fetchTransactions rpcUrl isHelius txSignatures n1) as [[e|txs] n2];
    cbn [snd] in Hfetch.
  - destruct (_ || _); simpl; unfold ret; eexists; eexists;
      (split; [reflexivity|]); cbn [rpcLog]; now rewrite Hfetch, Hlog1.
  - simpl. unfold ret. eexists. eexists. split; [reflexivity|].
    now rewrite Hfetch, Hlog1.
Qed.

Lemma runBatches_log queried rpcUrl signatures n :
  let isHelius := JsString.includes "helius" rpcUrl in
  let batchSize := if isHelius then 3%nat else 5%nat in
  exists agg n',
    runBatches queried rpcUrl signatures n = (inr agg, n')
    /\ rpcLog n'
       = (rpcLog n
          ++ flat_map (fun i => batchCalls isHelius
                                  (map signature
                                     (JsArray.slice i (i + batchSize) signatures)))
               (batchStarts (sampleSize rpcUrl signatures) batchSize))%list.
Proof.
  intros isHelius batchSize. unfold runBatches. fold isHelius. fold batchSize.
  apply forEach_log. intros b a n0. apply processBatch_log.
Qed.

Lemma requested_batchCalls (isHelius : bool) (txSignatures : list string) :
  flat_map requestedSignatures (batchCalls isHelius txSignatures) = txSignatures.
Proof.
  unfold batchCalls. destruct isHelius.
  - induction txSignatures as [|s l IH]; simpl; [reflexivity | now rewrite IH].
  - simpl. apply app_nil_r.
Qed.

Lemma flat_map_flat_map {A B C} (f : A -> list B) (g : B -> list C) (l : list A) :
  flat_map g (flat_map f l) = flat_map (fun a => flat_map g (f a)) l.
Proof.
  induction l as [|a l IH]; simpl; [reflexivity|].
  now rewrite flat_map_app, IH.
Qed.

Lemma flat_map_map_slices {A B} (f : A -> B) (step : nat) (l : list A) (starts : list nat) :
  flat_map (fun i => map f (JsArray.slice i (i + step) l)) starts
  = map f (flat_map (fun i => JsArray.slice i (i + step) l) starts).
Proof.
  induction starts as [|i starts IH]; simpl; [reflexivity|].
  now rewrite map_app, IH.
Qed.

Lemma sample_shape (rpcUrl : string) (signatures : list ConfirmedSignatureInfo) :
  let isHelius := JsString.includes "helius" rpcUrl in
  let batchSize := if isHelius then 3%nat else 5%nat in
  (1 <= batchSize)%nat /\
  (sampleSize rpcUrl signatures <= List.length signatures)%nat /\
  (sampleSize rpcUrl signatures = List.length signatures
   \/ Nat.divide batchSize (sampleSize rpcUrl signatures)).
Proof.
  unfold sampleSize. destruct (JsString.includes "helius" rpcUrl); cbv zeta.
  - split; [lia|]. split; [lia|].
    destruct (Nat.le_gt_cases (List.length signatures) 15).
    + left. lia.
    + right. exists 5%nat. lia.
  - split; [lia|]. split; [lia|].
    destruct (Nat.le_gt_cases (List.length signatures) 25).
    + left. lia.
    + right. exists 5%nat. lia.
Qed.

(** The calls of the batch loop: what they ask for, and how many they are. *)
Lemma run_calls queried rpcUrl signatures n :
  exists agg n' calls,
    runBatches queried rpcUrl signatures n = (inr agg, n')
    /\ rpcLog n' = (rpcLog n ++ calls)%list
    /\ flat_map requestedSignatures calls
       = map signature (firstn (sampleSize rpcUrl signatures) signatures)
    /\ (List.length calls <= fetchBudget rpcUrl)%nat.
Proof.
  destruct (runBatches_log queried rpcUrl signatures n) as (agg & n' & Hrun & Hlog).
  destruct (sample_shape rpcUrl signatures) as (Hstep & Hle & Hshape).
  exists agg, n'. eexists. split; [exact Hrun|]. split; [exact Hlog|].
  set (isHelius := JsString.includes "helius" rpcUrl) in *.
  set (batchSize := if isHelius then 3%nat else 5%nat) in *.
  set (size := sampleSize rpcUrl signatures) in *.
  assert (Hcover : flat_map (fun i => JsArray.slice i (i + batchSize) signatures)
                     (batchStarts size batchSize)
                   = firstn size signatures).
  { unfold batchStarts. rewrite <- slice_from_zero.
    apply batches_cover; try assumption; try lia. apply Nat.divide_0_r. }
  split.
  - rewrite flat_map_flat_map.
    rewrite (flat_map_ext _ (fun i => map signature
                                        (JsArray.slice i (i + batchSize) signatures)))
      by (intros i; apply requested_batchCalls).
    now rewrite flat_map_map_slices, Hcover.
  - assert (Hsize : (size <= (if isHelius then 15 else 25))%nat).
    { subst size. unfold sampleSize. fold isHelius. lia. }
    unfold fetchBudget. fold isHelius. unfold batchCalls.
    destruct isHelius; cbv beta iota in *.
    + (* one call for each signature of the sample *)
      rewrite (flat_map_ext _ (fun i => map (fun s => GetParsedTransaction (signature s))
                                          (JsArray.slice i (i + batchSize) signatures)))
        by (intros i; apply map_map).
      rewrite flat_map_map_slices, Hcover, length_map, length_firstn. lia.
    + (* one call for each batch *)
      rewrite flat_map_constant_length with (c := 1%nat) by reflexivity.
      pose proof (batchStartsFrom_length batchSize Hstep size 0 size) as Hlen.
      fold (batchStarts size batchSize) in Hlen. subst batchSize. lia.
Qed.

(** X6.  A query that misses the cache and gets its listing sends, after
    the listing request, requests for exactly the first
    [min(n, 15)] (Helius) or [min(n, 25)] signatures of the listing, each
    once and in the order of the listing, whatever the answers to these
    requests are; they are at most 15 requests on Helius and at most 5
    otherwise. *)
Theorem run_requests_the_sampled_signatures
    (queried : string) (w : World) (signatures : list ConfirmedSignatureInfo) :
  isValidPublicKey queried = true ->
  cacheMiss queried w ->
  newConnection configuredRpcUrl = None ->
  getSignaturesForAddress configuredRpcUrl (rpcLog (net w)) queried 50
  = inr signatures ->
  exists calls,
    rpcLog (net (snd (analyzeAddress queried w)))
    = (rpcLog (net w) ++ GetSignaturesForAddress queried 50 :: calls)%list /\
    flat_map requestedSignatures calls
    = map signature (firstn (sampleSize configuredRpcUrl signatures) signatures) /\
    (List.length calls <= fetchBudget configuredRpcUrl)%nat.
Proof.
  intros Hv Hmiss Hconn Hlist.
  rewrite analyzeAddress_valid by assumption.
  unfold cacheMiss in Hmiss. rewrite Hmiss.
  unfold tryCatch. rewrite analyzeUncached_run, Hconn. cbv zeta.
  change (rpcLog (net (afterLookup queried w))) with (rpcLog (net w)).
  rewrite Hlist.
  destruct (List.length signatures =? 0)%nat eqn:Hempty.
  - apply Nat.eqb_eq in Hempty. apply length_zero_iff_nil in Hempty. subst signatures.
    exists []. cbn [snd net afterRequest afterLookup rpcLog].
    split; [reflexivity|]. split; [|cbn; lia].
    unfold sampleSize. now rewrite firstn_nil.
  - destruct (run_calls queried configuredRpcUrl signatures
                (net (afterRequest (GetSignaturesForAddress queried 50)
                        (afterLookup queried w))))
      as (agg & n' & calls & Hrun & Hlog & Hsigs & Hlen).
    rewrite Hrun. exists calls. cbn [snd net].
    split; [|split; assumption].
    rewrite Hlog. cbn [afterRequest afterLookup net rpcLog].
    now rewrite <- app_assoc.
Qed.

(** X7.  No query sends more than 16 requests on Helius, or more than 6
    on another endpoint; a query for an address that is not valid, and one
    that is answered from the cache, send none. *)
Theorem analyzeAddress_request_budget (queried : string) (w : World) :
  exists calls,
    rpcLog (net (snd (analyzeAddress queried w))) = (rpcLog (net w) ++ calls)%list /\
    (List.length calls <= S (fetchBudget configuredRpcUrl))%nat /\
    (isValidPublicKey queried = false -> calls = []) /\
    (fst (getCachedAnalysis (clock (net w)) queried (analysisCache w)) <> None ->
     calls = []).
Proof.
  destruct (isValidPublicKey queried) eqn:Hv.
  - rewrite analyzeAddress_valid by assumption.
    destruct (fst (getCachedAnalysis (clock (net w)) queried (analysisCache w)))
      as [r|] eqn:Hlookup.
    { exists []. cbn [snd afterLookup net]. rewrite app_nil_r.
      split; [reflexivity|]. split; [cbn; lia|]. split; auto. }
    unfold tryCatch. rewrite analyzeUncached_run.
    destruct (newConnection configuredRpcUrl) as [e|].
    { rewrite analyzeFailed_run. exists []. cbn [snd afterLookup net].
      rewrite app_nil_r. split; [reflexivity|]. split; [cbn; lia|].
      split; [discriminate | congruence]. }
    cbv zeta.
    change (rpcLog (net (afterLookup queried w))) with (rpcLog (net w)).
    destruct (getSignaturesForAddress configuredRpcUrl (rpcLog (net w)) queried 50)
      as [e|signatures].
    { rewrite analyzeFailed_run. exists [GetSignaturesForAddress queried 50].
      cbn [snd afterLookup afterRequest net rpcLog].
      split; [reflexivity|]. split; [cbn; lia|].
      split; [discriminate | congruence]. }
    destruct (List.length signatures =? 0)%nat.
    { exists [GetSignaturesForAddress queried 50].
      cbn [snd afterLookup afterRequest net rpcLog].
      split; [reflexivity|]. split; [cbn; lia|].
      split; [discriminate | congruence]. }
    destruct (run_calls queried configuredRpcUrl signatures
                (net (afterRequest (GetSignaturesForAddress queried 50)
                        (afterLookup queried w))))
      as (agg & n' & calls & Hrun & Hlog & _ & Hlen).
    rewrite Hrun. exists (GetSignaturesForAddress queried 50 :: calls).
    cbn [snd net]. rewrite Hlog. cbn [afterRequest afterLookup net rpcLog].
    split; [now rewrite <- app_assoc|]. split; [cbn [List.length]; lia|].
    split; [discriminate | congruence].
  - unfold analyzeAddress, isValidSolanaAddress. rewrite Hv. cbn.
    exists []. rewrite app_nil_r. split; [reflexivity|].
    split; [cbn [List.length]; lia|]. split; auto.
Qed.

End RequestFacts.
(** * What every answer of the caching handler looks like *)

Section ResponseFacts.
Import Web3 Eff JsNumber Route Spec Run.
Context `{RT : Runtime} `{LG : Ledger}.

Lemma getCacheKey_inj (a b : string) : getCacheKey a = getCacheKey b -> a = b.
Proof. unfold getCacheKey. cbn. now intros [= ->]. Qed.

Lemma listed_rankAccounts (queried : string) (agg : Aggregates) :
  Permutation (listed (successResult queried agg)) (allAccounts agg).
Proof.
  unfold listed, successResult, rankAccounts, rankedAccounts. cbn [relatedAccounts].
  rewrite map_map.
  change (fun x : RankedAccount => ra_address (toRelated x)) with rk_address.
  transitivity (map rk_address (map (toRanked agg) (allAccounts agg))).
  - apply Permutation_map, sort_perm.
  - rewrite map_map. cbn [toRanked rk_address]. now rewrite map_id.
Qed.

Lemma successResult_genuine (queried : string) (agg : Aggregates) :
  aggregatesOk queried agg -> genuine (successResult queried agg).
Proof.
  intros Hok. pose proof (listed_rankAccounts queried agg) as Hperm.
  pose proof (allAccounts_ok queried agg Hok) as Hall.
  split; [reflexivity|]. split.
  - apply (Permutation_NoDup (Permutation_sym Hperm)). rewrite Hall.
    exact (interactions_wf _ _ Hok).
  - intros Hin. apply (Permutation_in _ Hperm) in Hin. rewrite Hall in Hin.
    exact (query_absent _ _ Hok Hin).
Qed.

Lemma errorResult_genuine (queried : string) (err : Thrown) :
  genuine (errorResult queried err).
Proof. split; [reflexivity|]. split; [constructor | intros []]. Qed.

Lemma emptyResult_genuine (queried : string) : genuine (emptyResult queried).
Proof. split; [reflexivity|]. split; [constructor | intros []]. Qed.

Lemma cleanupCache_In (now : Z) (cache : store) k e :
  In (k, e) (cleanupCache now cache) -> In (k, e) cache.
Proof.
  unfold cleanupCache. destruct (MAX_CACHE_SIZE <? _)%nat; intros H.
  - now apply deleteAll_In, deleteAll_In in H.
  - now apply deleteAll_In in H.
Qed.

Lemma coherent_set (cache : store) (queried : string) (entry : CacheEntry) :
  coherent cache -> address (data entry) = queried -> genuine (data entry) ->
  coherent (JsMap.set (getCacheKey queried) entry cache).
Proof.
  intros Hco Haddr Hgen k e Hin. apply JsMap_In_set in Hin.
  destruct Hin as [[= -> ->]|Hin]; [|now apply Hco].
  split; [now rewrite Haddr | exact Hgen].
Qed.

Lemma coherent_setCachedAnalysis (now : Z) (queried : string)
    (d : SolanaAnalysisResponse) (cache : store) :
  coherent cache -> address d = queried -> genuine d ->
  coherent (setCachedAnalysis now queried d cache).
Proof.
  intros Hco Haddr Hgen. unfold setCachedAnalysis. apply coherent_set; [|exact Haddr|exact Hgen].
  intros k e Hin. apply Hco. now apply cleanupCache_In in Hin.
Qed.

Lemma coherent_lookup (now : Z) (queried : string) (cache : store) :
  coherent cache -> coherent (snd (getCachedAnalysis now queried cache)).
Proof.
  intros Hco. unfold getCachedAnalysis.
  destruct (JsMap.get (getCacheKey queried) cache) as [e|]; [|exact Hco].
  destruct (isExpired now e); [|exact Hco].
  intros k e' Hin. apply Hco. now apply JsMap_In_delete in Hin.
Qed.

Lemma coherent_hit (now : Z) (queried : string) (cache : store) r :
  coherent cache -> fst (getCachedAnalysis now queried cache) = Some r ->
  address r = queried /\ genuine r.
Proof.
  intros Hco. unfold getCachedAnalysis.
  destruct (JsMap.get (getCacheKey queried) cache) as [e|] eqn:G; [|discriminate].
  destruct (isExpired now e); [discriminate|]. intros [= <-].
  apply JsMap_get_In in G. destruct (Hco _ _ G) as [Hkey Hgen].
  split; [symmetry; now apply getCacheKey_inj | exact Hgen].
Qed.

(** The answer of a query and the cache it leaves, in every case. *)
Lemma analyzeAddress_answer (queried : string) (w : World) :
  coherent (analysisCache w) ->
  exists r w',
    analyzeAddress queried w = (inr r, w') /\
    coherent (analysisCache w') /\
    address r = queried /\
    isValid r = isValidPublicKey queried /\
    NoDup (listed r) /\ ~ In queried (listed r).
Proof.
  intros Hco.
  destruct (isValidPublicKey queried) eqn:Hv.
  - rewrite analyzeAddress_valid by assumption.
    assert (Hco0 : coherent (analysisCache (afterLookup queried w)))
      by (now apply coherent_lookup).
    destruct (fst (getCachedAnalysis (clock (net w)) queried (analysisCache w)))
      as [r|] eqn:Hlookup.
    { destruct (coherent_hit _ _ _ _ Hco Hlookup) as [Haddr (Hval & Hnd & Hself)].
      exists r. eexists. split; [reflexivity|]. split; [exact Hco0|].
      rewrite Haddr in Hself. auto. }
    assert (Hfail : forall err w1,
              coherent (analysisCache w1) ->
              exists r w', analyzeFailed queried err w1 = (inr r, w') /\
                coherent (analysisCache w') /\ address r = queried /\
                isValid r = true /\ NoDup (listed r) /\ ~ In queried (listed r)).
    { intros err w1 Hco1. rewrite analyzeFailed_run. eexists. eexists.
      split; [reflexivity|]. cbn [analysisCache]. split.
      - apply coherent_set; [exact Hco1 | reflexivity | apply errorResult_genuine].
      - split; [reflexivity|]. split; [reflexivity|].
        split; [constructor | intros []]. }
    unfold tryCatch. rewrite analyzeUncached_run.
    set (w0 := afterLookup queried w) in *.
    destruct (newConnection configuredRpcUrl) as [e|]; [now apply Hfail|].
    cbv zeta.
    destruct (getSignaturesForAddress configuredRpcUrl (rpcLog (net w0)) queried 50)
      as [e|signatures]; [now apply Hfail|].
    destruct (List.length signatures =? 0)%nat.
    { eexists. eexists. split; [reflexivity|]. split; [exact Hco0|].
      split; [reflexivity|]. split; [reflexivity|].
      split; [constructor | intros []]. }
    destruct (runBatches queried configuredRpcUrl signatures
                (net (afterRequest (GetSignaturesForAddress queried 50) w0)))
      as [[e|agg] n2] eqn:Hrun.
    { destruct (runBatches_returns queried configuredRpcUrl signatures
                  (net (afterRequest (GetSignaturesForAddress queried 50) w0)))
        as (agg & n' & Hret). congruence. }
    apply runBatches_ok in Hrun.
    destruct (successResult_genuine queried agg Hrun) as (Hval & Hnd & Hself).
    eexists. eexists. split; [reflexivity|]. cbn [analysisCache]. split.
    + apply coherent_setCachedAnalysis; [exact Hco0 | reflexivity |].
      now apply successResult_genuine.
    + split; [reflexivity|]. split; [reflexivity|]. split; [exact Hnd | exact Hself].
  - unfold analyzeAddress, isValidSolanaAddress. rewrite Hv. cbn.
    eexists. eexists. split; [reflexivity|]. split; [exact Hco|].
    split; [reflexivity|]. split; [reflexivity|]. split; [constructor | intros []].
Qed.

(** X8.  Every query keeps the cache coherent: each entry is stored under
    the key of the address its payload names, and each cached payload is
    marked valid, lists no address twice and does not list its own
    address. *)
Theorem analyzeAddress_keeps_cache_coherent (queried : string) (w : World) :
  coherent (analysisCache w) ->
  coherent (analysisCache (snd (analyzeAddress queried w))).
Proof.
  intros Hco. destruct (analyzeAddress_answer queried w Hco) as (r & w' & -> & H & _).
  exact H.
Qed.

(** X9.  On a coherent cache a query never throws, and its answer names
    the queried address and says [isValid] exactly when the address is a
    public key, also when the answer comes from the cache. *)
Theorem analyzeAddress_answers_the_query (queried : string) (w : World) :
  coherent (analysisCache w) ->
  exists r w',
    analyzeAddress queried w = (inr r, w') /\
    address r = queried /\
    isValid r = isValidPublicKey queried.
Proof.
  intros Hco.
  destruct (analyzeAddress_answer queried w Hco) as (r & w' & Hrun & _ & Ha & Hv & _).
  now exists r, w'.
Qed.

(** X10.  On a coherent cache the related accounts of an answer are
    pairwise different addresses, and the queried address is not among
    them. *)
Theorem related_accounts_are_distinct_counterparties (queried : string) (w : World)
    (r : SolanaAnalysisResponse) (w' : World) :
  coherent (analysisCache w) ->
  analyzeAddress queried w = (inr r, w') ->
  NoDup (map ra_address (relatedAccounts r)) /\
  ~ In queried (map ra_address (relatedAccounts r)).
Proof.
  intros Hco Hrun.
  destruct (analyzeAddress_answer queried w Hco)
    as (r0 & w0 & Hrun0 & _ & _ & _ & Hnd & Hself).
  rewrite Hrun in Hrun0. injection Hrun0 as <- <-. now split.
Qed.

(** X11.  After a run that failed as a whole, every query for the address
    within one minute of the failure is answered with the same error
    payload from the cache, without a request, even if the ledger would
    answer by then.  A query later than that is not answered from the
    cache: the analysis runs again, which sends the listing request again
    when the connection can be made; when making the connection fails
    again, it sends nothing and the new failure is cached. *)
Theorem failed_query_is_not_retried_for_a_minute
    (queried : string) (w w2 : World) (err : Thrown) :
  isValidPublicKey queried = true ->
  cacheMiss queried w ->
  analyzeUncached queried configuredRpcUrl (afterLookup queried w) = (inl err, w2) ->
  exists w3,
    analyzeAddress queried w = (inr (errorResult queried err), w3) /\
    forall later : World,
      analysisCache later = analysisCache w3 ->
      ((clock (net later) - clock (net w2) <= 60000)%Z ->
       analyzeAddress queried later = (inr (errorResult queried err), later)) /\
      ((60000 < clock (net later) - clock (net w2))%Z ->
       cacheMiss queried later /\
       analyzeAddress queried later
       = tryCatch (analyzeUncached queried configuredRpcUrl) (analyzeFailed queried)
           (afterLookup queried later) /\
       (newConnection configuredRpcUrl = None ->
        exists calls,
          rpcLog (net (snd (analyzeAddress queried later)))
          = (rpcLog (net later) ++ GetSignaturesForAddress queried 50 :: calls)%list) /\
       (forall e, newConnection configuredRpcUrl = Some e ->
          exists w4,
            analyzeAddress queried later = (inr (errorResult queried e), w4) /\
            rpcLog (net w4) = rpcLog (net later) /\
            JsMap.get (getCacheKey queried) (analysisCache w4)
            = Some {| data := errorResult queried e;
                      timestamp := clock (net later); ttl := shortCacheTime |})).
Proof.
  intros Hv Hmiss Hfail.
  rewrite analyzeAddress_valid by assumption.
  unfold cacheMiss in Hmiss. rewrite Hmiss.
  unfold tryCatch at 1. rewrite Hfail, analyzeFailed_run.
  eexists. split; [reflexivity|].
  intros later Hsame. cbn [analysisCache] in Hsame.
  assert (Hget : JsMap.get (getCacheKey queried) (analysisCache later)
                 = Some {| data := errorResult queried err;
                           timestamp := clock (net w2); ttl := shortCacheTime |}).
  { rewrite Hsame. apply JsMap_get_set_same. }
  split.
  - intros Hlive.
    apply (cached_payload_is_served queried later _ Hv Hget).
    cbn [timestamp ttl]. unfold shortCacheTime. lia.
  - intros Hlate.
    assert (Hlater : cacheMiss queried later).
    { unfold cacheMiss, getCachedAnalysis. rewrite Hget.
      unfold isExpired. cbn [timestamp ttl]. unfold shortCacheTime.
      destruct (Z.gtb_spec (clock (net later) - clock (net w2)) (60 * 1000));
        [reflexivity|lia]. }
    split; [exact Hlater|].
    assert (Hagain : analyzeAddress queried later
                     = tryCatch (analyzeUncached queried configuredRpcUrl)
                         (analyzeFailed queried) (afterLookup queried later)).
    { rewrite analyzeAddress_valid by assumption.
      unfold cacheMiss in Hlater. now rewrite Hlater. }
    split; [exact Hagain|]. split.
    + intros Hconn. now apply miss_sends_listing_request.
    + intros e Hconn. rewrite Hagain. unfold tryCatch.
      rewrite analyzeUncached_run, Hconn, analyzeFailed_run.
      eexists. split; [reflexivity|]. cbn [net analysisCache afterLookup].
      split; [reflexivity | apply JsMap_get_set_same].
Qed.

End ResponseFacts.
(** * The endpoint *)

Section KeyFacts.
Import Route.

Lemma substring_whole (s : string) : substring 0 (String.length s) s = s.
Proof. induction s as [|c s IH]; cbn; [reflexivity | now rewrite IH]. Qed.

(** The statistics undo [getCacheKey]. *)
Lemma replace_getCacheKey (addr : string) :
  JsString.replace "analysis:" "" (getCacheKey addr) = addr.
Proof.
  unfold JsString.replace, getCacheKey.
  assert (Hindex : index 0 "analysis:" ("analysis:" ++ addr) = Some 0%nat).
  { cbn. now destruct addr. }
  rewrite Hindex. cbn. rewrite Nat.sub_0_r. apply substring_whole.
Qed.

End KeyFacts.

Section EndpointFacts.
Import Web3 Eff JsNumber Route Spec Run.
Context `{RT : Runtime} `{LG : Ledger}.

(** A query never throws. *)
Lemma analyzeAddress_returns (queried : string) (w : World) :
  exists r w', analyzeAddress queried w = (inr r, w').
Proof.
  destruct (isValidPublicKey queried) eqn:Hv.
  - rewrite analyzeAddress_valid by assumption.
    destruct (fst (getCachedAnalysis (clock (net w)) queried (analysisCache w)));
      [eexists; eexists; reflexivity|].
    unfold tryCatch. rewrite analyzeUncached_run.
    destruct (newConnection configuredRpcUrl) as [e|];
      [rewrite analyzeFailed_run; eexists; eexists; reflexivity|].
    cbv zeta.
    destruct (getSignaturesForAddress _ _ queried 50) as [e|signatures];
      [rewrite analyzeFailed_run; eexists; eexists; reflexivity|].
    destruct (List.length signatures =? 0)%nat; [eexists; eexists; reflexivity|].
    match goal with
    | |- context [runBatches ?q ?u ?s ?n] =>
        destruct (runBatches_returns q u s n) as (agg & n' & ->)
    end.
    eexists; eexists; reflexivity.
  - unfold analyzeAddress, isValidSolanaAddress. rewrite Hv. cbn.
    eexists; eexists; reflexivity.
Qed.

Lemma legacy_analyzeAddress_returns (queried : string) (n : Net) :
  exists r n', Legacy.analyzeAddress queried n = (inr r, n').
Proof.
  unfold Legacy.analyzeAddress.
  destruct (negb (Legacy.isValidSolanaAddress queried));
    [cbn; eexists; eexists; reflexivity|].
  unfold tryCatch.
  destruct (Legacy.analyzeValid queried configuredRpcUrl n) as [[e|r] n']; cbn;
    eexists; eexists; reflexivity.
Qed.

Lemma world_eta (w : World) : {| analysisCache := analysisCache w; net := net w |} = w.
Proof. now destruct w. Qed.

(** X12.  A request with [cache=stats] is answered with status 200 and
    the statistics of the cache as it is, whatever else the query says:
    nothing is looked up or purged and no request is sent.  The statistics
    count every entry, expired ones included, give 1000 as the maximal
    size and 5 as the lifetime in minutes, and on a coherent cache they
    name, in the order of the entries, the addresses the payloads are
    for. *)
Theorem stats_request_only_reads_the_cache
    (request : Next.Request) (query : list (string * string)) (w : World) :
  Next.parsedUrl request = inr query ->
  Next.searchParamsGet "cache" query = Some "stats" ->
  let stats := cacheStats (clock (net w)) (analysisCache w) in
  GET request w = (inr {| Next.status := 200; Next.body := StatsBody stats |}, w) /\
  totalEntries stats = JsMap.size (analysisCache w) /\
  List.length (statsEntries stats) = totalEntries stats /\
  maxSize stats = 1000%nat /\
  ttlMinutes stats = 5%float /\
  (coherent (analysisCache w) ->
   map cs_address (statsEntries stats)
   = map (fun kv => address (data (snd kv))) (JsMap.entries (analysisCache w))).
Proof.
  intros Hurl Hcache stats. split; [|split; [|split; [|split; [|split]]]].
  - unfold GET, tryCatch. rewrite Hurl, Hcache. cbn -[cacheStats].
    fold stats. now rewrite world_eta.
  - reflexivity.
  - subst stats. unfold cacheStats. cbn [statsEntries totalEntries].
    now rewrite length_map.
  - reflexivity.
  - reflexivity.
  - intros Hco. subst stats. unfold cacheStats, JsMap.entries. cbn [statsEntries].
    rewrite map_map. cbn [cs_address]. apply map_ext_in.
    intros [k e] Hin. cbn [fst snd]. destruct (Hco k e Hin) as [-> _].
    apply replace_getCacheKey.
Qed.

(** X13.  The endpoint answers every request: with status 500 exactly
    when the URL of the request cannot be parsed, with status 400 exactly
    when the request does not ask for the statistics and gives no address
    or an empty one, and with status 200 otherwise.  An answer with
    another status than 200 leaves the cache and the log as they are.  A
    request for an address is answered with status 200 and the payload of
    [analyzeAddress], also when the address is not valid or the analysis
    failed. *)
Theorem GET_answers_every_request (request : Next.Request) (w : World) :
  exists resp w',
    GET request w = (inr resp, w') /\
    (Next.status resp = 200%nat \/ Next.status resp = 400%nat
     \/ Next.status resp = 500%nat) /\
    (Next.status resp = 500%nat <-> exists e, Next.parsedUrl request = inl e) /\
    (Next.status resp = 400%nat <->
     exists query,
       Next.parsedUrl request = inr query /\
       isStats (Next.searchParamsGet "cache" query) = false /\
       (Next.searchParamsGet "address" query = None
        \/ Next.searchParamsGet "address" query = Some "")) /\
    (Next.status resp <> 200%nat ->
     w' = w /\
     exists message,
       Next.body resp
       = AnalysisBody {| address := ""; isValid := false; relatedAccounts := [];
                         error := Some message |}) /\
    (forall query queried,
       Next.parsedUrl request = inr query ->
       isStats (Next.searchParamsGet "cache" query) = false ->
       Next.searchParamsGet "address" query = Some queried ->
       queried <> "" ->
       exists r,
         analyzeAddress queried w = (inr r, w') /\
         resp = {| Next.status := 200; Next.body := AnalysisBody r |}).
Proof.
  unfold GET, tryCatch.
  destruct (Next.parsedUrl request) as [e|query] eqn:Hurl.
  - (* the URL does not parse *)
    cbn. eexists. eexists. split; [reflexivity|]. cbn [Next.status Next.body].
    split; [auto|]. split; [split; eauto|].
    split; [split; [discriminate | intros (q & [=] & _)]|].
    split; [intros _; split; [reflexivity | eauto]|].
    intros q a [=].
  - destruct (isStats (Next.searchParamsGet "cache" query)) eqn:Hstats.
    + (* statistics *)
      cbn -[cacheStats]. rewrite world_eta.
      eexists. eexists. split; [reflexivity|]. cbn [Next.status Next.body].
      split; [auto|]. split; [split; [discriminate | intros (e & [=])]|].
      split.
      { split; [discriminate|]. intros (q & Hq & Hs & _).
        assert (q = query) by congruence. subst q. congruence. }
      split; [congruence|].
      intros q a Hq Hs. assert (q = query) by congruence. subst q. congruence.
    + destruct (Next.searchParamsGet "address" query) as [[|c rest]|] eqn:Haddr.
      * (* an empty address *)
        cbn. eexists. eexists. split; [reflexivity|]. cbn [Next.status Next.body].
        split; [auto|]. split; [split; [discriminate | intros (e & [=])]|].
        split; [split; [intros _; exists query; auto | reflexivity]|].
        split; [intros _; split; [reflexivity | eauto]|].
        intros q a Hq _ Ha Hne. assert (q = query) by congruence. subst q.
        rewrite Haddr in Ha. congruence.
      * (* an address *)
        unfold bind at 1. unfold onNet at 1, zoom, dateNow, gets. cbn [fst snd].
        rewrite world_eta. unfold bind at 1.
        destruct (analyzeAddress_returns (String c rest) w) as (r & w1 & Hrun).
        rewrite Hrun. unfold bind at 1. unfold onNet, zoom, dateNow, gets. cbn [fst snd].
        rewrite world_eta. unfold ret.
        eexists. eexists. split; [reflexivity|]. cbn [Next.status Next.body].
        split; [auto|]. split; [split; [discriminate | intros (e & [=])]|].
        split.
        { split; [discriminate|]. intros (q & Hq & _ & Ha).
          assert (q = query) by congruence. subst q.
          rewrite Haddr in Ha. destruct Ha; discriminate. }
        split; [congruence|].
        intros q a Hq _ Ha _. assert (q = query) by congruence. subst q.
        rewrite Haddr in Ha. injection Ha as <-. exists r. now split.
      * (* no address *)
        cbn. eexists. eexists. split; [reflexivity|]. cbn [Next.status Next.body].
        split; [auto|]. split; [split; [discriminate | intros (e & [=])]|].
        split; [split; [intros _; exists query; auto | reflexivity]|].
        split; [intros _; split; [reflexivity | eauto]|].
        intros q a Hq _ Ha _. assert (q = query) by congruence. subst q.
        rewrite Haddr in Ha. discriminate.
Qed.

(** X14.  The endpoint of the revision without a cache answers every
    request as well: 500 exactly when the URL cannot be parsed, 400 exactly
    when no address or an empty one is given, and otherwise 200 with the
    payload of [analyzeAddress]; an answer with another status than 200
    sends no request. *)
Theorem legacy_GET_answers_every_request (request : Next.Request) (n : Net) :
  exists resp n',
    Legacy.GET request n = (inr resp, n') /\
    (Next.status resp = 500%nat <-> exists e, Next.parsedUrl request = inl e) /\
    (Next.status resp = 400%nat <->
     exists query,
       Next.parsedUrl request = inr query /\
       (Next.searchParamsGet "address" query = None
        \/ Next.searchParamsGet "address" query = Some "")) /\
    (Next.status resp <> 200%nat ->
     n' = n /\ Legacy.isValid (Next.body resp) = false
     /\ Legacy.address (Next.body resp) = ""
     /\ Legacy.relatedAccounts (Next.body resp) = None) /\
    (forall query queried,
       Next.parsedUrl request = inr query ->
       Next.searchParamsGet "address" query = Some queried ->
       queried <> "" ->
       exists r,
         Legacy.analyzeAddress queried n = (inr r, n') /\
         resp = {| Next.status := 200; Next.body := r |}).
Proof.
  unfold Legacy.GET, tryCatch.
  destruct (Next.parsedUrl request) as [e|query] eqn:Hurl.
  - cbn. eexists. eexists. split; [reflexivity|]. cbn [Next.status Next.body].
    split; [split; eauto|].
    split; [split; [discriminate | intros (q & [=] & _)]|].
    split; [intros _; auto|].
    intros q a [=].
  - destruct (Next.searchParamsGet "address" query) as [[|c rest]|] eqn:Haddr.
    + cbn. eexists. eexists. split; [reflexivity|]. cbn [Next.status Next.body].
      split; [split; [discriminate | intros (e & [=])]|].
      split; [split; [intros _; exists query; auto | reflexivity]|].
      split; [intros _; auto|].
      intros q a Hq Ha Hne. assert (q = query) by congruence. subst q.
      rewrite Haddr in Ha. congruence.
    + unfold bind.
      destruct (legacy_analyzeAddress_returns (String c rest) n) as (r & n1 & Hrun).
      rewrite Hrun. unfold ret.
      eexists. eexists. split; [reflexivity|]. cbn [Next.status Next.body].
      split; [split; [discriminate | intros (e & [=])]|].
      split.
      { split; [discriminate|]. intros (q & Hq & Ha).
        assert (q = query) by congruence. subst q.
        rewrite Haddr in Ha. destruct Ha; discriminate. }
      split; [congruence|].
      intros q a Hq Ha _. assert (q = query) by congruence. subst q.
      rewrite Haddr in Ha. injection Ha as <-. exists r. now split.
    + cbn. eexists. eexists. split; [reflexivity|]. cbn [Next.status Next.body].
      split; [split; [discriminate | intros (e & [=])]|].
      split; [split; [intros _; exists query; auto | reflexivity]|].
      split; [intros _; auto|].
      intros q a Hq Ha _. assert (q = query) by congruence. subst q.
      rewrite Haddr in Ha. discriminate.
Qed.

End EndpointFacts.
(** * Token balances *)

Section TokenFacts.
Import Web3 Eff JsNumber Route Run.
Context `{RT : Runtime}.

Lemma append_empty_r (s : string) : s ++ "" = s.
Proof. induction s as [|c s IH]; cbn; [reflexivity | now f_equal]. Qed.

Lemma splitAux_no_hyphen (s cur : string) :
  hasHyphen s = false -> JsString.splitAux "-" s cur = [cur ++ s].
Proof.
  revert cur. induction s as [|c s IH]; intros cur; cbn [hasHyphen JsString.splitAux].
  - intros _. now rewrite append_empty_r.
  - intros H. apply orb_false_iff in H. destruct H as [Hc Hs]. rewrite Hc.
    rewrite IH by exact Hs. f_equal. rewrite append_assoc. reflexivity.
Qed.

Lemma splitAux_first_hyphen (o rest cur : string) :
  hasHyphen o = false ->
  JsString.splitAux "-" (o ++ String "-" rest) cur
  = (cur ++ o) :: JsString.splitAux "-" rest "".
Proof.
  revert cur. induction o as [|c o IH]; intros cur; cbn [hasHyphen append JsString.splitAux].
  - intros _. cbn. now rewrite append_empty_r.
  - intros H. apply orb_false_iff in H. destruct H as [Hc Ho]. rewrite Hc.
    rewrite IH by exact Ho. f_equal. rewrite append_assoc. reflexivity.
Qed.

(** X15.  The key a token balance is filed under, [owner-mint], gives
    back its owner when the loop over the keys splits it at the hyphens,
    and its mint as well, provided the addresses have no hyphen in them
    (base58 addresses have none); both revisions build and split the key
    in the same way. *)
Theorem token_key_names_owner_and_mint (b : TokenBalance) (o key : string) :
  owner b = Some o ->
  hasHyphen o = false ->
  hasHyphen (mint b) = false ->
  tokenMapKey b = Some key ->
  JsString.split "-" key = [o; mint b] /\
  nth 0 (JsString.split "-" key) "" = o /\
  nth 1 (JsString.split "-" key) "" = mint b /\
  Legacy.tokenMapKey b = Some key.
Proof.
  intros Ho Hno Hnm Hkey.
  assert (Hsplit : JsString.split "-" key = [o; mint b]).
  { unfold tokenMapKey in Hkey. rewrite Ho in Hkey.
    destruct (JsString.truthy o && JsString.truthy (mint b))%bool; [|discriminate].
    injection Hkey as <-. unfold JsString.split.
    change (o ++ "-" ++ mint b) with (o ++ String "-" (mint b)).
    rewrite splitAux_first_hyphen by exact Hno. cbn [append].
    now rewrite splitAux_no_hyphen by exact Hnm. }
  split; [exact Hsplit|]. rewrite Hsplit. cbn [nth].
  split; [reflexivity|]. split; [reflexivity|]. exact Hkey.
Qed.

Lemma mul_zero_not_positive (x : float) : (0 <? x * 0)%float = false.
Proof.
  rewrite ltb_spec, mul_spec, Prim2SF_zero.
  destruct (Prim2SF x) as [s|s| |s m e]; try reflexivity; now destruct s.
Qed.

Lemma mul_nan_not_positive (x : float) : (0 <? x * nan)%float = false.
Proof.
  rewrite ltb_spec, mul_spec, Prim2SF_zero. change (Prim2SF nan) with S754_nan.
  now destruct (Prim2SF x).
Qed.

(** The value of an amount of a unit without a rate is not positive: it
    is zero or, for a name inherited from [Object.prototype], [NaN]. *)
Lemma unlisted_value_not_positive (mintAddr : string) (x : float) :
  JsMap.get mintAddr TOKEN_TO_SOL_RATES = None ->
  (0 <? x * solRateOf mintAddr)%float = false.
Proof.
  intros H. unfold solRateOf. rewrite H.
  destruct (existsb _ _); [apply mul_nan_not_positive | apply mul_zero_not_positive].
Qed.

(** X16.  A change in the balance of a token that has no entry in the
    rate table adds nothing to any volume, whatever the amounts and the
    number of decimals are (also when the product is [NaN]); the owner's
    interaction is still counted when the amounts differ. *)
Theorem unlisted_mint_adds_no_volume (queried : string)
    (preTokenMap postTokenMap : JsMap.t TokenBalance)
    (agg : Aggregates) (tokenKey : string) :
  JsMap.get (nth 1 (JsString.split "-" tokenKey) "") TOKEN_TO_SOL_RATES = None ->
  let ownerAddr := nth 0 (JsString.split "-" tokenKey) "" in
  let change :=
    abs (parseFloat (amountOf (JsMap.get tokenKey postTokenMap))
         - parseFloat (amountOf (JsMap.get tokenKey preTokenMap)))%float in
  let agg' := trackTokenKey queried preTokenMap postTokenMap agg tokenKey in
  accountVolumes agg' = accountVolumes agg /\
  accountInteractions agg'
  = if negb (String.eqb ownerAddr queried) && (0 <? change)%float
    then JsMap.set ownerAddr
           (countOrZero ownerAddr (accountInteractions agg) + 1)%Z
           (accountInteractions agg)
    else accountInteractions agg.
Proof.
  intros Hmint ownerAddr change agg'. subst agg'. unfold trackTokenKey.
  fold ownerAddr. fold change.
  destruct (String.eqb ownerAddr queried); cbn [negb andb]; [now split|].
  destruct (0 <? change)%float; [|now split].
  unfold getTokenValueInSol. rewrite (unlisted_value_not_positive _ _ Hmint).
  now split.
Qed.

(** X26.  The number of decimals the token pass converts with is never
    0: it is the number the balance before the transaction gives, or else
    the one the balance after it gives, but a number of 0 counts as
    missing, so that a mint with 0 decimals is converted with 6. *)
Theorem zero_decimals_are_read_as_six (pre post : option TokenBalance) :
  (forall tb, pre = Some tb -> decimals (uiTokenAmount tb) = 0%float) ->
  (forall tb, post = Some tb -> decimals (uiTokenAmount tb) = 0%float) ->
  decimalsOf pre post = 6%float /\
  forall mintAddr tokenChange,
    getTokenValueInSol mintAddr tokenChange (decimalsOf pre post)
    = (tokenChange / Math_pow 10 6 * solRateOf mintAddr)%float.
Proof.
  intros Hpre Hpost.
  assert (H6 : decimalsOf pre post = 6%float).
  { unfold decimalsOf.
    destruct pre as [a|]; [rewrite (Hpre a eq_refl)|];
      destruct post as [b|]; try rewrite (Hpost b eq_refl); reflexivity. }
  split; [exact H6|]. intros mintAddr tokenChange. now rewrite H6.
Qed.

End TokenFacts.
(** * The revision without a cache *)

Section OutcomeFacts.
Import Web3 Eff Outcome.

Lemma holds_ret {St A} (a : A) (s : St) (N : A -> St -> Prop) (T : Thrown -> St -> Prop) :
  N a s -> holds (ret a) s N T.
Proof. exact (fun H => H). Qed.

Lemma holds_throw {St A} (e : Thrown) (s : St) (N : A -> St -> Prop)
    (T : Thrown -> St -> Prop) :
  T e s -> holds (throw e) s N T.
Proof. exact (fun H => H). Qed.

Lemma holds_modify {St} (f : St -> St) (s : St) (N : unit -> St -> Prop)
    (T : Thrown -> St -> Prop) :
  N tt (f s) -> holds (modify f) s N T.
Proof. exact (fun H => H). Qed.

Lemma holds_bind {St A B} (c : M St A) (k : A -> M St B) (s : St)
    (N : B -> St -> Prop) (T : Thrown -> St -> Prop) :
  holds c s (fun a s' => holds (k a) s' N T) T -> holds (bind c k) s N T.
Proof. unfold holds, bind. now destruct (c s) as [[e|a] s']. Qed.

Lemma holds_tryCatch {St A} (c : M St A) (h : Thrown -> M St A) (s : St)
    (N : A -> St -> Prop) (T : Thrown -> St -> Prop) :
  holds c s N (fun e s' => holds (h e) s' N T) -> holds (tryCatch c h) s N T.
Proof. unfold holds, tryCatch. now destruct (c s) as [[e|a] s']. Qed.

Lemma holds_weaken {St A} (c : M St A) (s : St)
    (N N' : A -> St -> Prop) (T T' : Thrown -> St -> Prop) :
  (forall a s', N a s' -> N' a s') ->
  (forall e s', T e s' -> T' e s') ->
  holds c s N T -> holds c s N' T'.
Proof. unfold holds. destruct (c s) as [[e|a] s']; auto. Qed.

(** A loop whose body takes the invariant from one count to the next. *)
Lemma holds_each_from {St A} (body : A -> M St unit)
    (I : nat -> St -> Prop) (T : Thrown -> St -> Prop) (xs : list A) :
  forall k0,
    (forall k x s, (k0 <= k < k0 + List.length xs)%nat -> I k s ->
       holds (body x) s (fun _ => I (S k)) T) ->
    forall s, I k0 s -> holds (each xs body) s (fun _ => I (k0 + List.length xs)%nat) T.
Proof.
  unfold each. induction xs as [|x xs IH]; intros k0 Hbody s Hs; cbn [forEach List.length].
  - apply holds_ret. now rewrite Nat.add_0_r.
  - apply holds_bind.
    apply (holds_weaken _ _ (fun _ => I (S k0)) _ T T); [|auto|].
    + intros [] s' Hs'. replace (k0 + S (List.length xs))%nat
        with (S k0 + List.length xs)%nat by lia.
      apply IH; [|exact Hs'].
      intros k y s0 Hk. apply Hbody. cbn [List.length]. lia.
    + apply Hbody; [cbn [List.length]; lia | exact Hs].
Qed.

Lemma holds_each_count {St A} (body : A -> M St unit)
    (I : nat -> St -> Prop) (T : Thrown -> St -> Prop) (xs : list A) (s : St) :
  (forall k x s, (k < List.length xs)%nat -> I k s ->
     holds (body x) s (fun _ => I (S k)) T) ->
  I O s -> holds (each xs body) s (fun _ => I (List.length xs)) T.
Proof.
  intros Hbody Hs.
  apply (holds_each_from body I T xs 0); [|exact Hs].
  intros k x s0 Hk. apply Hbody. lia.
Qed.

Lemma holds_each {St A} (body : A -> M St unit)
    (I : St -> Prop) (T : Thrown -> St -> Prop) (xs : list A) (s : St) :
  (forall x s, I s -> holds (body x) s (fun _ => I) T) ->
  I s -> holds (each xs body) s (fun _ => I) T.
Proof.
  intros Hbody Hs.
  apply (holds_each_count body (fun _ => I) T xs s); [|exact Hs].
  intros k x s0 _. apply Hbody.
Qed.

End OutcomeFacts.

Section LegacyStepFacts.
Import Web3 Eff JsNumber Legacy LegacyRun.
Context `{RT : Runtime}.

Lemma interactionTime_run {St} (sig : ConfirmedSignatureInfo) (s : St) :
  interactionTime sig s
  = match stampOf sig with
    | inl e => (inl e, s)
    | inr time => (inr time, s)
    end.
Proof.
  unfold interactionTime, stampOf, JsDate.toISOString.
  destruct (blockTimeOf sig) as [t|]; [|reflexivity].
  now destruct (JsDate.timeClip (t * 1000)).
Qed.

Lemma ensureAccount_run (acct : string) (sig : ConfirmedSignatureInfo) (st : Analysis) :
  ensureAccount acct sig st
  = if JsMap.has acct (relatedAccountsMap st) then (inr tt, st)
    else match stampOf sig with
         | inl e => (inl e, st)
         | inr time => (inr tt, updMap (JsMap.set acct (freshAccount acct time)) st)
         end.
Proof.
  unfold ensureAccount, bind, gets.
  destruct (JsMap.has acct (relatedAccountsMap st)); [reflexivity|].
  rewrite interactionTime_run. now destruct (stampOf sig).
Qed.

Lemma touch_run (acct : string) (sig : ConfirmedSignatureInfo) (st : Analysis) :
  touch acct sig st
  = match blockTimeOf sig with
    | None => (inr tt, st)
    | Some _ =>
        match stampOf sig with
        | inl e => (inl e, st)
        | inr time =>
            (inr tt, updMap (updateAccount acct (setLastInteraction time)) st)
        end
    end.
Proof.
  unfold touch, stampOf, JsDate.toISOString, bind.
  destruct (blockTimeOf sig) as [t|]; [|reflexivity].
  now destruct (JsDate.timeClip (t * 1000)).
Qed.

End LegacyStepFacts.
(** * The records of the revision without a cache *)

Section LegacyRecordFacts.
Import Web3 Eff JsNumber Legacy LegacyRun Outcome.
Context `{RT : Runtime}.

Lemma changed_set (k : string) (r : RelatedAccount) (m : JsMap.t RelatedAccount) :
  changed k r m (JsMap.set k r m).
Proof.
  split; [apply JsMap_get_set_same|]. split; [|apply JsMap_wf_set].
  intros k' Hk'. apply JsMap_get_set_other. congruence.
Qed.

Lemma changed_update (k : string) (f : RelatedAccount -> RelatedAccount)
    (r : RelatedAccount) (m : JsMap.t RelatedAccount) :
  JsMap.get k m = Some r -> changed k (f r) m (updateAccount k f m).
Proof. intros G. unfold updateAccount. rewrite G. apply changed_set. Qed.

Lemma changed_trans (k : string) (r1 r2 : RelatedAccount)
    (m m1 m2 : JsMap.t RelatedAccount) :
  changed k r1 m m1 -> changed k r2 m1 m2 -> changed k r2 m m2.
Proof.
  intros (_ & H1 & W1) (G2 & H2 & W2). split; [exact G2|]. split; [|auto].
  intros k' Hk'. now rewrite H2, H1.
Qed.

Lemma changed_step (k : string) (f : RelatedAccount -> RelatedAccount)
    (r : RelatedAccount) (m m1 : JsMap.t RelatedAccount) :
  changed k r m m1 -> changed k (f r) m (updateAccount k f m1).
Proof.
  intros H. apply (changed_trans k r (f r) m m1); [exact H|].
  apply changed_update. exact (proj1 H).
Qed.

Lemma has_get {V} (k : string) (m : JsMap.t V) :
  JsMap.has k m = match JsMap.get k m with Some _ => true | None => false end.
Proof. reflexivity. Qed.

(** The update of a record, in place, as both passes do it: the counter
    of the debug record, the record of the account, which is made when
    the map has none, the first changes, the time of the interaction and
    the label.  When the time of the signature is not a valid date the
    update stops: before a new record is made, and after the first
    changes to a record the map has. *)
Lemma record_change_run (count : DebugInfo -> DebugInfo)
    (bump : RelatedAccount -> RelatedAccount) (label acct : string)
    (sig : ConfirmedSignatureInfo) (st : Analysis) :
  let m := relatedAccountsMap st in
  exists res st',
    (modify (updDebug count) ;;;
     ensureAccount acct sig ;;;
     modify (updMap (updateAccount acct bump)) ;;;
     touch acct sig ;;;
     modify (updMap (updateAccount acct (pushType label))))%eff st = (res, st') /\
    debugInfo st' = count (debugInfo st) /\
    match stampOf sig with
    | inr time =>
        res = inr tt
        /\ changed acct (pushType label (stamped sig time (bump (recordOf acct time m))))
             m (relatedAccountsMap st')
    | inl e =>
        res = inl e
        /\ match JsMap.get acct m with
           | Some r => changed acct (bump r) m (relatedAccountsMap st')
           | None => relatedAccountsMap st' = m
           end
    end.
Proof.
  intros m.
  unfold bind at 1. unfold modify at 1. cbv beta iota.
  unfold bind at 1. rewrite ensureAccount_run, has_get.
  cbn [updDebug relatedAccountsMap]. fold m.
  unfold recordOf.
  destruct (JsMap.get acct m) as [r|] eqn:G.
  - (* a known account *)
    unfold bind at 1. unfold modify at 1. cbv beta iota.
    unfold bind at 1. rewrite touch_run. unfold stamped.
    cbn [updMap updDebug relatedAccountsMap debugInfo]. fold m.
    pose proof (changed_update acct bump r m G) as H1.
    destruct (blockTimeOf sig) as [t|] eqn:B.
    + destruct (stampOf sig) as [e|time].
      * eexists. eexists. split; [reflexivity|]. split; [reflexivity|].
        split; [reflexivity | exact H1].
      * unfold modify. cbv beta iota.
        eexists. eexists. split; [reflexivity|]. split; [reflexivity|].
        split; [reflexivity|]. cbn [updMap relatedAccountsMap].
        apply changed_step. apply changed_step. exact H1.
    + assert (Hs : stampOf sig = inr "Unknown") by (unfold stampOf; now rewrite B).
      rewrite Hs. unfold modify. cbv beta iota.
      eexists. eexists. split; [reflexivity|]. split; [reflexivity|].
      split; [reflexivity|]. cbn [updMap relatedAccountsMap].
      apply changed_step. exact H1.
  - (* a new account *)
    destruct (stampOf sig) as [e|time] eqn:Hs.
    + eexists. eexists. split; [reflexivity|]. split; [reflexivity|].
      split; reflexivity.
    + unfold bind at 1. unfold modify at 1. cbv beta iota.
      unfold bind at 1. rewrite touch_run, Hs. unfold stamped.
      cbn [updMap updDebug relatedAccountsMap debugInfo]. fold m.
      pose proof (changed_set acct (freshAccount acct time) m) as H0.
      destruct (blockTimeOf sig) as [t|]; unfold modify; cbv beta iota;
        eexists; eexists; (split; [reflexivity|]); (split; [reflexivity|]);
        (split; [reflexivity|]); cbn [updMap relatedAccountsMap];
        repeat apply changed_step; exact H0.
Qed.

Lemma legacy_trackAccount_run (queried : string) (sig : ConfirmedSignatureInfo)
    (pre post : list float) (k : nat) (acct : string) (st : Analysis) :
  isSkipped queried acct = false ->
  let d := (balanceAt k post - balanceAt k pre)%float in
  (d =? 0)%float = false ->
  let m := relatedAccountsMap st in
  exists res st',
    trackAccount queried sig pre post k acct st = (res, st') /\
    debugInfo st' = countBalanceChange (debugInfo st) /\
    match stampOf sig with
    | inr time =>
        res = inr tt
        /\ changed acct (solChange sig time d (recordOf acct time m)) m
             (relatedAccountsMap st')
    | inl e =>
        res = inl e
        /\ match JsMap.get acct m with
           | Some r => changed acct (addSolFlow d r) m (relatedAccountsMap st')
           | None => relatedAccountsMap st' = m
           end
    end.
Proof.
  intros Hskip d Hd m. unfold trackAccount. rewrite Hskip. fold d.
  unfold strictNe. rewrite Hd. cbn [negb]. fold (flowLabel d).
  apply (record_change_run countBalanceChange (addSolFlow d) (flowLabel d)).
Qed.

Lemma legacy_trackTokenKey_run (queried : string) (sig : ConfirmedSignatureInfo)
    (preTokenMap postTokenMap : JsMap.t TokenBalance) (tokenKey : string)
    (st : Analysis) :
  let ownerAddr := nth 0 (JsString.split "-" tokenKey) "" in
  String.eqb ownerAddr queried = false ->
  strictNe (uiAmountOf (JsMap.get tokenKey preTokenMap))
           (uiAmountOf (JsMap.get tokenKey postTokenMap)) = true ->
  let m := relatedAccountsMap st in
  exists res st',
    trackTokenKey queried sig preTokenMap postTokenMap tokenKey st = (res, st') /\
    debugInfo st' = countTokenChange (debugInfo st) /\
    match stampOf sig with
    | inr time =>
        res = inr tt
        /\ changed ownerAddr (tokenChange sig time (recordOf ownerAddr time m)) m
             (relatedAccountsMap st')
    | inl e =>
        res = inl e
        /\ match JsMap.get ownerAddr m with
           | Some r => changed ownerAddr (addTokenInteraction r) m (relatedAccountsMap st')
           | None => relatedAccountsMap st' = m
           end
    end.
Proof.
  intros ownerAddr Hown Hne m. unfold trackTokenKey. fold ownerAddr.
  rewrite Hown, Hne.
  apply (record_change_run countTokenChange addTokenInteraction "Token Transfer").
Qed.


Lemma addType_In (label : string) (types : list string) (t : string) :
  In t (addType label types) <-> t = label \/ In t types.
Proof.
  unfold addType. destruct (existsb (String.eqb label) types) eqn:E.
  - split; [tauto|]. intros [->|H]; [|exact H].
    apply existsb_exists in E. destruct E as (x & Hx & Heq).
    apply String.eqb_eq in Heq. now subst x.
  - rewrite in_app_iff. simpl. split; [intros [H|[H|[]]]; auto | intros [H|H]; auto].
Qed.

Lemma addType_NoDup (label : string) (types : list string) :
  NoDup types -> NoDup (addType label types).
Proof.
  intros Hnd. unfold addType. destruct (existsb (String.eqb label) types) eqn:E;
    [exact Hnd|].
  apply NoDup_app; [exact Hnd | constructor; [intros [] | constructor] |].
  intros x Hx [<-|[]].
  apply Bool.not_true_iff_false in E. apply E. apply existsb_exists.
  exists label. split; [exact Hx | apply String.eqb_refl].
Qed.

Lemma addType_nonempty (label : string) (types : list string) :
  addType label types <> [].
Proof.
  unfold addType. destruct (existsb (String.eqb label) types) eqn:E.
  - destruct types; [discriminate E | discriminate].
  - destruct types; discriminate.
Qed.

(** The time of the interaction is the one member [stamped] changes. *)
Lemma stamped_members (sig : ConfirmedSignatureInfo) (time : string)
    (r : RelatedAccount) :
  ra_address (stamped sig time r) = ra_address r
  /\ transactionCount (stamped sig time r) = transactionCount r
  /\ transactionTypes (stamped sig time r) = transactionTypes r
  /\ totalSolFlowLamports (stamped sig time r) = totalSolFlowLamports r
  /\ totalTokenInteractions (stamped sig time r) = totalTokenInteractions r.
Proof.
  unfold stamped, setLastInteraction.
  destruct (blockTimeOf sig); [|now repeat split].
  destruct (_ || _); now repeat split.
Qed.

Lemma freshAccount_inv (strict : Prop) (k time : string) :
  recordInv strict k (freshAccount k time).
Proof.
  constructor; cbn.
  - reflexivity.
  - constructor.
  - intros t [].
  - exists 0%Z. split; [reflexivity|]. split; [lia|]. split; [intros [] | lia].
  - now exists 0%float.
Qed.

Lemma flowLabel_known (d : float) :
  In (flowLabel d) labels /\ flowLabel d <> "Token Transfer".
Proof.
  unfold flowLabel, labels. destruct (0 <? d)%float; cbn; (split; [auto | discriminate]).
Qed.

Lemma solChange_ok (strict : Prop) (k : string) (sig : ConfirmedSignatureInfo)
    (time : string) (d : float) (r : RelatedAccount) :
  recordInv strict k r -> recordOk strict k (solChange sig time d r).
Proof.
  intros [Ha Hnd Hknown (c & Hc & Hrange & Hfwd & Hback) (f & Hf)].
  destruct (flowLabel_known d) as [Hin Hne].
  destruct (stamped_members sig time (addSolFlow d r)) as (Sa & Sc & St & Sf & Sk).
  unfold solChange.
  split; [constructor|split];
    cbn [pushType ra_address transactionCount transactionTypes
         totalTokenInteractions totalSolFlowLamports];
    rewrite ?Sa, ?Sc, ?St, ?Sf, ?Sk;
    cbn [addSolFlow ra_address transactionCount transactionTypes
         totalTokenInteractions totalSolFlowLamports].
  - exact Ha.
  - now apply addType_NoDup.
  - intros t Ht. apply addType_In in Ht. destruct Ht as [->|Ht]; auto.
  - exists c. split; [exact Hc|]. split; [lia|].
    rewrite addType_In. split.
    + intros [H|H]; [congruence | auto].
    + auto.
  - eexists. reflexivity.
  - lia.
  - apply addType_nonempty.
Qed.

Lemma tokenChange_ok (strict : Prop) (k : string) (sig : ConfirmedSignatureInfo)
    (time : string) (r : RelatedAccount) :
  recordInv strict k r -> recordOk strict k (tokenChange sig time r).
Proof.
  intros [Ha Hnd Hknown (c & Hc & Hrange & Hfwd & Hback) (f & Hf)].
  destruct (stamped_members sig time (addTokenInteraction r)) as (Sa & Sc & St & Sf & Sk).
  unfold tokenChange.
  split; [constructor|split];
    cbn [pushType ra_address transactionCount transactionTypes
         totalTokenInteractions totalSolFlowLamports];
    rewrite ?Sa, ?Sc, ?St, ?Sf, ?Sk;
    cbn [addTokenInteraction ra_address transactionCount transactionTypes
         totalTokenInteractions totalSolFlowLamports].
  - exact Ha.
  - now apply addType_NoDup.
  - intros t Ht. apply addType_In in Ht. destruct Ht as [->|Ht]; [cbn; auto | auto].
  - exists (c + 1)%Z. rewrite Hc. split; [reflexivity|]. split; [lia|].
    rewrite addType_In. split; [lia | auto].
  - now exists f.
  - lia.
  - apply addType_nonempty.
Qed.

(** The first changes of a pass that is then cut short leave a record
    that may lack the label of its last interaction. *)
Lemma addSolFlow_cut (strict : Prop) (k : string) (d : float) (r : RelatedAccount) :
  recordOk strict k r -> recordOk False k (addSolFlow d r).
Proof.
  intros [[Ha Hnd Hknown (c & Hc & Hrange & Hfwd & Hback) (f & Hf)] [Hcount Hne]].
  split; [constructor|split]; cbn; auto.
  - exists c. split; [exact Hc|]. split; [lia|]. split; [exact Hfwd | intros []].
  - eexists. reflexivity.
  - lia.
Qed.

Lemma addTokenInteraction_cut (strict : Prop) (k : string) (r : RelatedAccount) :
  recordOk strict k r -> recordOk False k (addTokenInteraction r).
Proof.
  intros [[Ha Hnd Hknown (c & Hc & Hrange & Hfwd & Hback) (f & Hf)] [Hcount Hne]].
  split; [constructor|split]; cbn; auto.
  - exists (c + 1)%Z. rewrite Hc. split; [reflexivity|]. split; [lia|].
    split; [lia | intros []].
  - now exists f.
  - lia.
Qed.

Lemma recordOk_mono (P Q : Prop) (k : string) (r : RelatedAccount) :
  (Q -> P) -> recordOk P k r -> recordOk Q k r.
Proof.
  intros HQP [[Ha Hnd Hknown (c & Hc & Hrange & Hfwd & Hback) Hflow] Hrest].
  split; [constructor|exact Hrest]; auto.
  exists c. repeat split; auto; lia.
Qed.

Lemma mapOk_mono (P Q : Prop) (queried : string) (m : JsMap.t RelatedAccount) :
  (Q -> P) -> mapOk P queried m -> mapOk Q queried m.
Proof.
  intros HQP [Hwf Hrec]. split; [exact Hwf|].
  intros k r G. destruct (Hrec k r G) as [Hok Hne].
  split; [now apply (recordOk_mono P Q) | exact Hne].
Qed.

Lemma analysisOk_mono (P Q : Prop) (queried : string) (st : Analysis) :
  (Q -> P) -> analysisOk P queried st -> analysisOk Q queried st.
Proof.
  intros HQP [Hm Hd]. split; [now apply (mapOk_mono P Q) | exact Hd].
Qed.

Lemma mapOk_changed (strict : Prop) (queried k : string) (r : RelatedAccount)
    (m m' : JsMap.t RelatedAccount) :
  mapOk strict queried m -> k <> queried -> recordOk strict k r ->
  changed k r m m' -> mapOk strict queried m'.
Proof.
  intros [Hwf Hrec] Hne Hok (G & Hother & Hwf'). split; [auto|].
  intros k' r'. destruct (String.eqb_spec k' k) as [->|Hk].
  - rewrite G. intros [= <-]. now split.
  - rewrite Hother by exact Hk. apply Hrec.
Qed.

Lemma recordOf_inv (strict : Prop) (queried k time : string)
    (m : JsMap.t RelatedAccount) :
  mapOk strict queried m -> recordInv strict k (recordOf k time m).
Proof.
  intros [_ Hrec]. unfold recordOf.
  destruct (JsMap.get k m) as [r|] eqn:G.
  - exact (proj1 (proj1 (Hrec k r G))).
  - apply freshAccount_inv.
Qed.

Lemma legacy_isSkipped_queried (queried acct : string) :
  isSkipped queried acct = false -> acct <> queried.
Proof.
  unfold isSkipped. intros H ->. now rewrite String.eqb_refl in H.
Qed.

Lemma advance_refl (st : Analysis) : advance 0 st st.
Proof. unfold advance. repeat split; lia. Qed.

Lemma advance_trans (a b : nat) (st1 st2 st3 : Analysis) :
  advance a st1 st2 -> advance b st2 st3 -> advance (a + b) st1 st3.
Proof.
  unfold advance. intros (E1 & U1 & P1) (E2 & U2 & P2).
  split; [congruence|]. split; [congruence|]. lia.
Qed.

Lemma advance_le (a b : nat) (st st' : Analysis) :
  (a <= b)%nat -> advance a st st' -> advance b st st'.
Proof. unfold advance. intros Hab (E & U & P). repeat split; auto; lia. Qed.

End LegacyRecordFacts.
Section LegacyPassFacts.
Import Web3 Eff JsNumber Legacy LegacyRun Outcome.
Context `{RT : Runtime}.

Lemma keeps_ret (strict : Prop) (queried : string) : keeps strict queried 0 (ret tt).
Proof.
  intros st Hok. apply holds_ret. split; [exact Hok | apply advance_refl].
Qed.

Lemma keeps_seq (strict : Prop) (queried : string) (a b : nat)
    (c1 c2 : M Analysis unit) :
  keeps strict queried a c1 -> keeps strict queried b c2 ->
  keeps strict queried (a + b) (c1 ;;; c2)%eff.
Proof.
  intros H1 H2 st Hok. apply holds_bind.
  eapply holds_weaken; [| |exact (H1 st Hok)].
  - intros [] st1 [Hok1 Hadv1]. cbv beta.
    eapply holds_weaken; [| |exact (H2 st1 Hok1)].
    + intros [] st2 [Hok2 Hadv2]. split; [exact Hok2|].
      eapply advance_trans; eassumption.
    + intros e st2 [Hok2 Hadv2]. split; [exact Hok2|].
      eapply advance_trans; eassumption.
  - intros e st1 [Hok1 Hadv1]. split; [exact Hok1|].
    apply (advance_le a); [lia | exact Hadv1].
Qed.

Lemma keeps_each (strict : Prop) (queried : string) {A} (body : A -> M Analysis unit)
    (xs : list A) :
  (forall x, keeps strict queried 0 (body x)) ->
  keeps strict queried 0 (each xs body).
Proof.
  intros Hbody st Hok.
  apply (holds_each body
           (fun st' => analysisOk strict queried st' /\ advance 0 st st')
           (fun _ st' => analysisOk False queried st' /\ advance 0 st st')).
  - intros x st1 [Hok1 Hadv1].
    eapply holds_weaken; [| |exact (Hbody x st1 Hok1)].
    + intros [] st2 [Hok2 Hadv2]. split; [exact Hok2|].
      exact (advance_trans 0 0 _ _ _ Hadv1 Hadv2).
    + intros e st2 [Hok2 Hadv2]. split; [exact Hok2|].
      exact (advance_trans 0 0 _ _ _ Hadv1 Hadv2).
  - split; [exact Hok | apply advance_refl].
Qed.

Lemma debugOk_counted (d : DebugInfo) :
  debugOk d ->
  debugOk (countFiltered d) /\ debugOk (countBalanceChange d)
  /\ debugOk (countTokenChange d) /\ debugOk (countProcessed d).
Proof.
  unfold debugOk. cbn. intros (Hsum & Hp & Hb & Ht & Hf).
  repeat split; try assumption; lia.
Qed.

(** An update of a record keeps the state well formed. *)
Lemma record_change_keeps (strict : Prop) (queried acct : string)
    (count : DebugInfo -> DebugInfo) (st : Analysis)
    (res : Thrown + unit) (st' : Analysis)
    (finish : string -> RelatedAccount -> RelatedAccount)
    (cut : RelatedAccount -> RelatedAccount) (sig : ConfirmedSignatureInfo) :
  analysisOk strict queried st ->
  acct <> queried ->
  debugOk (count (debugInfo st)) ->
  errors (count (debugInfo st)) = errors (debugInfo st) ->
  rpcUsed (count (debugInfo st)) = rpcUsed (debugInfo st) ->
  processedTxs (count (debugInfo st)) = processedTxs (debugInfo st) ->
  (forall time r, recordInv strict acct r -> recordOk strict acct (finish time r)) ->
  (forall r, recordOk strict acct r -> recordOk False acct (cut r)) ->
  debugInfo st' = count (debugInfo st) ->
  match stampOf sig with
  | inr time =>
      res = inr tt
      /\ changed acct (finish time (recordOf acct time (relatedAccountsMap st)))
           (relatedAccountsMap st) (relatedAccountsMap st')
  | inl e =>
      res = inl e
      /\ match JsMap.get acct (relatedAccountsMap st) with
         | Some r => changed acct (cut r) (relatedAccountsMap st) (relatedAccountsMap st')
         | None => relatedAccountsMap st' = relatedAccountsMap st
         end
  end ->
  match res with
  | inr _ => analysisOk strict queried st' /\ advance 0 st st'
  | inl _ => analysisOk False queried st' /\ advance 0 st st'
  end.
Proof.
  intros [Hm Hd] Hne Hd' He Hu Hp Hfinish Hcut Hdebug Hres.
  assert (Hadv : advance 0 st st').
  { unfold advance. rewrite Hdebug, He, Hu, Hp. repeat split; lia. }
  destruct (stampOf sig) as [e|time].
  - destruct Hres as [-> Hmap]. split; [|exact Hadv].
    split; [|now rewrite Hdebug].
    destruct (JsMap.get acct (relatedAccountsMap st)) as [r|] eqn:G.
    + apply (mapOk_changed False queried acct (cut r) (relatedAccountsMap st));
        [apply (mapOk_mono strict); [intros [] | exact Hm] | exact Hne | | exact Hmap].
      apply Hcut. exact (proj1 (proj2 Hm acct r G)).
    + rewrite Hmap. apply (mapOk_mono strict); [intros [] | exact Hm].
  - destruct Hres as [-> Hmap]. split; [|exact Hadv].
    split; [|now rewrite Hdebug].
    apply (mapOk_changed strict queried acct
             (finish time (recordOf acct time (relatedAccountsMap st)))
             (relatedAccountsMap st));
      [exact Hm | exact Hne | | exact Hmap].
    apply Hfinish. now apply (recordOf_inv strict queried).
Qed.

Lemma keeps_trackAccount (strict : Prop) (queried : string)
    (sig : ConfirmedSignatureInfo) (pre post : list float) (k : nat) (acct : string) :
  keeps strict queried 0 (trackAccount queried sig pre post k acct).
Proof.
  intros st Hok. unfold holds.
  destruct (isSkipped queried acct) eqn:Hskip.
  - unfold trackAccount. rewrite Hskip. unfold modify.
    destruct Hok as [Hm Hd]. split.
    + split; [exact Hm|]. cbn. apply (debugOk_counted _ Hd).
    + unfold advance. cbn. repeat split; lia.
  - destruct ((balanceAt k post - balanceAt k pre =? 0)%float) eqn:Hd.
    + unfold trackAccount. rewrite Hskip. unfold strictNe. rewrite Hd. cbn [negb].
      unfold ret. split; [exact Hok | apply advance_refl].
    + destruct (legacy_trackAccount_run queried sig pre post k acct st Hskip Hd)
        as (res & st' & -> & Hdebug & Hres).
      apply (record_change_keeps strict queried acct countBalanceChange st res st'
               (fun time => solChange sig time (balanceAt k post - balanceAt k pre))
               (addSolFlow (balanceAt k post - balanceAt k pre)) sig);
        try reflexivity; try assumption.
      * now apply legacy_isSkipped_queried.
      * apply (debugOk_counted _ (debug_ok _ _ _ Hok)).
      * intros time r. apply solChange_ok.
      * intros r. apply addSolFlow_cut.
Qed.

Lemma keeps_nativePass (strict : Prop) (queried : string)
    (sig : ConfirmedSignatureInfo) (t : ParsedTransaction) (m : TransactionMeta) :
  keeps strict queried 0 (nativePass queried sig t m).
Proof.
  unfold nativePass.
  destruct (preBalances m) as [pre|]; [|apply keeps_ret].
  destruct (postBalances m) as [post|]; [|apply keeps_ret].
  destruct (accountKeys t) as [keys|]; [|apply keeps_ret].
  apply keeps_each. intros [k a]. apply keeps_trackAccount.
Qed.

Lemma keeps_trackTokenKey (strict : Prop) (queried : string)
    (sig : ConfirmedSignatureInfo) (pre post : JsMap.t TokenBalance)
    (tokenKey : string) :
  keeps strict queried 0 (trackTokenKey queried sig pre post tokenKey).
Proof.
  intros st Hok. unfold holds.
  destruct (String.eqb (nth 0 (JsString.split "-" tokenKey) "") queried) eqn:Hown.
  - unfold trackTokenKey. rewrite Hown. unfold ret.
    split; [exact Hok | apply advance_refl].
  - destruct (strictNe (uiAmountOf (JsMap.get tokenKey pre))
                       (uiAmountOf (JsMap.get tokenKey post))) eqn:Hne.
    + destruct (legacy_trackTokenKey_run queried sig pre post tokenKey st Hown Hne)
        as (res & st' & -> & Hdebug & Hres).
      apply (record_change_keeps strict queried
               (nth 0 (JsString.split "-" tokenKey) "") countTokenChange st res st'
               (fun time => tokenChange sig time) addTokenInteraction sig);
        try reflexivity; try assumption.
      * now apply String.eqb_neq.
      * apply (debugOk_counted _ (debug_ok _ _ _ Hok)).
      * intros time r. apply tokenChange_ok.
      * intros r. apply addTokenInteraction_cut.
    + unfold trackTokenKey. rewrite Hown, Hne. unfold ret.
      split; [exact Hok | apply advance_refl].
Qed.

Lemma keeps_tokenPass (strict : Prop) (queried : string)
    (sig : ConfirmedSignatureInfo) (m : TransactionMeta) :
  keeps strict queried 0 (tokenPass queried sig m).
Proof.
  unfold tokenPass.
  destruct (preTokenBalances m) as [pre|]; [|apply keeps_ret].
  destruct (postTokenBalances m) as [post|]; [|apply keeps_ret].
  cbv zeta. apply keeps_each. intros key. apply keeps_trackTokenKey.
Qed.

(** A transaction adds at most one to the number of transactions looked
    at. *)
Lemma keeps_processTransaction (strict : Prop) (queried : string)
    (batch : list ConfirmedSignatureInfo) (j : nat) (tx : option ParsedTransaction) :
  keeps strict queried 1 (processTransaction queried batch j tx).
Proof.
  unfold processTransaction.
  destruct tx as [t|];
    [|intros st Hok; apply holds_ret; split;
      [exact Hok | apply (advance_le 0); [lia | apply advance_refl]]].
  destruct (meta t) as [m|];
    [|intros st Hok; apply holds_ret; split;
      [exact Hok | apply (advance_le 0); [lia | apply advance_refl]]].
  apply (keeps_seq strict queried 1 0).
  - intros st [Hm Hd]. apply holds_modify. split.
    + split; [exact Hm|]. cbn. apply (debugOk_counted _ Hd).
    + unfold advance. cbn. repeat split; lia.
  - destruct (nth_error batch j) as [sig|].
    + apply (keeps_seq strict queried 0 0);
        [apply keeps_nativePass | apply keeps_tokenPass].
    + intros st Hok. apply holds_throw. split; [|apply advance_refl].
      apply (analysisOk_mono strict); [intros [] | exact Hok].
Qed.

Lemma keeps_processTransactions (strict : Prop) (queried : string)
    (batch : list ConfirmedSignatureInfo) (txs : list (option ParsedTransaction)) :
  keeps strict queried (List.length txs)
    (each (indexed txs)
       (fun jt => processTransaction queried batch (fst jt) (snd jt))).
Proof.
  intros st Hok.
  assert (Hlen : List.length (indexed txs) = List.length txs).
  { unfold indexed. rewrite length_combine, length_seq. lia. }
  rewrite <- Hlen.
  eapply holds_weaken;
    [| |apply (holds_each_count
                 (fun jt => processTransaction queried batch (fst jt) (snd jt))
                 (fun k st' => analysisOk strict queried st' /\ advance k st st')
                 (fun _ st' => analysisOk False queried st'
                               /\ advance (List.length (indexed txs)) st st'))].
  - intros [] st' H. exact H.
  - intros e st' H. exact H.
  - intros k [j tx] st1 Hk [Hok1 Hadv1]. cbn [fst snd].
    eapply holds_weaken; [| |exact (keeps_processTransaction strict queried batch j tx st1 Hok1)].
    + intros [] st2 [Hok2 Hadv2]. split; [exact Hok2|].
      replace (S k) with (k + 1)%nat by lia. eapply advance_trans; eassumption.
    + intros e st2 [Hok2 Hadv2]. split; [exact Hok2|].
      apply (advance_le (k + 1)); [lia|]. eapply advance_trans; eassumption.
  - split; [exact Hok | apply advance_refl].
Qed.

End LegacyPassFacts.
(** * The batches of the revision without a cache *)

Section LegacyBatchFacts.
Import Web3 Eff JsNumber Legacy LegacyRun Outcome.
Context `{RT : Runtime} `{LG : Ledger}.

Lemma legacy_fetchTransactions_log (rpcUrl : string) (isHelius : bool)
    (txSignatures : list string) (n : Net) :
  rpcLog (snd (fetchTransactions rpcUrl isHelius txSignatures n))
  = (rpcLog n ++ Run.batchCalls isHelius txSignatures)%list.
Proof.
  unfold fetchTransactions, Run.batchCalls. destruct isHelius; [|reflexivity].
  match goal with
  | |- context [forEach _ _ ?body] =>
      assert (Hbody : forall b a n0, exists b' n',
                body b a n0 = (inr b', n')
                /\ rpcLog n' = (rpcLog n0 ++ [GetParsedTransaction a])%list)
  end.
  { intros b a n0. unfold tryCatch, bind, request, sleep, modify, ret.
    destruct (getParsedTransaction rpcUrl (rpcLog n0) a) as [e|tx];
      eexists; eexists; (split; [reflexivity|]); reflexivity. }
  destruct (forEach_log _ _ Hbody txSignatures [] n) as (b' & n' & Hrun & Hlog).
  rewrite Hrun. cbn [snd]. rewrite Hlog. f_equal.
Qed.

(** On Helius every signature of the batch gets one transaction, fetched
    or not; on another endpoint the batch gets what the endpoint answers. *)
Lemma legacy_fetchTransactions_length (rpcUrl : string) (isHelius : bool)
    (txSignatures : list string) (n : Net) txs n' :
  fetchTransactions rpcUrl isHelius txSignatures n = (inr txs, n') ->
  isHelius = true \/ answersFit rpcUrl ->
  (List.length txs <= List.length txSignatures)%nat.
Proof.
  unfold fetchTransactions. destruct isHelius.
  - intros Hrun _.
    match type of Hrun with
    | forEach _ _ ?body _ = _ =>
        assert (Hloop : forall l acc n0 txs0 n1,
                  forEach l acc body n0 = (inr txs0, n1) ->
                  List.length txs0 = (List.length acc + List.length l)%nat)
    end.
    { induction l as [|s l IH]; intros acc n0 txs0 n1; cbn [forEach].
      - unfold ret. intros [= <- _]. cbn. lia.
      - unfold bind at 1. unfold tryCatch at 1. unfold bind at 1. unfold request at 1.
        destruct (getParsedTransaction rpcUrl (rpcLog n0) s) as [e|tx].
        + unfold ret at 1. intros H. apply IH in H.
          rewrite length_app in H. cbn in *. lia.
        + unfold bind at 1. unfold sleep at 1, modify at 1. unfold ret at 1.
          intros H. apply IH in H. rewrite length_app in H. cbn in *. lia. }
    apply Hloop in Hrun. cbn in Hrun. lia.
  - unfold request. intros Hrun [Hh|Hfit]; [discriminate|].
    destruct (getParsedTransactions rpcUrl (rpcLog n) txSignatures) as [e|t] eqn:G;
      [discriminate|].
    injection Hrun as <- _. exact (Hfit _ _ _ G).
Qed.

Lemma batchCalls_length (isHelius : bool) (txSignatures : list string) :
  (List.length txSignatures <= 1)%nat ->
  (List.length (Run.batchCalls isHelius txSignatures) <= 1)%nat.
Proof.
  intros H. unfold Run.batchCalls. destruct isHelius; [now rewrite length_map | cbn; lia].
Qed.


(** The handler of a batch that was cut short: it adds one line to the
    errors, or throws when the thrown value is [null] or [undefined]; it
    sends nothing and leaves the records alone. *)
Lemma legacy_batch_handler (rpcUrl : string) (i : nat) (batchError : Thrown)
    (s : RunState) :
  let out :=
    (text <- batchErrorText batchError ;;
     onAnalysis
       (modify (updDebug (pushError ("Batch " ++ decimalDigits (Z.of_nat i)
                                     ++ ": " ++ text)))) ;;;
     onNet (sleep (if JsString.includes "helius" rpcUrl then 1000 else 3000)))%eff s in
  rpcLog (net (snd out)) = rpcLog (net s)
  /\ relatedAccountsMap (analysis (snd out)) = relatedAccountsMap (analysis s)
  /\ (exists lines,
        debugInfo (analysis (snd out))
        = {| processedTxs := processedTxs (debugInfo (analysis s));
             totalAccounts := totalAccounts (debugInfo (analysis s));
             filteredAccounts := filteredAccounts (debugInfo (analysis s));
             errors := (errors (debugInfo (analysis s)) ++ lines)%list;
             balanceChanges := balanceChanges (debugInfo (analysis s));
             tokenChanges := tokenChanges (debugInfo (analysis s));
             rpcUsed := rpcUsed (debugInfo (analysis s));
             finalAccountCount := finalAccountCount (debugInfo (analysis s)) |}
        /\ (List.length lines <= 1)%nat
        /\ (fst out = inr tt -> lines <> [])).
Proof.
  cbv zeta.
  unfold batchErrorText, bind, onAnalysis, onNet, zoom, modify, sleep, ret, throw.
  destruct batchError as [m|isNull|r [text|]]; cbn [fst snd analysis net rpcLog
    relatedAccountsMap debugInfo updDebug pushError];
    (split; [reflexivity|]); (split; [reflexivity|]).
  - eexists. split; [reflexivity|]. split; [cbn; lia | discriminate].
  - exists []. rewrite app_nil_r. split; [now destruct (debugInfo (analysis s))|].
    split; [cbn; lia | discriminate].
  - eexists. split; [reflexivity|]. split; [cbn; lia | discriminate].
  - eexists. split; [reflexivity|]. split; [cbn; lia | discriminate].
Qed.


Lemma debugOk_pushed (d d' : DebugInfo) (lines : list string) :
  debugOk d ->
  d' = {| processedTxs := processedTxs d; totalAccounts := totalAccounts d;
          filteredAccounts := filteredAccounts d;
          errors := (errors d ++ lines)%list;
          balanceChanges := balanceChanges d; tokenChanges := tokenChanges d;
          rpcUsed := rpcUsed d; finalAccountCount := finalAccountCount d |} ->
  debugOk d'.
Proof. intros H ->. exact H. Qed.

(** A batch sends one request at most and adds one line to the errors at
    most; it leaves the state well formed however it ends, and with no
    record half updated when no batch was cut short so far. *)
Lemma legacy_processBatch_step (queried rpcUrl : string) (isHelius : bool)
    (signatures : list ConfirmedSignatureInfo) (i : nat) (s : RunState) :
  analysisOk (errors (debugInfo (analysis s)) = []) queried (analysis s) ->
  let out := processBatch queried rpcUrl isHelius signatures i s in
  batchStep rpcUrl isHelius s (snd out) /\
  analysisOk False queried (analysis (snd out)) /\
  (fst out = inr tt ->
   analysisOk (errors (debugInfo (analysis (snd out))) = []) queried
     (analysis (snd out))).
Proof.
  intros Hok out. destruct s as [st n]. cbn [analysis net] in *.
  assert (Hrun : out = processBatch queried rpcUrl isHelius signatures i
                         {| analysis := st; net := n |}) by reflexivity.
  clearbody out. unfold processBatch in Hrun. cbv zeta in Hrun.
  set (batch := JsArray.slice i (i + 1) signatures) in Hrun.
  assert (Hbatch : (List.length batch <= 1)%nat).
  { subst batch. pose proof (slice_length i (i + 1) signatures). lia. }
  set (txSignatures := map signature batch) in Hrun.
  assert (Hsigs : (List.length txSignatures <= 1)%nat)
    by (subst txSignatures; now rewrite length_map).
  pose proof (batchCalls_length isHelius txSignatures Hsigs) as Hcalls.
  match type of Hrun with
  | context [tryCatch _ ?h] => set (handler := h) in Hrun
  end.
  unfold tryCatch, bind in Hrun.
  assert (Hpre : exists n1,
            (if (0 <? i)%nat then onNet (sleep (if isHelius then 1500 else 3000))
             else ret tt) {| analysis := st; net := n |}
            = (inr tt, {| analysis := st; net := n1 |})
            /\ rpcLog n1 = rpcLog n).
  { destruct (0 <? i)%nat; eexists; split; reflexivity. }
  destruct Hpre as (n1 & Hpre & Hlog1). rewrite Hpre in Hrun. clear Hpre.
  unfold onNet at 1, zoom at 1 in Hrun. cbn [analysis net] in Hrun.
  pose proof (legacy_fetchTransactions_log rpcUrl isHelius txSignatures n1) as Hlog2.
  pose proof (legacy_fetchTransactions_length rpcUrl isHelius txSignatures n1) as Hlen.
  destruct (fetchTransactions rpcUrl isHelius txSignatures n1) as [[e|txs] n2];
    cbn [snd] in Hlog2.
  - (* the request failed *)
    pose proof (legacy_batch_handler rpcUrl i e {| analysis := st; net := n2 |})
      as (Hl & Hm & lines & Hd & Hn & Hne).
    fold (handler e) in Hl, Hm, Hd, Hne. rewrite <- Hrun in Hl, Hm, Hd, Hne.
    clear Hrun. cbn [analysis net] in Hl, Hm, Hd.
    destruct Hok as [Hmap Hdebug].
    split; [|split].
    + constructor; cbn [analysis net]; rewrite ?Hd; cbn [rpcUsed errors processedTxs].
      * exists (Run.batchCalls isHelius txSignatures).
        split; [now rewrite Hl, Hlog2, Hlog1 | exact Hcalls].
      * reflexivity.
      * now exists lines.
      * lia.
      * intros _. lia.
    + split; [rewrite Hm; apply (mapOk_mono _ False) in Hmap; [exact Hmap | intros []]|].
      exact (debugOk_pushed _ _ lines Hdebug Hd).
    + intros Hret. specialize (Hne Hret).
      split; [|exact (debugOk_pushed _ _ lines Hdebug Hd)].
      rewrite Hm. apply (mapOk_mono (errors (debugInfo st) = [])); [|exact Hmap].
      rewrite Hd. cbn [errors]. intros H. exfalso. apply Hne.
      destruct lines; [reflexivity|]. now destruct (errors (debugInfo st)).
  - (* the transactions are looked at *)
    unfold onAnalysis at 1, zoom at 1 in Hrun. cbn [analysis net] in Hrun.
    pose proof (keeps_processTransactions _ queried batch txs st Hok) as Hkeep.
    unfold holds in Hkeep.
    destruct (each (indexed txs)
                (fun jt => processTransaction queried batch (fst jt) (snd jt)) st)
      as [[e|[]] st'].
    + (* a pass was cut short *)
      destruct Hkeep as [Hok' (He & Hu & Hp)].
      pose proof (legacy_batch_handler rpcUrl i e {| analysis := st'; net := n2 |})
        as (Hl & Hm & lines & Hd & Hn & Hne).
      fold (handler e) in Hl, Hm, Hd, Hne. rewrite <- Hrun in Hl, Hm, Hd, Hne.
      clear Hrun. cbn [analysis net] in Hl, Hm, Hd.
      destruct Hok' as [Hmap Hdebug].
      split; [|split].
      * constructor; cbn [analysis net]; rewrite ?Hd;
          cbn [rpcUsed errors processedTxs].
        -- exists (Run.batchCalls isHelius txSignatures).
           split; [now rewrite Hl, Hlog2, Hlog1 | exact Hcalls].
        -- exact Hu.
        -- exists lines. now rewrite He.
        -- lia.
        -- intros Hfit. specialize (Hlen txs n2 eq_refl Hfit). lia.
      * split; [now rewrite Hm | exact (debugOk_pushed _ _ lines Hdebug Hd)].
      * intros Hret. specialize (Hne Hret).
        split; [|exact (debugOk_pushed _ _ lines Hdebug Hd)].
        rewrite Hm. apply (mapOk_mono False); [|exact Hmap].
        rewrite Hd. cbn [errors]. intros H. apply Hne.
        destruct lines; [reflexivity|]. now destruct (errors (debugInfo st')).
    + (* the batch went through *)
      destruct Hkeep as [Hok' (He & Hu & Hp)]. subst out. cbn [fst snd analysis net].
      split; [|split].
      * constructor; cbn [analysis net].
        -- exists (Run.batchCalls isHelius txSignatures).
           split; [now rewrite Hlog2, Hlog1 | exact Hcalls].
        -- exact Hu.
        -- exists []. rewrite app_nil_r. split; [exact He | cbn; lia].
        -- lia.
        -- intros Hfit. specialize (Hlen txs n2 eq_refl Hfit). lia.
      * apply (analysisOk_mono _ False) in Hok'; [exact Hok' | intros []].
      * intros _. rewrite He. exact Hok'.
Qed.

End LegacyBatchFacts.
(** * Runs whose requests fail, and the pace of a run *)

Section PartialRunFacts.
Import Web3 Eff JsNumber Route Spec Run.
Context `{RT : Runtime} `{LG : Ledger}.

Lemma processNulls (queried : string) (txs : list (option ParsedTransaction)) :
  Forall (fun tx => tx = None) txs ->
  forall agg, fold_left (processTransaction queried) txs agg = agg.
Proof.
  induction 1 as [|tx txs Htx _ IH]; intros agg; cbn [fold_left]; [reflexivity|].
  subst tx. apply IH.
Qed.

Lemma fetchTransactions_nulls (rpcUrl : string) (txSignatures : list string) :
  (forall log s, exists e, getParsedTransaction rpcUrl log s = inl e) ->
  forall n, exists txs n',
    fetchTransactions rpcUrl true txSignatures n = (inr txs, n')
    /\ Forall (fun tx => tx = None) txs.
Proof.
  intros Hfail n. unfold fetchTransactions.
  match goal with
  | |- context [forEach _ _ ?body] =>
      assert (Hloop : forall l acc n0,
                Forall (fun tx => tx = None) acc ->
                exists txs n',
                  forEach l acc body n0 = (inr txs, n')
                  /\ Forall (fun tx => tx = None) txs)
  end.
  { induction l as [|s l IH]; intros acc n0 Hacc; cbn [forEach].
    - unfold ret. eauto.
    - unfold bind at 1. unfold tryCatch at 1. unfold bind at 1. unfold request at 1.
      destruct (Hfail (rpcLog n0) s) as (e & ->). unfold ret at 1.
      apply IH. apply Forall_app. split; [exact Hacc | now constructor]. }
  apply Hloop. constructor.
Qed.

(** A batch none of whose requests is answered leaves the aggregates as
    they are. *)
Lemma processBatch_unfetched queried rpcUrl isHelius batchSize signatures agg i n :
  (forall log s, exists e, getParsedTransaction rpcUrl log s = inl e) ->
  (forall log ss, exists e, getParsedTransactions rpcUrl log ss = inl e) ->
  exists n',
    processBatch queried rpcUrl isHelius batchSize signatures agg i n = (inr agg, n').
Proof.
  intros Hone Hmany. unfold processBatch, tryCatch at 1, bind.
  assert (Hpre : exists n1,
            (if (0 <? i)%nat then sleep (if isHelius then 2000 else 1000) else ret tt) n
            = (inr tt, n1)).
  { destruct (0 <? i)%nat; eexists; reflexivity. }
  destruct Hpre as (n1 & ->).
  destruct isHelius.
  - destruct (fetchTransactions_nulls rpcUrl
                (map signature (JsArray.slice i (i + batchSize) signatures))
                Hone n1) as (txs & n2 & -> & Hnull).
    unfold ret. rewrite processNulls by exact Hnull. eauto.
  - unfold fetchTransactions, request.
    destruct (Hmany (rpcLog n1)
                (map signature (JsArray.slice i (i + batchSize) signatures)))
      as (e & ->).
    destruct (_ || _); simpl; unfold ret; eauto.
Qed.

Lemma runBatches_unfetched queried rpcUrl signatures n :
  (forall log s, exists e, getParsedTransaction rpcUrl log s = inl e) ->
  (forall log ss, exists e, getParsedTransactions rpcUrl log ss = inl e) ->
  exists n', runBatches queried rpcUrl signatures n = (inr noAggregates, n').
Proof.
  intros Hone Hmany. unfold runBatches.
  generalize (batchStarts
                (Nat.min (List.length signatures)
                   (if JsString.includes "helius" rpcUrl then 15 else 25))
                (if JsString.includes "helius" rpcUrl then 3 else 5)).
  intros starts. revert n. induction starts as [|i starts IH]; intros n; cbn [forEach].
  - unfold ret. eauto.
  - unfold bind.
    destruct (processBatch_unfetched queried rpcUrl (JsString.includes "helius" rpcUrl)
                (if JsString.includes "helius" rpcUrl then 3 else 5)%nat
                signatures noAggregates i n Hone Hmany) as (n1 & ->).
    apply IH.
Qed.

(** X22.  When the listing of an address is not empty but none of the
    requests for its transactions is answered, the query does not fail:
    it returns the payload of an address without related accounts, marked
    valid and without an error, and caches it for the lifetime of a
    successful result. *)
Theorem unfetched_transactions_give_an_empty_success
    (queried : string) (w : World) (signatures : list ConfirmedSignatureInfo) :
  isValidPublicKey queried = true ->
  cacheMiss queried w ->
  newConnection configuredRpcUrl = None ->
  getSignaturesForAddress configuredRpcUrl (rpcLog (net w)) queried 50
  = inr signatures ->
  signatures <> [] ->
  (forall log s, exists e, getParsedTransaction configuredRpcUrl log s = inl e) ->
  (forall log ss, exists e, getParsedTransactions configuredRpcUrl log ss = inl e) ->
  exists w',
    analyzeAddress queried w
    = (inr {| address := queried; isValid := true; relatedAccounts := [];
              error := None |}, w') /\
    JsMap.get (getCacheKey queried) (analysisCache w')
    = Some {| data := {| address := queried; isValid := true;
                         relatedAccounts := []; error := None |};
              timestamp := clock (net w'); ttl := CACHE_TTL |}.
Proof.
  intros Hv Hmiss Hconn Hlist Hne Hone Hmany.
  rewrite analyzeAddress_valid by assumption.
  unfold cacheMiss in Hmiss. rewrite Hmiss.
  unfold tryCatch. rewrite analyzeUncached_run, Hconn. cbv zeta.
  change (rpcLog (net (afterLookup queried w))) with (rpcLog (net w)).
  rewrite Hlist.
  destruct signatures as [|s0 rest]; [congruence|]. cbn [List.length Nat.eqb].
  destruct (runBatches_unfetched queried configuredRpcUrl (s0 :: rest)
              (net (afterRequest (GetSignaturesForAddress queried 50)
                      (afterLookup queried w))) Hone Hmany) as (n2 & ->).
  eexists. split; [reflexivity|].
  cbn [analysisCache net]. unfold setCachedAnalysis. apply JsMap_get_set_same.
Qed.

(** The interactions a position of the account list adds. *)
Lemma trackAccount_interactions (queried : string) (m : TransactionMeta)
    (agg : Aggregates) (k : nat) (acct : string) :
  accountInteractions (trackAccount queried m agg k acct)
  = if isSkipped queried acct then accountInteractions agg
    else JsMap.set acct (countOrZero acct (accountInteractions agg) + 1)%Z
           (accountInteractions agg).
Proof.
  unfold trackAccount. destruct (isSkipped queried acct); [reflexivity|].
  destruct (preBalances m) as [pre|]; [|reflexivity].
  destruct (postBalances m) as [post|]; [|reflexivity].
  destruct (_ && _)%bool; [|reflexivity].
  match goal with |- context [(0 <? ?d)%float] => destruct (0 <? d)%float end;
    reflexivity.
Qed.

Lemma countOrZero_set (m : JsMap.t Z) (k a : string) (v : Z) :
  countOrZero a (JsMap.set k v m) = if String.eqb a k then v else countOrZero a m.
Proof. unfold countOrZero. rewrite JsMap_get_set. now destruct (String.eqb a k). Qed.

(** X23.  The native pass over a transaction adds to the interaction
    count of an account the number of times the account occurs in the
    account list of the transaction (once, for a list without
    repetitions), whatever its balances are; the queried address and the
    five excluded system accounts are never counted. *)
Theorem nativePass_counts_occurrences (queried : string) (m : TransactionMeta)
    (keys : list string) (agg : Aggregates) (a : string) :
  countOrZero a (accountInteractions (nativePass queried m keys agg))
  = (countOrZero a (accountInteractions agg)
     + if isSkipped queried a then 0 else Z.of_nat (count_occ string_dec keys a))%Z.
Proof.
  unfold nativePass. generalize 0%nat. revert agg.
  induction keys as [|key keys IH]; intros agg start; cbn [List.length seq combine fold_left].
  - cbn. destruct (isSkipped queried a); lia.
  - rewrite IH. cbn [fst snd]. rewrite trackAccount_interactions.
    cbn [count_occ].
    destruct (string_dec key a) as [->|Hne].
    + destruct (isSkipped queried a); [lia|].
      rewrite countOrZero_set, String.eqb_refl. lia.
    + destruct (isSkipped queried key).
      * destruct (isSkipped queried a); lia.
      * rewrite countOrZero_set.
        assert (E : String.eqb a key = false) by (apply String.eqb_neq; congruence).
        rewrite E. destruct (isSkipped queried a); lia.
Qed.

End PartialRunFacts.

Section PaceFacts.
Import Web3 Eff JsNumber Route Spec Run.
Context `{RT : Runtime} `{LG : Ledger}.
Hypothesis latency_nonneg : forall log, (0 <= rpcLatency log)%Z.

Lemma fetchTransactions_clock (rpcUrl : string) (isHelius : bool)
    (txSignatures : list string) (n : Net) :
  (clock n <= clock (snd (fetchTransactions rpcUrl isHelius txSignatures n)))%Z.
Proof.
  unfold fetchTransactions. destruct isHelius.
  - match goal with
    | |- context [forEach _ _ ?body] =>
        assert (Hloop : forall l acc n0,
                  (clock n0 <= clock (snd (forEach l acc body n0)))%Z)
    end.
    { induction l as [|s l IH]; intros acc n0; cbn [forEach].
      - cbn. lia.
      - unfold bind at 1. unfold tryCatch at 1. unfold bind at 1. unfold request at 1.
        pose proof (latency_nonneg (rpcLog n0)) as Hlat.
        destruct (getParsedTransaction rpcUrl (rpcLog n0) s) as [e|tx].
        + unfold ret at 1. etransitivity; [|apply IH]. cbn [clock]. lia.
        + unfold bind at 1. unfold sleep at 1, modify. unfold ret at 1.
          etransitivity; [|apply IH]. cbn [clock]. lia. }
    apply Hloop.
  - unfold request. cbn [snd clock]. pose proof (latency_nonneg (rpcLog n)). lia.
Qed.

(** A batch takes at least the pause before it. *)
Lemma processBatch_clock queried rpcUrl (isHelius : bool) batchSize signatures agg i n :
  (clock n + (if (0 <? i)%nat then (if isHelius then 2000 else 1000) else 0)
   <= clock (snd (processBatch queried rpcUrl isHelius batchSize signatures agg i n)))%Z.
Proof.
  unfold processBatch, tryCatch, bind.
  assert (Hpre : exists n1,
            (if (0 <? i)%nat then sleep (if isHelius then 2000 else 1000) else ret tt) n
            = (inr tt, n1)
            /\ clock n1
               = (clock n + (if (0 <? i)%nat
                             then (if isHelius then 2000 else 1000) else 0))%Z).
  { destruct (0 <? i)%nat; eexists; split; try reflexivity. cbn. lia. }
  destruct Hpre as (n1 & -> & Hclock1).
  pose proof (fetchTransactions_clock rpcUrl isHelius
                (map signature (JsArray.slice i (i + batchSize) signatures)) n1) as Hfetch.
  destruct (fetchTransactions rpcUrl isHelius _ n1) as [[e|txs] n2]; cbn [snd] in *.
  - destruct (_ || _); cbn [sleep modify ret snd clock]; destruct isHelius; lia.
  - cbn [ret snd]. lia.
Qed.

Lemma batchStartsFrom_ge (step fuel i max : nat) :
  Forall (fun j => (i <= j)%nat) (batchStartsFrom fuel i max step).
Proof.
  revert i. induction fuel as [|fuel IH]; intros i; cbn [batchStartsFrom];
    [constructor|].
  destruct (i <? max)%nat; [|constructor].
  constructor; [lia|]. eapply Forall_impl; [|apply IH]. cbn. intros j Hj. lia.
Qed.

Lemma forEach_clock queried rpcUrl batchSize signatures (starts : list nat) :
  Forall (fun j => (1 <= j)%nat) starts ->
  forall agg n,
  (clock n + batchDelay rpcUrl * Z.of_nat (List.length starts)
   <= clock (snd (forEach starts agg
                    (processBatch queried rpcUrl (JsString.includes "helius" rpcUrl)
                       batchSize signatures) n)))%Z.
Proof.
  induction 1 as [|i starts Hi _ IH]; intros agg n; cbn [forEach List.length].
  - cbn. lia.
  - unfold bind.
    pose proof (processBatch_clock queried rpcUrl (JsString.includes "helius" rpcUrl)
                  batchSize signatures agg i n) as Hstep.
    fold (batchDelay rpcUrl) in Hstep.
    destruct (processBatch_returns queried rpcUrl (JsString.includes "helius" rpcUrl)
                batchSize signatures agg i n) as (agg1 & n1 & Hrun).
    rewrite Hrun in *. cbn [snd] in Hstep.
    destruct (Nat.ltb_spec 0 i) as [_|]; [|lia].
    specialize (IH agg1 n1). lia.
Qed.

(** X24.  On a ledger whose requests take no negative time, the batch
    loop of a run pauses before every batch but the first: a run of [b]
    batches takes at least [b - 1] seconds, and twice as long on Helius. *)
Theorem batches_are_spaced (queried rpcUrl : string)
    (signatures : list ConfirmedSignatureInfo) (n : Net) :
  (clock n + batchDelay rpcUrl * (Z.of_nat (batchCount rpcUrl signatures) - 1)
   <= clock (snd (runBatches queried rpcUrl signatures n)))%Z.
Proof.
  unfold runBatches, batchCount, sampleSize, batchStarts.
  set (size := Nat.min (List.length signatures)
                 (if JsString.includes "helius" rpcUrl then 15 else 25)).
  set (step := if JsString.includes "helius" rpcUrl then 3%nat else 5%nat).
  assert (Hstep : (1 <= step)%nat)
    by (subst step; destruct (JsString.includes "helius" rpcUrl); lia).
  assert (Hdelay : (0 <= batchDelay rpcUrl)%Z)
    by (unfold batchDelay; destruct (JsString.includes "helius" rpcUrl); lia).
  destruct size as [|size']; cbn [batchStartsFrom].
  - cbn. lia.
  - cbn [Nat.ltb Nat.leb forEach List.length]. unfold bind.
    pose proof (processBatch_clock queried rpcUrl (JsString.includes "helius" rpcUrl)
                  step signatures noAggregates 0 n) as Hfirst.
    cbn [Nat.ltb Nat.leb] in Hfirst.
    destruct (processBatch_returns queried rpcUrl (JsString.includes "helius" rpcUrl)
                step signatures noAggregates 0 n) as (agg1 & n1 & Hrun).
    rewrite Hrun in *. cbn [snd] in Hfirst.
    assert (Hrest : Forall (fun j => (1 <= j)%nat)
                      (batchStartsFrom size' (0 + step) (S size') step)).
    { eapply Forall_impl; [|apply batchStartsFrom_ge]. cbn. intros j Hj. lia. }
    pose proof (forEach_clock queried rpcUrl step signatures _ Hrest agg1 n1) as Hloop.
    lia.
Qed.

End PaceFacts.
(** * The runs of the revision without a cache *)

Section LegacyRunFacts.
Import Web3 Eff JsNumber Legacy LegacyRun Outcome.
Context `{RT : Runtime} `{LG : Ledger}.

Lemma ranBatches_refl (rpcUrl : string) (isHelius : bool) (s : RunState) :
  ranBatches rpcUrl isHelius 0 s s.
Proof.
  constructor.
  - exists []. now rewrite app_nil_r.
  - reflexivity.
  - lia.
  - lia.
  - intros _. lia.
Qed.

Lemma ranBatches_step (rpcUrl : string) (isHelius : bool) (b : nat)
    (s0 s s' : RunState) :
  ranBatches rpcUrl isHelius b s0 s -> batchStep rpcUrl isHelius s s' ->
  ranBatches rpcUrl isHelius (S b) s0 s'.
Proof.
  intros [(c1 & Hc1 & Hl1) Hu1 He1 Hp1 Hf1] [(c2 & Hc2 & Hl2) Hu2 (lines & He2 & Hn2) Hp2 Hf2].
  constructor.
  - exists (c1 ++ c2)%list. rewrite Hc2, Hc1, app_assoc, length_app. split; [reflexivity | lia].
  - congruence.
  - rewrite He2, length_app. lia.
  - lia.
  - intros Hfit. specialize (Hf1 Hfit). specialize (Hf2 Hfit). lia.
Qed.

Lemma ranBatches_le (rpcUrl : string) (isHelius : bool) (a b : nat)
    (s0 s : RunState) :
  (a <= b)%nat -> ranBatches rpcUrl isHelius a s0 s -> ranBatches rpcUrl isHelius b s0 s.
Proof.
  intros Hab [(c1 & Hc1 & Hl1) Hu1 He1 Hp1 Hf1]. constructor; auto; try lia.
  - exists c1. split; [exact Hc1 | lia].
  - intros Hfit. specialize (Hf1 Hfit). lia.
Qed.

(** The batch loop from a state that is well formed. *)
Lemma legacy_batches_run (queried rpcUrl : string) (isHelius : bool)
    (signatures : list ConfirmedSignatureInfo) (starts : list nat) :
  forall (b : nat) (s0 s : RunState),
    ranBatches rpcUrl isHelius b s0 s ->
    analysisOk (errors (debugInfo (analysis s)) = []) queried (analysis s) ->
    let out := each starts (processBatch queried rpcUrl isHelius signatures) s in
    ranBatches rpcUrl isHelius (b + List.length starts) s0 (snd out) /\
    analysisOk False queried (analysis (snd out)) /\
    (fst out = inr tt ->
     analysisOk (errors (debugInfo (analysis (snd out))) = []) queried
       (analysis (snd out))).
Proof.
  unfold each. induction starts as [|i starts IH]; intros b s0 s Hran Hok;
    cbn [forEach List.length].
  - unfold ret. cbn [fst snd]. rewrite Nat.add_0_r.
    split; [exact Hran|]. split; [|auto].
    apply (analysisOk_mono _ False) in Hok; [exact Hok | intros []].
  - cbv zeta. unfold bind.
    pose proof (legacy_processBatch_step queried rpcUrl isHelius signatures i s Hok)
      as (Hstep & Hweak & Hstrict).
    cbv zeta in Hstep, Hweak, Hstrict.
    destruct (processBatch queried rpcUrl isHelius signatures i s) as [[e|[]] s1];
      cbn [fst snd] in *.
    + split; [|split; [exact Hweak | discriminate]].
      apply (ranBatches_le _ _ (S b)); [lia|]. now apply (ranBatches_step _ _ _ _ s).
    + replace (b + S (List.length starts))%nat with (S b + List.length starts)%nat by lia.
      apply IH; [now apply (ranBatches_step _ _ _ _ s) | now apply Hstrict].
Qed.

Lemma initial_ok (strict : Prop) (queried rpcUrl : string) :
  analysisOk strict queried
    {| relatedAccountsMap := JsMap.empty; debugInfo := initialDebug rpcUrl |}.
Proof.
  constructor; cbn.
  - split; [constructor | intros k r [=]].
  - unfold debugOk. cbn. repeat split; lia.
Qed.

Lemma legacy_sampleSize_bound (rpcUrl : string) (signatures : list ConfirmedSignatureInfo) :
  (sampleSize rpcUrl signatures <= List.length signatures)%nat
  /\ (sampleSize rpcUrl signatures
      <= (if JsString.includes "helius" rpcUrl then 15 else 8))%nat.
Proof. unfold sampleSize. split; lia. Qed.

(** The batch loop of a run: it sends one request for each sampled
    signature at most, and when it goes through its state is well
    formed. *)
Lemma legacy_runBatches_result (queried rpcUrl : string)
    (signatures : list ConfirmedSignatureInfo) (n : Net) :
  let out := runBatches queried rpcUrl signatures (initialDebug rpcUrl) n in
  (exists calls, rpcLog (snd out) = (rpcLog n ++ calls)%list
                 /\ (List.length calls <= sampleSize rpcUrl signatures)%nat) /\
  (forall st, fst out = inr st ->
     analysisOk (errors (debugInfo st) = []) queried st /\
     rpcUsed (debugInfo st) = rpcUrl /\
     (List.length (errors (debugInfo st)) <= sampleSize rpcUrl signatures)%nat /\
     (0 <= processedTxs (debugInfo st))%Z /\
     (JsString.includes "helius" rpcUrl = true \/ answersFit rpcUrl ->
      (processedTxs (debugInfo st) <= Z.of_nat (sampleSize rpcUrl signatures))%Z)).
Proof.
  cbv zeta. unfold runBatches. fold (sampleSize rpcUrl signatures).
  set (s0 := {| analysis := {| relatedAccountsMap := JsMap.empty;
                               debugInfo := initialDebug rpcUrl |};
                net := n |}).
  pose proof (legacy_batches_run queried rpcUrl (JsString.includes "helius" rpcUrl)
                signatures (batchStarts (sampleSize rpcUrl signatures) 1)
                0 s0 s0 (ranBatches_refl _ _ s0) (initial_ok _ queried rpcUrl))
    as (Hran & Hweak & Hstrict).
  cbv zeta in Hran, Hweak, Hstrict.
  pose proof (batchStartsFrom_length 1 (le_n 1) (sampleSize rpcUrl signatures) 0
                (sampleSize rpcUrl signatures)) as Hlen.
  fold (batchStarts (sampleSize rpcUrl signatures) 1) in Hlen.
  destruct (each (batchStarts (sampleSize rpcUrl signatures) 1)
              (processBatch queried rpcUrl (JsString.includes "helius" rpcUrl) signatures)
              s0) as [[e|[]] s1]; cbn [fst snd] in *.
  - destruct Hran as [(calls & Hc & Hl) _ _ _ _]. split; [|discriminate].
    exists calls. split; [exact Hc | lia].
  - destruct Hran as [(calls & Hc & Hl) Hu He Hp Hf]. split.
    + exists calls. split; [exact Hc | lia].
    + intros st [= <-]. subst s0. cbn [analysis net debugInfo initialDebug rpcUsed
        errors processedTxs List.length] in *.
      split; [now apply Hstrict|]. split; [exact Hu|]. split; [lia|]. split; [lia|].
      intros Hfit. specialize (Hf Hfit). lia.
Qed.


(** What the [try] block does, step by step. *)
Lemma legacy_analyzeValid_run (queried rpcUrl0 : string) (n : Net) :
  analyzeValid queried rpcUrl0 n =
  match prelude queried rpcUrl0 n with
  | (inl e, n3) => (inl e, n3)
  | (inr (rpcUrl, signatures, total), n3) =>
      if (List.length signatures =? 0)%nat
      then (inr (emptyResult queried total), n3)
      else
        match runBatches queried rpcUrl signatures (initialDebug rpcUrl) n3 with
        | (inl e, n4) => (inl e, n4)
        | (inr st, n4) => (inr (successResult queried total st), n4)
        end
  end.
Proof.
  unfold analyzeValid, prelude.
  destruct (newConnection rpcUrl0) as [e|]; [reflexivity|].
  fold (probe queried rpcUrl0).
  unfold bind, request, ret.
  destruct (probe queried rpcUrl0 n) as [[e|rpcUrl] n1]; [reflexivity|].
  destruct (getSignaturesForAddress rpcUrl (rpcLog n1) queried 50)
    as [e|signatures]; [reflexivity|].
  destruct (estimateTotal queried rpcUrl signatures _) as [[e|total] n3];
    [reflexivity|].
  destruct (List.length signatures =? 0)%nat; [reflexivity|].
  change {| processedTxs := 0; totalAccounts := 0; filteredAccounts := 0;
            errors := []; balanceChanges := 0; tokenChanges := 0;
            rpcUsed := rpcUrl; finalAccountCount := None |}
    with (initialDebug rpcUrl).
  destruct (runBatches queried rpcUrl signatures (initialDebug rpcUrl) n3)
    as [[e|st] n4]; reflexivity.
Qed.

Lemma legacy_analyzeAddress_run (queried : string) (n : Net) :
  analyzeAddress queried n =
  if isValidPublicKey queried then
    match analyzeValid queried configuredRpcUrl n with
    | (inl e, n') => (inr (errorResult queried e), n')
    | (inr r, n') => (inr r, n')
    end
  else
    (inr {| address := queried; isValid := false;
            totalTransactions := None; sampledTransactions := None;
            relatedAccounts := None;
            error := Some "Invalid Solana address format"; debug := None |}, n).
Proof.
  unfold analyzeAddress, isValidSolanaAddress.
  destruct (isValidPublicKey queried); [|reflexivity].
  cbn [negb]. unfold tryCatch.
  destruct (analyzeValid queried configuredRpcUrl n) as [[e|r] n']; reflexivity.
Qed.

(** X17.  The estimate of the total never throws.  It sends a request,
    for up to 1000 signatures, only when the sample has exactly 50
    signatures; the total is then the length of the longer listing (the
    cap at 1000 changes nothing), or 50 when that request fails.  For a
    sample of another size the total is the size of the sample. *)
Theorem estimateTotal_spec (queried rpcUrl : string)
    (signatures : list ConfirmedSignatureInfo) (n : Net) :
  exists total n',
    estimateTotal queried rpcUrl signatures n = (inr total, n') /\
    if (List.length signatures =? 50)%nat then
      rpcLog n' = (rpcLog n ++ [GetSignaturesForAddress queried 1000])%list /\
      total = match getSignaturesForAddress rpcUrl (rpcLog n) queried 1000 with
              | inr allSignatures => Z.of_nat (List.length allSignatures)
              | inl _ => 50%Z
              end
    else n' = n /\ total = Z.of_nat (List.length signatures).
Proof.
  unfold estimateTotal.
  destruct (List.length signatures =? 50)%nat eqn:E.
  - apply Nat.eqb_eq in E. unfold tryCatch, bind, request, ret.
    destruct (getSignaturesForAddress rpcUrl (rpcLog n) queried 1000)
      as [e|allSignatures].
    + eexists. eexists. split; [reflexivity|]. cbn [rpcLog].
      split; [reflexivity|]. now rewrite E.
    + eexists. eexists. split; [reflexivity|]. cbn [rpcLog].
      split; [reflexivity|].
      destruct (Nat.eqb_spec (List.length allSignatures) 1000) as [->|]; reflexivity.
  - unfold ret. eexists. eexists. split; [reflexivity|]. now split.
Qed.

(** The estimate sends one request at most. *)
Lemma estimateTotal_log (queried rpcUrl : string)
    (signatures : list ConfirmedSignatureInfo) (n : Net) :
  exists total n' calls,
    estimateTotal queried rpcUrl signatures n = (inr total, n') /\
    rpcLog n' = (rpcLog n ++ calls)%list /\
    (List.length calls <= 1)%nat.
Proof.
  unfold estimateTotal.
  destruct (List.length signatures =? 50)%nat.
  - unfold tryCatch, bind, request, ret.
    destruct (getSignaturesForAddress rpcUrl (rpcLog n) queried 1000)
      as [e|allSignatures];
      eexists; eexists; exists [GetSignaturesForAddress queried 1000];
      (split; [reflexivity|]); (split; [reflexivity | cbn; lia]).
  - unfold ret. eexists. eexists. exists []. rewrite app_nil_r.
    split; [reflexivity|]. split; [reflexivity | cbn; lia].
Qed.

(** The connection, its probe, the listing and the estimate send three
    requests at most. *)
Lemma prelude_log (queried rpcUrl0 : string) (n : Net) :
  exists calls,
    rpcLog (snd (prelude queried rpcUrl0 n)) = (rpcLog n ++ calls)%list
    /\ (List.length calls <= 3)%nat.
Proof.
  unfold prelude.
  destruct (newConnection rpcUrl0) as [e|].
  { exists []. rewrite app_nil_r. split; [reflexivity | cbn; lia]. }
  assert (Hprobe : rpcLog (snd (probe queried rpcUrl0 n))
                   = (rpcLog n ++ [GetBalance queried])%list).
  { unfold probe, tryCatch, bind, request, ret.
    destruct (getBalance rpcUrl0 (rpcLog n) queried) as [e|b]; [|reflexivity].
    cbv zeta. destruct (newConnection (nth 1 FALLBACK_RPCS "")); reflexivity. }
  unfold bind at 1.
  destruct (probe queried rpcUrl0 n) as [[e|rpcUrl] n1]; cbn [snd] in Hprobe.
  { exists [GetBalance queried]. split; [exact Hprobe | cbn; lia]. }
  unfold bind at 1. unfold request at 1.
  destruct (getSignaturesForAddress rpcUrl (rpcLog n1) queried 50) as [e|signatures].
  { exists [GetBalance queried; GetSignaturesForAddress queried 50].
    cbn [snd rpcLog]. rewrite Hprobe, <- app_assoc. split; [reflexivity | cbn; lia]. }
  unfold bind at 1.
  match goal with
  | |- context [estimateTotal queried rpcUrl signatures ?m] => set (n2 := m)
  end.
  destruct (estimateTotal_log queried rpcUrl signatures n2)
    as (total & n3 & calls3 & -> & Hlog3 & Hlen3).
  unfold ret. cbn [snd].
  exists ([GetBalance queried; GetSignaturesForAddress queried 50] ++ calls3)%list.
  rewrite Hlog3. subst n2. cbn [rpcLog]. rewrite Hprobe, <- !app_assoc.
  split; [reflexivity|]. rewrite length_app. cbn [List.length]. lia.
Qed.

(** The answers of the handler, case by case. *)
Lemma legacy_answer_cases (queried : string) (n n' : Net) (r : SolanaAnalysisResponse) :
  analyzeAddress queried n = (inr r, n') ->
  (relatedAccounts r = None /\ debug r = None)
  \/ (exists total, r = emptyResult queried total)
  \/ (exists rpcUrl signatures total n3 st,
        prelude queried configuredRpcUrl n = (inr (rpcUrl, signatures, total), n3) /\
        signatures <> [] /\
        runBatches queried rpcUrl signatures (initialDebug rpcUrl) n3 = (inr st, n') /\
        r = successResult queried total st).
Proof.
  rewrite legacy_analyzeAddress_run.
  destruct (isValidPublicKey queried); [|intros [= <- _]; left; now split].
  rewrite legacy_analyzeValid_run.
  destruct (prelude queried configuredRpcUrl n) as [[e|[[rpcUrl signatures] total]] n3];
    [intros [= <- _]; left; now split|].
  destruct signatures as [|s0 rest]; cbn [List.length Nat.eqb];
    [intros [= <- _]; right; left; now exists total|].
  destruct (runBatches queried rpcUrl (s0 :: rest) (initialDebug rpcUrl) n3)
    as [[e|st] n4] eqn:Hrun; [intros [= <- _]; left; now split|].
  intros [= <- <-]. right. right. exists rpcUrl, (s0 :: rest), total, n3, st.
  split; [reflexivity|]. split; [discriminate|]. split; [exact Hrun | reflexivity].
Qed.

(** The endpoint a run goes on with is the configured one, or the second
    fallback endpoint when the probe failed. *)
Lemma prelude_endpoint (queried rpcUrl0 : string) (n n3 : Net) rpcUrl signatures total :
  prelude queried rpcUrl0 n = (inr (rpcUrl, signatures, total), n3) ->
  (rpcUrl = rpcUrl0 /\ exists b, getBalance rpcUrl0 (rpcLog n) queried = inr b)
  \/ (rpcUrl = nth 1 FALLBACK_RPCS ""
      /\ exists e, getBalance rpcUrl0 (rpcLog n) queried = inl e).
Proof.
  unfold prelude. destruct (newConnection rpcUrl0); [discriminate|].
  unfold bind at 1.
  assert (Hprobe : forall url n1, probe queried rpcUrl0 n = (inr url, n1) ->
            (url = rpcUrl0 /\ exists b, getBalance rpcUrl0 (rpcLog n) queried = inr b)
            \/ (url = nth 1 FALLBACK_RPCS ""
                /\ exists e, getBalance rpcUrl0 (rpcLog n) queried = inl e)).
  { intros url n1. unfold probe, tryCatch, bind, request, ret.
    destruct (getBalance rpcUrl0 (rpcLog n) queried) as [e|b].
    - cbv zeta. destruct (newConnection (nth 1 FALLBACK_RPCS "")); [discriminate|].
      intros [= <- _]. right. split; [reflexivity | now exists e].
    - intros [= <- _]. left. split; [reflexivity | now exists b]. }
  destruct (probe queried rpcUrl0 n) as [[e|url] n1]; [discriminate|].
  specialize (Hprobe url n1 eq_refl).
  unfold bind at 1. destruct (request _ _ n1) as [[e|sigs] n2]; [discriminate|].
  unfold bind at 1. destruct (estimateTotal queried url sigs n2) as [[e|t] n4];
    [discriminate|].
  unfold ret. intros [= <- _ _ _]. exact Hprobe.
Qed.

End LegacyRunFacts.
(** * What every answer of the revision without a cache looks like *)

Section LegacyAnswers.
Import Web3 Eff JsNumber Legacy LegacyRun.
Context `{RT : Runtime} `{LG : Ledger}.

Lemma mapOk_addresses (strict : Prop) (queried : string) (m : JsMap.t RelatedAccount) :
  mapOk strict queried m -> map ra_address (map snd m) = JsMap.keys m.
Proof.
  intros [Hwf Hrec]. unfold JsMap.keys. rewrite map_map. apply map_ext_in.
  intros [k r] Hin. cbn [fst snd].
  apply JsMap_In_get in Hin; [|exact Hwf].
  destruct (Hrec k r Hin) as [[Hinv _] _]. exact (inv_address _ _ _ Hinv).
Qed.

Lemma topAccounts_In (m : JsMap.t RelatedAccount) (a : RelatedAccount) :
  In a (topAccounts m) -> exists k, In (k, a) m.
Proof.
  unfold topAccounts. rewrite slice_from_zero. intros Hin.
  apply In_firstn_In in Hin.
  apply (Permutation_in _ (sort_perm rankedBefore (map snd (JsMap.entries m)))) in Hin.
  apply in_map_iff in Hin. destruct Hin as [[k r] [<- Hin]]. now exists k.
Qed.

Lemma topAccounts_addresses (strict : Prop) (queried : string)
    (m : JsMap.t RelatedAccount) :
  mapOk strict queried m ->
  NoDup (map ra_address (topAccounts m)) /\
  forall k, In k (map ra_address (topAccounts m)) -> In k (JsMap.keys m).
Proof.
  intros Hm. pose proof (mapOk_addresses strict queried m Hm) as Haddr.
  unfold topAccounts. rewrite slice_from_zero, <- firstn_map.
  assert (Hperm : Permutation
                    (map ra_address (JsArray.sort rankedBefore (map snd (JsMap.entries m))))
                    (JsMap.keys m)).
  { rewrite <- Haddr. apply Permutation_map, sort_perm. }
  split.
  - apply NoDup_firstn. apply (Permutation_NoDup (Permutation_sym Hperm)).
    exact (proj1 Hm).
  - intros k Hk. apply In_firstn_In in Hk. now apply (Permutation_in _ Hperm).
Qed.

Lemma rankAccounts_addresses (m : JsMap.t RelatedAccount) :
  map ra_address (rankAccounts m) = map ra_address (topAccounts m).
Proof. unfold rankAccounts. rewrite map_map. reflexivity. Qed.

(** X18.  In every answer of the revision without a cache that lists
    related accounts, the accounts are pairwise different addresses other
    than the queried one; each was seen in at least one transaction and
    carries at least one interaction type, each type once and only "SOL
    Inflow", "SOL Outflow" or "Token Transfer"; its count of token
    interactions is between 0 and its transaction count and is positive
    when "Token Transfer" is among its types, and when the debug record
    of the answer lists no error a positive count comes with that type;
    the raw lamports are left out and the formatted flow is given. *)
Theorem legacy_related_accounts_are_well_formed
    (queried : string) (n n' : Net) (r : SolanaAnalysisResponse)
    (related : list RelatedAccount) :
  analyzeAddress queried n = (inr r, n') ->
  relatedAccounts r = Some related ->
  NoDup (map ra_address related) /\
  ~ In queried (map ra_address related) /\
  forall a, In a related ->
    (1 <= transactionCount a)%Z /\
    transactionTypes a <> [] /\
    NoDup (transactionTypes a) /\
    (forall t, In t (transactionTypes a) -> In t labels) /\
    (exists c, totalTokenInteractions a = Some c
               /\ (0 <= c <= transactionCount a)%Z
               /\ (In "Token Transfer" (transactionTypes a) -> (0 < c)%Z)
               /\ ((forall d, debug r = Some d -> errors d = []) ->
                   (0 < c)%Z -> In "Token Transfer" (transactionTypes a))) /\
    totalSolFlowLamports a = None /\
    exists text, totalSolFlow a = Some text.
Proof.
  intros Hrun Hrel.
  destruct (legacy_answer_cases queried n n' r Hrun)
    as [[Hnone _]|[(total & ->)|(rpcUrl & signatures & total & n3 & st & _ & _ & Hloop & ->)]].
  - congruence.
  - cbn in Hrel. injection Hrel as <-.
    split; [constructor|]. split; [intros []|]. intros a [].
  - cbn [successResult relatedAccounts] in Hrel. injection Hrel as <-.
    destruct (legacy_runBatches_result queried rpcUrl signatures n3) as [_ Hst].
    cbv zeta in Hst. rewrite Hloop in Hst.
    destruct (Hst st eq_refl) as ([Hm _] & _).
    destruct (topAccounts_addresses _ queried _ Hm) as [Hnd Hkeys].
    rewrite rankAccounts_addresses.
    split; [exact Hnd|]. split.
    + intros Hin. apply Hkeys in Hin.
      destruct (JsMap.get queried (relatedAccountsMap st)) as [r0|] eqn:G.
      * destruct (proj2 Hm _ _ G) as [_ Hne]. now apply Hne.
      * apply JsMap_get_none_keys in G. contradiction.
    + intros a Ha. unfold rankAccounts in Ha. apply in_map_iff in Ha.
      destruct Ha as (r0 & <- & Hin). apply topAccounts_In in Hin.
      destruct Hin as (k & Hin). apply JsMap_In_get in Hin; [|exact (proj1 Hm)].
      destruct (proj2 Hm k r0 Hin)
        as [[[Ha Hndt Hknown (c & Hc & Hrange & Hfwd & Hback) Hflow] [Hcount Hgiven]] _].
      cbn [present transactionCount transactionTypes totalTokenInteractions
           totalSolFlowLamports totalSolFlow successResult debug].
      split; [exact Hcount|]. split; [exact Hgiven|].
      split; [exact Hndt|]. split; [exact Hknown|].
      split.
      { exists c. split; [exact Hc|]. split; [exact Hrange|]. split; [exact Hfwd|].
        intros Hclean. apply Hback. now apply (Hclean _ eq_refl). }
      split; [reflexivity|]. eexists. reflexivity.
Qed.

(** The most transactions a run samples on an endpoint. *)
Lemma legacy_cap (rpcUrl : string) (signatures : list ConfirmedSignatureInfo) :
  (Z.of_nat (sampleSize rpcUrl signatures)
   <= (if JsString.includes "helius" rpcUrl then 15 else 8))%Z
  /\ (sampleSize rpcUrl signatures
      <= (if JsString.includes "helius" rpcUrl then 15 else 8))%nat.
Proof.
  pose proof (legacy_sampleSize_bound rpcUrl signatures) as [_ Hb].
  destruct (JsString.includes "helius" rpcUrl); lia.
Qed.

(** X19.  In the debug record of an answer the number of accounts found
    is the number of native balance changes plus the number of token
    balance changes, and the number of sampled transactions is the number
    of transactions looked at.  The batches given up, one line each, are
    at most 15 on Helius and at most 8 on another endpoint, and so are
    the transactions looked at, on Helius always and on another endpoint
    when it answers a request with no more transactions than the request
    asks for. *)
Theorem legacy_debug_counters_add_up
    (queried : string) (n n' : Net) (r : SolanaAnalysisResponse) (d : DebugInfo) :
  analyzeAddress queried n = (inr r, n') ->
  debug r = Some d ->
  let cap := (if JsString.includes "helius" (rpcUsed d) then 15 else 8)%Z in
  totalAccounts d = (balanceChanges d + tokenChanges d)%Z /\
  sampledTransactions r = Some (processedTxs d) /\
  (0 <= processedTxs d)%Z /\
  (Z.of_nat (List.length (errors d)) <= cap)%Z /\
  (JsString.includes "helius" (rpcUsed d) = true \/ answersFit (rpcUsed d) ->
   (processedTxs d <= cap)%Z) /\
  exists related,
    relatedAccounts r = Some related /\
    finalAccountCount d = Some (Z.of_nat (List.length related)).
Proof.
  intros Hrun Hdebug.
  destruct (legacy_answer_cases queried n n' r Hrun)
    as [[_ Hnone]|[(total & ->)|(rpcUrl & signatures & total & n3 & st & _ & _ & Hloop & ->)]].
  - congruence.
  - discriminate Hdebug.
  - cbn [successResult debug] in Hdebug. injection Hdebug as <-.
    destruct (legacy_runBatches_result queried rpcUrl signatures n3) as [_ Hst].
    cbv zeta in Hst. rewrite Hloop in Hst.
    destruct (Hst st eq_refl) as ([_ (Hsum & _)] & Hu & He & Hp & Hf).
    destruct (legacy_cap rpcUrl signatures) as [Hcz Hcn].
    cbn [successResult sampledTransactions relatedAccounts totalAccounts
         balanceChanges tokenChanges processedTxs errors rpcUsed finalAccountCount].
    rewrite Hu.
    split; [exact Hsum|]. split; [reflexivity|]. split; [exact Hp|].
    split; [lia|].
    split; [intros Hfit; specialize (Hf Hfit); lia|].
    eexists. split; reflexivity.
Qed.

(** X20.  No query of the revision without a cache throws or sends more
    than 18 requests: the probe of the connection, the listing, at most one
    longer listing for the estimate, and at most one request for each of
    the at most 15 sampled transactions.  A query for an address that is
    not valid sends none. *)
Theorem legacy_request_budget (queried : string) (n : Net) :
  exists r n' calls,
    analyzeAddress queried n = (inr r, n') /\
    rpcLog n' = (rpcLog n ++ calls)%list /\
    (List.length calls <= 18)%nat /\
    (isValidPublicKey queried = false -> calls = []).
Proof.
  rewrite legacy_analyzeAddress_run.
  destruct (isValidPublicKey queried).
  2:{ eexists. eexists. exists []. rewrite app_nil_r.
      split; [reflexivity|]. split; [reflexivity|]. split; [cbn; lia | auto]. }
  rewrite legacy_analyzeValid_run.
  destruct (prelude_log queried configuredRpcUrl n) as (calls3 & Hlog3 & Hlen3).
  destruct (prelude queried configuredRpcUrl n) as [[e|[[rpcUrl signatures] total]] n3];
    cbn [snd] in Hlog3.
  { eexists. eexists. exists calls3.
    split; [reflexivity|]. split; [exact Hlog3|]. split; [lia | discriminate]. }
  destruct (List.length signatures =? 0)%nat.
  { eexists. eexists. exists calls3.
    split; [reflexivity|]. split; [exact Hlog3|]. split; [lia | discriminate]. }
  destruct (legacy_runBatches_result queried rpcUrl signatures n3)
    as [(calls4 & Hlog4 & Hlen4) _].
  destruct (legacy_cap rpcUrl signatures) as [_ Hcn].
  assert (Hlen : (List.length (calls3 ++ calls4) <= 18)%nat).
  { rewrite length_app. destruct (JsString.includes "helius" rpcUrl); lia. }
  destruct (runBatches queried rpcUrl signatures (initialDebug rpcUrl) n3)
    as [[e|st] n4]; cbn [snd] in Hlog4;
    eexists; eexists; exists (calls3 ++ calls4)%list;
    (split; [reflexivity|]); rewrite Hlog4, Hlog3, <- app_assoc;
    (split; [reflexivity|]); (split; [exact Hlen | discriminate]).
Qed.


(** X21.  When the probe of the configured connection fails, the run goes
    on with the second fallback endpoint, whatever endpoint was
    configured: the listing is the one that endpoint gives (its failure
    is the failure of the run), the debug record names that endpoint, the
    run gives up no more than 8 batches, and it looks at no more than 8
    transactions when that endpoint answers a request with no more
    transactions than the request asks for.  The third fallback endpoint
    is never used. *)
Theorem legacy_probe_failure_switches_endpoint
    (queried : string) (n : Net) (e : Thrown) :
  isValidPublicKey queried = true ->
  newConnection configuredRpcUrl = None ->
  getBalance configuredRpcUrl (rpcLog n) queried = inl e ->
  newConnection "https://api.mainnet-beta.solana.com" = None ->
  exists r n',
    analyzeAddress queried n = (inr r, n') /\
    (forall err,
       getSignaturesForAddress "https://api.mainnet-beta.solana.com"
         (rpcLog n ++ [GetBalance queried])%list queried 50 = inl err ->
       r = errorResult queried err) /\
    (forall d, debug r = Some d ->
       rpcUsed d = "https://api.mainnet-beta.solana.com" /\
       (Z.of_nat (List.length (errors d)) <= 8)%Z /\
       (answersFit "https://api.mainnet-beta.solana.com" ->
        (processedTxs d <= 8)%Z)).
Proof.
  intros Hv Hconn Hbal Hfb.
  rewrite legacy_analyzeAddress_run, Hv, legacy_analyzeValid_run.
  unfold prelude. rewrite Hconn.
  assert (Hprobe : probe queried configuredRpcUrl n
                   = (inr "https://api.mainnet-beta.solana.com",
                      {| clock := (clock n + rpcLatency (rpcLog n))%Z;
                         rpcLog := (rpcLog n ++ [GetBalance queried])%list |})).
  { unfold probe, tryCatch, bind, request. rewrite Hbal. cbv zeta.
    change (nth 1 FALLBACK_RPCS "") with "https://api.mainnet-beta.solana.com".
    now rewrite Hfb. }
  unfold bind at 1. rewrite Hprobe.
  set (fallback := "https://api.mainnet-beta.solana.com") in *.
  unfold bind at 1. unfold request at 1. cbn [rpcLog clock].
  destruct (getSignaturesForAddress fallback (rpcLog n ++ [GetBalance queried]) queried 50)
    as [err|signatures].
  { eexists. eexists. split; [reflexivity|].
    split; [now intros err' [= <-] | discriminate]. }
  unfold bind at 1.
  destruct (estimateTotal queried fallback signatures _) as [[err|total] n3].
  { eexists. eexists. split; [reflexivity|]. split; [discriminate | discriminate]. }
  unfold ret at 1.
  destruct (List.length signatures =? 0)%nat.
  { eexists. eexists. split; [reflexivity|]. split; [discriminate | discriminate]. }
  destruct (legacy_runBatches_result queried fallback signatures n3) as [_ Hst].
  cbv zeta in Hst.
  destruct (runBatches queried fallback signatures (initialDebug fallback) n3)
    as [[err|st] n4].
  { eexists. eexists. split; [reflexivity|]. split; [discriminate | discriminate]. }
  destruct (Hst st eq_refl) as (_ & Hu & He & Hp & Hf).
  eexists. eexists. split; [reflexivity|]. split; [discriminate|].
  intros d [= <-]. cbn [rpcUsed processedTxs errors].
  destruct (legacy_cap fallback signatures) as [Hcz Hcn].
  change (JsString.includes "helius" fallback) with false in Hcz, Hcn, Hf.
  cbv beta iota in Hcz, Hcn.
  split; [exact Hu|]. split; [lia|].
  intros Hfit. specialize (Hf (or_intror Hfit)). lia.
Qed.

(** X27.  Every answer of the revision without a cache names the queried
    address and says [isValid] exactly when the address is a public key.
    It carries either an error or the related accounts, never both and
    never neither; an answer with an error has no totals and no debug
    record, and only an answer without one can have them. *)
Theorem legacy_answer_has_error_or_accounts (queried : string) (n : Net) :
  exists r n',
    analyzeAddress queried n = (inr r, n') /\
    address r = queried /\
    isValid r = isValidPublicKey queried /\
    (error r = None <-> relatedAccounts r <> None) /\
    (error r <> None ->
     totalTransactions r = None /\ sampledTransactions r = None /\ debug r = None) /\
    (error r = None ->
     totalTransactions r <> None /\ sampledTransactions r <> None).
Proof.
  rewrite legacy_analyzeAddress_run.
  destruct (isValidPublicKey queried).
  2:{ eexists. eexists. split; [reflexivity|]. cbn.
      split; [reflexivity|]. split; [reflexivity|].
      split; [split; [discriminate | congruence]|].
      split; [auto | discriminate]. }
  assert (Hfailed : forall (e : Thrown) (n1 : Net),
            exists r n',
              (inr (errorResult queried e), n1)
              = (@inr Thrown SolanaAnalysisResponse r, n') /\
              address r = queried /\ isValid r = true /\
              (error r = None <-> relatedAccounts r <> None) /\
              (error r <> None ->
               totalTransactions r = None /\ sampledTransactions r = None
               /\ debug r = None) /\
              (error r = None ->
               totalTransactions r <> None /\ sampledTransactions r <> None)).
  { intros e n1. eexists. eexists. split; [reflexivity|]. cbn.
    split; [reflexivity|]. split; [reflexivity|].
    split; [split; [discriminate | congruence]|].
    split; [auto | discriminate]. }
  rewrite legacy_analyzeValid_run.
  destruct (prelude queried configuredRpcUrl n) as [[e|[[rpcUrl signatures] total]] n3];
    [apply Hfailed|].
  destruct (List.length signatures =? 0)%nat.
  { eexists. eexists. split; [reflexivity|]. cbn.
    split; [reflexivity|]. split; [reflexivity|].
    split; [split; [discriminate | reflexivity]|].
    split; [congruence | split; discriminate]. }
  destruct (runBatches queried rpcUrl signatures (initialDebug rpcUrl) n3)
    as [[e|st] n4]; [apply Hfailed|].
  eexists. eexists. split; [reflexivity|]. cbn.
  split; [reflexivity|]. split; [reflexivity|].
  split; [split; [discriminate | reflexivity]|].
  split; [congruence | split; discriminate].
Qed.

End LegacyAnswers.
(** * The native-unit pass *)

Section PassFacts.
Import Web3 Eff JsNumber.

Lemma indexed_from_snoc {A} (l : list A) (x : A) : forall s,
  combine (seq s (List.length (l ++ [x]))) (l ++ [x])
  = (combine (seq s (List.length l)) l ++ [((s + List.length l)%nat, x)])%list.
Proof.
  induction l as [|a l IH]; intros s; cbn [List.length app seq combine].
  - now rewrite Nat.add_0_r.
  - rewrite IH. cbn [app]. now rewrite Nat.add_succ_r.
Qed.

Lemma indexed_snoc {A} (l : list A) (x : A) :
  indexed (l ++ [x]) = (indexed l ++ [(List.length l, x)])%list.
Proof. unfold indexed. now rewrite indexed_from_snoc. Qed.

Lemma firstn_snoc {A} (l : list A) : forall k x,
  nth_error l k = Some x ->
  firstn (S k) l = (firstn k l ++ [x])%list /\ List.length (firstn k l) = k.
Proof.
  induction l as [|a l IH]; intros [|k] x; cbn [nth_error]; try discriminate.
  - intros [= ->]. now split.
  - intros H. destruct (IH k x H) as [Hcut Hlen].
    rewrite (firstn_cons (S k)), Hcut, (firstn_cons k). cbn [app List.length].
    now rewrite Hlen.
Qed.

Lemma each_app {St A} (xs ys : list A) (body : A -> M St unit) (s : St) :
  each (xs ++ ys) body s
  = match each xs body s with
    | (inl e, s') => (inl e, s')
    | (inr _, s') => each ys body s'
    end.
Proof.
  unfold each. revert s. induction xs as [|x xs IH]; intros s; cbn [app forEach].
  - reflexivity.
  - unfold bind. destruct (body x s) as [[e|[]] s']; [reflexivity | apply IH].
Qed.

Lemma each_one {St A} (x : A) (body : A -> M St unit) (s : St) :
  each [x] body s = body x s.
Proof.
  unfold each. cbn [forEach]. unfold bind, ret.
  now destruct (body x s) as [[e|[]] s'].
Qed.

End PassFacts.

Section AggregationFacts.
Import Web3 Eff JsNumber Spec LegacyRun.
Context `{RT : Runtime}.

(** The pass of the caching revision over the first [k + 1] participants
    is the pass over the first [k], followed by the step for the
    participant at position [k] with the balances of that position. *)
Lemma route_nativePass_step (queried : string) (m : TransactionMeta)
    (keys : list string) (agg : Route.Aggregates) (k : nat) (acct : string) :
  nth_error keys k = Some acct ->
  Route.nativePass queried m (firstn (S k) keys) agg
  = Route.trackAccount queried m (Route.nativePass queried m (firstn k keys) agg) k acct.
Proof.
  intros Hk. destruct (firstn_snoc keys k acct Hk) as [-> Hlen].
  unfold Route.nativePass. rewrite indexed_from_snoc, fold_left_app, Hlen.
  reflexivity.
Qed.

(** The same for the revision without a cache, when the pass over the
    first [k] participants went through. *)
Lemma legacy_nativePass_step (queried : string) (sig : ConfirmedSignatureInfo)
    (t : ParsedTransaction) (m : TransactionMeta) (pre post : list float)
    (keys : list string) (st st_k : Legacy.Analysis) (k : nat) (acct : string) :
  preBalances m = Some pre -> postBalances m = Some post ->
  accountKeys t = Some keys ->
  nth_error keys k = Some acct ->
  Legacy.nativePass queried sig (upTo k t) m st = (inr tt, st_k) ->
  Legacy.nativePass queried sig (upTo (S k) t) m st
  = Legacy.trackAccount queried sig pre post k acct st_k.
Proof.
  intros Hpre Hpost Hkeys Hk. unfold Legacy.nativePass, upTo.
  cbn [accountKeys]. rewrite Hpre, Hpost, Hkeys. cbn [option_map].
  destruct (firstn_snoc keys k acct Hk) as [-> Hlen].
  rewrite indexed_snoc, each_app, Hlen. intros ->.
  now rewrite each_one.
Qed.


(** C2 (amended).  The native pass takes the participants of a record in
    order and pairs the participant at position [k] with the balances at
    position [k]; [d] is the difference of these balances.  In the
    revision without a cache a skipped participant and a participant
    with [d] zero leave every record as it was; otherwise one is added to
    the participant's transaction count and [abs d] to its flow, no other
    record is touched, and the pass goes on, unless the block time of the
    record's signature is not a valid date: then the pass throws at that
    position, before a record is made for a new participant and after the
    count and the flow of a known one were updated.  In the caching
    revision one is added to the interaction count of every participant
    that is not skipped, whatever [d] is, and [abs d / 1e9] is added to
    its volume exactly when both balance lists reach the position and [d]
    is neither zero nor [NaN]; a skipped participant changes nothing.  In
    both revisions the pass over no participant changes nothing and the
    pass over all participants is the pass over the first [k] for [k] the
    number of participants; in the revision without a cache a pass that
    has thrown within the first [k] participants goes no further. *)
Theorem native_pass_per_participant (queried : string) :
  (forall (sig : ConfirmedSignatureInfo) (t : ParsedTransaction) (m : TransactionMeta)
          (pre post : list float) (keys : list string)
          (st st_k : Legacy.Analysis) (k : nat) (acct : string),
     preBalances m = Some pre -> postBalances m = Some post ->
     accountKeys t = Some keys -> nth_error keys k = Some acct ->
     Legacy.nativePass queried sig (upTo k t) m st = (inr tt, st_k) ->
     let d := (Legacy.balanceAt k post - Legacy.balanceAt k pre)%float in
     let out := Legacy.nativePass queried sig (upTo (S k) t) m st in
     let before := Legacy.relatedAccountsMap st_k in
     let after := Legacy.relatedAccountsMap (snd out) in
     (forall other, other <> acct -> JsMap.get other after = JsMap.get other before) /\
     (Legacy.isSkipped queried acct = true -> fst out = inr tt /\ after = before) /\
     (Legacy.isSkipped queried acct = false ->
        ((d =? 0)%float = true -> out = (inr tt, st_k)) /\
        ((d =? 0)%float = false ->
           match stampOf sig with
           | inr time =>
               let prev := recordOf acct time before in
               fst out = inr tt /\
               exists r',
                 JsMap.get acct after = Some r' /\
                 Legacy.transactionCount r' = (Legacy.transactionCount prev + 1)%Z /\
                 Legacy.totalSolFlowLamports r'
                 = Some (Legacy.optOrZero (Legacy.totalSolFlowLamports prev) + abs d)%float
           | inl e =>
               fst out = inl e /\
               JsMap.get acct after
               = option_map (Legacy.addSolFlow d) (JsMap.get acct before)
           end))) /\
  (forall (sig : ConfirmedSignatureInfo) (t : ParsedTransaction) (m : TransactionMeta)
          (st : Legacy.Analysis),
     Legacy.nativePass queried sig (upTo 0 t) m st = (inr tt, st) /\
     (forall k e st_k,
        Legacy.nativePass queried sig (upTo k t) m st = (inl e, st_k) ->
        Legacy.nativePass queried sig (upTo (S k) t) m st = (inl e, st_k)) /\
     (forall keys,
        accountKeys t = Some keys ->
        Legacy.nativePass queried sig (upTo (List.length keys) t) m st
        = Legacy.nativePass queried sig t m st)) /\
  (forall (m : TransactionMeta) (keys : list string) (agg : Route.Aggregates)
          (k : nat) (acct : string),
     nth_error keys k = Some acct ->
     let before := Route.nativePass queried m (firstn k keys) agg in
     let after := Route.nativePass queried m (firstn (S k) keys) agg in
     (Route.isSkipped queried acct = true -> after = before) /\
     (Route.isSkipped queried acct = false ->
        Route.accountInteractions after
        = JsMap.set acct (countOrZero acct (Route.accountInteractions before) + 1)%Z
            (Route.accountInteractions before) /\
        countOrZero acct (Route.accountInteractions after)
        = (countOrZero acct (Route.accountInteractions before) + 1)%Z /\
        Route.accountVolumes after
        = match nativeDelta m k with
          | Some d =>
              if nonZero d
              then JsMap.set acct
                     (getOrZero acct (Route.accountVolumes before) + abs d / 1e9)%float
                     (Route.accountVolumes before)
              else Route.accountVolumes before
          | None => Route.accountVolumes before
          end)) /\
  (forall (m : TransactionMeta) (keys : list string) (agg : Route.Aggregates),
     Route.nativePass queried m (firstn 0 keys) agg = agg /\
     Route.nativePass queried m (firstn (List.length keys) keys) agg
     = Route.nativePass queried m keys agg).
Proof.
  split; [|split; [|split]].
  - intros sig t m pre post keys st st_k k acct Hpre Hpost Hkeys Hk Hbefore
      d out before after.
    subst out after.
    rewrite (legacy_nativePass_step queried sig t m pre post keys st st_k k acct
               Hpre Hpost Hkeys Hk Hbefore).
    destruct (Legacy.isSkipped queried acct) eqn:Hskip.
    + unfold Legacy.trackAccount. rewrite Hskip. unfold modify. cbn [fst snd].
      split; [reflexivity|]. split; [now split | discriminate].
    + destruct ((d =? 0)%float) eqn:Hd.
      * assert (Hsame : Legacy.trackAccount queried sig pre post k acct st_k
                        = (inr tt, st_k)).
        { unfold Legacy.trackAccount. rewrite Hskip. fold d. unfold strictNe.
          now rewrite Hd. }
        rewrite Hsame. cbn [fst snd].
        split; [reflexivity|]. split; [discriminate|].
        intros _. split; [reflexivity | discriminate].
      * destruct (legacy_trackAccount_run queried sig pre post k acct st_k Hskip Hd)
          as (res & st' & -> & _ & Hres).
        cbn [fst snd]. fold d before in Hres.
        destruct (stampOf sig) as [e|time].
        -- destruct Hres as [-> Hmap].
           destruct (JsMap.get acct before) as [r|] eqn:G.
           ++ destruct Hmap as (Hget & Hother & _).
              split; [exact Hother|]. split; [discriminate|].
              intros _. split; [discriminate|]. intros _. now split.
           ++ rewrite Hmap. split; [reflexivity|]. split; [discriminate|].
              intros _. split; [discriminate|]. intros _. fold before.
              rewrite G. now split.
        -- destruct Hres as [-> (Hget & Hother & _)].
           split; [exact Hother|]. split; [discriminate|].
           intros _. split; [discriminate|]. intros _. cbv zeta.
           split; [reflexivity|]. eexists. split; [exact Hget|].
           unfold solChange.
           destruct (stamped_members sig time
                       (Legacy.addSolFlow d (recordOf acct time before)))
             as (_ & Sc & _ & Sf & _).
           cbn [Legacy.pushType Legacy.transactionCount Legacy.totalSolFlowLamports].
           rewrite Sc, Sf. now split.
  - intros sig t m st. split; [|split].
    + unfold Legacy.nativePass, upTo. cbn [accountKeys].
      destruct (preBalances m), (postBalances m), (accountKeys t); reflexivity.
    + intros k e st_k. unfold Legacy.nativePass, upTo. cbn [accountKeys].
      destruct (preBalances m) as [pre|], (postBalances m) as [post|],
        (accountKeys t) as [keys|]; cbn [option_map]; try discriminate.
      destruct (nth_error keys k) as [acct|] eqn:Hk.
      * destruct (firstn_snoc keys k acct Hk) as [-> _].
        rewrite indexed_snoc, each_app. now intros ->.
      * apply nth_error_None in Hk.
        rewrite !firstn_all2 by lia. trivial.
    + intros keys Hkeys. unfold Legacy.nativePass, upTo.
      cbn [accountKeys]. rewrite Hkeys. cbn [option_map]. now rewrite firstn_all.
  - intros m keys agg k acct Hk before after. subst after.
    rewrite (route_nativePass_step queried m keys agg k acct Hk). fold before.
    split.
    + intros Hskip. unfold Route.trackAccount. now rewrite Hskip.
    + intros Hskip. unfold Route.trackAccount, nativeDelta, nonZero. rewrite Hskip.
      assert (Hcount : forall a,
                Route.accountInteractions a
                = JsMap.set acct (countOrZero acct (Route.accountInteractions before) + 1)%Z
                    (Route.accountInteractions before) ->
                countOrZero acct (Route.accountInteractions a)
                = (countOrZero acct (Route.accountInteractions before) + 1)%Z).
      { intros a ->. unfold countOrZero at 1. now rewrite JsMap_get_set_same. }
      destruct (preBalances m) as [pre|], (postBalances m) as [post|];
        try (split; [reflexivity | split; [now apply Hcount | reflexivity]]).
      destruct (_ && _);
        try (split; [reflexivity | split; [now apply Hcount | reflexivity]]).
      rewrite abs_positive.
      destruct (negb _ && negb _);
        split; try reflexivity; split; try reflexivity; now apply Hcount.
  - intros m keys agg. split; [reflexivity | now rewrite firstn_all].
Qed.

End AggregationFacts.

Section AggregationExamples.
Import Web3 Eff JsNumber Sample.

(** C2 as stated fails on both revisions.  In the caching revision the
    pass over a record whose balance at position 1 did not change counts
    the participant at that position.  In the revision without a cache
    the pass over a transfer whose signature has a block time out of the
    range of a [Date] throws at the position of the counterparty, whose
    balance changed, and records nothing for it. *)
Lemma native_pass_counterexample :
  (let keys := [queriedWallet; counterparty] in
   let agg' := Route.nativePass queriedWallet idleMeta keys Route.noAggregates in
   nth_error keys 1 = Some counterparty /\
   Route.isSkipped queriedWallet counterparty = false /\
   (nth 1 [4999995000; 7000000000] 0 - nth 1 [5000000000; 7000000000] 0 =? 0)%float = true /\
   countOrZero counterparty (Route.accountInteractions Route.noAggregates) = 0%Z /\
   countOrZero counterparty (Route.accountInteractions agg') = 1%Z /\
   agg' <> Route.noAggregates) /\
  (let st := {| Legacy.relatedAccountsMap := JsMap.empty;
                Legacy.debugInfo := LegacyRun.initialDebug "" |} in
   let out := Legacy.nativePass queriedWallet lateSignature transfer
                {| preBalances := Some [5000000000; 1000000000; 1]%float;
                   postBalances := Some [3000000000; 3000000000; 1]%float;
                   preTokenBalances := Some []; postTokenBalances := Some [] |} st in
   Legacy.isSkipped queriedWallet counterparty = false /\
   (Legacy.balanceAt 1 [3000000000; 3000000000; 1]
    - Legacy.balanceAt 1 [5000000000; 1000000000; 1] =? 0)%float = false /\
   fst out = inl (ErrorObject "Invalid time value") /\
   JsMap.get counterparty (Legacy.relatedAccountsMap (snd out)) = None).
Proof.
  cbv zeta. split.
  - repeat split; try reflexivity. vm_compute. discriminate.
  - repeat split; vm_compute; reflexivity.
Defined.

End AggregationExamples.

Section NativePassExamples.
Import Web3 Eff JsNumber Sample Spec LegacyRun.

(** C2 on two records.  In the revision without a cache the pass over
    the sample transfer, whose first participant is the queried wallet,
    reaches the counterparty at position 1 with the balances of position
    1, which differ by 2 SOL: its record is made with one transaction and
    a flow of 2000000000 lamports.  In the caching revision the pass over
    the record whose balance at position 1 did not change counts the
    counterparty once and leaves the volumes as they were. *)
Lemma native_pass_per_participant_witness :
  let sig := {| signature := "sig1"; blockTime := Some 1700000000%float |} in
  let m := {| preBalances := Some [5000000000; 1000000000; 1]%float;
              postBalances := Some [3000000000; 3000000000; 1]%float;
              preTokenBalances := Some []; postTokenBalances := Some [] |} in
  let st := {| Legacy.relatedAccountsMap := JsMap.empty;
               Legacy.debugInfo := initialDebug "" |} in
  let st1 := Legacy.updDebug Legacy.countFiltered st in
  let out := Legacy.nativePass queriedWallet sig (upTo 2 transfer) m st in
  nth_error [queriedWallet; counterparty; systemProgram] 1 = Some counterparty /\
  Legacy.nativePass queriedWallet sig (upTo 1 transfer) m st = (inr tt, st1) /\
  stampOf sig = inr "1700000000000" /\
  fst out = inr tt /\
  (exists r',
     JsMap.get counterparty (Legacy.relatedAccountsMap (snd out)) = Some r' /\
     Legacy.transactionCount r' = 1%Z /\
     Legacy.totalSolFlowLamports r' = Some 2000000000%float) /\
  (let agg := Route.nativePass queriedWallet idleMeta
                (firstn 1 [queriedWallet; counterparty]) Route.noAggregates in
   let agg' := Route.nativePass queriedWallet idleMeta
                 (firstn 2 [queriedWallet; counterparty]) Route.noAggregates in
   nativeDelta idleMeta 1 = Some 0%float /\
   countOrZero counterparty (Route.accountInteractions agg') = 1%Z /\
   Route.accountVolumes agg' = Route.accountVolumes agg).
Proof.
  cbv zeta.
  set (sig := {| signature := "sig1"; blockTime := Some 1700000000%float |}).
  set (m := {| preBalances := Some [5000000000; 1000000000; 1]%float;
               postBalances := Some [3000000000; 3000000000; 1]%float;
               preTokenBalances := Some []; postTokenBalances := Some [] |}).
  set (st := {| Legacy.relatedAccountsMap := JsMap.empty;
                Legacy.debugInfo := initialDebug "" |}).
  assert (Hrun : Legacy.nativePass queriedWallet sig (upTo 1 transfer) m st
                 = (inr tt, Legacy.updDebug Legacy.countFiltered st))
    by (vm_compute; reflexivity).
  assert (Hstamp : stampOf sig = inr "1700000000000") by (vm_compute; reflexivity).
  destruct (native_pass_per_participant queriedWallet) as (Hlegacy & _ & Hroute & _).
  split; [reflexivity|]. split; [exact Hrun|]. split; [exact Hstamp|].
  specialize (Hlegacy sig transfer m _ _ _ st _ 1%nat counterparty
                eq_refl eq_refl eq_refl eq_refl Hrun).
  cbv zeta in Hlegacy. destruct Hlegacy as (_ & _ & Hcounted).
  destruct (Hcounted ltac:(vm_compute; reflexivity)) as [_ Hchanged].
  specialize (Hchanged ltac:(vm_compute; reflexivity)).
  rewrite Hstamp in Hchanged. destruct Hchanged as (Hret & r' & Hget & Hcount & Hflow).
  split; [exact Hret|]. split.
  - exists r'. split; [exact Hget|]. split.
    + rewrite Hcount. vm_compute. reflexivity.
    + rewrite Hflow. vm_compute. reflexivity.
  - specialize (Hroute idleMeta [queriedWallet; counterparty] Route.noAggregates
                  1%nat counterparty eq_refl).
    cbv zeta in Hroute. destruct Hroute as [_ Hnot].
    destruct (Hnot ltac:(vm_compute; reflexivity)) as (_ & Hone & Hvol).
    split; [vm_compute; reflexivity|]. split.
    + rewrite Hone. vm_compute. reflexivity.
    + rewrite Hvol. vm_compute. reflexivity.
Defined.
End NativePassExamples.


(** * The ranking of the related accounts *)

Section RankingClaim.
Import Web3 Eff JsNumber Spec LegacyRun.
Context `{RT : Runtime} `{LG : Ledger}.



End RankingClaim.

Section RankingExamples.
Import Web3 Eff Sample.


End RankingExamples.

Section RankingRuns.
Import Web3 Eff JsNumber Sample Spec LegacyRun.

End RankingRuns.

(** * The properties above on the sample inputs *)

Section CacheWitnesses.
Import Route Sample.

Lemma staleCache_wf : JsMap.wf staleCache.
Proof. repeat constructor; simpl; intuition discriminate. Qed.

(** At time 300001 the one entry of [staleCache] is expired: the cleanup
    pass leaves the empty store, and a second pass changes nothing. *)
Lemma cleanupCache_postcondition_witness :
  JsMap.wf staleCache /\
  (JsMap.size (cleanupCache 300001 staleCache) <= MAX_CACHE_SIZE)%nat /\
  (forall k e, JsMap.get k (cleanupCache 300001 staleCache) = Some e ->
     JsMap.get k staleCache = Some e /\ isExpired 300001 e = false) /\
  cleanupCache 300001 (cleanupCache 300001 staleCache)
  = cleanupCache 300001 staleCache.
Proof.
  split; [exact staleCache_wf|].
  pose proof (cleanupCache_postcondition 300001 staleCache staleCache_wf) as H.
  cbv zeta in H. destruct H as (_ & Hsize & Hkept & Hagain).
  split; [exact Hsize|]. split; [exact Hkept | exact Hagain].
Defined.

Lemma NoDup_map_left_inverse {A B} (f : A -> B) (g : B -> A) (l : list A) :
  (forall x, In x l -> g (f x) = x) -> NoDup l -> NoDup (map f l).
Proof.
  intros Hinv Hnd. induction Hnd as [|a l Ha Hnd IH]; cbn [map]; constructor.
  - intros Hin. apply in_map_iff in Hin. destruct Hin as (x & Hfx & Hx).
    assert (x = a).
    { rewrite <- (Hinv x) by now right. rewrite Hfx. apply Hinv. now left. }
    now subst x.
  - apply IH. intros x Hx. apply Hinv. now right.
Qed.

Lemma overfull_wf : JsMap.wf overfull.
Proof.
  unfold JsMap.wf, JsMap.keys, overfull. rewrite map_map.
  apply NoDup_map_left_inverse with (g := walletIndex); [|apply seq_NoDup].
  assert (Hall : forallb (fun i => (walletIndex (fst (overfullEntry i)) =? i)%nat)
                   (seq 1 1001) = true) by (vm_compute; reflexivity).
  intros i Hi. rewrite forallb_forall in Hall. now apply Nat.eqb_eq, Hall.
Qed.

(** The store [overfull] holds 1001 entries, none of them expired at time
    2000.  The cleanup pass removes the entry of [wallet 500], written at
    time 0, and keeps the entry of [wallet 1], written at time 1. *)
Lemma cleanupCache_evicts_oldest_witness :
  JsMap.wf overfull /\
  JsMap.get (getCacheKey (wallet 500)) overfull = Some (snd (overfullEntry 500)) /\
  isExpired 2000 (snd (overfullEntry 500)) = false /\
  JsMap.get (getCacheKey (wallet 500)) (cleanupCache 2000 overfull) = None /\
  JsMap.get (getCacheKey (wallet 1)) (cleanupCache 2000 overfull)
  = Some (snd (overfullEntry 1)) /\
  (timestamp (snd (overfullEntry 500)) <= timestamp (snd (overfullEntry 1)))%Z.
Proof.
  assert (H1 : JsMap.get (getCacheKey (wallet 500)) overfull
               = Some (snd (overfullEntry 500))) by (vm_compute; reflexivity).
  assert (H2 : isExpired 2000 (snd (overfullEntry 500)) = false)
    by (vm_compute; reflexivity).
  assert (H3 : JsMap.get (getCacheKey (wallet 500)) (cleanupCache 2000 overfull) = None)
    by (vm_compute; reflexivity).
  assert (H4 : JsMap.get (getCacheKey (wallet 1)) (cleanupCache 2000 overfull)
               = Some (snd (overfullEntry 1))) by (vm_compute; reflexivity).
  split; [exact overfull_wf|]. split; [exact H1|]. split; [exact H2|].
  split; [exact H3|]. split; [exact H4|].
  exact (cleanupCache_evicts_oldest 2000 overfull _ _ _ _ overfull_wf H1 H2 H3 H4).
Defined.

(** A write for [queriedWallet] at time 1000 leaves the entry of
    [idleWallet], written at time 0, as it is. *)
Lemma write_keeps_live_entries_witness :
  JsMap.wf staleCache /\
  (JsMap.size staleCache <= MAX_CACHE_SIZE)%nat /\
  getCacheKey idleWallet <> getCacheKey queriedWallet /\
  JsMap.get (getCacheKey idleWallet)
    (setCachedAnalysis 1000 queriedWallet (response queriedWallet) staleCache)
  = Some {| data := response idleWallet; timestamp := 0; ttl := CACHE_TTL |}.
Proof.
  assert (Hsize : (JsMap.size staleCache <= MAX_CACHE_SIZE)%nat)
    by (vm_compute; repeat constructor).
  assert (Hne : getCacheKey idleWallet <> getCacheKey queriedWallet) by discriminate.
  split; [exact staleCache_wf|]. split; [exact Hsize|]. split; [exact Hne|].
  exact (write_keeps_live_entries 1000 queriedWallet (response queriedWallet) staleCache
           (getCacheKey idleWallet) _ staleCache_wf Hsize eq_refl Hne).
Defined.

(** A write into the store of 1001 entries leaves 1001 entries. *)
Lemma setCachedAnalysis_size_bound_witness :
  JsMap.wf overfull /\
  (JsMap.size (setCachedAnalysis 2000 queriedWallet (response queriedWallet) overfull)
   <= 1001)%nat.
Proof.
  split; [exact overfull_wf|].
  exact (proj1 (setCachedAnalysis_size_bound 2000 queriedWallet (response queriedWallet)
                  overfull overfull_wf)).
Defined.

End CacheWitnesses.

Section RunWitnesses.
Import Web3 Eff JsNumber Route Spec Run Sample.

Lemma startWorld_coherent : coherent (analysisCache startWorld).
Proof. intros k e []. Qed.

Lemma staleWorld_coherent : coherent (analysisCache staleWorld).
Proof.
  intros k e [H|[]]. injection H as <- <-.
  split; [reflexivity|]. split; [reflexivity|]. split; [constructor | intros []].
Qed.

(** On the sample ledger the run for [queriedWallet] ends with one
    account in each map, the counterparty of the one transfer. *)
Lemma run_aggregates_are_consistent_witness :
  exists agg n',
    runBatches queriedWallet configuredRpcUrl
      [ {| signature := "sig1"; blockTime := Some 1700000000%float |} ] startNet
    = (inr agg, n') /\
    allAccounts agg = JsMap.keys (accountInteractions agg) /\
    allAccounts agg = [counterparty] /\
    ~ In queriedWallet (allAccounts agg).
Proof.
  destruct (runBatches queriedWallet configuredRpcUrl
              [ {| signature := "sig1"; blockTime := Some 1700000000%float |} ] startNet)
    as [[e|agg] n'] eqn:Hrun; [vm_compute in Hrun; discriminate|].
  exists agg, n'. split; [reflexivity|].
  destruct (@run_aggregates_are_consistent runtime ledger _ _ _ _ _ _ Hrun)
    as (Hall & _ & Hself & _).
  split; [exact Hall|]. split; [|exact Hself].
  vm_compute in Hrun. injection Hrun as <- _. reflexivity.
Defined.

(** A transaction that leaves the balance of [counterparty] as it was:
    the account is listed with "0 SOL". *)
Lemma silent_participants_are_listed_with_zero_witness :
  let agg := nativePass queriedWallet idleMeta [queriedWallet; counterparty]
               noAggregates in
  In counterparty (allAccounts agg) /\
  JsMap.get counterparty (accountVolumes agg) = None /\
  In {| ra_address := counterparty; totalSolVolume := "0 SOL" |} (rankAccounts agg).
Proof.
  intros agg.
  assert (Hin : In counterparty (allAccounts agg)) by (vm_compute; auto).
  assert (Hnone : JsMap.get counterparty (accountVolumes agg) = None)
    by (vm_compute; reflexivity).
  split; [exact Hin|]. split; [exact Hnone|].
  exact (@silent_participants_are_listed_with_zero runtime agg counterparty Hin Hnone).
Defined.

(** On the sample ledger the listing of [queriedWallet] has one
    signature: the run asks for its transaction in one batch request. *)
Lemma run_requests_the_sampled_signatures_witness :
  isValidPublicKey queriedWallet = true /\
  cacheMiss queriedWallet startWorld /\
  newConnection configuredRpcUrl = None /\
  exists calls,
    rpcLog (net (snd (analyzeAddress queriedWallet startWorld)))
    = (rpcLog (net startWorld) ++ GetSignaturesForAddress queriedWallet 50 :: calls)%list /\
    flat_map requestedSignatures calls = ["sig1"] /\
    (List.length calls <= 5)%nat.
Proof.
  split; [reflexivity|]. split; [reflexivity|]. split; [reflexivity|].
  exact (@run_requests_the_sampled_signatures runtime ledger queriedWallet startWorld
           [ {| signature := "sig1"; blockTime := Some 1700000000%float |} ]
           eq_refl eq_refl eq_refl eq_refl).
Defined.

(** The empty cache is coherent, and so is the cache after the query for
    [queriedWallet]. *)
Lemma analyzeAddress_keeps_cache_coherent_witness :
  coherent (analysisCache startWorld) /\
  coherent (analysisCache (snd (analyzeAddress queriedWallet startWorld))).
Proof.
  split; [exact startWorld_coherent|].
  exact (@analyzeAddress_keeps_cache_coherent runtime ledger queriedWallet startWorld
           startWorld_coherent).
Defined.

(** The answer for [notAnAddress] names it and says that it is not valid. *)
Lemma analyzeAddress_answers_the_query_witness :
  coherent (analysisCache staleWorld) /\
  exists r w',
    analyzeAddress notAnAddress staleWorld = (inr r, w') /\
    address r = notAnAddress /\
    isValid r = false.
Proof.
  split; [exact staleWorld_coherent|].
  exact (@analyzeAddress_answers_the_query runtime ledger notAnAddress staleWorld
           staleWorld_coherent).
Defined.

(** The answer for [queriedWallet] lists the counterparty of its transfer
    and not the wallet itself. *)
Lemma related_accounts_are_distinct_counterparties_witness :
  exists r w',
    coherent (analysisCache startWorld) /\
    analyzeAddress queriedWallet startWorld = (inr r, w') /\
    map ra_address (relatedAccounts r) = [counterparty] /\
    NoDup (map ra_address (relatedAccounts r)) /\
    ~ In queriedWallet (map ra_address (relatedAccounts r)).
Proof.
  destruct (analyzeAddress queriedWallet startWorld) as [[e|r] w'] eqn:Hrun;
    [vm_compute in Hrun; discriminate|].
  exists r, w'. split; [exact startWorld_coherent|]. split; [reflexivity|].
  split; [vm_compute in Hrun; injection Hrun as <- _; reflexivity|].
  exact (@related_accounts_are_distinct_counterparties runtime ledger queriedWallet
           startWorld r w' startWorld_coherent Hrun).
Defined.

(** On a ledger to which no connection can be made the query for
    [queriedWallet] fails at time 1000.  A query one minute later is
    answered from the cache; a query ten minutes later fails again, and
    sends no request either. *)
Lemma failed_query_is_not_retried_for_a_minute_witness :
  @isValidPublicKey offlineLedger queriedWallet = true /\
  cacheMiss queriedWallet startWorld /\
  exists w3,
    @analyzeAddress runtime offlineLedger queriedWallet startWorld
    = (inr (errorResult queriedWallet
              (ErrorObject "Endpoint URL must start with http")), w3) /\
    (let soon := {| analysisCache := analysisCache w3;
                    net := {| clock := 61000; rpcLog := [] |} |} in
     @analyzeAddress runtime offlineLedger queriedWallet soon
     = (inr (errorResult queriedWallet
               (ErrorObject "Endpoint URL must start with http")), soon)) /\
    (let later := {| analysisCache := analysisCache w3;
                     net := {| clock := 601000; rpcLog := [] |} |} in
     exists w4,
       @analyzeAddress runtime offlineLedger queriedWallet later
       = (inr (errorResult queriedWallet
                 (ErrorObject "Endpoint URL must start with http")), w4) /\
       rpcLog (net w4) = []).
Proof.
  split; [reflexivity|]. split; [reflexivity|].
  destruct (@failed_query_is_not_retried_for_a_minute runtime offlineLedger
              queriedWallet startWorld startWorld
              (ErrorObject "Endpoint URL must start with http")
              eq_refl eq_refl eq_refl)
    as (w3 & Hrun & Hlater).
  exists w3. split; [exact Hrun|]. split.
  - intros soon. destruct (Hlater soon eq_refl) as [Hserved _].
    apply Hserved. subst soon. cbn. lia.
  - intros later. destruct (Hlater later eq_refl) as [_ Hagain].
    destruct Hagain as (_ & _ & _ & Hfail); [subst later; cbn; lia|].
    destruct (Hfail (ErrorObject "Endpoint URL must start with http") eq_refl)
      as (w4 & Hrun4 & Hlog4 & _).
    exists w4. split; [exact Hrun4 | exact Hlog4].
Defined.

(** A request for the statistics of a cache with one entry. *)
Lemma stats_request_only_reads_the_cache_witness :
  Next.parsedUrl statsRequest
  = inr [("address", queriedWallet); ("cache", "stats")] /\
  Next.searchParamsGet "cache" [("address", queriedWallet); ("cache", "stats")]
  = Some "stats" /\
  GET statsRequest staleWorld
  = (inr {| Next.status := 200;
            Next.body := StatsBody (cacheStats 1000 staleCache) |}, staleWorld) /\
  totalEntries (cacheStats 1000 staleCache) = 1%nat /\
  map cs_address (statsEntries (cacheStats 1000 staleCache)) = [idleWallet].
Proof.
  split; [reflexivity|]. split; [reflexivity|].
  pose proof (@stats_request_only_reads_the_cache runtime ledger statsRequest
                [("address", queriedWallet); ("cache", "stats")] staleWorld
                eq_refl eq_refl) as H.
  cbv zeta in H. destruct H as (Hget & Htotal & _ & _ & _ & Hnames).
  split; [exact Hget|]. split; [exact Htotal|].
  exact (Hnames staleWorld_coherent).
Defined.

(** On a ledger that answers no request for a transaction, the query for
    [queriedWallet] returns the payload without related accounts and
    caches it. *)
Lemma unfetched_transactions_give_an_empty_success_witness :
  @isValidPublicKey throttledLedger queriedWallet = true /\
  cacheMiss queriedWallet startWorld /\
  @newConnection throttledLedger (@configuredRpcUrl throttledLedger) = None /\
  sevenSignatures <> [] /\
  exists w',
    @analyzeAddress runtime throttledLedger queriedWallet startWorld
    = (inr {| address := queriedWallet; isValid := true; relatedAccounts := [];
              error := None |}, w') /\
    JsMap.get (getCacheKey queriedWallet) (analysisCache w')
    = Some {| data := {| address := queriedWallet; isValid := true;
                         relatedAccounts := []; error := None |};
              timestamp := clock (net w'); ttl := CACHE_TTL |}.
Proof.
  assert (Hne : sevenSignatures <> []) by discriminate.
  split; [reflexivity|]. split; [reflexivity|]. split; [reflexivity|].
  split; [exact Hne|].
  apply (@unfetched_transactions_give_an_empty_success runtime throttledLedger
           queriedWallet startWorld sevenSignatures eq_refl eq_refl eq_refl eq_refl Hne).
  - intros log s. eexists. reflexivity.
  - intros log ss. eexists. reflexivity.
Defined.

(** Seven signatures make two batches: the run takes a second at least. *)
Lemma batches_are_spaced_witness :
  (forall log, (0 <= @rpcLatency throttledLedger log)%Z) /\
  batchCount (@configuredRpcUrl throttledLedger) sevenSignatures = 2%nat /\
  (clock startNet + 1000
   <= clock (snd (@runBatches runtime throttledLedger queriedWallet
                    (@configuredRpcUrl throttledLedger) sevenSignatures startNet)))%Z.
Proof.
  assert (Hlat : forall log, (0 <= @rpcLatency throttledLedger log)%Z)
    by (intros log; cbn; lia).
  split; [exact Hlat|]. split; [reflexivity|].
  exact (@batches_are_spaced runtime throttledLedger Hlat queriedWallet
           (@configuredRpcUrl throttledLedger) sevenSignatures startNet).
Defined.

End RunWitnesses.

Section TokenWitnesses.
Import Web3 Eff JsNumber Route Run Sample.

(** The key of the sample balance splits into its owner and its mint. *)
Lemma token_key_names_owner_and_mint_witness :
  owner (tokensHeld "100") = Some counterparty /\
  hasHyphen counterparty = false /\
  hasHyphen (mint (tokensHeld "100")) = false /\
  tokenMapKey (tokensHeld "100") = Some tokenKeyHeld /\
  JsString.split "-" tokenKeyHeld = [counterparty; unlistedMint].
Proof.
  split; [reflexivity|]. split; [reflexivity|]. split; [reflexivity|].
  split; [reflexivity|].
  destruct (token_key_names_owner_and_mint (tokensHeld "100") counterparty tokenKeyHeld
              eq_refl eq_refl eq_refl eq_refl) as (Hsplit & _).
  exact Hsplit.
Defined.

(** A balance of the unlisted mint that goes from 100 to 250 counts as an
    interaction of its owner and adds no volume. *)
Lemma unlisted_mint_adds_no_volume_witness :
  JsMap.get (nth 1 (JsString.split "-" tokenKeyHeld) "") TOKEN_TO_SOL_RATES = None /\
  let agg' := trackTokenKey queriedWallet
                [(tokenKeyHeld, tokensHeld "100")] [(tokenKeyHeld, tokensHeld "250")]
                noAggregates tokenKeyHeld in
  accountVolumes agg' = [] /\
  accountInteractions agg' = [(counterparty, 1%Z)].
Proof.
  assert (Hmint : JsMap.get (nth 1 (JsString.split "-" tokenKeyHeld) "")
                    TOKEN_TO_SOL_RATES = None) by (vm_compute; reflexivity).
  split; [exact Hmint|]. intros agg'.
  pose proof (@unlisted_mint_adds_no_volume runtime queriedWallet
                [(tokenKeyHeld, tokensHeld "100")] [(tokenKeyHeld, tokensHeld "250")]
                noAggregates tokenKeyHeld Hmint) as H.
  cbv zeta in H. destruct H as [Hvol Hint].
  split; [exact Hvol|]. subst agg'. rewrite Hint. vm_compute. reflexivity.
Defined.

(** A mint without decimals is converted with six. *)
Lemma zero_decimals_are_read_as_six_witness :
  decimals (uiTokenAmount (collectibleHeld "1")) = 0%float /\
  decimalsOf (Some (collectibleHeld "1")) (Some (collectibleHeld "2")) = 6%float.
Proof.
  split; [reflexivity|].
  refine (proj1 (@zero_decimals_are_read_as_six runtime
                   (Some (collectibleHeld "1")) (Some (collectibleHeld "2")) _ _));
    intros tb [= <-]; reflexivity.
Defined.

End TokenWitnesses.




Section LegacyWitnesses.
Import Web3 Eff JsNumber Legacy LegacyRun Sample.

(** On a ledger whose second signature has a block time out of the range
    of a [Date], the second batch is cut short after the count and the
    flow of the peer were updated: the answer lists the peer with two
    transactions and the counterparty with one, both well formed. *)
Lemma legacy_related_accounts_are_well_formed_witness :
  exists r n' related,
    @analyzeAddress runtime lateLedger queriedWallet startNet = (inr r, n') /\
    relatedAccounts r = Some related /\
    map ra_address related = [frequentPeer; counterparty] /\
    map transactionCount related = [2; 1]%Z /\
    map transactionTypes related = [["SOL Inflow"]; ["SOL Inflow"]] /\
    option_map errors (debug r) = Some ["Batch 1: Invalid time value"] /\
    NoDup (map ra_address related) /\
    ~ In queriedWallet (map ra_address related).
Proof.
  destruct (@analyzeAddress runtime lateLedger queriedWallet startNet)
    as [[e|r] n'] eqn:Hrun; [vm_compute in Hrun; discriminate|].
  destruct (relatedAccounts r) as [related|] eqn:Hrel;
    [|vm_compute in Hrun; injection Hrun as <- _; discriminate].
  exists r, n', related. split; [reflexivity|]. split; [exact Hrel|].
  destruct (@legacy_related_accounts_are_well_formed runtime lateLedger queriedWallet
              startNet n' r related Hrun Hrel) as (Hnd & Hself & _).
  vm_compute in Hrun. injection Hrun as <- _.
  cbn in Hrel. injection Hrel as <-.
  split; [reflexivity|]. split; [reflexivity|]. split; [reflexivity|].
  split; [reflexivity|]. split; [exact Hnd | exact Hself].
Defined.

(** On a ledger that answers one signature with two transactions, the
    run looks at both and then gives the batch up: two transactions and
    one line of error for a sample of one signature. *)
Lemma legacy_debug_counters_add_up_witness :
  exists r n' d,
    @analyzeAddress runtime chattyLedger queriedWallet startNet = (inr r, n') /\
    debug r = Some d /\
    (processedTxs d, List.length (errors d)) = (2%Z, 1%nat) /\
    (totalAccounts d, balanceChanges d, tokenChanges d) = (1, 1, 0)%Z /\
    totalAccounts d = (balanceChanges d + tokenChanges d)%Z /\
    sampledTransactions r = Some (processedTxs d) /\
    (Z.of_nat (List.length (errors d)) <= 8)%Z.
Proof.
  destruct (@analyzeAddress runtime chattyLedger queriedWallet startNet)
    as [[e|r] n'] eqn:Hrun; [vm_compute in Hrun; discriminate|].
  destruct (debug r) as [d|] eqn:Hdebug;
    [|vm_compute in Hrun; injection Hrun as <- _; discriminate].
  exists r, n', d. split; [reflexivity|]. split; [exact Hdebug|].
  destruct (@legacy_debug_counters_add_up runtime chattyLedger queriedWallet
              startNet n' r d Hrun Hdebug) as (Hsum & Hsampled & _ & Herr & _).
  vm_compute in Hrun. injection Hrun as <- _.
  cbn in Hdebug. injection Hdebug as <-.
  split; [reflexivity|]. split; [reflexivity|].
  split; [exact Hsum|]. split; [exact Hsampled | exact Herr].
Defined.

(** On a ledger whose probe fails the run for [queriedWallet] goes on
    with the second fallback endpoint, though Helius is configured. *)
Lemma legacy_probe_failure_switches_endpoint_witness :
  @isValidPublicKey flakyLedger queriedWallet = true /\
  @newConnection flakyLedger (@configuredRpcUrl flakyLedger) = None /\
  @getBalance flakyLedger (@configuredRpcUrl flakyLedger) (rpcLog startNet) queriedWallet
  = inl (ErrorObject "503 Service Unavailable") /\
  @newConnection flakyLedger "https://api.mainnet-beta.solana.com" = None /\
  exists r n' d,
    @analyzeAddress runtime flakyLedger queriedWallet startNet = (inr r, n') /\
    debug r = Some d /\
    rpcUsed d = "https://api.mainnet-beta.solana.com" /\
    (Z.of_nat (List.length (errors d)) <= 8)%Z.
Proof.
  split; [reflexivity|]. split; [reflexivity|]. split; [reflexivity|].
  split; [reflexivity|].
  destruct (@legacy_probe_failure_switches_endpoint runtime flakyLedger queriedWallet
              startNet (ErrorObject "503 Service Unavailable")
              eq_refl eq_refl eq_refl eq_refl) as (r & n' & Hrun & _ & Hdebug).
  exists r, n'.
  assert (Hd : exists d, debug r = Some d).
  { vm_compute in Hrun. injection Hrun as <- _. eexists. reflexivity. }
  destruct Hd as (d & Hd). exists d. split; [exact Hrun|]. split; [exact Hd|].
  destruct (Hdebug d Hd) as (Hu & He & _). now split.
Defined.

(** A request for transactions that fails with [null] ends the run: the
    handler of the batch throws on reading the message of [null], and the
    answer carries the message of that error. *)
Example legacy_null_failure_ends_the_run :
  match fst (@analyzeAddress runtime nullLedger queriedWallet startNet) with
  | inr r =>
      error r = Some "Failed to analyze address: Cannot read properties of null (reading 'message')"
      /\ relatedAccounts r = None
  | inl _ => False
  end.
Proof. vm_compute. split; reflexivity. Qed.

End LegacyWitnesses.
